(** * Time-window transmission scheduler of the mesh-radio firmware

    A shallow embedding of the time-window sources
    (src/mesh/TimeWindow.{h,cpp}, PacketQueue.h, PriorityPacketQueue.h,
    RadioInterface.{h,cpp}, RadioInterfaceQueue.cpp, RadioInterfaceTime.cpp,
    plugins/TimeWindowPlugin.{h,cpp}, cli/TimeWindowCLI.cpp,
    cli/command_time_window.cpp, modules/AdminModule.cpp) and the properties
    proved of it.

    Conventions.
    - A [uintN_t] value is a [Z] in [0, 2^N); every arithmetic result that the
      C++ code stores in such a variable is truncated with [u32] / [u8].
      An [int] is a [Z] truncated with [i32] (two's complement).
    - [meshtastic_MeshPacket*] is [option MeshPacket]; [None] is [nullptr].
    - Calls that reach outside the sources ([millis()], [packetPool.release],
      the radio driver) act on an explicit [World]. *)

From Stdlib Require Import ZArith List Bool Lia Permutation Arith Sorted.
From Stdlib Require String.
Import ListNotations.
Open Scope Z_scope.

(** ** Machine integers *)

Definition u32 (x : Z) : Z := x mod 2 ^ 32.
Definition u8 (x : Z) : Z := x mod 2 ^ 8.
Definition i32 (x : Z) : Z := (x + 2 ^ 31) mod 2 ^ 32 - 2 ^ 31.

Definition is_u8 (x : Z) : Prop := 0 <= x < 2 ^ 8.
Definition is_u32 (x : Z) : Prop := 0 <= x < 2 ^ 32.

(** ** Error codes, packets, configuration *)

Inductive ErrorCode : Set :=
| ERRNO_OK
| ERRNO_NO_RADIO
| ERRNO_INVALID_LENGTH
| ERRNO_INVALID_CONFIG
| ERRNO_UNKNOWN.

Definition ErrorCode_eqb (a b : ErrorCode) : bool :=
  match a, b with
  | ERRNO_OK, ERRNO_OK
  | ERRNO_NO_RADIO, ERRNO_NO_RADIO
  | ERRNO_INVALID_LENGTH, ERRNO_INVALID_LENGTH
  | ERRNO_INVALID_CONFIG, ERRNO_INVALID_CONFIG
  | ERRNO_UNKNOWN, ERRNO_UNKNOWN => true
  | _, _ => false
  end.

(** [meshtastic_MeshPacket_Priority]: the tiers of the generated protobuf
    header; the sources compare against RELIABLE and ACK only. *)
Inductive MeshPacket_Priority : Set :=
| Priority_UNSET
| Priority_MIN
| Priority_BACKGROUND
| Priority_DEFAULT
| Priority_RELIABLE
| Priority_ACK
| Priority_MAX.

Inductive PortNum : Set :=
| PortNum_POSITION_APP
| PortNum_EMERGENCY_APP
| PortNum_TIME_WINDOW_APP
| PortNum_OTHER (n : Z).

(** The [payload_variant] union of a mesh packet, tagged by
    [which_payload_variant]: only a decoded payload carries a port number. *)
Inductive PayloadVariant : Set :=
| payload_none
| payload_decoded (portnum : PortNum)
| payload_encrypted.

Record MeshPacket : Set := mkPacket {
  id : Z;
  want_ack : bool;
  priority : MeshPacket_Priority;
  payload_variant : PayloadVariant;
  payloadlen : Z
}.

Definition PacketPtr : Set := option MeshPacket.

(** [enum class TimeWindowMode] / [meshtastic_TimeWindowMode_*]; a raw value
    outside the three enumerators reaches the [default:] arm of the switches. *)
Inductive TimeWindowMode : Set :=
| DROP_PACKETS
| QUEUE_PACKETS
| RECEIVE_ONLY
| MODE_INVALID (raw : Z).

(** [struct TimeWindowConfig] (TimeWindow.h). *)
Record TimeWindowConfig : Set := mkTimeWindowConfig {
  enabled : bool;
  start_hour : Z;
  start_minute : Z;
  end_hour : Z;
  end_minute : Z;
  window_mode : TimeWindowMode;
  max_queue_size : Z;
  packet_expiry_secs : Z
}.

Definition TimeWindowConfig_default : TimeWindowConfig :=
  mkTimeWindowConfig false 21 0 23 0 RECEIVE_ONLY 32 3600.

(** The part of the global [config] the scheduler reads: [config.has_lora]
    and the time-window fields of [config.lora]. *)
Record LoRaConfig : Set := mkLoRaConfig {
  has_lora : bool;
  time_window_enabled : bool;
  window_start_hour : Z;
  window_start_minute : Z;
  window_end_hour : Z;
  window_end_minute : Z;
  lora_window_mode : TimeWindowMode;
  window_queue_size : Z;
  window_packet_expire_secs : Z
}.

(** ** The world outside the sources *)

Record World : Type := mkWorld {
  clock : nat -> Z;                 (* what the n-th call of millis() returns *)
  ticks : nat;                      (* calls of millis() made so far *)
  pool_released : list PacketPtr;   (* packetPool.release(p), latest first *)
  beginSending : MeshPacket -> Z;   (* bytes placed in the radio buffer *)
  sendTo : nat -> MeshPacket -> ErrorCode; (* outcome of the n-th hand-over to the driver *)
  handed_over : list MeshPacket;    (* packets handed to the driver, latest first *)
  attempts : list (MeshPacket * ErrorCode) (* calls of sendPacket with their result, latest first *)
}.

Definition millis (w : World) : Z * World :=
  (u32 (clock w (ticks w)),
   mkWorld (clock w) (S (ticks w)) (pool_released w) (beginSending w)
           (sendTo w) (handed_over w) (attempts w)).

Definition release (p : PacketPtr) (w : World) : World :=
  mkWorld (clock w) (ticks w) (p :: pool_released w) (beginSending w)
          (sendTo w) (handed_over w) (attempts w).

Definition hand_over (p : MeshPacket) (w : World) : ErrorCode * World :=
  (sendTo w (length (handed_over w)) p,
   mkWorld (clock w) (ticks w) (pool_released w) (beginSending w)
           (sendTo w) (p :: handed_over w) (attempts w)).

Definition record_attempt (p : MeshPacket) (r : ErrorCode) (w : World) : World :=
  mkWorld (clock w) (ticks w) (pool_released w) (beginSending w)
          (sendTo w) (handed_over w) ((p, r) :: attempts w).

(** ** TimeWindow.cpp *)

Module TimeWindow.

(** [static bool isTimeInWindow(const TimeWindowConfig&, int hour, int minute)] *)
Definition isTimeInWindow (cfg : TimeWindowConfig) (hour minute : Z) : bool :=
  let current := i32 (i32 (hour * 60) + minute) in
  let start := i32 (i32 (start_hour cfg * 60) + start_minute cfg) in
  let end_ := i32 (i32 (end_hour cfg * 60) + end_minute cfg) in
  if start <=? end_
  then (current >=? start) && (current <? end_)
  else (current >=? start) || (current <? end_).

(** [bool isTimeWindowActive(const TimeWindowConfig&)] *)
Definition isTimeWindowActive (cfg : TimeWindowConfig) (w : World) : bool * World :=
  if negb (enabled cfg) then (true, w)
  else
    let '(currentMillis, w1) := millis w in
    let currentSeconds := currentMillis / 1000 in
    let currentHour := (currentSeconds / 3600) mod 24 in
    let currentMinute := (currentSeconds / 60) mod 60 in
    (isTimeInWindow cfg currentHour currentMinute, w1).

End TimeWindow.

(** ** RadioInterfaceTime.cpp: the window check of the radio interface *)

(** [bool RadioInterface::isOperationAllowed()] *)
Definition isOperationAllowed (cfg : LoRaConfig) (w : World) : bool * World :=
  if negb (has_lora cfg) || negb (time_window_enabled cfg) then (true, w)
  else
    let '(ms, w1) := millis w in
    let now := ms / 1000 in
    let daySeconds := now mod (24 * 3600) in
    let currentHour := i32 (daySeconds / 3600) in
    let currentMinute := i32 ((daySeconds mod 3600) / 60) in
    let currentTime := i32 (i32 (currentHour * 60) + currentMinute) in
    let startTime := i32 (u32 (u32 (window_start_hour cfg * 60) + window_start_minute cfg)) in
    let endTime := i32 (u32 (u32 (window_end_hour cfg * 60) + window_end_minute cfg)) in
    let isInWindow :=
      if startTime <=? endTime
      then (currentTime >=? startTime) && (currentTime <? endTime)
      else (currentTime >=? startTime) || (currentTime <? endTime) in
    (isInWindow, w1).

(** ** Queue statistics

    [PacketQueue::QueueStats] and [PriorityPacketQueue::QueueStats] are two
    nested structs with the same five [uint32_t] fields and the same [reset];
    one record stands for both. *)

Record QueueStats : Set := mkQueueStats {
  totalQueued : Z;
  expiredPackets : Z;
  queueOverflows : Z;
  totalQueueTime : Z;
  maxQueueTime : Z
}.

(** [QueueStats::reset()]: a [memset] of the whole structure to zero. *)
Definition reset (_ : QueueStats) : QueueStats := mkQueueStats 0 0 0 0 0.

Definition count_overflow (s : QueueStats) : QueueStats :=
  mkQueueStats (totalQueued s) (expiredPackets s) (u32 (queueOverflows s + 1))
               (totalQueueTime s) (maxQueueTime s).

Definition count_queued (s : QueueStats) : QueueStats :=
  mkQueueStats (u32 (totalQueued s + 1)) (expiredPackets s) (queueOverflows s)
               (totalQueueTime s) (maxQueueTime s).

Definition count_expired (s : QueueStats) : QueueStats :=
  mkQueueStats (totalQueued s) (u32 (expiredPackets s + 1)) (queueOverflows s)
               (totalQueueTime s) (maxQueueTime s).

Definition count_queue_time (queueTime : Z) (s : QueueStats) : QueueStats :=
  mkQueueStats (totalQueued s) (expiredPackets s) (queueOverflows s)
               (u32 (totalQueueTime s + queueTime))
               (Z.max (maxQueueTime s) queueTime).

(** ** PacketQueue.h: the arrival-order queue *)

Module PacketQueue.

Record QueuedPacket : Set := mkQueuedPacket {
  packet : PacketPtr;
  enqueue_time : Z
}.

Record t : Set := mk {
  packets : list QueuedPacket;    (* std::vector<QueuedPacket>, front first *)
  stats : QueueStats;
  maxQueueSize : Z;               (* const size_t *)
  packetExpirySeconds : Z         (* const uint32_t *)
}.

(** [PacketQueue(size_t maxSize = 32, uint32_t expirySeconds = 3600)] *)
Definition create (maxSize expirySeconds : Z) : t :=
  mk [] (mkQueueStats 0 0 0 0 0) maxSize expirySeconds.

Definition size (q : t) : Z := Z.of_nat (length (packets q)).

Definition empty (q : t) : bool :=
  match packets q with [] => true | _ :: _ => false end.

Definition full (q : t) : bool := size q >=? maxQueueSize q.

Definition getAvgQueueTime (q : t) : Z :=
  if totalQueued (stats q) =? 0 then 0
  else totalQueueTime (stats q) / totalQueued (stats q).

Definition with_packets (l : list QueuedPacket) (q : t) : t :=
  mk l (stats q) (maxQueueSize q) (packetExpirySeconds q).

Definition with_stats (s : QueueStats) (q : t) : t :=
  mk (packets q) s (maxQueueSize q) (packetExpirySeconds q).

(** [bool enqueue(meshtastic_MeshPacket* packet)] *)
Definition enqueue (p : PacketPtr) (q : t) (w : World) : bool * t * World :=
  if size q >=? maxQueueSize q then
    (false, with_stats (count_overflow (stats q)) q, w)
  else
    let '(now, w1) := millis w in
    (true,
     with_stats (count_queued (stats q))
                (with_packets (packets q ++ [mkQueuedPacket p now]) q),
     w1).

(** [meshtastic_MeshPacket* dequeue()] *)
Definition dequeue (q : t) (w : World) : PacketPtr * t * World :=
  match packets q with
  | [] => (None, q, w)
  | front :: rest =>
      let '(now, w1) := millis w in
      let queueTime := u32 (now - enqueue_time front) / 1000 in
      (packet front,
       with_packets rest (with_stats (count_queue_time queueTime (stats q)) q),
       w1)
  end.

(** The test of the eviction loop:
    [(now - it->enqueue_time) >= (packetExpirySeconds * 1000)]. *)
Definition expired_at (now expirySeconds : Z) (it : QueuedPacket) : bool :=
  u32 (now - enqueue_time it) >=? u32 (expirySeconds * 1000).

(** The [while (it != packets.end())] loop of [cleanExpired]: the entries
    that stay, in their order, with the statistics and the pool. *)
Fixpoint cleanExpired_loop (now expirySeconds : Z) (l : list QueuedPacket)
         (s : QueueStats) (w : World) : list QueuedPacket * QueueStats * World :=
  match l with
  | [] => ([], s, w)
  | it :: rest =>
      if expired_at now expirySeconds it then
        cleanExpired_loop now expirySeconds rest (count_expired s)
                          (release (packet it) w)
      else
        let '(kept, s', w') := cleanExpired_loop now expirySeconds rest s w in
        (it :: kept, s', w')
  end.

(** [void cleanExpired()] *)
Definition cleanExpired (q : t) (w : World) : t * World :=
  let '(now, w1) := millis w in
  let '(kept, s', w2) :=
    cleanExpired_loop now (packetExpirySeconds q) (packets q) (stats q) w1 in
  (with_stats s' (with_packets kept q), w2).

(** [void clear()] *)
Definition clear (q : t) (w : World) : t * World :=
  (with_packets [] q,
   fold_left (fun w' item => release (packet item) w') (packets q) w).

End PacketQueue.

(** ** [std::priority_queue<T>]

    The container of the priority strategy belongs to the C++ standard
    library; it enters the model through its contract.  [pq_elems] is the
    content as a multiset (a list up to permutation); [top()] is an element
    that is not [operator<] any other; which of several such elements is on
    top is left to the implementation, and so it is here. *)

Class StdPriorityQueue (T : Type) (less : T -> T -> bool) : Type := {
  pq : Type;
  pq_new : pq;
  pq_push : T -> pq -> pq;
  pq_top : pq -> option T;
  pq_pop : pq -> pq;
  pq_elems : pq -> list T;
  pq_new_elems : pq_elems pq_new = [];
  pq_push_elems : forall x q, Permutation (pq_elems (pq_push x q)) (x :: pq_elems q);
  pq_top_none : forall q, pq_top q = None <-> pq_elems q = [];
  pq_top_max : forall q x, pq_top q = Some x ->
      In x (pq_elems q) /\ forall y, In y (pq_elems q) -> less x y = false;
  pq_pop_elems : forall q x, pq_top q = Some x ->
      Permutation (pq_elems q) (x :: pq_elems (pq_pop q))
}.

(** [size()] and [empty()] of the container. *)
Definition pq_size {T less} {PQ : @StdPriorityQueue T less} (q : pq) : nat :=
  length (pq_elems q).

Definition pq_empty {T less} {PQ : @StdPriorityQueue T less} (q : pq) : bool :=
  match pq_elems q with [] => true | _ :: _ => false end.

(** One implementation of the contract, for an order given by an integer
    key: the elements in push order, the earliest pushed of the greatest key
    on top. *)
Module ListPQ.
Section Keyed.
Variable T : Type.
Variable key : T -> Z.

Definition less (a b : T) : bool := key a <? key b.

Fixpoint top (l : list T) : option T :=
  match l with
  | [] => None
  | x :: r =>
      match top r with
      | None => Some x
      | Some m => if less x m then Some m else Some x
      end
  end.

Fixpoint pop (l : list T) : list T :=
  match l with
  | [] => []
  | x :: r =>
      match top r with
      | None => []
      | Some m => if less x m then x :: pop r else r
      end
  end.

Definition push (x : T) (l : list T) : list T := l ++ [x].

End Keyed.

Arguments less {T} key a b.
Arguments top {T} key l.
Arguments pop {T} key l.
Arguments push {T} x l.

End ListPQ.

(** ** PriorityPacketQueue.h: the priority-order queue *)

Module PriorityPacketQueue.

(** [static uint8_t calculatePriority(const meshtastic_MeshPacket* p)] *)
Definition calculatePriority (p : PacketPtr) : Z :=
  match p with
  | None => 0
  | Some p =>
      let priority0 := 1 in
      let priority1 := if want_ack p then u8 (priority0 + 2) else priority0 in
      let priority2 :=
        match priority p with
        | Priority_RELIABLE => u8 (priority1 + 3)
        | Priority_ACK => u8 (priority1 + 2)
        | _ => priority1
        end in
      match payload_variant p with
      | payload_decoded portnum =>
          let priority3 :=
            match portnum with
            | PortNum_POSITION_APP => u8 (priority2 + 1)
            | _ => priority2
            end in
          match portnum with
          | PortNum_EMERGENCY_APP => u8 (priority3 + 4)
          | _ => priority3
          end
      | _ => priority2
      end
  end.

Record QueuedPacket : Set := mkQueuedPacket {
  packet : PacketPtr;
  enqueue_time : Z;
  priority : Z
}.

(** The constructor [QueuedPacket(p, time)]: the score is fixed here. *)
Definition QueuedPacket_new (p : PacketPtr) (time : Z) : QueuedPacket :=
  mkQueuedPacket p time (calculatePriority p).

(** [bool operator<(const QueuedPacket& other) const] *)
Definition less (a b : QueuedPacket) : bool := priority a <? priority b.

Definition expired_at (now expirySeconds : Z) (it : QueuedPacket) : bool :=
  u32 (now - enqueue_time it) >=? u32 (expirySeconds * 1000).

Section WithContainer.
Context {PQ : StdPriorityQueue QueuedPacket less}.

Record t : Type := mk {
  packets : pq;                   (* std::priority_queue<QueuedPacket> *)
  stats : QueueStats;
  maxQueueSize : Z;
  packetExpirySeconds : Z
}.

Definition create (maxSize expirySeconds : Z) : t :=
  mk pq_new (mkQueueStats 0 0 0 0 0) maxSize expirySeconds.

Definition size (q : t) : Z := Z.of_nat (pq_size (packets q)).
Definition empty (q : t) : bool := pq_empty (packets q).
Definition full (q : t) : bool := size q >=? maxQueueSize q.

Definition getAvgQueueTime (q : t) : Z :=
  if totalQueued (stats q) =? 0 then 0
  else totalQueueTime (stats q) / totalQueued (stats q).

Definition with_packets (l : pq) (q : t) : t :=
  mk l (stats q) (maxQueueSize q) (packetExpirySeconds q).

Definition with_stats (s : QueueStats) (q : t) : t :=
  mk (packets q) s (maxQueueSize q) (packetExpirySeconds q).

(** [bool enqueue(meshtastic_MeshPacket* packet)] *)
Definition enqueue (p : PacketPtr) (q : t) (w : World) : bool * t * World :=
  if size q >=? maxQueueSize q then
    (false, with_stats (count_overflow (stats q)) q, w)
  else
    let '(now, w1) := millis w in
    (true,
     with_stats (count_queued (stats q))
                (with_packets (pq_push (QueuedPacket_new p now) (packets q)) q),
     w1).

(** [meshtastic_MeshPacket* dequeue()].  After the [empty()] test [top()]
    has an element; the [None] arm stands for [top()] of an empty container
    and is never taken (lemma [dequeue_nonempty]). *)
Definition dequeue (q : t) (w : World) : PacketPtr * t * World :=
  if empty q then (None, q, w)
  else
    match pq_top (packets q) with
    | None => (None, q, w)
    | Some top =>
        let '(now, w1) := millis w in
        let queueTime := u32 (now - enqueue_time top) / 1000 in
        (packet top,
         with_packets (pq_pop (packets q))
                      (with_stats (count_queue_time queueTime (stats q)) q),
         w1)
    end.

(** The [while (!packets.empty())] loop of [cleanExpired]; every turn pops
    one element, so [fuel] turns suffice for a container of [fuel] elements
    (lemma [cleanExpired_total]). *)
Fixpoint cleanExpired_loop (fuel : nat) (now expirySeconds : Z)
         (packets temp : pq) (s : QueueStats) (w : World)
  : option (pq * QueueStats * World) :=
  if pq_empty packets then Some (temp, s, w)
  else
    match fuel with
    | O => None
    | S fuel' =>
        match pq_top packets with
        | None => None
        | Some top =>
            if expired_at now expirySeconds top then
              cleanExpired_loop fuel' now expirySeconds (pq_pop packets) temp
                                (count_expired s) (release (packet top) w)
            else
              cleanExpired_loop fuel' now expirySeconds (pq_pop packets)
                                (pq_push top temp) s w
        end
    end.

(** [void cleanExpired()] *)
Definition cleanExpired (q : t) (w : World) : option (t * World) :=
  let '(now, w1) := millis w in
  match cleanExpired_loop (pq_size (packets q)) now (packetExpirySeconds q)
                          (packets q) pq_new (stats q) w1 with
  | None => None
  | Some (temp, s', w2) => Some (with_stats s' (with_packets temp q), w2)
  end.

(** The [while (!packets.empty())] loop of [clear]. *)
Fixpoint clear_loop (fuel : nat) (packets : pq) (w : World) : option (pq * World) :=
  if pq_empty packets then Some (packets, w)
  else
    match fuel with
    | O => None
    | S fuel' =>
        match pq_top packets with
        | None => None
        | Some top => clear_loop fuel' (pq_pop packets) (release (packet top) w)
        end
    end.

(** [void clear()] *)
Definition clear (q : t) (w : World) : option (t * World) :=
  match clear_loop (pq_size (packets q)) (packets q) w with
  | None => None
  | Some (l, w') => Some (with_packets l q, w')
  end.

End WithContainer.
End PriorityPacketQueue.

(** ** RadioInterface.cpp: the scheduler over the arrival-order queue *)

(** [ErrorCode RadioInterface::sendPacket(meshtastic_MeshPacket *p)].
    [beginSending] and [sendTo] belong to the radio driver; every call of
    [sendPacket] is recorded in [attempts] with its result. *)
Definition sendPacket (disabled : bool) (p : MeshPacket) (w : World) : ErrorCode * World :=
  let '(r, w') :=
    if disabled then (ERRNO_NO_RADIO, release (Some p) w)
    else if payloadlen p =? 0 then (ERRNO_INVALID_LENGTH, release (Some p) w)
    else
      let numbytes := beginSending w p in
      if numbytes =? 0 then (ERRNO_INVALID_LENGTH, w)
      else hand_over p w in
  (r, record_attempt p r w').

Module FifoRadio.

Record t : Set := mk {
  packetQueue : PacketQueue.t;    (* the file-local queue instance *)
  disabled : bool                 (* RadioInterface::disabled *)
}.

Definition init : t := mk (PacketQueue.create 32 3600) false.

Definition with_queue (q : PacketQueue.t) (st : t) : t := mk q (disabled st).

(** The [while (!packetQueue.empty())] loop of [processQueuedPackets]. *)
Fixpoint processQueuedPackets_loop (fuel : nat) (dis : bool)
         (q : PacketQueue.t) (w : World) : option (PacketQueue.t * World) :=
  if PacketQueue.empty q then Some (q, w)
  else
    match fuel with
    | O => None
    | S fuel' =>
        let '(packet, q1, w1) := PacketQueue.dequeue q w in
        match packet with
        | Some p =>
            let '(result, w2) := sendPacket dis p w1 in
            if negb (ErrorCode_eqb result ERRNO_OK) then
              let '(ok, q2, w3) := PacketQueue.enqueue (Some p) q1 w2 in
              if negb ok then Some (q2, release (Some p) w3)
              else Some (q2, w3)
            else processQueuedPackets_loop fuel' dis q1 w2
        | None => processQueuedPackets_loop fuel' dis q1 w1
        end
    end.

(** [void RadioInterface::processQueuedPackets()] *)
Definition processQueuedPackets (cfg : LoRaConfig) (st : t) (w : World)
  : option (t * World) :=
  if negb (has_lora cfg) || negb (time_window_enabled cfg) then Some (st, w)
  else
    let '(q1, w1) := PacketQueue.cleanExpired (packetQueue st) w in
    match processQueuedPackets_loop (length (PacketQueue.packets q1))
                                    (disabled st) q1 w1 with
    | None => None
    | Some (q2, w2) => Some (with_queue q2 st, w2)
    end.

(** [ErrorCode RadioInterface::send(meshtastic_MeshPacket *p)] *)
Definition send (cfg : LoRaConfig) (p : MeshPacket) (st : t) (w : World)
  : option (ErrorCode * t * World) :=
  let '(outside, w1) :=
    if has_lora cfg && time_window_enabled cfg then
      let '(allowed, w1) := isOperationAllowed cfg w in (negb allowed, w1)
    else (false, w) in
  if outside then
    match lora_window_mode cfg with
    | DROP_PACKETS => Some (ERRNO_NO_RADIO, st, release (Some p) w1)
    | QUEUE_PACKETS =>
        let '(ok, q', w2) := PacketQueue.enqueue (Some p) (packetQueue st) w1 in
        if negb ok then Some (ERRNO_NO_RADIO, with_queue q' st, release (Some p) w2)
        else Some (ERRNO_OK, with_queue q' st, w2)
    | RECEIVE_ONLY => Some (ERRNO_NO_RADIO, st, release (Some p) w1)
    | MODE_INVALID _ => Some (ERRNO_INVALID_CONFIG, st, w1)
    end
  else
    match processQueuedPackets cfg st w1 with
    | None => None
    | Some (st2, w2) =>
        let '(r, w3) := sendPacket (disabled st2) p w2 in Some (r, st2, w3)
    end.

(** [void RadioInterface::clearPacketQueue()] *)
Definition clearPacketQueue (st : t) (w : World) : t * World :=
  let '(q', w') := PacketQueue.clear (packetQueue st) w in (with_queue q' st, w').

Definition getQueueStats (st : t) : QueueStats := PacketQueue.stats (packetQueue st).
Definition getQueueSize (st : t) : Z := PacketQueue.size (packetQueue st).
Definition isQueueFull (st : t) : bool := PacketQueue.full (packetQueue st).
Definition getAvgQueueTime (st : t) : Z := PacketQueue.getAvgQueueTime (packetQueue st).

End FifoRadio.

(** ** RadioInterfaceQueue.cpp: the scheduler over the priority queue *)

Module PriorityRadio.

(** [struct QueueMetrics] *)
Record QueueMetrics : Set := mkQueueMetrics {
  lastProcessTime : Z;
  highPriorityCount : Z;
  normalPriorityCount : Z;
  dropCount : Z
}.

(** [QueueMetrics::reset()] leaves [lastProcessTime]. *)
Definition metrics_reset (m : QueueMetrics) : QueueMetrics :=
  mkQueueMetrics (lastProcessTime m) 0 0 0.

Definition count_drop (m : QueueMetrics) : QueueMetrics :=
  mkQueueMetrics (lastProcessTime m) (highPriorityCount m)
                 (normalPriorityCount m) (u32 (dropCount m + 1)).

Definition count_sent (isHighPriority : bool) (m : QueueMetrics) : QueueMetrics :=
  if isHighPriority then
    mkQueueMetrics (lastProcessTime m) (u32 (highPriorityCount m + 1))
                   (normalPriorityCount m) (dropCount m)
  else
    mkQueueMetrics (lastProcessTime m) (highPriorityCount m)
                   (u32 (normalPriorityCount m + 1)) (dropCount m).

Definition set_lastProcessTime (now : Z) (m : QueueMetrics) : QueueMetrics :=
  mkQueueMetrics now (highPriorityCount m) (normalPriorityCount m) (dropCount m).

Section WithContainer.
Context {PQ : StdPriorityQueue PriorityPacketQueue.QueuedPacket PriorityPacketQueue.less}.

(** Named in RadioInterfaceQueue.cpp and declared nowhere in the sources:
    the two macros and the member [getLastPriority] of the queue. *)
Variable MAX_PACKETS_PER_CYCLE : Z.
Variable MIN_QUEUE_PROCESS_INTERVAL : Z.
Variable getLastPriority : @PriorityPacketQueue.t PQ -> Z.

Record t : Type := mk {
  priorityQueue : PriorityPacketQueue.t;
  metrics : QueueMetrics;
  disabled : bool
}.

Definition init : t :=
  mk (PriorityPacketQueue.create 32 3600) (mkQueueMetrics 0 0 0 0) false.

Definition with_queue (q : PriorityPacketQueue.t) (st : t) : t :=
  mk q (metrics st) (disabled st).

Definition with_metrics (m : QueueMetrics) (st : t) : t :=
  mk (priorityQueue st) m (disabled st).

(** [const uint32_t maxProcessTime = 100;] *)
Definition maxProcessTime : Z := 100.

(** The budgeted [while] loop of [processQueuedPackets]; the third
    component of the result is the final value of the local
    [packetsProcessed].  [millis()] is read only when the queue is not
    empty, as the [&&] of the loop condition has it. *)
Fixpoint processQueuedPackets_loop (fuel : nat) (startTime packetsProcessed : Z)
         (st : t) (w : World) : option (t * Z * World) :=
  if PriorityPacketQueue.empty (priorityQueue st) then Some (st, packetsProcessed, w)
  else
    let '(now, w0) := millis w in
    if negb (u32 (now - startTime) <? maxProcessTime) then Some (st, packetsProcessed, w0)
    else if negb (packetsProcessed <? MAX_PACKETS_PER_CYCLE) then Some (st, packetsProcessed, w0)
    else
      match fuel with
      | O => None
      | S fuel' =>
          let '(packet, q1, w1) := PriorityPacketQueue.dequeue (priorityQueue st) w0 in
          let st1 := with_queue q1 st in
          match packet with
          | Some p =>
              let isHighPriority := getLastPriority q1 >? 2 in
              let '(result, w2) := sendPacket (disabled st1) p w1 in
              if ErrorCode_eqb result ERRNO_OK then
                processQueuedPackets_loop fuel' startTime (u32 (packetsProcessed + 1))
                  (with_metrics (count_sent isHighPriority (metrics st1)) st1) w2
              else
                let '(ok, q2, w3) := PriorityPacketQueue.enqueue (Some p) q1 w2 in
                if negb ok then
                  Some (with_metrics (count_drop (metrics st1)) (with_queue q2 st1),
                        packetsProcessed, release (Some p) w3)
                else Some (with_queue q2 st1, packetsProcessed, w3)
          | None => processQueuedPackets_loop fuel' startTime packetsProcessed st1 w1
          end
      end.

(** [void RadioInterface::processQueuedPackets()], with the final
    [packetsProcessed] of the cycle ([0] when the guard returns at once). *)
Definition processQueuedPackets (cfg : LoRaConfig) (st : t) (w : World)
  : option (t * Z * World) :=
  if negb (has_lora cfg) || negb (time_window_enabled cfg) then Some (st, 0, w)
  else
    match PriorityPacketQueue.cleanExpired (priorityQueue st) w with
    | None => None
    | Some (q1, w1) =>
        let '(startTime, w2) := millis w1 in
        processQueuedPackets_loop (pq_size (PriorityPacketQueue.packets q1))
                                  startTime 0 (with_queue q1 st) w2
    end.

(** [ErrorCode RadioInterface::send(meshtastic_MeshPacket *p)] *)
Definition send (cfg : LoRaConfig) (p : MeshPacket) (st : t) (w : World)
  : option (ErrorCode * t * World) :=
  let '(outside, w1) :=
    if has_lora cfg && time_window_enabled cfg then
      let '(allowed, w1) := isOperationAllowed cfg w in (negb allowed, w1)
    else (false, w) in
  if outside then
    match lora_window_mode cfg with
    | DROP_PACKETS =>
        Some (ERRNO_NO_RADIO, with_metrics (count_drop (metrics st)) st,
              release (Some p) w1)
    | QUEUE_PACKETS =>
        let '(ok, q', w2) := PriorityPacketQueue.enqueue (Some p) (priorityQueue st) w1 in
        if negb ok then
          Some (ERRNO_NO_RADIO,
                with_metrics (count_drop (metrics st)) (with_queue q' st),
                release (Some p) w2)
        else Some (ERRNO_OK, with_queue q' st, w2)
    | RECEIVE_ONLY =>
        Some (ERRNO_NO_RADIO, with_metrics (count_drop (metrics st)) st,
              release (Some p) w1)
    | MODE_INVALID _ => Some (ERRNO_INVALID_CONFIG, st, w1)
    end
  else
    let '(now, w2) := millis w1 in
    let drained :=
      if u32 (now - lastProcessTime (metrics st)) >=? MIN_QUEUE_PROCESS_INTERVAL then
        match processQueuedPackets cfg st w2 with
        | None => None
        | Some (st', _, w') =>
            Some (with_metrics (set_lastProcessTime now (metrics st')) st', w')
        end
      else Some (st, w2) in
    match drained with
    | None => None
    | Some (st3, w3) =>
        let '(r, w4) := sendPacket (disabled st3) p w3 in Some (r, st3, w4)
    end.

(** [void RadioInterface::clearPacketQueue()] *)
Definition clearPacketQueue (st : t) (w : World) : option (t * World) :=
  match PriorityPacketQueue.clear (priorityQueue st) w with
  | None => None
  | Some (q', w') => Some (with_metrics (metrics_reset (metrics st)) (with_queue q' st), w')
  end.

Definition getQueueStats (st : t) : QueueStats := PriorityPacketQueue.stats (priorityQueue st).
Definition getQueueSize (st : t) : Z := PriorityPacketQueue.size (priorityQueue st).
Definition isQueueFull (st : t) : bool := PriorityPacketQueue.full (priorityQueue st).

End WithContainer.
End PriorityRadio.

(** ** RadioInterfaceTime.cpp: the scheduler over the plain vector of
       RadioInterface.h *)

Module InlineRadio.

(** [struct PacketQueueEntry] *)
Record PacketQueueEntry : Set := mkEntry {
  packet : PacketPtr;
  enqueue_time : Z
}.

Record t : Set := mk {
  packetQueue : list PacketQueueEntry   (* std::vector<PacketQueueEntry> *)
}.

Fixpoint cleanExpiredPackets_loop (now expire_secs : Z) (l : list PacketQueueEntry)
         (w : World) : list PacketQueueEntry * World :=
  match l with
  | [] => ([], w)
  | it :: rest =>
      let age := u32 (now - enqueue_time it) in
      if age >=? u32 (expire_secs * 1000) then
        cleanExpiredPackets_loop now expire_secs rest (release (packet it) w)
      else
        let '(kept, w') := cleanExpiredPackets_loop now expire_secs rest w in
        (it :: kept, w')
  end.

(** [void RadioInterface::cleanExpiredPackets()] *)
Definition cleanExpiredPackets (cfg : LoRaConfig) (st : t) (w : World) : t * World :=
  if negb (has_lora cfg) || negb (time_window_enabled cfg) then (st, w)
  else
    let '(now, w1) := millis w in
    let '(kept, w2) :=
      cleanExpiredPackets_loop now (window_packet_expire_secs cfg) (packetQueue st) w1 in
    (mk kept, w2).

(** The arms of the [switch (config.lora.window_mode)] of [send]. *)
Definition send_outside_window (cfg : LoRaConfig) (p : PacketPtr) (st : t) (w : World)
  : ErrorCode * t * World :=
  match lora_window_mode cfg with
  | DROP_PACKETS => (ERRNO_NO_RADIO, st, release p w)
  | QUEUE_PACKETS =>
      if Z.of_nat (length (packetQueue st)) >=? window_queue_size cfg then
        (ERRNO_NO_RADIO, st, release p w)
      else
        let '(now, w1) := millis w in
        (ERRNO_OK, mk (packetQueue st ++ [mkEntry p now]), w1)
  | RECEIVE_ONLY => (ERRNO_NO_RADIO, st, release p w)
  | MODE_INVALID _ => (ERRNO_INVALID_CONFIG, st, w)
  end.

(** [RadioInterface::send] ends in the call [RadioInterface::send(p)] of
    itself, and [processQueuedPackets] sends through it; [fuel] bounds the
    depth of these calls, and [None] is the call that has not returned
    within it. *)
Fixpoint send (fuel : nat) (cfg : LoRaConfig) (p : PacketPtr) (st : t) (w : World)
         {struct fuel} : option (ErrorCode * t * World) :=
  if has_lora cfg && time_window_enabled cfg then
    let '(allowed, w1) := isOperationAllowed cfg w in
    if negb allowed then Some (send_outside_window cfg p st w1)
    else
      match fuel with
      | O => None
      | S fuel' =>
          match processQueuedPackets fuel' cfg st w1 with
          | None => None
          | Some (st2, w2) => send fuel' cfg p st2 w2
          end
      end
  else
    match fuel with
    | O => None
    | S fuel' => send fuel' cfg p st w
    end

(** [void RadioInterface::processQueuedPackets()] *)
with processQueuedPackets (fuel : nat) (cfg : LoRaConfig) (st : t) (w : World)
         {struct fuel} : option (t * World) :=
  if negb (has_lora cfg) || negb (time_window_enabled cfg) then Some (st, w)
  else
    let '(allowed, w1) := isOperationAllowed cfg w in
    if negb allowed then Some (st, w1)
    else
      let '(st1, w2) := cleanExpiredPackets cfg st w1 in
      match fuel with
      | O => None
      | S fuel' => processQueuedPackets_loop fuel' cfg st1 w2
      end

(** The [while (!packetQueue.empty())] loop of [processQueuedPackets]. *)
with processQueuedPackets_loop (fuel : nat) (cfg : LoRaConfig) (st : t) (w : World)
         {struct fuel} : option (t * World) :=
  match packetQueue st with
  | [] => Some (st, w)
  | qp :: _ =>
      match fuel with
      | O => None
      | S fuel' =>
          match send fuel' cfg (packet qp) st w with
          | None => None
          | Some (result, st', w') =>
              if ErrorCode_eqb result ERRNO_OK then
                processQueuedPackets_loop fuel' cfg (mk (tl (packetQueue st'))) w'
              else Some (st', w')
          end
      end
  end.

End InlineRadio.

(** ** plugins/TimeWindowPlugin.{h,cpp} *)

Module TimeWindowPlugin.

(** The file-static [stats] of TimeWindowPlugin.cpp. *)
Record Stats : Set := mkStats {
  totalQueued : Z;
  totalDropped : Z;
  totalDelayed : Z;
  queueOverflows : Z;
  maxQueueTime : Z;
  sumQueueTime : Z;
  queuedPackets : Z
}.

Definition stats_zero : Stats := mkStats 0 0 0 0 0 0 0.

Record t : Set := mk {
  isWindowActive : bool;
  temporaryOverride : bool;
  overrideActive : bool;
  overrideExpiry : Z;
  stats : Stats
}.

(** The member initialisers of TimeWindowPlugin.h. *)
Definition init : t := mk true false false 0 stats_zero.

(** [bool getCurrentWindowState() const] *)
Definition getCurrentWindowState (pl : t) : bool :=
  isWindowActive pl && (negb (temporaryOverride pl) || overrideActive pl).

Definition with_stats (s : Stats) (pl : t) : t :=
  mk (isWindowActive pl) (temporaryOverride pl) (overrideActive pl)
     (overrideExpiry pl) s.

Definition with_override (active : bool) (expiry : Z) (pl : t) : t :=
  mk (isWindowActive pl) true active expiry (stats pl).

(** [void recordQueueStats(uint32_t queueTime)] *)
Definition recordQueueStats (queueTime : Z) (pl : t) : t :=
  let s := stats pl in
  with_stats (mkStats (u32 (totalQueued s + 1)) (totalDropped s) (totalDelayed s)
                      (queueOverflows s) (Z.max (maxQueueTime s) queueTime)
                      (u32 (sumQueueTime s + queueTime)) (queuedPackets s)) pl.

(** [void recordDroppedPacket()] *)
Definition recordDroppedPacket (pl : t) : t :=
  let s := stats pl in
  with_stats (mkStats (totalQueued s) (u32 (totalDropped s + 1)) (totalDelayed s)
                      (queueOverflows s) (maxQueueTime s) (sumQueueTime s)
                      (queuedPackets s)) pl.

(** [void recordQueueOverflow()] *)
Definition recordQueueOverflow (pl : t) : t :=
  let s := stats pl in
  with_stats (mkStats (totalQueued s) (totalDropped s) (totalDelayed s)
                      (u32 (queueOverflows s + 1)) (maxQueueTime s) (sumQueueTime s)
                      (queuedPackets s)) pl.

(** [void updateQueuedCount(size_t count)] *)
Definition updateQueuedCount (count : Z) (pl : t) : t :=
  let s := stats pl in
  with_stats (mkStats (totalQueued s) (totalDropped s) (totalDelayed s)
                      (queueOverflows s) (maxQueueTime s) (sumQueueTime s)
                      (u32 count)) pl.

(** [meshtastic_TimeWindowCommand_CommandType] *)
Inductive CommandType : Set :=
| GET_STATUS
| GET_STATS
| FORCE_OPEN
| FORCE_CLOSE
| RESET_STATS
| CLEAR_QUEUE.

(** [meshtastic_TimeWindowCommand] *)
Record Command : Set := mkCommand {
  command : CommandType;
  duration : Z
}.

(** The payloads of [meshtastic_TimeWindow] that the plugin sends: the
    fields that [sendStatus] and [sendStats] fill. *)
Record WindowStatus : Set := mkWindowStatus {
  is_active : bool;
  next_change : Z;
  queued_packets : Z;
  dropped_packets : Z;
  status_window_mode : TimeWindowMode
}.

Record WindowStats : Set := mkWindowStats {
  total_queued : Z;
  total_dropped : Z;
  total_delayed : Z;
  avg_queue_time : Z;
  max_queue_time : Z;
  queue_overflows : Z
}.

Inductive TimeWindowMessage : Set :=
| WINDOW_STATUS (status : WindowStatus)
| WINDOW_STATS (statistics : WindowStats).

(** What the plugin calls and the sources do not define: [sendPayload] of
    the base class, which hands a payload for a node to the mesh service
    and may reach the radio behind [service.radio]; [getTime()] and
    [localtime()] of the platform (the hour and the minute of [struct tm]);
    and the member [calculateNextTransition], declared in
    TimeWindowPlugin.h.  [sendPayload] is taken to act on the mesh service,
    the radio behind it and the world, and [calculateNextTransition] to
    compute its result from the plugin, the configuration and the time
    without changing them, as its description in the header has it
    (calculate seconds until next window state transition): neither writes
    the members of the plugin or [config]. *)
Class MeshFramework (Radio : Type) : Type := {
  sendPayload : Z -> TimeWindowMessage -> option Radio -> World -> option Radio * World;
  getTime : World -> Z;
  localtime : Z -> Z * Z;
  calculateNextTransition : t -> LoRaConfig -> Z -> Z -> Z
}.

Section WithRadio.
(** [service.radio]: the radio behind the plugin, if there is one, with its
    [clearPacketQueue]. *)
Variable Radio : Type.
Context {F : MeshFramework Radio}.
Variable clearPacketQueue : Radio -> World -> option (Radio * World).

(** [uint32_t getNextTransitionTime()] *)
Definition getNextTransitionTime (cfg : LoRaConfig) (pl : t) (w : World) : Z :=
  if negb (has_lora cfg) || negb (time_window_enabled cfg) then 0
  else
    let now := getTime w in
    let '(tm_hour, tm_min) := localtime now in
    let secs := i32 (calculateNextTransition pl cfg tm_hour tm_min) in
    u32 (now + secs).

(** [void sendStatus(NodeNum dest)] *)
Definition sendStatus (dest : Z) (cfg : LoRaConfig) (pl : t) (radio : option Radio)
           (w : World) : option Radio * World :=
  sendPayload dest
    (WINDOW_STATUS
       (mkWindowStatus (isWindowActive pl) (getNextTransitionTime cfg pl w)
                       (queuedPackets (stats pl)) (totalDropped (stats pl))
                       (lora_window_mode cfg)))
    radio w.

(** [void sendStats(NodeNum dest)] *)
Definition sendStats (dest : Z) (pl : t) (radio : option Radio) (w : World)
  : option Radio * World :=
  let s := stats pl in
  sendPayload dest
    (WINDOW_STATS
       (mkWindowStats (totalQueued s) (totalDropped s) (totalDelayed s)
                      (if queuedPackets s =? 0 then 0 else sumQueueTime s / queuedPackets s)
                      (maxQueueTime s) (queueOverflows s)))
    radio w.

(** [void handleCommand(NodeNum from, const meshtastic_TimeWindowCommand &cmd)],
    with the global [config] it reads. *)
Definition handleCommand (from : Z) (cmd : Command) (cfg : LoRaConfig) (pl : t)
           (radio : option Radio) (w : World)
  : option (t * option Radio * World) :=
  match command cmd with
  | GET_STATUS =>
      let '(radio', w') := sendStatus from cfg pl radio w in Some (pl, radio', w')
  | GET_STATS =>
      let '(radio', w') := sendStats from pl radio w in Some (pl, radio', w')
  | FORCE_OPEN =>
      let '(now, w1) := millis w in
      Some (with_override true (u32 (now + u32 (duration cmd * 1000))) pl, radio, w1)
  | FORCE_CLOSE =>
      let '(now, w1) := millis w in
      Some (with_override false (u32 (now + u32 (duration cmd * 1000))) pl, radio, w1)
  | RESET_STATS => Some (with_stats stats_zero pl, radio, w)
  | CLEAR_QUEUE =>
      match radio with
      | Some r =>
          match clearPacketQueue r w with
          | None => None
          | Some (r', w') => Some (updateQueuedCount 0 pl, Some r', w')
          end
      | None => Some (pl, None, w)
      end
  end.

End WithRadio.

Arguments handleCommand {Radio F} clearPacketQueue from cmd cfg pl radio w.
Arguments sendStatus {Radio F} dest cfg pl radio w.
Arguments sendStats {Radio F} dest pl radio w.
Arguments getNextTransitionTime {Radio F} cfg pl w.

End TimeWindowPlugin.

(** ** The list implementation meets the contract of [std::priority_queue] *)

Module ListPQFacts.
Section Keyed.
Variable T : Type.
Variable key : T -> Z.

Lemma top_none : forall l, ListPQ.top key l = None <-> l = [].
Proof.
  destruct l as [ | x r]; simpl.
  - split; reflexivity.
  - destruct (ListPQ.top key r) as [m | ]; [destruct (ListPQ.less key x m) | ]; split; discriminate.
Qed.

Lemma top_max : forall l x, ListPQ.top key l = Some x ->
  In x l /\ forall y, In y l -> ListPQ.less key x y = false.
Proof.
  induction l as [ | a r IH]; simpl; intros x Hx; [discriminate | ].
  destruct (ListPQ.top key r) as [m | ] eqn:Hr.
  - destruct (IH m eq_refl) as [Hin Hmax].
    unfold ListPQ.less in *.
    destruct (Z.ltb_spec (key a) (key m)) as [Hlt | Hge]; inversion Hx; subst x.
    + split; [right; exact Hin | ].
      intros y [-> | Hy]; [apply Z.ltb_ge; lia | apply Hmax; exact Hy].
    + split; [left; reflexivity | ].
      intros y [-> | Hy]; [apply Z.ltb_irrefl | ].
      specialize (Hmax y Hy). apply Z.ltb_ge in Hmax. apply Z.ltb_ge. lia.
  - inversion Hx; subst x. apply top_none in Hr. subst r.
    split; [left; reflexivity | ].
    intros y [-> | []]. apply Z.ltb_irrefl.
Qed.

Lemma pop_perm : forall l x, ListPQ.top key l = Some x -> Permutation l (x :: ListPQ.pop key l).
Proof.
  induction l as [ | a r IH]; simpl; intros x Hx; [discriminate | ].
  destruct (ListPQ.top key r) as [m | ] eqn:Hr.
  - destruct (ListPQ.less key a m); inversion Hx; subst x.
    + eapply perm_trans; [apply perm_skip, (IH m eq_refl) | apply perm_swap].
    + apply Permutation_refl.
  - inversion Hx; subst x. apply top_none in Hr. subst r. apply Permutation_refl.
Qed.

Lemma push_perm : forall (x : T) l, Permutation (ListPQ.push x l) (x :: l).
Proof.
  intros x l. unfold ListPQ.push. apply Permutation_sym, Permutation_cons_append.
Qed.

End Keyed.
End ListPQFacts.

(** The list implementation as an instance of the contract. *)
Definition listPQ (T : Type) (key : T -> Z) : StdPriorityQueue T (ListPQ.less key) :=
  Build_StdPriorityQueue T (ListPQ.less key)
    (list T) [] ListPQ.push (ListPQ.top key) (ListPQ.pop key) (fun l => l)
    eq_refl
    (ListPQFacts.push_perm T)
    (ListPQFacts.top_none T key)
    (ListPQFacts.top_max T key)
    (ListPQFacts.pop_perm T key).

Definition packetListPQ
  : StdPriorityQueue PriorityPacketQueue.QueuedPacket PriorityPacketQueue.less :=
  listPQ PriorityPacketQueue.QueuedPacket PriorityPacketQueue.priority.

(** ** The node: configuration, radio interface and plugin *)

(** The globals of the firmware that the time window touches: [config],
    the radio behind [service.radio] (here the one of RadioInterface.cpp)
    and [timeWindowPlugin]. *)
Module Firmware.

Record t : Set := mk {
  config : LoRaConfig;
  radio : FifoRadio.t;
  timeWindowPlugin : TimeWindowPlugin.t
}.

Definition with_plugin (pl : TimeWindowPlugin.t) (fw : t) : t :=
  mk (config fw) (radio fw) pl.

(** [service.radio->send(p)] *)
Definition send (p : MeshPacket) (fw : t) (w : World) : option (ErrorCode * t * World) :=
  match FifoRadio.send (config fw) p (radio fw) w with
  | None => None
  | Some (r, radio', w') => Some (r, mk (config fw) radio' (timeWindowPlugin fw), w')
  end.

Section WithFramework.
Context {F : TimeWindowPlugin.MeshFramework FifoRadio.t}.

(** [timeWindowPlugin->handleCommand(from, cmd)] *)
Definition handleCommand (from : Z) (cmd : TimeWindowPlugin.Command) (fw : t) (w : World)
  : option (t * World) :=
  match TimeWindowPlugin.handleCommand
          (fun r w' => Some (FifoRadio.clearPacketQueue r w'))
          from cmd (config fw) (timeWindowPlugin fw) (Some (radio fw)) w with
  | None => None
  | Some (pl', Some radio', w') => Some (mk (config fw) radio' pl', w')
  | Some (pl', None, w') => Some (mk (config fw) (radio fw) pl', w')
  end.

End WithFramework.

End Firmware.

(** ** TimeWindow.h: the queue entry that carries its configuration *)

Module QueuedPacket.

(** [struct QueuedPacket] of TimeWindow.h; [config] is the configuration
    the pointer of the entry refers to. *)
Record t : Set := mk {
  packet : PacketPtr;
  enqueue_time : Z;
  config : TimeWindowConfig
}.

(** [bool isExpired(uint32_t now) const] *)
Definition isExpired (now : Z) (qp : t) : bool :=
  u32 (now - enqueue_time qp) >=? u32 (packet_expiry_secs (config qp) * 1000).

End QueuedPacket.

(** ** RadioInterface.h: the inline members over the vector of the class *)

Module RadioInterfaceH.

(** [virtual bool canSleep() { return packetQueue.empty() && true; }] *)
Definition canSleep (st : InlineRadio.t) : bool :=
  match InlineRadio.packetQueue st with [] => true | _ :: _ => false end && true.

(** [int preflightSleepCb(void *unused = NULL) { return canSleep() ? 0 : 1; }] *)
Definition preflightSleepCb (st : InlineRadio.t) : Z :=
  if canSleep st then 0 else 1.

End RadioInterfaceH.

(** ** cli/TimeWindowCLI.cpp: the [window] command *)

Module TimeWindowCLI.
Import String.

(** What the command prints: one constructor for each [printf] group of the
    source, with the values it formats. *)
Inductive Message : Set :=
| MsgUsage
| MsgStatusDisabled
| MsgStatusEnabled
| MsgStatusWindow (start_hour start_minute end_hour end_minute : Z)
| MsgStatusMode (mode_str : string)
| MsgStatusQueueSize (size : Z)
| MsgStatusExpiry (secs : Z)
| MsgEnabled
| MsgDisabled
| MsgUsageSet
| MsgInvalidTime
| MsgSet (start_hour start_minute end_hour end_minute : Z)
| MsgUsageMode
| MsgInvalidMode
| MsgModeSet (mode : string)
| MsgUsageQueue
| MsgQueueRange
| MsgQueueSet (size : Z)
| MsgUsageExpire
| MsgExpirePositive
| MsgExpireSet (secs : Z)
| MsgUnknown.

(** The outcome of one command: the global [config], the calls of
    [nodeDB->saveConfig()] it made and what it printed. *)
Record Result : Set := mkResult {
  config : LoRaConfig;
  saves : nat;
  printed : list Message
}.

(** Assignments to the fields of [config]. *)
Definition set_has_lora (b : bool) (cfg : LoRaConfig) : LoRaConfig :=
  mkLoRaConfig b (time_window_enabled cfg) (window_start_hour cfg)
               (window_start_minute cfg) (window_end_hour cfg) (window_end_minute cfg)
               (lora_window_mode cfg) (window_queue_size cfg) (window_packet_expire_secs cfg).

Definition set_enabled (b : bool) (cfg : LoRaConfig) : LoRaConfig :=
  mkLoRaConfig (has_lora cfg) b (window_start_hour cfg)
               (window_start_minute cfg) (window_end_hour cfg) (window_end_minute cfg)
               (lora_window_mode cfg) (window_queue_size cfg) (window_packet_expire_secs cfg).

Definition set_window (sh sm eh em : Z) (cfg : LoRaConfig) : LoRaConfig :=
  mkLoRaConfig (has_lora cfg) (time_window_enabled cfg) sh sm eh em
               (lora_window_mode cfg) (window_queue_size cfg) (window_packet_expire_secs cfg).

Definition set_mode (m : TimeWindowMode) (cfg : LoRaConfig) : LoRaConfig :=
  mkLoRaConfig (has_lora cfg) (time_window_enabled cfg) (window_start_hour cfg)
               (window_start_minute cfg) (window_end_hour cfg) (window_end_minute cfg)
               m (window_queue_size cfg) (window_packet_expire_secs cfg).

Definition set_queue_size (n : Z) (cfg : LoRaConfig) : LoRaConfig :=
  mkLoRaConfig (has_lora cfg) (time_window_enabled cfg) (window_start_hour cfg)
               (window_start_minute cfg) (window_end_hour cfg) (window_end_minute cfg)
               (lora_window_mode cfg) n (window_packet_expire_secs cfg).

Definition set_expire_secs (n : Z) (cfg : LoRaConfig) : LoRaConfig :=
  mkLoRaConfig (has_lora cfg) (time_window_enabled cfg) (window_start_hour cfg)
               (window_start_minute cfg) (window_end_hour cfg) (window_end_minute cfg)
               (lora_window_mode cfg) (window_queue_size cfg) n.

(** [static void printTimeWindowStatus()] *)
Definition printTimeWindowStatus (cfg : LoRaConfig) : list Message :=
  if negb (has_lora cfg) || negb (time_window_enabled cfg) then [MsgStatusDisabled]
  else
    let mode_str :=
      match lora_window_mode cfg with
      | DROP_PACKETS => "Drop packets"%string
      | QUEUE_PACKETS => "Queue packets"%string
      | RECEIVE_ONLY => "Receive only"%string
      | MODE_INVALID _ => "Unknown"%string
      end in
    [MsgStatusEnabled;
     MsgStatusWindow (window_start_hour cfg) (window_start_minute cfg)
                     (window_end_hour cfg) (window_end_minute cfg);
     MsgStatusMode mode_str]
    ++ match lora_window_mode cfg with
       | QUEUE_PACKETS =>
           [MsgStatusQueueSize (window_queue_size cfg);
            MsgStatusExpiry (window_packet_expire_secs cfg)]
       | _ => []
       end.

Section WithLibc.
(** The C library behind the command.  [sscanf_time s] is [Some (h, m)]
    when [sscanf(s, "%d:%d", &h, &m)] returns 2 and stores [h] and [m];
    [atoi s] is the value of [atoi(s)].  Both give [int]s: the values enter
    the code through [i32]. *)
Variable sscanf_time : string -> option (Z * Z).
Variable atoi : string -> Z.

(** [static bool parseTime(const char* timeStr, uint8_t* hour, uint8_t* minute)]:
    [None] is [false]; [Some (hour, minute)] is [true] with the two bytes
    written. *)
Definition parseTime (timeStr : string) : option (Z * Z) :=
  match sscanf_time timeStr with
  | None => None
  | Some (h0, m0) =>
      let h := i32 h0 in
      let m := i32 m0 in
      if (h <? 0) || (h >? 23) || (m <? 0) || (m >? 59) then None
      else Some (u8 h, u8 m)
  end.

(** [void timeWindowCmd(int argc, char** argv)], with [argc] the number of
    entries of [argv].  [None] is a read of [argv] at or beyond [argc]. *)
Definition timeWindowCmd (argv : list string) (cfg : LoRaConfig) : option Result :=
  let argc := Z.of_nat (List.length argv) in
  if argc <? 2 then Some (mkResult cfg 0 [MsgUsage])
  else
    match nth_error argv 1 with
    | None => None
    | Some cmd =>
        if String.eqb cmd "status" then
          Some (mkResult cfg 0 (printTimeWindowStatus cfg))
        else if String.eqb cmd "enable" then
          Some (mkResult (set_enabled true (set_has_lora true cfg)) 1 [MsgEnabled])
        else if String.eqb cmd "disable" then
          Some (mkResult (set_enabled false cfg) 1 [MsgDisabled])
        else if String.eqb cmd "set" then
          if negb (argc =? 4) then Some (mkResult cfg 0 [MsgUsageSet])
          else
            match nth_error argv 2 with
            | None => None
            | Some arg2 =>
                match parseTime arg2 with
                | None => Some (mkResult cfg 0 [MsgInvalidTime])
                | Some (startHour, startMinute) =>
                    match nth_error argv 3 with
                    | None => None
                    | Some arg3 =>
                        match parseTime arg3 with
                        | None => Some (mkResult cfg 0 [MsgInvalidTime])
                        | Some (endHour, endMinute) =>
                            Some (mkResult
                                    (set_window startHour startMinute endHour endMinute
                                                (set_has_lora true cfg))
                                    1
                                    [MsgSet startHour startMinute endHour endMinute])
                        end
                    end
                end
            end
        else if String.eqb cmd "mode" then
          if negb (argc =? 3) then Some (mkResult cfg 0 [MsgUsageMode])
          else
            match nth_error argv 2 with
            | None => None
            | Some mode =>
                if String.eqb mode "drop" then
                  Some (mkResult (set_mode DROP_PACKETS cfg) 1 [MsgModeSet mode])
                else if String.eqb mode "queue" then
                  Some (mkResult (set_mode QUEUE_PACKETS cfg) 1 [MsgModeSet mode])
                else if String.eqb mode "receive" then
                  Some (mkResult (set_mode RECEIVE_ONLY cfg) 1 [MsgModeSet mode])
                else Some (mkResult cfg 0 [MsgInvalidMode])
            end
        else if String.eqb cmd "queue" then
          if negb (argc =? 3) then Some (mkResult cfg 0 [MsgUsageQueue])
          else
            match nth_error argv 2 with
            | None => None
            | Some arg2 =>
                let size := i32 (atoi arg2) in
                if (size <? 1) || (size >? 100) then Some (mkResult cfg 0 [MsgQueueRange])
                else Some (mkResult (set_queue_size (u32 size) cfg) 1 [MsgQueueSet size])
            end
        else if String.eqb cmd "expire" then
          if negb (argc =? 3) then Some (mkResult cfg 0 [MsgUsageExpire])
          else
            match nth_error argv 2 with
            | None => None
            | Some arg2 =>
                let secs := i32 (atoi arg2) in
                if secs <? 1 then Some (mkResult cfg 0 [MsgExpirePositive])
                else Some (mkResult (set_expire_secs (u32 secs) cfg) 1 [MsgExpireSet secs])
            end
        else Some (mkResult cfg 0 [MsgUnknown])
    end.

(** A session: the commands of a list run one after the other on the
    global [config]; the saves and the output accumulate. *)
Fixpoint session (cmds : list (list string)) (cfg : LoRaConfig) : option Result :=
  match cmds with
  | [] => Some (mkResult cfg 0 [])
  | argv :: rest =>
      match timeWindowCmd argv cfg with
      | None => None
      | Some r1 =>
          match session rest (config r1) with
          | None => None
          | Some r2 =>
              Some (mkResult (config r2) (saves r1 + saves r2) (printed r1 ++ printed r2))
          end
      end
  end.

End WithLibc.
End TimeWindowCLI.

(** ** cli/command_time_window.cpp: the registered handler *)

Module CommandTimeWindow.
Section WithLibc.
Variable sscanf_time : String.string -> option (Z * Z).
Variable atoi : String.string -> Z.
(** The tokens that the calls [strtok(str, " ")], [strtok(NULL, " ")], ...
    return for a string, up to the first null result. *)
Variable strtok_tokens : String.string -> list String.string.

(** The handler of the [window] command: the lambda passed to the
    registry.  The loop [while (token && argc < 8)] keeps the first eight
    tokens. *)
Definition windowCmd (arg_string : String.string) (cfg : LoRaConfig)
  : option (bool * TimeWindowCLI.Result) :=
  let argv := firstn 8 (strtok_tokens arg_string) in
  match TimeWindowCLI.timeWindowCmd sscanf_time atoi argv cfg with
  | None => None
  | Some r => Some (true, r)
  end.

End WithLibc.
End CommandTimeWindow.

(** ** modules/AdminModule.cpp: the LoRa case of [handleSetConfig] *)

Module AdminModule.

Inductive Routing_Error : Set :=
| Routing_Error_INVALID_SETTINGS.

(** [SEGMENT_CONFIG], a constant of the firmware outside the sources. *)
Inductive Segment : Set :=
| SEGMENT_CONFIG.

Section WithGenerated.
(** The fields of the generated [meshtastic_Config_LoRaConfig] that the
    time window does not own, with the test the source makes on them:
    [radioParamsChanged] is the [||] of [!=] over [use_preset], [region],
    [modem_preset], [bandwidth], [spread_factor], [coding_rate],
    [tx_power], [frequency_offset], [override_frequency], [channel_num] and
    [sx126x_rx_boosted_gain]. *)
Variable RadioParams : Type.
Variable radioParamsChanged : RadioParams -> RadioParams -> bool.

(** [config.has_lora] and [config.lora]: the radio fields and the fields of
    the time window. *)
Record Device : Type := mkDevice {
  radio_params : RadioParams;
  lora : LoRaConfig
}.

(** What a call leaves behind: the configuration, [myReply], whether
    [disableBluetooth()] ran, and the arguments of [saveChanges] if it was
    reached. *)
Record Outcome : Type := mkOutcome {
  device : Device;
  myReply : option Routing_Error;
  bluetoothDisabled : bool;
  savedChanges : option (Segment * bool)
}.

(** The defaults written into the request for the queue mode. *)
Definition with_queue_defaults (c : LoRaConfig) : LoRaConfig :=
  match lora_window_mode c with
  | QUEUE_PACKETS =>
      let c1 := if window_queue_size c =? 0 then TimeWindowCLI.set_queue_size 32 c else c in
      if window_packet_expire_secs c1 =? 0 then TimeWindowCLI.set_expire_secs 3600 c1 else c1
  | _ => c
  end.

(** [void AdminModule::handleSetConfig(const meshtastic_Config &c)] for
    [c.which_payload_variant == meshtastic_Config_lora_tag].  The request
    is [c_radio] with the time-window fields of [c_lora] (its [has_lora]
    stands for nothing and is not read).  The fan pin of [RF95_FAN_EN] and
    the first-time region set-up, whose body the source leaves out, are not
    part of the model. *)
Definition handleSetConfig (c_radio : RadioParams) (c_lora : LoRaConfig)
           (hasOpenEditTransaction : bool) (dev : Device) : Outcome :=
  let requiresReboot0 := true in
  let changes := SEGMENT_CONFIG in
  let dev1 := mkDevice (radio_params dev) (TimeWindowCLI.set_has_lora true (lora dev)) in
  let changed := radioParamsChanged (radio_params dev1) c_radio in
  let requiresReboot := if negb changed then false else requiresReboot0 in
  let finish (c : LoRaConfig) : Outcome :=
    mkOutcome (mkDevice c_radio (TimeWindowCLI.set_has_lora true c))
              None
              (requiresReboot && negb hasOpenEditTransaction)
              (Some (changes, requiresReboot)) in
  if time_window_enabled c_lora then
    if (window_start_hour c_lora >=? 24) || (window_start_minute c_lora >=? 60)
       || (window_end_hour c_lora >=? 24) || (window_end_minute c_lora >=? 60)
    then mkOutcome dev1 (Some Routing_Error_INVALID_SETTINGS) false None
    else finish (with_queue_defaults c_lora)
  else finish c_lora.

End WithGenerated.
End AdminModule.

(** ** RadioInterfaceQueue.cpp: the report of the metrics *)

Module PriorityRadioReport.

(** [RadioInterface::QueueMetrics], the value that [getQueueMetrics]
    returns. *)
Record QueueMetrics : Set := mkQueueMetrics {
  highPriorityCount : Z;
  normalPriorityCount : Z;
  dropCount : Z;
  avgQueueTime : Z
}.

Section WithContainer.
Context {PQ : StdPriorityQueue PriorityPacketQueue.QueuedPacket PriorityPacketQueue.less}.

(** [RadioInterface::QueueMetrics RadioInterface::getQueueMetrics() const] *)
Definition getQueueMetrics (st : PriorityRadio.t) : QueueMetrics :=
  mkQueueMetrics (PriorityRadio.highPriorityCount (PriorityRadio.metrics st))
                 (PriorityRadio.normalPriorityCount (PriorityRadio.metrics st))
                 (PriorityRadio.dropCount (PriorityRadio.metrics st))
                 (PriorityPacketQueue.getAvgQueueTime (PriorityRadio.priorityQueue st)).

End WithContainer.
End PriorityRadioReport.

(** * Vocabulary of the properties *)

(** The hour and the minute a millisecond reading shows, as
    [isOperationAllowed] derives them. *)
Definition hour_of_millis (ms : Z) : Z := ((ms / 1000) mod (24 * 3600)) / 3600.
Definition minute_of_millis (ms : Z) : Z := (((ms / 1000) mod (24 * 3600)) mod 3600) / 60.

(** The statistics after a rejected and after an accepted [enqueue]. *)
Definition only_overflow_counted (s s' : QueueStats) : Prop :=
  queueOverflows s' = u32 (queueOverflows s + 1) /\
  totalQueued s' = totalQueued s /\
  expiredPackets s' = expiredPackets s /\
  totalQueueTime s' = totalQueueTime s /\
  maxQueueTime s' = maxQueueTime s.

Definition only_queued_counted (s s' : QueueStats) : Prop :=
  totalQueued s' = u32 (totalQueued s + 1) /\
  queueOverflows s' = queueOverflows s /\
  expiredPackets s' = expiredPackets s /\
  totalQueueTime s' = totalQueueTime s /\
  maxQueueTime s' = maxQueueTime s.

(** [packetPool.release] called on each packet of a list, first to last. *)
Definition release_all (ps : list PacketPtr) (w : World) : World :=
  fold_left (fun w' p => release p w') ps w.

(** A run of [enqueue] calls, one per packet, as the capacity tests make
    them: [for (i = 0; i < n; i++) enqueue(p_i)]. *)
Fixpoint fifo_enqueue_all (ps : list PacketPtr) (q : PacketQueue.t) (w : World)
  : PacketQueue.t * World :=
  match ps with
  | [] => (q, w)
  | p :: rest =>
      let '(_, q1, w1) := PacketQueue.enqueue p q w in fifo_enqueue_all rest q1 w1
  end.


(** One drain cycle as a relation between the state before and after: the
    ways the loop of [processQueuedPackets] can run. *)
Inductive fifo_cycle (dis : bool)
  : PacketQueue.t -> World -> PacketQueue.t -> World -> Prop :=
| fifo_cycle_done : forall q w,
    PacketQueue.empty q = true ->
    fifo_cycle dis q w q w
| fifo_cycle_null : forall q w q1 w1 q' w',
    PacketQueue.empty q = false ->
    PacketQueue.dequeue q w = (None, q1, w1) ->
    fifo_cycle dis q1 w1 q' w' ->
    fifo_cycle dis q w q' w'
| fifo_cycle_sent : forall q w p q1 w1 w2 q' w',
    PacketQueue.empty q = false ->
    PacketQueue.dequeue q w = (Some p, q1, w1) ->
    sendPacket dis p w1 = (ERRNO_OK, w2) ->
    fifo_cycle dis q1 w2 q' w' ->
    fifo_cycle dis q w q' w'
| fifo_cycle_requeued : forall q w p q1 w1 r w2 q2 w3,
    PacketQueue.empty q = false ->
    PacketQueue.dequeue q w = (Some p, q1, w1) ->
    sendPacket dis p w1 = (r, w2) ->
    r <> ERRNO_OK ->
    PacketQueue.enqueue (Some p) q1 w2 = (true, q2, w3) ->
    fifo_cycle dis q w q2 w3
| fifo_cycle_dropped : forall q w p q1 w1 r w2 q2 w3,
    PacketQueue.empty q = false ->
    PacketQueue.dequeue q w = (Some p, q1, w1) ->
    sendPacket dis p w1 = (r, w2) ->
    r <> ERRNO_OK ->
    PacketQueue.enqueue (Some p) q1 w2 = (false, q2, w3) ->
    fifo_cycle dis q w q2 (release (Some p) w3).

(** A counter after at most [n] increments: [b] is [a] plus a number [k]
    of increments, [0 <= k <= n], in 32 bits. *)
Definition counted_up_within (n a b : Z) : Prop :=
  exists k, 0 <= k <= n /\ b = u32 (a + k).

Definition counters_in_range (s : QueueStats) : Prop :=
  is_u32 (totalQueued s) /\ is_u32 (expiredPackets s) /\ is_u32 (queueOverflows s).

(** The three counters after [n] operations on a queue that held [size]
    entries.  An operation calls [enqueue] at most once, so [totalQueued]
    and [queueOverflows] take at most [n] increments; an entry expires at
    most once, so [expiredPackets] takes at most [size + n]. *)
Definition counters_up_within (n size : Z) (s s' : QueueStats) : Prop :=
  counted_up_within n (totalQueued s) (totalQueued s') /\
  counted_up_within (size + n) (expiredPackets s) (expiredPackets s') /\
  counted_up_within n (queueOverflows s) (queueOverflows s').

(** The same with the increments told apart: [kq] accepted and [ko]
    refused calls of [enqueue], at most [n] together, and [ke] expiries,
    each of an entry that was held or accepted. *)
Definition counters_kept (n : nat) (size : Z) (s : QueueStats)
           (size' : Z) (s' : QueueStats) : Prop :=
  counters_in_range s ->
  exists kq ke ko,
    0 <= kq /\ 0 <= ke /\ 0 <= ko /\ kq + ko <= Z.of_nat n /\
    ke + size' <= size + kq /\
    totalQueued s' = u32 (totalQueued s + kq) /\
    expiredPackets s' = u32 (expiredPackets s + ke) /\
    queueOverflows s' = u32 (queueOverflows s + ko).

Definition fifo_counters_kept (n : nat) (q q' : PacketQueue.t) : Prop :=
  counters_kept n (PacketQueue.size q) (PacketQueue.stats q)
                  (PacketQueue.size q') (PacketQueue.stats q').

(** The operations on the scheduler of RadioInterface.cpp and its queue. *)
Inductive FifoOp : Set :=
| FifoEnqueue (p : PacketPtr)
| FifoDequeue
| FifoCleanExpired
| FifoClear
| FifoDrain (cfg : LoRaConfig)
| FifoSend (cfg : LoRaConfig) (p : MeshPacket).

Definition fifo_step (op : FifoOp) (st : FifoRadio.t) (w : World)
  : option (FifoRadio.t * World) :=
  match op with
  | FifoEnqueue p =>
      let '(_, q, w') := PacketQueue.enqueue p (FifoRadio.packetQueue st) w in
      Some (FifoRadio.with_queue q st, w')
  | FifoDequeue =>
      let '(_, q, w') := PacketQueue.dequeue (FifoRadio.packetQueue st) w in
      Some (FifoRadio.with_queue q st, w')
  | FifoCleanExpired =>
      let '(q, w') := PacketQueue.cleanExpired (FifoRadio.packetQueue st) w in
      Some (FifoRadio.with_queue q st, w')
  | FifoClear => Some (FifoRadio.clearPacketQueue st w)
  | FifoDrain cfg => FifoRadio.processQueuedPackets cfg st w
  | FifoSend cfg p =>
      match FifoRadio.send cfg p st w with
      | None => None
      | Some (_, st', w') => Some (st', w')
      end
  end.

Fixpoint fifo_run (ops : list FifoOp) (st : FifoRadio.t) (w : World)
  : option (FifoRadio.t * World) :=
  match ops with
  | [] => Some (st, w)
  | op :: rest =>
      match fifo_step op st w with
      | None => None
      | Some (st1, w1) => fifo_run rest st1 w1
      end
  end.

(** The operations on the scheduler of RadioInterfaceQueue.cpp and its
    queue. *)
Inductive PrioOp : Set :=
| PrioEnqueue (p : PacketPtr)
| PrioDequeue
| PrioCleanExpired
| PrioClear
| PrioDrain (cfg : LoRaConfig)
| PrioSend (cfg : LoRaConfig) (p : MeshPacket).

(** The schedule of a [TimeWindowConfig] written in the fields of
    [config.lora], with [config.has_lora] set. *)
Definition lora_of (cfg : TimeWindowConfig) : LoRaConfig :=
  mkLoRaConfig true (enabled cfg) (start_hour cfg) (start_minute cfg)
               (end_hour cfg) (end_minute cfg) (window_mode cfg)
               (max_queue_size cfg) (packet_expiry_secs cfg).

(** A schedule with its start and its end exchanged. *)
Definition reversed (cfg : TimeWindowConfig) : TimeWindowConfig :=
  mkTimeWindowConfig (enabled cfg) (end_hour cfg) (end_minute cfg)
                     (start_hour cfg) (start_minute cfg) (window_mode cfg)
                     (max_queue_size cfg) (packet_expiry_secs cfg).

Definition lora_reversed (cfg : LoRaConfig) : LoRaConfig :=
  mkLoRaConfig (has_lora cfg) (time_window_enabled cfg)
               (window_end_hour cfg) (window_end_minute cfg)
               (window_start_hour cfg) (window_start_minute cfg)
               (lora_window_mode cfg) (window_queue_size cfg)
               (window_packet_expire_secs cfg).

(** [n] calls of [dequeue()] in a row on the arrival-order queue, with the
    packets they return. *)
Fixpoint fifo_dequeue_n (n : nat) (q : PacketQueue.t) (w : World)
  : list PacketPtr * PacketQueue.t * World :=
  match n with
  | O => ([], q, w)
  | S n' =>
      let '(p, q1, w1) := PacketQueue.dequeue q w in
      let '(ps, q2, w2) := fifo_dequeue_n n' q1 w1 in
      (p :: ps, q2, w2)
  end.

(** A queue within its bound stays within it, with the bound and the
    expiry it was constructed with. *)
Definition fifo_capacity_kept (q q' : PacketQueue.t) : Prop :=
  PacketQueue.size q <= PacketQueue.maxQueueSize q ->
  PacketQueue.size q' <= PacketQueue.maxQueueSize q' /\
  PacketQueue.maxQueueSize q' = PacketQueue.maxQueueSize q /\
  PacketQueue.packetExpirySeconds q' = PacketQueue.packetExpirySeconds q.


(** [send] called once for each packet of a list, with the results. *)
Fixpoint fifo_send_all (cfg : LoRaConfig) (ps : list MeshPacket) (st : FifoRadio.t)
         (w : World) : option (list ErrorCode * FifoRadio.t * World) :=
  match ps with
  | [] => Some ([], st, w)
  | p :: rest =>
      match FifoRadio.send cfg p st w with
      | None => None
      | Some (r, st1, w1) =>
          match fifo_send_all cfg rest st1 w1 with
          | None => None
          | Some (rs, st2, w2) => Some (r :: rs, st2, w2)
          end
      end
  end.

(** What the calls of RadioInterfaceTime.cpp leave of the world: the
    transmission logs and the clock, which only moves on. *)
Definition inline_frame (w w' : World) : Prop :=
  attempts w' = attempts w /\ handed_over w' = handed_over w /\
  clock w' = clock w /\ (ticks w <= ticks w')%nat.

(** The test of the eviction loop of RadioInterfaceTime.cpp:
    [age >= (config.lora.window_packet_expire_secs * 1000)]. *)
Definition inline_expired (now secs : Z) (it : InlineRadio.PacketQueueEntry) : bool :=
  u32 (now - InlineRadio.enqueue_time it) >=? u32 (secs * 1000).

(** A configuration with other values in [window_queue_size] and
    [window_packet_expire_secs]. *)
Definition with_queue_settings (size secs : Z) (cfg : LoRaConfig) : LoRaConfig :=
  mkLoRaConfig (has_lora cfg) (time_window_enabled cfg)
               (window_start_hour cfg) (window_start_minute cfg)
               (window_end_hour cfg) (window_end_minute cfg)
               (lora_window_mode cfg) size secs.


(** The statistics of a queue holding [size] entries allow an average that
    is no more than the maximum: [totalQueued] counts at least the entries
    held and has not wrapped, and the seconds summed in [totalQueueTime] are
    at most [maxQueueTime] for each accepted packet that is no longer
    held. *)
Definition avg_consistent (size : Z) (s : QueueStats) : Prop :=
  0 <= size <= totalQueued s /\ totalQueued s < 2 ^ 32 /\
  0 <= maxQueueTime s /\
  0 <= totalQueueTime s <= (totalQueued s - size) * maxQueueTime s.

(** The same after operations that accepted at most [k] packets, as long
    as [k] more packets do not wrap [totalQueued]. *)
Definition avg_kept (k : nat) (size : Z) (s : QueueStats) (size' : Z) (s' : QueueStats)
  : Prop :=
  avg_consistent size s -> totalQueued s + Z.of_nat k < 2 ^ 32 ->
  avg_consistent size' s' /\ totalQueued s' <= totalQueued s + Z.of_nat k.

Definition fifo_avg_kept (k : nat) (q q' : PacketQueue.t) : Prop :=
  avg_kept k (PacketQueue.size q) (PacketQueue.stats q)
             (PacketQueue.size q') (PacketQueue.stats q').

(** The packets behind a run of queue entries, in their order; an entry
    made from a null pointer holds none. *)
Definition fifo_packets_of (l : list PacketQueue.QueuedPacket) : list MeshPacket :=
  flat_map (fun it => match PacketQueue.packet it with
                      | Some p => [p]
                      | None => []
                      end) l.

(** A driver that takes every packet: [beginSending] places bytes in the
    radio buffer and [sendTo] reports success. *)
Definition driver_accepts (w : World) : Prop :=
  (forall p, beginSending w p <> 0) /\ (forall n p, sendTo w n p = ERRNO_OK).

(** Window times a clock can show. *)
Definition valid_window (cfg : LoRaConfig) : Prop :=
  0 <= window_start_hour cfg < 24 /\ 0 <= window_start_minute cfg < 60 /\
  0 <= window_end_hour cfg < 24 /\ 0 <= window_end_minute cfg < 60.

(** One of the three modes of the enumeration. *)
Definition valid_mode (m : TimeWindowMode) : Prop :=
  m = DROP_PACKETS \/ m = QUEUE_PACKETS \/ m = RECEIVE_ONLY.

Section CommandLineVocabulary.
Import String.

(** What one [window] command can make of the configuration. *)
Inductive cli_change (argv : list String.string) (cfg : LoRaConfig)
  : TimeWindowCLI.Result -> Prop :=
| cli_unchanged : forall out,
    cli_change argv cfg (TimeWindowCLI.mkResult cfg 0 out)
| cli_enable :
    nth_error argv 1 = Some "enable"%string ->
    cli_change argv cfg
      (TimeWindowCLI.mkResult
         (TimeWindowCLI.set_enabled true (TimeWindowCLI.set_has_lora true cfg)) 1
         [TimeWindowCLI.MsgEnabled])
| cli_disable :
    nth_error argv 1 = Some "disable"%string ->
    cli_change argv cfg
      (TimeWindowCLI.mkResult (TimeWindowCLI.set_enabled false cfg) 1
                              [TimeWindowCLI.MsgDisabled])
| cli_set : forall sh sm eh em,
    nth_error argv 1 = Some "set"%string ->
    0 <= sh < 24 -> 0 <= sm < 60 -> 0 <= eh < 24 -> 0 <= em < 60 ->
    cli_change argv cfg
      (TimeWindowCLI.mkResult
         (TimeWindowCLI.set_window sh sm eh em (TimeWindowCLI.set_has_lora true cfg)) 1
         [TimeWindowCLI.MsgSet sh sm eh em])
| cli_mode : forall m name,
    nth_error argv 1 = Some "mode"%string ->
    valid_mode m ->
    cli_change argv cfg
      (TimeWindowCLI.mkResult (TimeWindowCLI.set_mode m cfg) 1 [TimeWindowCLI.MsgModeSet name])
| cli_queue : forall n,
    nth_error argv 1 = Some "queue"%string ->
    1 <= n <= 100 ->
    cli_change argv cfg
      (TimeWindowCLI.mkResult (TimeWindowCLI.set_queue_size n cfg) 1
                              [TimeWindowCLI.MsgQueueSet n])
| cli_expire : forall n,
    nth_error argv 1 = Some "expire"%string ->
    1 <= n < 2 ^ 31 ->
    cli_change argv cfg
      (TimeWindowCLI.mkResult (TimeWindowCLI.set_expire_secs n cfg) 1
                              [TimeWindowCLI.MsgExpireSet n]).

End CommandLineVocabulary.

Section PriorityVocabulary.
Context {PQ : StdPriorityQueue PriorityPacketQueue.QueuedPacket PriorityPacketQueue.less}.
Variable MAX_PACKETS_PER_CYCLE : Z.
Variable MIN_QUEUE_PROCESS_INTERVAL : Z.
Variable getLastPriority : PriorityPacketQueue.t -> Z.

(** The same run of [enqueue] calls on the priority queue. *)
Fixpoint prio_enqueue_all (ps : list PacketPtr) (q : PriorityPacketQueue.t) (w : World)
  : PriorityPacketQueue.t * World :=
  match ps with
  | [] => (q, w)
  | p :: rest =>
      let '(_, q1, w1) := PriorityPacketQueue.enqueue p q w in prio_enqueue_all rest q1 w1
  end.

(** [n] calls of [dequeue()] in a row, with the packets they return. *)
Fixpoint prio_dequeue_n (n : nat) (q : PriorityPacketQueue.t) (w : World)
  : list PacketPtr * PriorityPacketQueue.t * World :=
  match n with
  | O => ([], q, w)
  | S n' =>
      let '(p, q1, w1) := PriorityPacketQueue.dequeue q w in
      let '(ps, q2, w2) := prio_dequeue_n n' q1 w1 in
      (p :: ps, q2, w2)
  end.

(** One budgeted drain cycle as a relation: the state, the local
    [packetsProcessed] and the world before and after. *)
Inductive prio_cycle (startTime : Z)
  : PriorityRadio.t -> Z -> World -> PriorityRadio.t -> Z -> World -> Prop :=
| prio_cycle_done : forall st n w,
    PriorityPacketQueue.empty (PriorityRadio.priorityQueue st) = true ->
    prio_cycle startTime st n w st n w
| prio_cycle_out_of_time : forall st n w,
    PriorityPacketQueue.empty (PriorityRadio.priorityQueue st) = false ->
    u32 (fst (millis w) - startTime) >= PriorityRadio.maxProcessTime ->
    prio_cycle startTime st n w st n (snd (millis w))
| prio_cycle_out_of_budget : forall st n w,
    PriorityPacketQueue.empty (PriorityRadio.priorityQueue st) = false ->
    u32 (fst (millis w) - startTime) < PriorityRadio.maxProcessTime ->
    n >= MAX_PACKETS_PER_CYCLE ->
    prio_cycle startTime st n w st n (snd (millis w))
| prio_cycle_null : forall st n w q1 w1 st' n' w',
    PriorityPacketQueue.empty (PriorityRadio.priorityQueue st) = false ->
    u32 (fst (millis w) - startTime) < PriorityRadio.maxProcessTime ->
    n < MAX_PACKETS_PER_CYCLE ->
    PriorityPacketQueue.dequeue (PriorityRadio.priorityQueue st) (snd (millis w))
      = (None, q1, w1) ->
    prio_cycle startTime (PriorityRadio.with_queue q1 st) n w1 st' n' w' ->
    prio_cycle startTime st n w st' n' w'
| prio_cycle_sent : forall st n w p q1 w1 w2 st' n' w',
    PriorityPacketQueue.empty (PriorityRadio.priorityQueue st) = false ->
    u32 (fst (millis w) - startTime) < PriorityRadio.maxProcessTime ->
    n < MAX_PACKETS_PER_CYCLE ->
    PriorityPacketQueue.dequeue (PriorityRadio.priorityQueue st) (snd (millis w))
      = (Some p, q1, w1) ->
    sendPacket (PriorityRadio.disabled st) p w1 = (ERRNO_OK, w2) ->
    prio_cycle startTime
      (PriorityRadio.with_metrics
         (PriorityRadio.count_sent (getLastPriority q1 >? 2)
                                   (PriorityRadio.metrics st))
         (PriorityRadio.with_queue q1 st))
      (u32 (n + 1)) w2 st' n' w' ->
    prio_cycle startTime st n w st' n' w'
| prio_cycle_requeued : forall st n w p q1 w1 r w2 q2 w3,
    PriorityPacketQueue.empty (PriorityRadio.priorityQueue st) = false ->
    u32 (fst (millis w) - startTime) < PriorityRadio.maxProcessTime ->
    n < MAX_PACKETS_PER_CYCLE ->
    PriorityPacketQueue.dequeue (PriorityRadio.priorityQueue st) (snd (millis w))
      = (Some p, q1, w1) ->
    sendPacket (PriorityRadio.disabled st) p w1 = (r, w2) ->
    r <> ERRNO_OK ->
    PriorityPacketQueue.enqueue (Some p) q1 w2 = (true, q2, w3) ->
    prio_cycle startTime st n w
      (PriorityRadio.with_queue q2 (PriorityRadio.with_queue q1 st)) n w3
| prio_cycle_dropped : forall st n w p q1 w1 r w2 q2 w3,
    PriorityPacketQueue.empty (PriorityRadio.priorityQueue st) = false ->
    u32 (fst (millis w) - startTime) < PriorityRadio.maxProcessTime ->
    n < MAX_PACKETS_PER_CYCLE ->
    PriorityPacketQueue.dequeue (PriorityRadio.priorityQueue st) (snd (millis w))
      = (Some p, q1, w1) ->
    sendPacket (PriorityRadio.disabled st) p w1 = (r, w2) ->
    r <> ERRNO_OK ->
    PriorityPacketQueue.enqueue (Some p) q1 w2 = (false, q2, w3) ->
    prio_cycle startTime st n w
      (PriorityRadio.with_metrics
         (PriorityRadio.count_drop (PriorityRadio.metrics (PriorityRadio.with_queue q1 st)))
         (PriorityRadio.with_queue q2 (PriorityRadio.with_queue q1 st)))
      n (release (Some p) w3).

Definition prio_step (op : PrioOp) (st : PriorityRadio.t) (w : World)
  : option (PriorityRadio.t * World) :=
  match op with
  | PrioEnqueue p =>
      let '(_, q, w') := PriorityPacketQueue.enqueue p (PriorityRadio.priorityQueue st) w in
      Some (PriorityRadio.with_queue q st, w')
  | PrioDequeue =>
      let '(_, q, w') := PriorityPacketQueue.dequeue (PriorityRadio.priorityQueue st) w in
      Some (PriorityRadio.with_queue q st, w')
  | PrioCleanExpired =>
      match PriorityPacketQueue.cleanExpired (PriorityRadio.priorityQueue st) w with
      | None => None
      | Some (q, w') => Some (PriorityRadio.with_queue q st, w')
      end
  | PrioClear => PriorityRadio.clearPacketQueue st w
  | PrioDrain cfg =>
      match PriorityRadio.processQueuedPackets MAX_PACKETS_PER_CYCLE getLastPriority
              cfg st w with
      | None => None
      | Some (st', _, w') => Some (st', w')
      end
  | PrioSend cfg p =>
      match PriorityRadio.send MAX_PACKETS_PER_CYCLE MIN_QUEUE_PROCESS_INTERVAL
              getLastPriority cfg p st w with
      | None => None
      | Some (_, st', w') => Some (st', w')
      end
  end.

Fixpoint prio_run (ops : list PrioOp) (st : PriorityRadio.t) (w : World)
  : option (PriorityRadio.t * World) :=
  match ops with
  | [] => Some (st, w)
  | op :: rest =>
      match prio_step op st w with
      | None => None
      | Some (st1, w1) => prio_run rest st1 w1
      end
  end.

(** Every entry carries the score of its own packet, as the constructor
    [QueuedPacket(p, time)] leaves it. *)
Definition prio_scored (q : PriorityPacketQueue.t) : Prop :=
  Forall (fun e => PriorityPacketQueue.priority e
                   = PriorityPacketQueue.calculatePriority (PriorityPacketQueue.packet e))
         (pq_elems (PriorityPacketQueue.packets q)).

(** The capacity bound of the priority queue, kept as for the arrival-order
    queue. *)
Definition prio_capacity_kept (q q' : PriorityPacketQueue.t) : Prop :=
  PriorityPacketQueue.size q <= PriorityPacketQueue.maxQueueSize q ->
  PriorityPacketQueue.size q' <= PriorityPacketQueue.maxQueueSize q' /\
  PriorityPacketQueue.maxQueueSize q' = PriorityPacketQueue.maxQueueSize q /\
  PriorityPacketQueue.packetExpirySeconds q' = PriorityPacketQueue.packetExpirySeconds q.

Definition prio_counters_kept (n : nat) (q q' : PriorityPacketQueue.t) : Prop :=
  counters_kept n (PriorityPacketQueue.size q) (PriorityPacketQueue.stats q)
                  (PriorityPacketQueue.size q') (PriorityPacketQueue.stats q').

Definition prio_avg_kept (k : nat) (q q' : PriorityPacketQueue.t) : Prop :=
  avg_kept k (PriorityPacketQueue.size q) (PriorityPacketQueue.stats q)
             (PriorityPacketQueue.size q') (PriorityPacketQueue.stats q').

End PriorityVocabulary.

(** * Nodes, queues and clocks of the examples *)

(** The window 22:00-04:00 of the boundary cases, in both configuration
    records, and a world whose clock shows a given time of day. *)
Definition night_window : TimeWindowConfig :=
  mkTimeWindowConfig true 22 0 4 0 QUEUE_PACKETS 32 3600.

Definition night_lora : LoRaConfig :=
  mkLoRaConfig true true 22 0 4 0 QUEUE_PACKETS 32 3600.

Definition millis_at (hour minute : Z) : Z := (hour * 3600 + minute * 60) * 1000.

Definition world_at (ms : Z) : World :=
  mkWorld (fun _ => ms) 0 [] (fun _ => 1) (fun _ _ => ERRNO_OK) [] [].

(** A world whose clock returns the given readings, one per call. *)
Definition world_reading (readings : list Z) : World :=
  mkWorld (fun n => nth n readings 0) 0 [] (fun _ => 1) (fun _ _ => ERRNO_OK) [] [].

(** A packet of the tests: [createTestPacket(id)]. *)
Definition test_packet (n : Z) : MeshPacket :=
  mkPacket n false Priority_DEFAULT payload_none 1.

Definition seven_packets : list PacketPtr :=
  map (fun n => Some (test_packet n)) [0; 1; 2; 3; 4; 5; 6].

(** A queue of capacity one that holds one packet. *)
Definition fifo_full_queue : PacketQueue.t :=
  PacketQueue.mk [PacketQueue.mkQueuedPacket (Some (test_packet 0)) 0]
                 (mkQueueStats 1 0 0 0 0) 1 3600.

(** Packets of score 2 (position report), 5 (emergency report), 1 (plain)
    and 4 (reliable tier). *)
Definition packet_score2 : MeshPacket :=
  mkPacket 1 false Priority_DEFAULT (payload_decoded PortNum_POSITION_APP) 1.
Definition packet_score5 : MeshPacket :=
  mkPacket 2 false Priority_DEFAULT (payload_decoded PortNum_EMERGENCY_APP) 1.
Definition packet_score1 : MeshPacket :=
  mkPacket 3 false Priority_DEFAULT payload_none 1.
Definition packet_score4 : MeshPacket :=
  mkPacket 4 false Priority_RELIABLE payload_none 1.

(** A node with the window 09:00-17:00 in [DROP_PACKETS] mode, at 20:00. *)
Definition day_lora (mode : TimeWindowMode) : LoRaConfig :=
  mkLoRaConfig true true 9 0 17 0 mode 32 3600.

Definition firmware_day_drop : Firmware.t :=
  Firmware.mk (day_lora DROP_PACKETS) FifoRadio.init TimeWindowPlugin.init.

(** A radio whose driver refuses every packet, and a scheduler of
    RadioInterface.cpp holding one packet. *)
Definition world_failing (ms : Z) : World :=
  mkWorld (fun _ => ms) 0 [] (fun _ => 1) (fun _ _ => ERRNO_UNKNOWN) [] [].

Definition fifo_one_queued : FifoRadio.t :=
  FifoRadio.mk
    (PacketQueue.mk [PacketQueue.mkQueuedPacket (Some (test_packet 7)) 0]
                    (mkQueueStats 1 0 0 0 0) 32 3600)
    false.

(** The scheduler of RadioInterface.cpp holding one packet enqueued at
    20:00, outside the window 09:00-17:00. *)
Definition fifo_queued_at_night : FifoRadio.t :=
  FifoRadio.mk
    (PacketQueue.mk [PacketQueue.mkQueuedPacket (Some (test_packet 7)) (millis_at 20 0)]
                    (mkQueueStats 1 0 0 0 0) 32 3600)
    false.

(** A scheduler of RadioInterface.cpp holding two fresh packets, and a
    clock that advances one second between two readings. *)
Definition fifo_two_queued : FifoRadio.t :=
  FifoRadio.mk
    (PacketQueue.mk [PacketQueue.mkQueuedPacket (Some (test_packet 1)) 0;
                     PacketQueue.mkQueuedPacket (Some (test_packet 2)) 0]
                    (mkQueueStats 2 0 0 0 0) 32 3600)
    false.

Definition world_slow : World :=
  mkWorld (fun n => 1000 * Z.of_nat n) 0 [] (fun _ => 1) (fun _ _ => ERRNO_OK) [] [].

(** A scheduler of RadioInterfaceQueue.cpp on the list implementation of
    the container, holding three packets. *)
Definition prio_three_queued : PriorityRadio.t (PQ := packetListPQ) :=
  PriorityRadio.mk
    (PriorityPacketQueue.mk (PQ := packetListPQ)
       [PriorityPacketQueue.QueuedPacket_new (Some (test_packet 1)) 0;
        PriorityPacketQueue.QueuedPacket_new (Some (test_packet 2)) 0;
        PriorityPacketQueue.QueuedPacket_new (Some (test_packet 3)) 0]
       (mkQueueStats 3 0 0 0 0) 32 3600)
    (PriorityRadio.mkQueueMetrics 0 0 0 0) false.

(** A queue whose [totalQueued] stands at [2^32 - 1]. *)
Definition fifo_counter_at_max : PacketQueue.t :=
  PacketQueue.mk [] (mkQueueStats 4294967295 0 0 0 0) 32 3600.

(** The scheduler of RadioInterface.cpp over the full queue of capacity
    one. *)
Definition fifo_full_radio : FifoRadio.t := FifoRadio.mk fifo_full_queue false.



(** A mesh service that takes a payload and leaves the radio and the world
    as they are, on a platform whose clock shows midnight. *)
Definition framework_idle : TimeWindowPlugin.MeshFramework FifoRadio.t :=
  {| TimeWindowPlugin.sendPayload := fun _ _ radio w => (radio, w);
     TimeWindowPlugin.getTime := fun _ => 0;
     TimeWindowPlugin.localtime := fun _ => (0, 0);
     TimeWindowPlugin.calculateNextTransition := fun _ _ _ _ => 0 |}.

(** The verdict of [isOperationAllowed] at a clock reading. *)
Definition allowed_at (cfg : LoRaConfig) (ms : Z) : bool :=
  fst (isOperationAllowed cfg (world_at ms)).

Section CommandLineSamples.
Import String.

(** A C library that reads two times and two numbers, for the examples. *)
Definition sscanf_sample (s : string) : option (Z * Z) :=
  if String.eqb s "22:00" then Some (22, 0)
  else if String.eqb s "04:00" then Some (4, 0)
  else if String.eqb s "24:00" then Some (24, 0)
  else None.

Definition atoi_sample (s : string) : Z :=
  if String.eqb s "50" then 50
  else if String.eqb s "600" then 600
  else 0.

(** A session at the console: set the window, pick the queue mode, a queue
    size out of range, enable, and ask for the status. *)
Definition sample_session : list (list string) :=
  [["window"; "set"; "22:00"; "04:00"];
   ["window"; "mode"; "queue"];
   ["window"; "queue"; "600"];
   ["window"; "enable"];
   ["window"; "status"]]%string.

End CommandLineSamples.

(** * Properties *)

(** ** Machine integers *)

Lemma u32_small : forall x, 0 <= x < 2 ^ 32 -> u32 x = x.
Proof. intros x H. unfold u32. apply Z.mod_small. exact H. Qed.

Lemma u32_range : forall x, 0 <= u32 x < 2 ^ 32.
Proof. intros x. unfold u32. apply Z.mod_pos_bound. reflexivity. Qed.

Lemma i32_small : forall x, - 2 ^ 31 <= x < 2 ^ 31 -> i32 x = x.
Proof.
  intros x H. unfold i32.
  rewrite Z.mod_small; [ring | ].
  change (2 ^ 32) with (2 ^ 31 + 2 ^ 31). lia.
Qed.

Lemma u8_small : forall x, 0 <= x < 2 ^ 8 -> u8 x = x.
Proof. intros x H. unfold u8. apply Z.mod_small. exact H. Qed.

Lemma hour_of_millis_range : forall ms, 0 <= hour_of_millis ms < 24.
Proof.
  intros ms. unfold hour_of_millis.
  pose proof (Z.mod_pos_bound (ms / 1000) (24 * 3600) ltac:(lia)) as H.
  split.
  - apply Z.div_pos; lia.
  - apply Z.div_lt_upper_bound; lia.
Qed.

Lemma minute_of_millis_range : forall ms, 0 <= minute_of_millis ms < 60.
Proof.
  intros ms. unfold minute_of_millis.
  pose proof (Z.mod_pos_bound ((ms / 1000) mod (24 * 3600)) 3600 ltac:(lia)) as H.
  split.
  - apply Z.div_pos; lia.
  - apply Z.div_lt_upper_bound; lia.
Qed.

(** Boolean comparisons to propositions. *)
Ltac bool_to_prop :=
  rewrite ?andb_true_iff, ?orb_true_iff, ?negb_true_iff,
          ?Z.geb_le, ?Z.ltb_lt, ?Z.leb_le, ?Z.gtb_lt, ?Z.eqb_eq.

(** ** The window check *)

Section WindowCheck.

Lemma isTimeInWindow_spec : forall cfg hour minute,
  is_u8 (start_hour cfg) -> is_u8 (start_minute cfg) ->
  is_u8 (end_hour cfg) -> is_u8 (end_minute cfg) ->
  0 <= hour < 24 -> 0 <= minute < 60 ->
  TimeWindow.isTimeInWindow cfg hour minute =
  let current := hour * 60 + minute in
  let start := start_hour cfg * 60 + start_minute cfg in
  let end_ := end_hour cfg * 60 + end_minute cfg in
  if start <=? end_
  then (current >=? start) && (current <? end_)
  else (current >=? start) || (current <? end_).
Proof.
  unfold is_u8. intros cfg hour minute Hsh Hsm Heh Hem Hh Hm.
  change (2 ^ 8) with 256 in *.
  unfold TimeWindow.isTimeInWindow.
  assert (B : 2 ^ 31 = 2147483648) by reflexivity.
  rewrite !(i32_small (_ * 60)) by (rewrite B; lia).
  rewrite !i32_small by (rewrite B; lia).
  reflexivity.
Qed.

Lemma isOperationAllowed_spec : forall cfg w,
  has_lora cfg = true -> time_window_enabled cfg = true ->
  0 <= window_start_hour cfg < 24 -> 0 <= window_start_minute cfg < 60 ->
  0 <= window_end_hour cfg < 24 -> 0 <= window_end_minute cfg < 60 ->
  fst (isOperationAllowed cfg w) =
  let ms := u32 (clock w (ticks w)) in
  let current := hour_of_millis ms * 60 + minute_of_millis ms in
  let start := window_start_hour cfg * 60 + window_start_minute cfg in
  let end_ := window_end_hour cfg * 60 + window_end_minute cfg in
  if start <=? end_
  then (current >=? start) && (current <? end_)
  else (current >=? start) || (current <? end_).
Proof.
  intros cfg w Hl He Hsh Hsm Heh Hem.
  unfold isOperationAllowed. rewrite Hl, He.
  cbv beta iota zeta delta [negb orb fst millis].
  set (ms := u32 (clock w (ticks w))).
  pose proof (hour_of_millis_range ms) as Hh.
  pose proof (minute_of_millis_range ms) as Hm.
  fold (hour_of_millis ms). fold (minute_of_millis ms).
  assert (B : 2 ^ 31 = 2147483648) by reflexivity.
  assert (B' : 2 ^ 32 = 4294967296) by reflexivity.
  rewrite !(u32_small (_ * 60)) by (rewrite B'; lia).
  rewrite !u32_small by (rewrite B'; lia).
  rewrite (i32_small (hour_of_millis ms)) by (rewrite B; lia).
  rewrite (i32_small (minute_of_millis ms)) by (rewrite B; lia).
  rewrite !(i32_small (_ * 60)) by (rewrite B; lia).
  rewrite !i32_small by (rewrite B; lia).
  reflexivity.
Qed.

End WindowCheck.

(** C1. With [current = hour*60 + minute], [start] and [end] in minutes since
    midnight: for a same-day window ([start <= end]) the check is true
    exactly when [start <= current < end]; for a window spanning midnight
    ([start > end]) exactly when [current >= start] or [current < end].
    This holds of [isTimeInWindow] at every wall-clock hour and minute, and
    of [isOperationAllowed] under an enabled configuration at the hour and
    minute its clock reading shows.  For 22:00-04:00 both are open at 23:59,
    00:00, 03:59 and 22:00 and closed at 04:00 and 21:59. *)
Theorem C1_window_check :
  (forall cfg hour minute,
     is_u8 (start_hour cfg) -> is_u8 (start_minute cfg) ->
     is_u8 (end_hour cfg) -> is_u8 (end_minute cfg) ->
     0 <= hour < 24 -> 0 <= minute < 60 ->
     let current := hour * 60 + minute in
     let start := start_hour cfg * 60 + start_minute cfg in
     let end_ := end_hour cfg * 60 + end_minute cfg in
     (start <= end_ ->
      (TimeWindow.isTimeInWindow cfg hour minute = true <-> start <= current < end_)) /\
     (start > end_ ->
      (TimeWindow.isTimeInWindow cfg hour minute = true <-> current >= start \/ current < end_)))
  /\
  (forall cfg w,
     has_lora cfg = true -> time_window_enabled cfg = true ->
     0 <= window_start_hour cfg < 24 -> 0 <= window_start_minute cfg < 60 ->
     0 <= window_end_hour cfg < 24 -> 0 <= window_end_minute cfg < 60 ->
     let ms := u32 (clock w (ticks w)) in
     let current := hour_of_millis ms * 60 + minute_of_millis ms in
     let start := window_start_hour cfg * 60 + window_start_minute cfg in
     let end_ := window_end_hour cfg * 60 + window_end_minute cfg in
     (start <= end_ ->
      (fst (isOperationAllowed cfg w) = true <-> start <= current < end_)) /\
     (start > end_ ->
      (fst (isOperationAllowed cfg w) = true <-> current >= start \/ current < end_)))
  /\
  (TimeWindow.isTimeInWindow night_window 23 59 = true /\
   TimeWindow.isTimeInWindow night_window 0 0 = true /\
   TimeWindow.isTimeInWindow night_window 3 59 = true /\
   TimeWindow.isTimeInWindow night_window 22 0 = true /\
   TimeWindow.isTimeInWindow night_window 4 0 = false /\
   TimeWindow.isTimeInWindow night_window 21 59 = false)
  /\
  (fst (isOperationAllowed night_lora (world_at (millis_at 23 59))) = true /\
   fst (isOperationAllowed night_lora (world_at (millis_at 0 0))) = true /\
   fst (isOperationAllowed night_lora (world_at (millis_at 3 59))) = true /\
   fst (isOperationAllowed night_lora (world_at (millis_at 22 0))) = true /\
   fst (isOperationAllowed night_lora (world_at (millis_at 4 0))) = false /\
   fst (isOperationAllowed night_lora (world_at (millis_at 21 59))) = false).
Proof.
  split; [ | split; [ | split ] ].
  - intros cfg hour minute Hsh Hsm Heh Hem Hh Hm current start end_.
    rewrite (isTimeInWindow_spec cfg hour minute Hsh Hsm Heh Hem Hh Hm).
    cbv zeta. fold current start end_.
    split; intros Hord.
    + destruct (Z.leb_spec start end_) as [_ | Hgt]; [ | lia ].
      bool_to_prop. lia.
    + destruct (Z.leb_spec start end_) as [Hle | _]; [ lia | ].
      bool_to_prop. lia.
  - intros cfg w Hl He Hsh Hsm Heh Hem ms current start end_.
    rewrite (isOperationAllowed_spec cfg w Hl He Hsh Hsm Heh Hem).
    cbv zeta. fold ms. fold current start end_.
    split; intros Hord.
    + destruct (Z.leb_spec start end_) as [_ | Hgt]; [ | lia ].
      bool_to_prop. lia.
    + destruct (Z.leb_spec start end_) as [Hle | _]; [ lia | ].
      bool_to_prop. lia.
  - repeat split; vm_compute; reflexivity.
  - repeat split; vm_compute; reflexivity.
Qed.

(** The general statements of C1 at the window 22:00-04:00 and 23:59. *)
Lemma C1_window_check_witness :
  (TimeWindow.isTimeInWindow night_window 23 59 = true <->
   23 * 60 + 59 >= 22 * 60 + 0 \/ 23 * 60 + 59 < 4 * 60 + 0) /\
  (fst (isOperationAllowed night_lora (world_at (millis_at 23 59))) = true <->
   23 * 60 + 59 >= 22 * 60 + 0 \/ 23 * 60 + 59 < 4 * 60 + 0).
Proof.
  split.
  - refine (proj2 (proj1 C1_window_check night_window 23 59 _ _ _ _ _ _) _);
      vm_compute; try split; congruence.
  - refine (proj2 (proj1 (proj2 C1_window_check) night_lora
                         (world_at (millis_at 23 59)) _ _ _ _ _ _) _);
      vm_compute; try split; congruence.
Defined.

(** ** Consequences of the container contract *)

Lemma Permutation_filter : forall (A : Type) (f : A -> bool) (l l' : list A),
  Permutation l l' -> Permutation (filter f l) (filter f l').
Proof.
  intros A f l l' H. induction H; simpl.
  - constructor.
  - destruct (f x); [constructor | ]; assumption.
  - destruct (f x), (f y); first [apply perm_swap | apply Permutation_refl].
  - eapply perm_trans; eassumption.
Qed.

Section ContainerFacts.
Context {T : Type} {less : T -> T -> bool} {PQ : StdPriorityQueue T less}.

Lemma pq_empty_true : forall q : pq, pq_empty q = true <-> pq_elems q = [].
Proof.
  intros q. unfold pq_empty. destruct (pq_elems q); split; congruence.
Qed.

Lemma pq_empty_size : forall q : pq, pq_empty q = true <-> pq_size q = O.
Proof.
  intros q. unfold pq_empty, pq_size. destruct (pq_elems q); simpl; split; congruence.
Qed.

Lemma pq_nonempty_top : forall q : pq, pq_empty q = false -> exists x, pq_top q = Some x.
Proof.
  intros q H. destruct (pq_top q) as [x | ] eqn:E; [eauto | ].
  apply pq_top_none in E. apply pq_empty_true in E. congruence.
Qed.

Lemma pq_size_pop : forall (q : pq) x, pq_top q = Some x ->
  pq_size q = S (pq_size (pq_pop q)).
Proof.
  intros q x H. unfold pq_size.
  rewrite (Permutation_length (pq_pop_elems q x H)). reflexivity.
Qed.

Lemma pq_size_push : forall (q : pq) x, pq_size (pq_push x q) = S (pq_size q).
Proof.
  intros q x. unfold pq_size.
  rewrite (Permutation_length (pq_push_elems x q)). reflexivity.
Qed.

Lemma pq_size_new : pq_size pq_new = O.
Proof. unfold pq_size. rewrite pq_new_elems. reflexivity. Qed.

End ContainerFacts.

(** ** Dequeue from an empty queue *)

Lemma fifo_dequeue_empty : forall q w,
  PacketQueue.empty q = true -> PacketQueue.dequeue q w = (None, q, w).
Proof.
  intros q w H. unfold PacketQueue.dequeue, PacketQueue.empty in *.
  destruct (PacketQueue.packets q); [reflexivity | discriminate].
Qed.

Lemma fifo_empty_size : forall q, PacketQueue.empty q = true <-> PacketQueue.size q = 0.
Proof.
  intros q. unfold PacketQueue.empty, PacketQueue.size.
  destruct (PacketQueue.packets q); simpl length; split; intros; try reflexivity;
    try discriminate; lia.
Qed.

Section PriorityQueueBasics.
Context {PQ : StdPriorityQueue PriorityPacketQueue.QueuedPacket PriorityPacketQueue.less}.

Lemma prio_dequeue_empty : forall (q : PriorityPacketQueue.t) w,
  PriorityPacketQueue.empty q = true -> PriorityPacketQueue.dequeue q w = (None, q, w).
Proof.
  intros q w H. unfold PriorityPacketQueue.dequeue. rewrite H. reflexivity.
Qed.

Lemma prio_empty_size : forall q : PriorityPacketQueue.t,
  PriorityPacketQueue.empty q = true <-> PriorityPacketQueue.size q = 0.
Proof.
  intros q. unfold PriorityPacketQueue.empty, PriorityPacketQueue.size.
  rewrite pq_empty_size. lia.
Qed.

End PriorityQueueBasics.

(** C10. For both strategies [dequeue()] on an empty queue returns
    [nullptr] and leaves the queue (content, occupancy zero and all five
    statistics fields) and the world outside (clock, pool, radio) as they
    were. *)
Theorem C10_dequeue_empty_noop :
  (forall q w, PacketQueue.empty q = true ->
     PacketQueue.dequeue q w = (None, q, w) /\ PacketQueue.size q = 0)
  /\
  (forall (PQ : StdPriorityQueue PriorityPacketQueue.QueuedPacket PriorityPacketQueue.less)
          (q : PriorityPacketQueue.t) w,
     PriorityPacketQueue.empty q = true ->
     PriorityPacketQueue.dequeue q w = (None, q, w) /\ PriorityPacketQueue.size q = 0).
Proof.
  split.
  - intros q w H. split; [apply fifo_dequeue_empty | apply fifo_empty_size]; exact H.
  - intros PQ q w H. split; [apply prio_dequeue_empty | apply prio_empty_size]; exact H.
Qed.

(** C10 at the freshly constructed queues. *)
Lemma C10_dequeue_empty_noop_witness :
  PacketQueue.dequeue (PacketQueue.create 32 3600) (world_at 0)
    = (None, PacketQueue.create 32 3600, world_at 0)
  /\
  PriorityPacketQueue.dequeue (PriorityPacketQueue.create (PQ := packetListPQ) 32 3600)
                              (world_at 0)
    = (None, PriorityPacketQueue.create 32 3600, world_at 0).
Proof.
  split.
  - exact (proj1 (proj1 C10_dequeue_empty_noop (PacketQueue.create 32 3600)
                        (world_at 0) eq_refl)).
  - exact (proj1 (proj2 C10_dequeue_empty_noop packetListPQ
                        (PriorityPacketQueue.create 32 3600) (world_at 0) eq_refl)).
Defined.

(** ** Enqueue and the capacity bound *)

Lemma count_overflow_only : forall s, only_overflow_counted s (count_overflow s).
Proof. intros s. repeat split. Qed.

Lemma count_queued_only : forall s, only_queued_counted s (count_queued s).
Proof. intros s. repeat split. Qed.

Lemma u32_add_u32_l : forall a b, u32 (u32 a + b) = u32 (a + b).
Proof. intros a b. unfold u32. apply Zplus_mod_idemp_l. Qed.

Lemma fifo_enqueue_full : forall p q w,
  PacketQueue.size q >= PacketQueue.maxQueueSize q ->
  PacketQueue.enqueue p q w =
  (false, PacketQueue.with_stats (count_overflow (PacketQueue.stats q)) q, w).
Proof.
  intros p q w H. unfold PacketQueue.enqueue.
  destruct (Z.geb_spec (PacketQueue.size q) (PacketQueue.maxQueueSize q)); [reflexivity | lia].
Qed.

Lemma fifo_enqueue_room : forall p q w,
  PacketQueue.size q < PacketQueue.maxQueueSize q ->
  PacketQueue.enqueue p q w =
  (true,
   PacketQueue.with_stats (count_queued (PacketQueue.stats q))
     (PacketQueue.with_packets
        (PacketQueue.packets q ++ [PacketQueue.mkQueuedPacket p (u32 (clock w (ticks w)))]) q),
   snd (millis w)).
Proof.
  intros p q w H. unfold PacketQueue.enqueue.
  destruct (Z.geb_spec (PacketQueue.size q) (PacketQueue.maxQueueSize q)); [lia | reflexivity].
Qed.

Lemma fifo_enqueue_all_spec : forall ps q w,
  PacketQueue.size q <= PacketQueue.maxQueueSize q ->
  is_u32 (totalQueued (PacketQueue.stats q)) ->
  is_u32 (queueOverflows (PacketQueue.stats q)) ->
  let q' := fst (fifo_enqueue_all ps q w) in
  let n := Z.of_nat (length ps) in
  let accepted := Z.min n (PacketQueue.maxQueueSize q - PacketQueue.size q) in
  PacketQueue.size q' = PacketQueue.size q + accepted /\
  PacketQueue.maxQueueSize q' = PacketQueue.maxQueueSize q /\
  totalQueued (PacketQueue.stats q') = u32 (totalQueued (PacketQueue.stats q) + accepted) /\
  queueOverflows (PacketQueue.stats q') =
    u32 (queueOverflows (PacketQueue.stats q) + (n - accepted)).
Proof.
  induction ps as [ | p rest IH]; intros q w Hsz Htq Hov; cbv zeta.
  - cbn [fifo_enqueue_all fst length]. change (Z.of_nat 0) with 0.
    rewrite Z.min_l by lia. change (0 - 0) with 0. rewrite !Z.add_0_r.
    rewrite !u32_small by assumption. repeat split; reflexivity.
  - cbn [fifo_enqueue_all length].
    destruct (Z_lt_ge_dec (PacketQueue.size q) (PacketQueue.maxQueueSize q)) as [Hroom | Hfull].
    + rewrite (fifo_enqueue_room p q w Hroom).
      match goal with |- context [fifo_enqueue_all rest ?q1 ?w1] =>
        specialize (IH q1 w1) end.
      cbv zeta in IH.
      unfold PacketQueue.size in *. cbn [PacketQueue.with_stats PacketQueue.with_packets
        PacketQueue.packets PacketQueue.stats PacketQueue.maxQueueSize count_queued
        totalQueued queueOverflows] in *.
      rewrite length_app in IH. cbn [length] in IH.
      destruct IH as (I1 & I2 & I3 & I4);
        [lia | apply u32_range | assumption | ].
      rewrite I1, I2, I3, I4. rewrite u32_add_u32_l.
      repeat split; first [lia | apply (f_equal u32); lia].
    + rewrite (fifo_enqueue_full p q w Hfull).
      match goal with |- context [fifo_enqueue_all rest ?q1 ?w1] =>
        specialize (IH q1 w1) end.
      cbv zeta in IH.
      unfold PacketQueue.size in *. cbn [PacketQueue.with_stats PacketQueue.with_packets
        PacketQueue.packets PacketQueue.stats PacketQueue.maxQueueSize count_overflow
        totalQueued queueOverflows] in *.
      destruct IH as (I1 & I2 & I3 & I4);
        [lia | assumption | apply u32_range | ].
      rewrite I1, I2, I3, I4. rewrite u32_add_u32_l.
      repeat split; first [lia | apply (f_equal u32); lia].
Qed.

Section PriorityEnqueue.
Context {PQ : StdPriorityQueue PriorityPacketQueue.QueuedPacket PriorityPacketQueue.less}.

Lemma prio_enqueue_full : forall p (q : PriorityPacketQueue.t) w,
  PriorityPacketQueue.size q >= PriorityPacketQueue.maxQueueSize q ->
  PriorityPacketQueue.enqueue p q w =
  (false, PriorityPacketQueue.with_stats (count_overflow (PriorityPacketQueue.stats q)) q, w).
Proof.
  intros p q w H. unfold PriorityPacketQueue.enqueue.
  destruct (Z.geb_spec (PriorityPacketQueue.size q) (PriorityPacketQueue.maxQueueSize q));
    [reflexivity | lia].
Qed.

Lemma prio_enqueue_room : forall p (q : PriorityPacketQueue.t) w,
  PriorityPacketQueue.size q < PriorityPacketQueue.maxQueueSize q ->
  PriorityPacketQueue.enqueue p q w =
  (true,
   PriorityPacketQueue.with_stats (count_queued (PriorityPacketQueue.stats q))
     (PriorityPacketQueue.with_packets
        (pq_push (PriorityPacketQueue.QueuedPacket_new p (u32 (clock w (ticks w))))
                 (PriorityPacketQueue.packets q)) q),
   snd (millis w)).
Proof.
  intros p q w H. unfold PriorityPacketQueue.enqueue.
  destruct (Z.geb_spec (PriorityPacketQueue.size q) (PriorityPacketQueue.maxQueueSize q));
    [lia | reflexivity].
Qed.

Lemma prio_enqueue_all_spec : forall ps (q : PriorityPacketQueue.t) w,
  PriorityPacketQueue.size q <= PriorityPacketQueue.maxQueueSize q ->
  is_u32 (totalQueued (PriorityPacketQueue.stats q)) ->
  is_u32 (queueOverflows (PriorityPacketQueue.stats q)) ->
  let q' := fst (prio_enqueue_all ps q w) in
  let n := Z.of_nat (length ps) in
  let accepted := Z.min n (PriorityPacketQueue.maxQueueSize q - PriorityPacketQueue.size q) in
  PriorityPacketQueue.size q' = PriorityPacketQueue.size q + accepted /\
  PriorityPacketQueue.maxQueueSize q' = PriorityPacketQueue.maxQueueSize q /\
  totalQueued (PriorityPacketQueue.stats q') =
    u32 (totalQueued (PriorityPacketQueue.stats q) + accepted) /\
  queueOverflows (PriorityPacketQueue.stats q') =
    u32 (queueOverflows (PriorityPacketQueue.stats q) + (n - accepted)).
Proof.
  induction ps as [ | p rest IH]; intros q w Hsz Htq Hov; cbv zeta.
  - cbn [prio_enqueue_all fst length]. change (Z.of_nat 0) with 0.
    rewrite Z.min_l by lia. change (0 - 0) with 0. rewrite !Z.add_0_r.
    rewrite !u32_small by assumption. repeat split; reflexivity.
  - cbn [prio_enqueue_all length].
    destruct (Z_lt_ge_dec (PriorityPacketQueue.size q) (PriorityPacketQueue.maxQueueSize q))
      as [Hroom | Hfull].
    + rewrite (prio_enqueue_room p q w Hroom).
      match goal with |- context [prio_enqueue_all rest ?q1 ?w1] =>
        specialize (IH q1 w1) end.
      cbv zeta in IH.
      unfold PriorityPacketQueue.size in *.
      cbn [PriorityPacketQueue.with_stats PriorityPacketQueue.with_packets
        PriorityPacketQueue.packets PriorityPacketQueue.stats
        PriorityPacketQueue.maxQueueSize count_queued totalQueued queueOverflows] in *.
      rewrite pq_size_push in IH.
      destruct IH as (I1 & I2 & I3 & I4);
        [lia | apply u32_range | assumption | ].
      rewrite I1, I2, I3, I4. rewrite u32_add_u32_l.
      repeat split; first [lia | apply (f_equal u32); lia].
    + rewrite (prio_enqueue_full p q w Hfull).
      match goal with |- context [prio_enqueue_all rest ?q1 ?w1] =>
        specialize (IH q1 w1) end.
      cbv zeta in IH.
      unfold PriorityPacketQueue.size in *.
      cbn [PriorityPacketQueue.with_stats PriorityPacketQueue.with_packets
        PriorityPacketQueue.packets PriorityPacketQueue.stats
        PriorityPacketQueue.maxQueueSize count_overflow totalQueued queueOverflows] in *.
      destruct IH as (I1 & I2 & I3 & I4);
        [lia | assumption | apply u32_range | ].
      rewrite I1, I2, I3, I4. rewrite u32_add_u32_l.
      repeat split; first [lia | apply (f_equal u32); lia].
Qed.

End PriorityEnqueue.

(** C3 as stated fails: a rejected [enqueue] does mutate the statistics, it
    counts the overflow. *)
Lemma C3_counterexample :
  ~ (forall p q w,
       PacketQueue.size q >= PacketQueue.maxQueueSize q ->
       PacketQueue.enqueue p q w = (false, q, w)).
Proof.
  intros H.
  specialize (H (Some (test_packet 1)) fifo_full_queue (world_at 0)).
  assert (Hfull : PacketQueue.size fifo_full_queue >= PacketQueue.maxQueueSize fifo_full_queue)
    by (vm_compute; discriminate).
  specialize (H Hfull).
  assert (E : queueOverflows (PacketQueue.stats (snd (fst
                (PacketQueue.enqueue (Some (test_packet 1)) fifo_full_queue (world_at 0)))))
              = queueOverflows (PacketQueue.stats fifo_full_queue))
    by (rewrite H; reflexivity).
  vm_compute in E. discriminate.
Qed.

(** C3, amended.  For both strategies and every queue state: when
    [size >= maxQueueSize], [enqueue] returns false, leaves the content, the
    occupancy and the world as they were and, of the statistics, changes
    the overflow counter alone, which it increments (modulo 2^32);
    otherwise it returns true, inserts the entry stamped with the clock
    reading, and increments [totalQueued] alone (modulo 2^32).  A run of
    [n] calls on a queue within its bound accepts [min n room] packets and
    counts the others as overflows, so the occupancy stays within the
    bound; with capacity 5, seven packets leave 5 held and 2 overflows. *)
Theorem C3_enqueue_capacity :
  (forall p q w,
     let '(ok, q', w') := PacketQueue.enqueue p q w in
     (PacketQueue.size q >= PacketQueue.maxQueueSize q ->
        ok = false /\ PacketQueue.packets q' = PacketQueue.packets q /\
        PacketQueue.size q' = PacketQueue.size q /\ w' = w /\
        only_overflow_counted (PacketQueue.stats q) (PacketQueue.stats q')) /\
     (PacketQueue.size q < PacketQueue.maxQueueSize q ->
        ok = true /\
        PacketQueue.packets q' =
          PacketQueue.packets q ++ [PacketQueue.mkQueuedPacket p (u32 (clock w (ticks w)))] /\
        PacketQueue.size q' = PacketQueue.size q + 1 /\
        only_queued_counted (PacketQueue.stats q) (PacketQueue.stats q')))
  /\
  (forall (PQ : StdPriorityQueue PriorityPacketQueue.QueuedPacket PriorityPacketQueue.less)
          p (q : PriorityPacketQueue.t) w,
     let '(ok, q', w') := PriorityPacketQueue.enqueue p q w in
     (PriorityPacketQueue.size q >= PriorityPacketQueue.maxQueueSize q ->
        ok = false /\ PriorityPacketQueue.packets q' = PriorityPacketQueue.packets q /\
        PriorityPacketQueue.size q' = PriorityPacketQueue.size q /\ w' = w /\
        only_overflow_counted (PriorityPacketQueue.stats q) (PriorityPacketQueue.stats q')) /\
     (PriorityPacketQueue.size q < PriorityPacketQueue.maxQueueSize q ->
        ok = true /\
        Permutation
          (pq_elems (PriorityPacketQueue.packets q'))
          (PriorityPacketQueue.mkQueuedPacket p (u32 (clock w (ticks w)))
                                              (PriorityPacketQueue.calculatePriority p)
             :: pq_elems (PriorityPacketQueue.packets q)) /\
        PriorityPacketQueue.size q' = PriorityPacketQueue.size q + 1 /\
        only_queued_counted (PriorityPacketQueue.stats q) (PriorityPacketQueue.stats q')))
  /\
  (forall ps q w,
     PacketQueue.size q <= PacketQueue.maxQueueSize q ->
     is_u32 (totalQueued (PacketQueue.stats q)) ->
     is_u32 (queueOverflows (PacketQueue.stats q)) ->
     let q' := fst (fifo_enqueue_all ps q w) in
     let accepted := Z.min (Z.of_nat (length ps))
                           (PacketQueue.maxQueueSize q - PacketQueue.size q) in
     PacketQueue.size q' = PacketQueue.size q + accepted /\
     PacketQueue.size q' <= PacketQueue.maxQueueSize q' /\
     totalQueued (PacketQueue.stats q') = u32 (totalQueued (PacketQueue.stats q) + accepted) /\
     queueOverflows (PacketQueue.stats q') =
       u32 (queueOverflows (PacketQueue.stats q) + (Z.of_nat (length ps) - accepted)))
  /\
  (forall (PQ : StdPriorityQueue PriorityPacketQueue.QueuedPacket PriorityPacketQueue.less)
          ps (q : PriorityPacketQueue.t) w,
     PriorityPacketQueue.size q <= PriorityPacketQueue.maxQueueSize q ->
     is_u32 (totalQueued (PriorityPacketQueue.stats q)) ->
     is_u32 (queueOverflows (PriorityPacketQueue.stats q)) ->
     let q' := fst (prio_enqueue_all ps q w) in
     let accepted := Z.min (Z.of_nat (length ps))
                           (PriorityPacketQueue.maxQueueSize q - PriorityPacketQueue.size q) in
     PriorityPacketQueue.size q' = PriorityPacketQueue.size q + accepted /\
     PriorityPacketQueue.size q' <= PriorityPacketQueue.maxQueueSize q' /\
     totalQueued (PriorityPacketQueue.stats q') =
       u32 (totalQueued (PriorityPacketQueue.stats q) + accepted) /\
     queueOverflows (PriorityPacketQueue.stats q') =
       u32 (queueOverflows (PriorityPacketQueue.stats q) + (Z.of_nat (length ps) - accepted)))
  /\
  (forall w,
     let q' := fst (fifo_enqueue_all seven_packets (PacketQueue.create 5 3600) w) in
     PacketQueue.size q' = 5 /\ queueOverflows (PacketQueue.stats q') = 2 /\
     totalQueued (PacketQueue.stats q') = 5)
  /\
  (forall (PQ : StdPriorityQueue PriorityPacketQueue.QueuedPacket PriorityPacketQueue.less) w,
     let q' := fst (prio_enqueue_all seven_packets (PriorityPacketQueue.create 5 3600) w) in
     PriorityPacketQueue.size q' = 5 /\ queueOverflows (PriorityPacketQueue.stats q') = 2 /\
     totalQueued (PriorityPacketQueue.stats q') = 5).
Proof.
  repeat apply conj.
  - intros p q w.
    destruct (Z_lt_ge_dec (PacketQueue.size q) (PacketQueue.maxQueueSize q)) as [Hroom | Hfull].
    + rewrite (fifo_enqueue_room p q w Hroom). split; [lia | intros _].
      unfold PacketQueue.size. cbn. rewrite length_app. cbn [length].
      repeat split. lia.
    + rewrite (fifo_enqueue_full p q w Hfull). split; [intros _ | lia].
      repeat split.
  - intros PQ p q w.
    destruct (Z_lt_ge_dec (PriorityPacketQueue.size q) (PriorityPacketQueue.maxQueueSize q))
      as [Hroom | Hfull].
    + rewrite (prio_enqueue_room p q w Hroom). split; [lia | intros _].
      unfold PriorityPacketQueue.size.
      cbn [PriorityPacketQueue.with_stats PriorityPacketQueue.with_packets
           PriorityPacketQueue.packets PriorityPacketQueue.stats].
      rewrite pq_size_push.
      repeat split; [apply pq_push_elems | lia].
    + rewrite (prio_enqueue_full p q w Hfull). split; [intros _ | lia].
      repeat split.
  - intros ps q w Hsz Htq Hov q' accepted.
    destruct (fifo_enqueue_all_spec ps q w Hsz Htq Hov) as (I1 & I2 & I3 & I4).
    fold q' accepted in I1, I2, I3, I4.
    repeat split; try assumption. rewrite I1, I2. unfold accepted. lia.
  - intros PQ ps q w Hsz Htq Hov q' accepted.
    destruct (prio_enqueue_all_spec ps q w Hsz Htq Hov) as (I1 & I2 & I3 & I4).
    fold q' accepted in I1, I2, I3, I4.
    repeat split; try assumption. rewrite I1, I2. unfold accepted. lia.
  - intros w q'.
    destruct (fifo_enqueue_all_spec seven_packets (PacketQueue.create 5 3600) w)
      as (I1 & _ & I3 & I4); try (vm_compute; split; congruence).
    + vm_compute. discriminate.
    + fold q' in I1, I3, I4. rewrite I1, I3, I4. repeat split.
  - intros PQ w q'.
    destruct (prio_enqueue_all_spec seven_packets (PriorityPacketQueue.create 5 3600) w)
      as (I1 & _ & I3 & I4); try (cbn; unfold is_u32; lia).
    + unfold PriorityPacketQueue.size. cbn. rewrite pq_size_new. lia.
    + fold q' in I1, I3, I4. rewrite I1, I3, I4.
      unfold PriorityPacketQueue.size. cbn. rewrite pq_size_new. repeat split.
Qed.

(** C3 at the full queue of capacity one: the rejected [enqueue] counts one
    overflow and changes nothing else. *)
Lemma C3_enqueue_capacity_witness :
  PacketQueue.size fifo_full_queue >= PacketQueue.maxQueueSize fifo_full_queue /\
  only_overflow_counted
    (PacketQueue.stats fifo_full_queue)
    (PacketQueue.stats (snd (fst
       (PacketQueue.enqueue (Some (test_packet 1)) fifo_full_queue (world_at 0))))).
Proof.
  assert (Hfull : PacketQueue.size fifo_full_queue >= PacketQueue.maxQueueSize fifo_full_queue)
    by (vm_compute; discriminate).
  split; [exact Hfull | ].
  pose proof (proj1 C3_enqueue_capacity (Some (test_packet 1)) fifo_full_queue (world_at 0)) as H.
  change (PacketQueue.enqueue (Some (test_packet 1)) fifo_full_queue (world_at 0))
    with (false,
          PacketQueue.with_stats (count_overflow (PacketQueue.stats fifo_full_queue))
                                 fifo_full_queue,
          world_at 0) in H |- *.
  cbv beta iota in H.
  exact (proj2 (proj2 (proj2 (proj2 (proj1 H Hfull))))).
Defined.

(** ** Eviction of expired entries *)

Lemma release_all_cons : forall p ps w,
  release_all (p :: ps) w = release_all ps (release p w).
Proof. reflexivity. Qed.

Lemma release_all_app : forall ps ps' w,
  release_all (ps ++ ps') w = release_all ps' (release_all ps w).
Proof. intros. unfold release_all. apply fold_left_app. Qed.

Lemma release_all_pool : forall ps w,
  pool_released (release_all ps w) = rev ps ++ pool_released w.
Proof.
  induction ps as [ | p ps IH]; intros w; [reflexivity | ].
  rewrite release_all_cons, IH. cbn [release pool_released rev].
  rewrite <- app_assoc. reflexivity.
Qed.

Lemma release_all_frame : forall ps w,
  clock (release_all ps w) = clock w /\ ticks (release_all ps w) = ticks w /\
  beginSending (release_all ps w) = beginSending w /\
  sendTo (release_all ps w) = sendTo w /\
  handed_over (release_all ps w) = handed_over w /\
  attempts (release_all ps w) = attempts w.
Proof.
  induction ps as [ | p ps IH]; intros w; [repeat split | ].
  rewrite release_all_cons. destruct (IH (release p w)) as (A & B & C & D & E & F).
  rewrite A, B, C, D, E, F. repeat split.
Qed.

Lemma iter_count_expired : forall n s,
  is_u32 (expiredPackets s) ->
  Nat.iter n count_expired s =
  mkQueueStats (totalQueued s) (u32 (expiredPackets s + Z.of_nat n)) (queueOverflows s)
               (totalQueueTime s) (maxQueueTime s).
Proof.
  induction n as [ | n IH]; intros s H.
  - change (Nat.iter 0 count_expired s) with s.
    change (Z.of_nat 0) with 0. rewrite Z.add_0_r, u32_small by exact H.
    destruct s; reflexivity.
  - rewrite Nat.iter_succ. rewrite IH by exact H. unfold count_expired.
    cbn [totalQueued expiredPackets queueOverflows totalQueueTime maxQueueTime].
    rewrite u32_add_u32_l. do 2 f_equal. lia.
Qed.

Lemma iter_succ_inside : forall (A : Type) (f : A -> A) n x,
  Nat.iter n f (f x) = Nat.iter (S n) f x.
Proof.
  intros A f n x. symmetry. apply Nat.iter_succ_r.
Qed.

Lemma fifo_cleanExpired_loop_spec : forall now secs l s w,
  PacketQueue.cleanExpired_loop now secs l s w =
  (filter (fun it => negb (PacketQueue.expired_at now secs it)) l,
   Nat.iter (length (filter (PacketQueue.expired_at now secs) l)) count_expired s,
   release_all (map PacketQueue.packet (filter (PacketQueue.expired_at now secs) l)) w).
Proof.
  induction l as [ | it rest IH]; intros s w; [reflexivity | ].
  cbn [PacketQueue.cleanExpired_loop filter].
  destruct (PacketQueue.expired_at now secs it); cbn [negb].
  - rewrite IH. cbn [length map]. rewrite release_all_cons, iter_succ_inside. reflexivity.
  - rewrite IH. reflexivity.
Qed.

Lemma fifo_cleanExpired_spec : forall q w,
  let now := u32 (clock w (ticks w)) in
  let secs := PacketQueue.packetExpirySeconds q in
  let removed := filter (PacketQueue.expired_at now secs) (PacketQueue.packets q) in
  PacketQueue.cleanExpired q w =
  (PacketQueue.with_stats
     (Nat.iter (length removed) count_expired (PacketQueue.stats q))
     (PacketQueue.with_packets
        (filter (fun it => negb (PacketQueue.expired_at now secs it)) (PacketQueue.packets q)) q),
   release_all (map PacketQueue.packet removed) (snd (millis w))).
Proof.
  intros q w now secs removed. unfold PacketQueue.cleanExpired.
  cbn [millis]. rewrite fifo_cleanExpired_loop_spec. reflexivity.
Qed.

Lemma u32_sub_u32 : forall a b, u32 (u32 a - u32 b) = u32 (a - b).
Proof. intros a b. unfold u32. symmetry. apply Zminus_mod. Qed.

Section PriorityEviction.
Context {PQ : StdPriorityQueue PriorityPacketQueue.QueuedPacket PriorityPacketQueue.less}.

Lemma prio_cleanExpired_loop_spec : forall fuel now secs (packets temp : pq) s w,
  (pq_size packets <= fuel)%nat ->
  exists temp' removed,
    PriorityPacketQueue.cleanExpired_loop fuel now secs packets temp s w =
      Some (temp', Nat.iter (length removed) count_expired s,
            release_all (map PriorityPacketQueue.packet removed) w) /\
    Permutation removed
      (filter (PriorityPacketQueue.expired_at now secs) (pq_elems packets)) /\
    Permutation (pq_elems temp')
      (filter (fun it => negb (PriorityPacketQueue.expired_at now secs it)) (pq_elems packets)
       ++ pq_elems temp).
Proof.
  induction fuel as [ | fuel IH]; intros now secs packets temp s w Hsz.
  - assert (He : pq_empty packets = true) by (apply pq_empty_size; lia).
    cbn [PriorityPacketQueue.cleanExpired_loop]. rewrite He.
    apply pq_empty_true in He. rewrite He.
    exists temp, []. repeat split; constructor || apply Permutation_refl.
  - cbn [PriorityPacketQueue.cleanExpired_loop].
    destruct (pq_empty packets) eqn:He.
    + apply pq_empty_true in He. rewrite He.
      exists temp, []. repeat split; constructor || apply Permutation_refl.
    + destruct (pq_nonempty_top packets He) as [x Hx]. rewrite Hx.
      pose proof (pq_pop_elems packets x Hx) as Hperm.
      pose proof (pq_size_pop packets x Hx) as Hpop.
      destruct (PriorityPacketQueue.expired_at now secs x) eqn:Hexp.
      * destruct (IH now secs (pq_pop packets) temp (count_expired s)
                     (release (PriorityPacketQueue.packet x) w))
          as (temp' & removed & Hrun & Hrem & Hkeep); [lia | ].
        exists temp', (x :: removed). rewrite Hrun.
        cbn [length map]. rewrite release_all_cons, iter_succ_inside.
        split; [reflexivity | split].
        -- eapply perm_trans;
             [ | apply Permutation_sym, (Permutation_filter _ _ _ _ Hperm)].
           cbn [filter]. rewrite Hexp. apply perm_skip, Hrem.
        -- eapply perm_trans; [exact Hkeep | ].
           apply Permutation_app_tail.
           eapply perm_trans;
             [ | apply Permutation_sym, (Permutation_filter _ _ _ _ Hperm)].
           cbn [filter]. rewrite Hexp. apply Permutation_refl.
      * destruct (IH now secs (pq_pop packets) (pq_push x temp) s w)
          as (temp' & removed & Hrun & Hrem & Hkeep); [lia | ].
        exists temp', removed. rewrite Hrun.
        split; [reflexivity | split].
        -- eapply perm_trans; [exact Hrem | ].
           eapply perm_trans;
             [ | apply Permutation_sym, (Permutation_filter _ _ _ _ Hperm)].
           cbn [filter]. rewrite Hexp. apply Permutation_refl.
        -- eapply perm_trans; [exact Hkeep | ].
           eapply perm_trans;
             [ | apply Permutation_app_tail, Permutation_sym,
                       (Permutation_filter _ _ _ _ Hperm)].
           cbn [filter]. rewrite Hexp. cbn [negb app].
           eapply perm_trans;
             [apply Permutation_app_head, pq_push_elems | ].
           apply Permutation_sym, Permutation_middle.
Qed.

Lemma prio_cleanExpired_spec : forall (q : PriorityPacketQueue.t) w,
  let now := u32 (clock w (ticks w)) in
  let secs := PriorityPacketQueue.packetExpirySeconds q in
  exists temp' removed,
    PriorityPacketQueue.cleanExpired q w =
      Some (PriorityPacketQueue.with_stats
              (Nat.iter (length removed) count_expired (PriorityPacketQueue.stats q))
              (PriorityPacketQueue.with_packets temp' q),
            release_all (map PriorityPacketQueue.packet removed) (snd (millis w))) /\
    Permutation removed
      (filter (PriorityPacketQueue.expired_at now secs)
              (pq_elems (PriorityPacketQueue.packets q))) /\
    Permutation (pq_elems temp')
      (filter (fun it => negb (PriorityPacketQueue.expired_at now secs it))
              (pq_elems (PriorityPacketQueue.packets q))).
Proof.
  intros q w now secs. unfold PriorityPacketQueue.cleanExpired. cbn [millis].
  destruct (prio_cleanExpired_loop_spec
              (pq_size (PriorityPacketQueue.packets q)) now secs
              (PriorityPacketQueue.packets q) pq_new (PriorityPacketQueue.stats q)
              (snd (millis w)) (le_n _))
    as (temp' & removed & Hrun & Hrem & Hkeep).
  exists temp', removed. fold now secs. cbn [millis snd] in Hrun. rewrite Hrun.
  rewrite pq_new_elems, app_nil_r in Hkeep.
  split; [reflexivity | split; assumption].
Qed.

End PriorityEviction.

Lemma age_after : forall t0 d, 0 <= d < 2 ^ 32 -> u32 (u32 (t0 + d) - u32 t0) = d.
Proof.
  intros t0 d H. rewrite u32_sub_u32.
  replace (t0 + d - t0) with d by ring. apply u32_small. exact H.
Qed.

Lemma geb_negb_ltb : forall a b, negb (a >=? b) = (a <? b).
Proof.
  intros a b. rewrite Z.geb_leb, Z.ltb_antisym. reflexivity.
Qed.

Lemma fifo_expiry_example : forall p t0 w maxSize,
  0 < maxSize ->
  clock w (ticks w) = t0 ->
  clock w (S (ticks w)) = t0 + 9999 ->
  clock w (S (S (ticks w))) = t0 + 10001 ->
  let '(_, q1, w1) := PacketQueue.enqueue p (PacketQueue.create maxSize 10) w in
  let '(q2, w2) := PacketQueue.cleanExpired q1 w1 in
  let '(q3, w3) := PacketQueue.cleanExpired q2 w2 in
  PacketQueue.packets q1 = [PacketQueue.mkQueuedPacket p (u32 t0)] /\
  PacketQueue.packets q2 = PacketQueue.packets q1 /\
  expiredPackets (PacketQueue.stats q2) = 0 /\
  pool_released w2 = pool_released w /\
  PacketQueue.packets q3 = [] /\
  expiredPackets (PacketQueue.stats q3) = 1 /\
  pool_released w3 = p :: pool_released w.
Proof.
  intros p t0 w maxSize Hmax H0 H1 H2.
  rewrite fifo_enqueue_room by (cbn; lia).
  rewrite fifo_cleanExpired_spec.
  cbn [PacketQueue.create PacketQueue.with_stats PacketQueue.with_packets
       PacketQueue.packets PacketQueue.stats PacketQueue.packetExpirySeconds
       PacketQueue.maxQueueSize app millis snd ticks clock filter].
  rewrite H0, H1. unfold PacketQueue.expired_at.
  cbn [PacketQueue.enqueue_time]. rewrite !age_after by (vm_compute; split; congruence).
  change (9999 >=? u32 (10 * 1000)) with false.
  cbn [negb length map Nat.iter release_all fold_left].
  rewrite fifo_cleanExpired_spec.
  cbn [PacketQueue.create PacketQueue.with_stats PacketQueue.with_packets
       PacketQueue.packets PacketQueue.stats PacketQueue.packetExpirySeconds
       PacketQueue.maxQueueSize app millis snd ticks clock filter].
  rewrite H2. unfold PacketQueue.expired_at.
  cbn [PacketQueue.enqueue_time]. rewrite !age_after by (vm_compute; split; congruence).
  change (10001 >=? u32 (10 * 1000)) with true.
  cbn [negb length map Nat.iter release_all fold_left release pool_released
       PacketQueue.packet count_queued count_expired expiredPackets].
  repeat split.
Qed.

Lemma prio_expired_at_after : forall p t0 d prio secs,
  0 <= d < 2 ^ 32 ->
  PriorityPacketQueue.expired_at (u32 (t0 + d)) secs
    (PriorityPacketQueue.mkQueuedPacket p (u32 t0) prio) = (d >=? u32 (secs * 1000)).
Proof.
  intros p t0 d prio secs H. unfold PriorityPacketQueue.expired_at.
  cbn [PriorityPacketQueue.enqueue_time]. rewrite age_after by exact H. reflexivity.
Qed.

Lemma Permutation_singleton_eq : forall (A : Type) (a : A) l,
  Permutation l [a] -> l = [a].
Proof.
  intros A a l H. apply Permutation_length_1_inv, Permutation_sym, H.
Qed.

Lemma Permutation_nil_eq : forall (A : Type) (l : list A),
  Permutation l [] -> l = [].
Proof.
  intros A l H. apply Permutation_nil, Permutation_sym, H.
Qed.

Lemma prio_expiry_example :
  forall (PQ : StdPriorityQueue PriorityPacketQueue.QueuedPacket PriorityPacketQueue.less)
         p t0 w maxSize,
  0 < maxSize ->
  clock w (ticks w) = t0 ->
  clock w (S (ticks w)) = t0 + 9999 ->
  clock w (S (S (ticks w))) = t0 + 10001 ->
  let e := PriorityPacketQueue.mkQueuedPacket p (u32 t0)
             (PriorityPacketQueue.calculatePriority p) in
  exists q1 w1 q2 w2 q3 w3,
    PriorityPacketQueue.enqueue p (PriorityPacketQueue.create maxSize 10) w = (true, q1, w1) /\
    PriorityPacketQueue.cleanExpired q1 w1 = Some (q2, w2) /\
    PriorityPacketQueue.cleanExpired q2 w2 = Some (q3, w3) /\
    pq_elems (PriorityPacketQueue.packets q1) = [e] /\
    pq_elems (PriorityPacketQueue.packets q2) = [e] /\
    expiredPackets (PriorityPacketQueue.stats q2) = 0 /\
    pool_released w2 = pool_released w /\
    pq_elems (PriorityPacketQueue.packets q3) = [] /\
    expiredPackets (PriorityPacketQueue.stats q3) = 1 /\
    pool_released w3 = p :: pool_released w.
Proof.
  intros PQ p t0 w maxSize Hmax H0 H1 H2 e.
  rewrite prio_enqueue_room
    by (unfold PriorityPacketQueue.size; cbn; rewrite pq_size_new; lia).
  rewrite H0. fold (PriorityPacketQueue.QueuedPacket_new p (u32 t0)).
  change (PriorityPacketQueue.QueuedPacket_new p (u32 t0)) with e.
  match goal with |- context [(true, ?q, ?w')] => set (q1 := q); set (w1 := w') end.
  assert (E1 : pq_elems (PriorityPacketQueue.packets q1) = [e]).
  { apply Permutation_singleton_eq. unfold q1.
    cbn [PriorityPacketQueue.with_stats PriorityPacketQueue.with_packets
         PriorityPacketQueue.packets PriorityPacketQueue.create].
    eapply perm_trans; [apply pq_push_elems | ]. rewrite pq_new_elems. apply Permutation_refl. }
  destruct (prio_cleanExpired_spec q1 w1) as (t2 & r2 & Hrun2 & Hrem2 & Hkeep2).
  rewrite E1 in Hrem2, Hkeep2.
  change (clock w1 (ticks w1)) with (clock w (S (ticks w))) in Hrem2, Hkeep2.
  rewrite H1 in Hrem2, Hkeep2. cbn [filter] in Hrem2, Hkeep2.
  unfold e in Hrem2, Hkeep2.
  rewrite prio_expired_at_after in Hrem2, Hkeep2 by (vm_compute; split; congruence).
  change (9999 >=? u32 (PriorityPacketQueue.packetExpirySeconds q1 * 1000)) with false
    in Hrem2, Hkeep2.
  cbn [negb] in Hkeep2. fold e in Hkeep2.
  apply Permutation_nil_eq in Hrem2. apply Permutation_singleton_eq in Hkeep2. subst r2.
  cbn [length map Nat.iter] in Hrun2. unfold release_all in Hrun2. cbn [fold_left] in Hrun2.
  match type of Hrun2 with _ = Some (?q, ?w') => set (q2 := q) in *; set (w2 := w') in * end.
  destruct (prio_cleanExpired_spec q2 w2) as (t3 & r3 & Hrun3 & Hrem3 & Hkeep3).
  change (pq_elems (PriorityPacketQueue.packets q2)) with (pq_elems t2) in Hrem3, Hkeep3.
  rewrite Hkeep2 in Hrem3, Hkeep3.
  change (clock w2 (ticks w2)) with (clock w (S (S (ticks w)))) in Hrem3, Hkeep3.
  rewrite H2 in Hrem3, Hkeep3. cbn [filter] in Hrem3, Hkeep3.
  unfold e in Hrem3, Hkeep3.
  rewrite prio_expired_at_after in Hrem3, Hkeep3 by (vm_compute; split; congruence).
  change (10001 >=? u32 (PriorityPacketQueue.packetExpirySeconds q2 * 1000)) with true
    in Hrem3, Hkeep3.
  cbn [negb] in Hkeep3. fold e in Hrem3.
  apply Permutation_singleton_eq in Hrem3. apply Permutation_nil_eq in Hkeep3. subst r3.
  exists q1, w1, q2, w2. eexists. eexists.
  split; [reflexivity | ]. split; [exact Hrun2 | ]. split; [exact Hrun3 | ].
  split; [exact E1 | ]. split; [exact Hkeep2 | ].
  repeat split; assumption.
Qed.

(** C4 as stated fails where [packetExpirySeconds * 1000] does not fit 32
    bits.  Both factors are [uint32_t], so the product is taken modulo
    [2^32]: under an expiry of 4294968 seconds the limit of the test is
    704 ms, and an entry that has waited 1000 ms is removed and released
    although its age is far below [4294968 * 1000]. *)
Lemma C4_counterexample :
  ~ (forall q w,
       let now := u32 (clock w (ticks w)) in
       PacketQueue.packets (fst (PacketQueue.cleanExpired q w))
       = filter (fun it => u32 (now - PacketQueue.enqueue_time it)
                           <? PacketQueue.packetExpirySeconds q * 1000)
                (PacketQueue.packets q))
  /\
  (let '(_, q1, w1) :=
     PacketQueue.enqueue (Some (test_packet 1)) (PacketQueue.create 32 4294968)
                         (world_reading [0; 1000]) in
   let '(q2, w2) := PacketQueue.cleanExpired q1 w1 in
   PacketQueue.packets q1 = [PacketQueue.mkQueuedPacket (Some (test_packet 1)) 0] /\
   u32 (clock w1 (ticks w1) - 0) = 1000 /\
   1000 < PacketQueue.packetExpirySeconds q1 * 1000 /\
   u32 (PacketQueue.packetExpirySeconds q1 * 1000) = 704 /\
   PacketQueue.packets q2 = [] /\
   expiredPackets (PacketQueue.stats q2) = 1 /\
   pool_released w2 = [Some (test_packet 1)]).
Proof.
  split.
  - intros H.
    specialize (H (PacketQueue.with_packets
                     [PacketQueue.mkQueuedPacket (Some (test_packet 1)) 0]
                     (PacketQueue.create 32 4294968))
                  (world_at 1000)).
    vm_compute in H. discriminate H.
  - vm_compute. repeat split; reflexivity.
Qed.

(** C4, amended.  For both strategies [cleanExpired()], reading [now] from
    the clock, removes exactly the entries with [now - enqueue_time >=
    packetExpirySeconds * 1000], the age taken modulo [2^32], provided
    [packetExpirySeconds * 1000] fits 32 bits; in general the limit of the
    test is that product modulo [2^32].  It keeps the younger entries (in
    their order for the arrival-order queue, as a multiset for the priority
    queue), applies the increment of [expiredPackets] once per removed
    entry and leaves the other counters, and hands each removed packet to
    the pool once.  An entry enqueued at [t0] under a 10 second expiry
    survives the eviction at [t0 + 9999] and is removed by the eviction at
    [t0 + 10001], which counts one expiry and releases the packet. *)
Theorem C4_evict_expired :
  (forall q w,
     0 <= PacketQueue.packetExpirySeconds q * 1000 < 2 ^ 32 ->
     let now := u32 (clock w (ticks w)) in
     let limit := PacketQueue.packetExpirySeconds q * 1000 in
     let age := fun it => u32 (now - PacketQueue.enqueue_time it) in
     let removed := filter (fun it => age it >=? limit) (PacketQueue.packets q) in
     let '(q', w') := PacketQueue.cleanExpired q w in
     PacketQueue.packets q' = filter (fun it => age it <? limit) (PacketQueue.packets q) /\
     PacketQueue.stats q' = Nat.iter (length removed) count_expired (PacketQueue.stats q) /\
     pool_released w' = rev (map PacketQueue.packet removed) ++ pool_released w)
  /\
  (forall (PQ : StdPriorityQueue PriorityPacketQueue.QueuedPacket PriorityPacketQueue.less)
          (q : PriorityPacketQueue.t) w,
     0 <= PriorityPacketQueue.packetExpirySeconds q * 1000 < 2 ^ 32 ->
     let now := u32 (clock w (ticks w)) in
     let limit := PriorityPacketQueue.packetExpirySeconds q * 1000 in
     let age := fun it => u32 (now - PriorityPacketQueue.enqueue_time it) in
     exists q' w' removed,
       PriorityPacketQueue.cleanExpired q w = Some (q', w') /\
       Permutation removed
         (filter (fun it => age it >=? limit) (pq_elems (PriorityPacketQueue.packets q))) /\
       Permutation (pq_elems (PriorityPacketQueue.packets q'))
         (filter (fun it => age it <? limit) (pq_elems (PriorityPacketQueue.packets q))) /\
       PriorityPacketQueue.stats q' =
         Nat.iter (length removed) count_expired (PriorityPacketQueue.stats q) /\
       pool_released w' = rev (map PriorityPacketQueue.packet removed) ++ pool_released w)
  /\
  (forall q w,
     let now := u32 (clock w (ticks w)) in
     let limit := u32 (PacketQueue.packetExpirySeconds q * 1000) in
     let age := fun it => u32 (now - PacketQueue.enqueue_time it) in
     let removed := filter (fun it => age it >=? limit) (PacketQueue.packets q) in
     let '(q', w') := PacketQueue.cleanExpired q w in
     PacketQueue.packets q' = filter (fun it => age it <? limit) (PacketQueue.packets q) /\
     PacketQueue.stats q' = Nat.iter (length removed) count_expired (PacketQueue.stats q) /\
     pool_released w' = rev (map PacketQueue.packet removed) ++ pool_released w)
  /\
  (forall (PQ : StdPriorityQueue PriorityPacketQueue.QueuedPacket PriorityPacketQueue.less)
          (q : PriorityPacketQueue.t) w,
     let now := u32 (clock w (ticks w)) in
     let limit := u32 (PriorityPacketQueue.packetExpirySeconds q * 1000) in
     let age := fun it => u32 (now - PriorityPacketQueue.enqueue_time it) in
     exists q' w' removed,
       PriorityPacketQueue.cleanExpired q w = Some (q', w') /\
       Permutation removed
         (filter (fun it => age it >=? limit) (pq_elems (PriorityPacketQueue.packets q))) /\
       Permutation (pq_elems (PriorityPacketQueue.packets q'))
         (filter (fun it => age it <? limit) (pq_elems (PriorityPacketQueue.packets q))) /\
       PriorityPacketQueue.stats q' =
         Nat.iter (length removed) count_expired (PriorityPacketQueue.stats q) /\
       pool_released w' = rev (map PriorityPacketQueue.packet removed) ++ pool_released w)
  /\
  (forall n s,
     is_u32 (expiredPackets s) ->
     Nat.iter n count_expired s =
     mkQueueStats (totalQueued s) (u32 (expiredPackets s + Z.of_nat n)) (queueOverflows s)
                  (totalQueueTime s) (maxQueueTime s))
  /\
  (forall p t0 w maxSize,
     0 < maxSize ->
     clock w (ticks w) = t0 ->
     clock w (S (ticks w)) = t0 + 9999 ->
     clock w (S (S (ticks w))) = t0 + 10001 ->
     let '(_, q1, w1) := PacketQueue.enqueue p (PacketQueue.create maxSize 10) w in
     let '(q2, w2) := PacketQueue.cleanExpired q1 w1 in
     let '(q3, w3) := PacketQueue.cleanExpired q2 w2 in
     PacketQueue.packets q1 = [PacketQueue.mkQueuedPacket p (u32 t0)] /\
     PacketQueue.packets q2 = PacketQueue.packets q1 /\
     expiredPackets (PacketQueue.stats q2) = 0 /\
     pool_released w2 = pool_released w /\
     PacketQueue.packets q3 = [] /\
     expiredPackets (PacketQueue.stats q3) = 1 /\
     pool_released w3 = p :: pool_released w)
  /\
  (forall (PQ : StdPriorityQueue PriorityPacketQueue.QueuedPacket PriorityPacketQueue.less)
          p t0 w maxSize,
     0 < maxSize ->
     clock w (ticks w) = t0 ->
     clock w (S (ticks w)) = t0 + 9999 ->
     clock w (S (S (ticks w))) = t0 + 10001 ->
     let e := PriorityPacketQueue.mkQueuedPacket p (u32 t0)
                (PriorityPacketQueue.calculatePriority p) in
     exists q1 w1 q2 w2 q3 w3,
       PriorityPacketQueue.enqueue p (PriorityPacketQueue.create maxSize 10) w = (true, q1, w1) /\
       PriorityPacketQueue.cleanExpired q1 w1 = Some (q2, w2) /\
       PriorityPacketQueue.cleanExpired q2 w2 = Some (q3, w3) /\
       pq_elems (PriorityPacketQueue.packets q1) = [e] /\
       pq_elems (PriorityPacketQueue.packets q2) = [e] /\
       expiredPackets (PriorityPacketQueue.stats q2) = 0 /\
       pool_released w2 = pool_released w /\
       pq_elems (PriorityPacketQueue.packets q3) = [] /\
       expiredPackets (PriorityPacketQueue.stats q3) = 1 /\
       pool_released w3 = p :: pool_released w).
Proof.
  assert (Fifo : forall q w,
     let now := u32 (clock w (ticks w)) in
     let limit := u32 (PacketQueue.packetExpirySeconds q * 1000) in
     let age := fun it => u32 (now - PacketQueue.enqueue_time it) in
     let removed := filter (fun it => age it >=? limit) (PacketQueue.packets q) in
     let '(q', w') := PacketQueue.cleanExpired q w in
     PacketQueue.packets q' = filter (fun it => age it <? limit) (PacketQueue.packets q) /\
     PacketQueue.stats q' = Nat.iter (length removed) count_expired (PacketQueue.stats q) /\
     pool_released w' = rev (map PacketQueue.packet removed) ++ pool_released w).
  { intros q w now limit age removed.
    rewrite fifo_cleanExpired_spec.
    cbn [PacketQueue.with_stats PacketQueue.with_packets PacketQueue.packets
         PacketQueue.stats].
    rewrite release_all_pool. cbn [millis snd pool_released].
    split; [ | split; reflexivity].
    apply filter_ext. intros it. apply geb_negb_ltb. }
  assert (Prio : forall (PQ : StdPriorityQueue PriorityPacketQueue.QueuedPacket
                                PriorityPacketQueue.less)
                        (q : PriorityPacketQueue.t) w,
     let now := u32 (clock w (ticks w)) in
     let limit := u32 (PriorityPacketQueue.packetExpirySeconds q * 1000) in
     let age := fun it => u32 (now - PriorityPacketQueue.enqueue_time it) in
     exists q' w' removed,
       PriorityPacketQueue.cleanExpired q w = Some (q', w') /\
       Permutation removed
         (filter (fun it => age it >=? limit) (pq_elems (PriorityPacketQueue.packets q))) /\
       Permutation (pq_elems (PriorityPacketQueue.packets q'))
         (filter (fun it => age it <? limit) (pq_elems (PriorityPacketQueue.packets q))) /\
       PriorityPacketQueue.stats q' =
         Nat.iter (length removed) count_expired (PriorityPacketQueue.stats q) /\
       pool_released w' = rev (map PriorityPacketQueue.packet removed) ++ pool_released w).
  { intros PQ q w now limit age.
    destruct (prio_cleanExpired_spec q w) as (temp' & removed & Hrun & Hrem & Hkeep).
    eexists. eexists. exists removed.
    split; [exact Hrun | ].
    split; [exact Hrem | ].
    split.
    + cbn [PriorityPacketQueue.with_stats PriorityPacketQueue.with_packets
           PriorityPacketQueue.packets].
      eapply perm_trans; [exact Hkeep | ].
      erewrite filter_ext; [apply Permutation_refl | ].
      intros it. apply geb_negb_ltb.
    + split; [reflexivity | ].
      rewrite release_all_pool. reflexivity. }
  split; [ | split; [ | split; [ | split; [ | split; [ | split ] ] ] ] ].
  - intros q w Hfit. pose proof (Fifo q w) as H. cbv zeta in H |- *.
    rewrite (u32_small _ Hfit) in H. exact H.
  - intros PQ q w Hfit. pose proof (Prio PQ q w) as H. cbv zeta in H |- *.
    rewrite (u32_small _ Hfit) in H. exact H.
  - exact Fifo.
  - exact Prio.
  - exact iter_count_expired.
  - exact fifo_expiry_example.
  - exact prio_expiry_example.
Qed.

(** C4 at an entry enqueued at 5000 ms into a queue of capacity 32 under an
    expiry of 10 s: the eviction at 14999 ms keeps it, the eviction at
    15001 ms removes it, counts it and releases it. *)
Lemma C4_evict_expired_witness :
  (let q := PacketQueue.with_packets
              [PacketQueue.mkQueuedPacket (Some (test_packet 1)) 5000]
              (PacketQueue.create 32 10) in
   0 <= PacketQueue.packetExpirySeconds q * 1000 < 2 ^ 32 /\
   PacketQueue.packets (fst (PacketQueue.cleanExpired q (world_at 14999)))
   = PacketQueue.packets q /\
   PacketQueue.packets (fst (PacketQueue.cleanExpired q (world_at 15001))) = [] /\
   pool_released (snd (PacketQueue.cleanExpired q (world_at 15001)))
   = [Some (test_packet 1)])
  /\
  (let '(_, q1, w1) :=
     PacketQueue.enqueue (Some (test_packet 1)) (PacketQueue.create 32 10)
                         (world_reading [5000; 14999; 15001]) in
   let '(q2, w2) := PacketQueue.cleanExpired q1 w1 in
   let '(q3, w3) := PacketQueue.cleanExpired q2 w2 in
   PacketQueue.packets q2 = PacketQueue.packets q1 /\
   PacketQueue.packets q3 = [] /\
   expiredPackets (PacketQueue.stats q3) = 1 /\
   pool_released w3 = [Some (test_packet 1)]).
Proof.
  split.
  - set (q := PacketQueue.with_packets
                [PacketQueue.mkQueuedPacket (Some (test_packet 1)) 5000]
                (PacketQueue.create 32 10)).
    assert (Hfit : 0 <= PacketQueue.packetExpirySeconds q * 1000 < 2 ^ 32)
      by (vm_compute; split; congruence).
    pose proof (proj1 C4_evict_expired q (world_at 14999) Hfit) as H1.
    pose proof (proj1 C4_evict_expired q (world_at 15001) Hfit) as H2.
    cbv zeta in H1, H2 |- *.
    destruct (PacketQueue.cleanExpired q (world_at 14999)) as [qa wa].
    destruct (PacketQueue.cleanExpired q (world_at 15001)) as [qb wb].
    destruct H1 as (A1 & _ & _). destruct H2 as (A2 & _ & C2).
    cbn [fst snd].
    split; [exact Hfit | ].
    split; [rewrite A1; reflexivity | ].
    split; [rewrite A2; reflexivity | ].
    rewrite C2. reflexivity.
  - pose proof (proj1 (proj2 (proj2 (proj2 (proj2 (proj2 C4_evict_expired)))))
                  (Some (test_packet 1)) 5000 (world_reading [5000; 14999; 15001]) 32
                  eq_refl eq_refl eq_refl eq_refl) as H.
    destruct (PacketQueue.enqueue (Some (test_packet 1)) (PacketQueue.create 32 10)
                                  (world_reading [5000; 14999; 15001])) as [[ok q1] w1].
    destruct (PacketQueue.cleanExpired q1 w1) as [q2 w2].
    destruct (PacketQueue.cleanExpired q2 w2) as [q3 w3].
    destruct H as (_ & A & _ & _ & B & C & D).
    repeat split; assumption.
Defined.

(** ** The priority score and the order of dequeue *)

Lemma calculatePriority_formula : forall p : MeshPacket,
  PriorityPacketQueue.calculatePriority (Some p) =
  1 + (if want_ack p then 2 else 0)
    + (match priority p with
       | Priority_RELIABLE => 3
       | Priority_ACK => 2
       | _ => 0
       end)
    + (match payload_variant p with
       | payload_decoded PortNum_POSITION_APP => 1
       | _ => 0
       end)
    + (match payload_variant p with
       | payload_decoded PortNum_EMERGENCY_APP => 4
       | _ => 0
       end).
Proof.
  intros [i ack prio pv len]. cbn [want_ack priority payload_variant].
  destruct ack, prio, pv as [ | [ | | | n] | ]; reflexivity.
Qed.

Section PriorityOrder.
Context {PQ : StdPriorityQueue PriorityPacketQueue.QueuedPacket PriorityPacketQueue.less}.

Lemma prio_dequeue_max : forall (q : PriorityPacketQueue.t) w,
  PriorityPacketQueue.empty q = false ->
  exists top,
    In top (pq_elems (PriorityPacketQueue.packets q)) /\
    (forall y, In y (pq_elems (PriorityPacketQueue.packets q)) ->
               PriorityPacketQueue.priority y <= PriorityPacketQueue.priority top) /\
    PriorityPacketQueue.dequeue q w =
      (PriorityPacketQueue.packet top,
       PriorityPacketQueue.with_packets (pq_pop (PriorityPacketQueue.packets q))
         (PriorityPacketQueue.with_stats
            (count_queue_time
               (u32 (u32 (clock w (ticks w)) - PriorityPacketQueue.enqueue_time top) / 1000)
               (PriorityPacketQueue.stats q)) q),
       snd (millis w)) /\
    Permutation (pq_elems (PriorityPacketQueue.packets q))
                (top :: pq_elems (pq_pop (PriorityPacketQueue.packets q))).
Proof.
  intros q w He. unfold PriorityPacketQueue.dequeue. rewrite He.
  unfold PriorityPacketQueue.empty in He.
  destruct (pq_nonempty_top _ He) as [top Htop]. rewrite Htop.
  destruct (pq_top_max _ _ Htop) as [Hin Hmax].
  exists top. split; [exact Hin | split; [ | split ] ].
  - intros y Hy. specialize (Hmax y Hy). unfold PriorityPacketQueue.less in Hmax.
    apply Z.ltb_ge in Hmax. exact Hmax.
  - reflexivity.
  - apply pq_pop_elems. exact Htop.
Qed.

(** With one entry of strictly greatest score the result of [dequeue] is
    determined, whatever the implementation does with ties. *)
Lemma prio_dequeue_unique_max : forall (q : PriorityPacketQueue.t) w x l1 l2,
  Permutation (pq_elems (PriorityPacketQueue.packets q)) (l1 ++ x :: l2) ->
  (forall y, In y (l1 ++ l2) ->
             PriorityPacketQueue.priority y < PriorityPacketQueue.priority x) ->
  exists q' w',
    PriorityPacketQueue.dequeue q w = (PriorityPacketQueue.packet x, q', w') /\
    Permutation (pq_elems (PriorityPacketQueue.packets q')) (l1 ++ l2).
Proof.
  intros q w x l1 l2 Hperm Hlt.
  assert (He : PriorityPacketQueue.empty q = false).
  { unfold PriorityPacketQueue.empty, pq_empty.
    destruct (pq_elems (PriorityPacketQueue.packets q)) eqn:E; [ | reflexivity].
    apply Permutation_nil in Hperm. destruct l1; discriminate. }
  destruct (prio_dequeue_max q w He) as (top & Hin & Hmax & Hrun & Hpop).
  assert (Hx : top = x).
  { pose proof (Permutation_in _ Hperm Hin) as Hin'.
    apply in_app_or in Hin'. cbn [In] in Hin'.
    assert (Hxin : In x (pq_elems (PriorityPacketQueue.packets q)))
      by (eapply Permutation_in; [apply Permutation_sym, Hperm | apply in_elt]).
    specialize (Hmax x Hxin).
    destruct Hin' as [H1 | [H1 | H1]]; [ | symmetry; exact H1 | ].
    - specialize (Hlt top (in_or_app _ _ _ (or_introl H1))). lia.
    - specialize (Hlt top (in_or_app _ _ _ (or_intror H1))). lia. }
  subst top. eexists. eexists. split; [exact Hrun | ].
  cbn [PriorityPacketQueue.with_packets PriorityPacketQueue.packets].
  apply Permutation_cons_inv with (a := x).
  eapply perm_trans; [apply Permutation_sym, Hpop | ].
  eapply perm_trans; [exact Hperm | ].
  apply Permutation_sym, Permutation_middle.
Qed.

End PriorityOrder.

Lemma packet_scores :
  map PriorityPacketQueue.calculatePriority
      [Some packet_score2; Some packet_score5; Some packet_score1; Some packet_score4]
  = [2; 5; 1; 4].
Proof. reflexivity. Qed.

Ltac prio_enqueue_step :=
  rewrite prio_enqueue_room
    by (unfold PriorityPacketQueue.size;
        cbn [PriorityPacketQueue.with_stats PriorityPacketQueue.with_packets
             PriorityPacketQueue.packets PriorityPacketQueue.maxQueueSize
             PriorityPacketQueue.create];
        rewrite ?pq_size_push, ?pq_size_new; cbn [Z.of_nat Pos.of_succ_nat Pos.succ]; lia).

Ltac below_score :=
  let y := fresh "y" in
  let Hy := fresh "Hy" in
  intros y Hy; cbn [app In] in Hy;
  repeat (destruct Hy as [Hy | Hy]; [subst y; vm_compute; reflexivity | ]);
  destruct Hy.

Lemma prio_order_example :
  forall (PQ : StdPriorityQueue PriorityPacketQueue.QueuedPacket PriorityPacketQueue.less) w,
  let '(q, w1) :=
    prio_enqueue_all
      [Some packet_score2; Some packet_score5; Some packet_score1; Some packet_score4]
      (PriorityPacketQueue.create 32 3600) w in
  let '(ps, q', _) := prio_dequeue_n 4 q w1 in
  ps = [Some packet_score5; Some packet_score4; Some packet_score2; Some packet_score1] /\
  PriorityPacketQueue.empty q' = true.
Proof.
  intros PQ w. cbn [prio_enqueue_all].
  do 4 prio_enqueue_step.
  match goal with |- context [prio_dequeue_n 4 ?q ?w'] => set (q4 := q); set (w4 := w') end.
  assert (E : exists t2 t5 t1 t4,
             Permutation (pq_elems (PriorityPacketQueue.packets q4))
               [PriorityPacketQueue.QueuedPacket_new (Some packet_score4) t4;
                PriorityPacketQueue.QueuedPacket_new (Some packet_score1) t1;
                PriorityPacketQueue.QueuedPacket_new (Some packet_score5) t5;
                PriorityPacketQueue.QueuedPacket_new (Some packet_score2) t2]).
  { do 4 eexists. unfold q4.
    cbn [PriorityPacketQueue.with_stats PriorityPacketQueue.with_packets
         PriorityPacketQueue.packets PriorityPacketQueue.create].
    eapply perm_trans; [apply pq_push_elems | apply perm_skip].
    eapply perm_trans; [apply pq_push_elems | apply perm_skip].
    eapply perm_trans; [apply pq_push_elems | apply perm_skip].
    eapply perm_trans; [apply pq_push_elems | apply perm_skip].
    rewrite pq_new_elems. apply Permutation_refl. }
  destruct E as (t2 & t5 & t1 & t4 & E).
  clearbody q4 w4.
  set (e2 := PriorityPacketQueue.QueuedPacket_new (Some packet_score2) t2) in *.
  set (e5 := PriorityPacketQueue.QueuedPacket_new (Some packet_score5) t5) in *.
  set (e1 := PriorityPacketQueue.QueuedPacket_new (Some packet_score1) t1) in *.
  set (e4 := PriorityPacketQueue.QueuedPacket_new (Some packet_score4) t4) in *.
  cbn [prio_dequeue_n].
  destruct (prio_dequeue_unique_max q4 w4 e5 [e4; e1] [e2] E) as (q3 & w3 & R3 & E3);
    [below_score | ].
  rewrite R3.
  destruct (prio_dequeue_unique_max q3 w3 e4 [] [e1; e2] E3) as (q2 & w2 & R2 & E2);
    [below_score | ].
  rewrite R2.
  destruct (prio_dequeue_unique_max q2 w2 e2 [e1] [] E2) as (q1 & w1 & R1 & E1);
    [below_score | ].
  rewrite R1.
  destruct (prio_dequeue_unique_max q1 w1 e1 [] [] E1) as (q0 & w0 & R0 & E0);
    [below_score | ].
  rewrite R0.
  split; [reflexivity | ].
  unfold PriorityPacketQueue.empty. apply pq_empty_true.
  apply Permutation_nil_eq. exact E0.
Qed.

(** C5. The score of a packet is 1, plus 2 with [want_ack], plus 3 for the
    reliable tier or else 2 for the acknowledgement tier, plus 1 on the
    position-report port, plus 4 on the emergency-report port; [enqueue]
    stores it in the entry it inserts; [dequeue] on a queue that is not
    empty returns the packet of an entry whose stored score no queued entry
    exceeds, and removes that entry; packets of scores 2, 5, 1, 4 enqueued
    in this order leave in the order 5, 4, 2, 1. *)
Theorem C5_priority_order :
  (forall p : MeshPacket,
     PriorityPacketQueue.calculatePriority (Some p) =
     1 + (if want_ack p then 2 else 0)
       + (match priority p with
          | Priority_RELIABLE => 3
          | Priority_ACK => 2
          | _ => 0
          end)
       + (match payload_variant p with
          | payload_decoded PortNum_POSITION_APP => 1
          | _ => 0
          end)
       + (match payload_variant p with
          | payload_decoded PortNum_EMERGENCY_APP => 4
          | _ => 0
          end))
  /\
  (forall (PQ : StdPriorityQueue PriorityPacketQueue.QueuedPacket PriorityPacketQueue.less)
          p (q : PriorityPacketQueue.t) w,
     PriorityPacketQueue.size q < PriorityPacketQueue.maxQueueSize q ->
     exists e,
       PriorityPacketQueue.packet e = p /\
       PriorityPacketQueue.priority e = PriorityPacketQueue.calculatePriority p /\
       Permutation
         (pq_elems (PriorityPacketQueue.packets (snd (fst (PriorityPacketQueue.enqueue p q w)))))
         (e :: pq_elems (PriorityPacketQueue.packets q)))
  /\
  (forall (PQ : StdPriorityQueue PriorityPacketQueue.QueuedPacket PriorityPacketQueue.less)
          (q : PriorityPacketQueue.t) w,
     PriorityPacketQueue.empty q = false ->
     exists top q' w',
       PriorityPacketQueue.dequeue q w = (PriorityPacketQueue.packet top, q', w') /\
       In top (pq_elems (PriorityPacketQueue.packets q)) /\
       (forall y, In y (pq_elems (PriorityPacketQueue.packets q)) ->
                  PriorityPacketQueue.priority y <= PriorityPacketQueue.priority top) /\
       Permutation (pq_elems (PriorityPacketQueue.packets q))
                   (top :: pq_elems (PriorityPacketQueue.packets q')))
  /\
  (map PriorityPacketQueue.calculatePriority
       [Some packet_score2; Some packet_score5; Some packet_score1; Some packet_score4]
   = [2; 5; 1; 4])
  /\
  (forall (PQ : StdPriorityQueue PriorityPacketQueue.QueuedPacket PriorityPacketQueue.less) w,
     let '(q, w1) :=
       prio_enqueue_all
         [Some packet_score2; Some packet_score5; Some packet_score1; Some packet_score4]
         (PriorityPacketQueue.create 32 3600) w in
     let '(ps, q', _) := prio_dequeue_n 4 q w1 in
     ps = [Some packet_score5; Some packet_score4; Some packet_score2; Some packet_score1] /\
     PriorityPacketQueue.empty q' = true).
Proof.
  split; [exact calculatePriority_formula | ].
  split; [ | split; [ | split; [exact packet_scores | exact prio_order_example] ] ].
  - intros PQ p q w Hroom. rewrite (prio_enqueue_room p q w Hroom).
    eexists. split; [ | split; [ | apply pq_push_elems] ]; reflexivity.
  - intros PQ q w He.
    destruct (prio_dequeue_max q w He) as (top & Hin & Hmax & Hrun & Hpop).
    exists top. eexists. eexists.
    split; [exact Hrun | ]. split; [exact Hin | ]. split; [exact Hmax | exact Hpop].
Qed.

(** C5 on the list implementation of the container: the queue holding the
    four packets hands out the emergency report first. *)
Lemma C5_priority_order_witness :
  let q := fst (prio_enqueue_all (PQ := packetListPQ)
             [Some packet_score2; Some packet_score5; Some packet_score1; Some packet_score4]
             (PriorityPacketQueue.create 32 3600) (world_at 0)) in
  exists top q' w',
    PriorityPacketQueue.dequeue q (world_at 0) = (PriorityPacketQueue.packet top, q', w') /\
    PriorityPacketQueue.priority top = 5.
Proof.
  intros q.
  destruct (proj1 (proj2 (proj2 C5_priority_order)) packetListPQ q (world_at 0) eq_refl)
    as (top & q' & w' & Hrun & Hin & Hmax & _).
  exists top, q', w'. split; [exact Hrun | ].
  vm_compute in Hin.
  specialize (Hmax (PriorityPacketQueue.QueuedPacket_new (Some packet_score5) 0)).
  assert (H5 : 5 <= PriorityPacketQueue.priority top).
  { apply Hmax. vm_compute. right. left. reflexivity. }
  destruct Hin as [<- | [<- | [<- | [<- | []]]]]; vm_compute in H5 |- *;
    try reflexivity; exfalso; apply H5; reflexivity.
Defined.

(** ** The override of the plugin and the send path *)

(** C2. The code does not do what the claim says: with a forced-open
    override armed for an hour ([now < overrideExpiry]) and the window
    closed, [send] still takes the window clock's verdict and discards the
    packet: it returns [ERRNO_NO_RADIO], releases the packet to the pool
    and makes no transmission attempt; [getCurrentWindowState()] reports
    the window flag, not the forced value. *)
Theorem C2_forced_open_discards :
  forall (F : TimeWindowPlugin.MeshFramework FifoRadio.t) from,
  exists fw1 w1 fw2 w2,
    Firmware.handleCommand from
                           (TimeWindowPlugin.mkCommand TimeWindowPlugin.FORCE_OPEN 3600)
                           firmware_day_drop (world_at (millis_at 20 0)) = Some (fw1, w1) /\
    TimeWindowPlugin.temporaryOverride (Firmware.timeWindowPlugin fw1) = true /\
    TimeWindowPlugin.overrideActive (Firmware.timeWindowPlugin fw1) = true /\
    fst (millis w1) < TimeWindowPlugin.overrideExpiry (Firmware.timeWindowPlugin fw1) /\
    fst (isOperationAllowed (Firmware.config fw1) w1) = false /\
    Firmware.send (test_packet 1) fw1 w1 = Some (ERRNO_NO_RADIO, fw2, w2) /\
    attempts w2 = [] /\
    pool_released w2 = [Some (test_packet 1)] /\
    TimeWindowPlugin.getCurrentWindowState
      (TimeWindowPlugin.mk false true true
         (TimeWindowPlugin.overrideExpiry (Firmware.timeWindowPlugin fw1))
         TimeWindowPlugin.stats_zero) = false.
Proof.
  intros F from.
  do 4 eexists. split; [vm_compute; reflexivity | ].
  repeat split; vm_compute; reflexivity.
Qed.

Lemma firmware_send_ignores_plugin : forall p fw w pl,
  Firmware.send p (Firmware.with_plugin pl fw) w =
  match Firmware.send p fw w with
  | None => None
  | Some (r, fw', w') => Some (r, Firmware.with_plugin pl fw', w')
  end.
Proof.
  intros p fw w pl. unfold Firmware.send, Firmware.with_plugin.
  cbn [Firmware.config Firmware.radio Firmware.timeWindowPlugin].
  destruct (FifoRadio.send (Firmware.config fw) p (Firmware.radio fw) w)
    as [[[r radio'] w'] | ]; reflexivity.
Qed.

Lemma isOperationAllowed_world : forall cfg w,
  snd (isOperationAllowed cfg w) = w \/ snd (isOperationAllowed cfg w) = snd (millis w).
Proof.
  intros cfg w. unfold isOperationAllowed.
  destruct (negb (has_lora cfg) || negb (time_window_enabled cfg)); [left | right]; reflexivity.
Qed.

Lemma isOperationAllowed_logs : forall cfg w,
  attempts (snd (isOperationAllowed cfg w)) = attempts w /\
  handed_over (snd (isOperationAllowed cfg w)) = handed_over w /\
  pool_released (snd (isOperationAllowed cfg w)) = pool_released w.
Proof.
  intros cfg w. destruct (isOperationAllowed_world cfg w) as [-> | ->]; repeat split.
Qed.

Lemma fifo_enqueue_logs : forall p q w,
  attempts (snd (PacketQueue.enqueue p q w)) = attempts w /\
  handed_over (snd (PacketQueue.enqueue p q w)) = handed_over w /\
  pool_released (snd (PacketQueue.enqueue p q w)) = pool_released w.
Proof.
  intros p q w. unfold PacketQueue.enqueue.
  destruct (PacketQueue.size q >=? PacketQueue.maxQueueSize q); repeat split.
Qed.

(** With the feature enabled and the window closed, [send] of
    RadioInterface.cpp transmits nothing and does not enter the drain. *)
Lemma fifo_send_closed : forall cfg p st w,
  has_lora cfg = true -> time_window_enabled cfg = true ->
  fst (isOperationAllowed cfg w) = false ->
  exists r st' w',
    FifoRadio.send cfg p st w = Some (r, st', w') /\
    attempts w' = attempts w /\ handed_over w' = handed_over w /\
    (r = ERRNO_OK -> lora_window_mode cfg = QUEUE_PACKETS).
Proof.
  intros cfg p st w Hl He Hclosed. unfold FifoRadio.send. rewrite Hl, He. cbn [andb].
  destruct (isOperationAllowed_logs cfg w) as (A & B & C).
  destruct (isOperationAllowed cfg w) as [allowed w1]. cbn [fst snd] in *. subst allowed.
  cbn [negb].
  destruct (lora_window_mode cfg) eqn:Hmode.
  - do 3 eexists. split; [reflexivity | ]. cbn. repeat split; try assumption. discriminate.
  - destruct (fifo_enqueue_logs (Some p) (FifoRadio.packetQueue st) w1) as (A' & B' & C').
    destruct (PacketQueue.enqueue (Some p) (FifoRadio.packetQueue st) w1) as [[ok q'] w2].
    cbn [snd] in *. destruct ok; cbn [negb].
    + do 3 eexists. split; [reflexivity | ]. repeat split; congruence.
    + do 3 eexists. split; [reflexivity | ]. cbn. repeat split; try congruence.
  - do 3 eexists. split; [reflexivity | ]. cbn. repeat split; try assumption. discriminate.
  - do 3 eexists. split; [reflexivity | ]. repeat split; try assumption. discriminate.
Qed.

(** What the code does with the override.  The admission decision of
    [send] does not consult it: whatever the state of the plugin (armed or
    not, before or after the expiry), [send] returns the same result and
    leaves the same radio state and world; with the feature enabled and the
    window clock's verdict closed it makes no transmission attempt.  The
    override acts on the state the plugin reports: after a force-close
    command [getCurrentWindowState()] is false whatever the window flag,
    and while no override is armed it is the window flag. *)
Theorem send_ignores_override :
  (forall p fw w pl,
     Firmware.send p (Firmware.with_plugin pl fw) w =
     match Firmware.send p fw w with
     | None => None
     | Some (r, fw', w') => Some (r, Firmware.with_plugin pl fw', w')
     end)
  /\
  (forall p fw w,
     has_lora (Firmware.config fw) = true ->
     time_window_enabled (Firmware.config fw) = true ->
     fst (isOperationAllowed (Firmware.config fw) w) = false ->
     exists r fw' w',
       Firmware.send p fw w = Some (r, fw', w') /\
       attempts w' = attempts w /\ handed_over w' = handed_over w)
  /\
  (forall (F : TimeWindowPlugin.MeshFramework FifoRadio.t) from d fw w fw' w',
     Firmware.handleCommand from
       (TimeWindowPlugin.mkCommand TimeWindowPlugin.FORCE_CLOSE d) fw w = Some (fw', w') ->
     TimeWindowPlugin.getCurrentWindowState (Firmware.timeWindowPlugin fw') = false)
  /\
  (forall pl,
     TimeWindowPlugin.temporaryOverride pl = false ->
     TimeWindowPlugin.getCurrentWindowState pl = TimeWindowPlugin.isWindowActive pl).
Proof.
  split; [exact firmware_send_ignores_plugin | split; [ | split ] ].
  - intros p fw w Hl He Hclosed.
    destruct (fifo_send_closed (Firmware.config fw) p (Firmware.radio fw) w Hl He Hclosed)
      as (r & st' & w' & Hrun & A & B & _).
    unfold Firmware.send. rewrite Hrun.
    do 3 eexists. split; [reflexivity | split; assumption].
  - intros F from d fw w fw' w' H. unfold Firmware.handleCommand in H.
    cbn in H. inversion H; subst. cbn.
    apply andb_false_r.
  - intros pl H. unfold TimeWindowPlugin.getCurrentWindowState. rewrite H.
    cbn. apply andb_true_r.
Qed.

(** ** The drain cycle of RadioInterface.cpp *)

Lemma sendPacket_attempts : forall dis p w,
  attempts (snd (sendPacket dis p w)) = (p, fst (sendPacket dis p w)) :: attempts w.
Proof.
  intros dis p w. unfold sendPacket, hand_over.
  destruct dis; [reflexivity | ].
  destruct (payloadlen p =? 0); [reflexivity | ].
  destruct (beginSending w p =? 0); reflexivity.
Qed.

Lemma sendPacket_clock : forall dis p w,
  clock (snd (sendPacket dis p w)) = clock w /\ ticks (snd (sendPacket dis p w)) = ticks w.
Proof.
  intros dis p w. unfold sendPacket, hand_over.
  destruct dis; [split; reflexivity | ].
  destruct (payloadlen p =? 0); [split; reflexivity | ].
  destruct (beginSending w p =? 0); split; reflexivity.
Qed.

Lemma fifo_dequeue_cons : forall q w front rest,
  PacketQueue.packets q = front :: rest ->
  PacketQueue.dequeue q w =
  (PacketQueue.packet front,
   PacketQueue.with_packets rest
     (PacketQueue.with_stats
        (count_queue_time (u32 (u32 (clock w (ticks w)) - PacketQueue.enqueue_time front) / 1000)
                          (PacketQueue.stats q)) q),
   snd (millis w)).
Proof.
  intros q w front rest H. unfold PacketQueue.dequeue. rewrite H. reflexivity.
Qed.

Lemma ErrorCode_eqb_ok : forall r, ErrorCode_eqb r ERRNO_OK = true <-> r = ERRNO_OK.
Proof. destruct r; cbn; split; congruence. Qed.

Lemma fifo_loop_cycle : forall fuel dis q w q' w',
  FifoRadio.processQueuedPackets_loop fuel dis q w = Some (q', w') ->
  fifo_cycle dis q w q' w'.
Proof.
  induction fuel as [ | fuel IH]; intros dis q w q' w' H;
    cbn [FifoRadio.processQueuedPackets_loop] in H;
    destruct (PacketQueue.empty q) eqn:He;
    try (inversion H; subst; apply fifo_cycle_done; exact He); try discriminate.
  destruct (PacketQueue.dequeue q w) as [[packet q1] w1] eqn:Hd.
  destruct packet as [p | ].
  - destruct (sendPacket dis p w1) as [r w2] eqn:Hs.
    destruct (ErrorCode_eqb r ERRNO_OK) eqn:Hr; cbn [negb] in H.
    + apply ErrorCode_eqb_ok in Hr. subst r.
      eapply fifo_cycle_sent; eauto.
    + assert (Hne : r <> ERRNO_OK)
        by (intros E; apply ErrorCode_eqb_ok in E; congruence).
      destruct (PacketQueue.enqueue (Some p) q1 w2) as [[ok q2] w3] eqn:Henq.
      destruct ok; cbn [negb] in H; inversion H; subst.
      * eapply fifo_cycle_requeued; eauto.
      * eapply fifo_cycle_dropped; eauto.
  - eapply fifo_cycle_null; eauto.
Qed.

Lemma fifo_dequeue_length : forall q w,
  PacketQueue.empty q = false ->
  S (length (PacketQueue.packets (snd (fst (PacketQueue.dequeue q w)))))
  = length (PacketQueue.packets q).
Proof.
  intros q w He. unfold PacketQueue.empty in He.
  destruct (PacketQueue.packets q) as [ | front rest] eqn:E; [discriminate | ].
  rewrite (fifo_dequeue_cons q w front rest E). reflexivity.
Qed.

(** The loop returns: a turn takes one entry off the queue, so the length
    of the queue is fuel enough. *)
Lemma fifo_loop_total : forall fuel dis q w,
  (length (PacketQueue.packets q) <= fuel)%nat ->
  exists q' w', FifoRadio.processQueuedPackets_loop fuel dis q w = Some (q', w').
Proof.
  induction fuel as [ | fuel IH]; intros dis q w Hlen;
    cbn [FifoRadio.processQueuedPackets_loop];
    destruct (PacketQueue.empty q) eqn:He; eauto.
  - unfold PacketQueue.empty in He.
    destruct (PacketQueue.packets q); [discriminate | cbn in Hlen; lia].
  - pose proof (fifo_dequeue_length q w He) as Hd.
    destruct (PacketQueue.dequeue q w) as [[packet q1] w1]. cbn [fst snd] in Hd.
    destruct packet as [p | ]; [ | apply IH; lia].
    destruct (sendPacket dis p w1) as [r w2].
    destruct (ErrorCode_eqb r ERRNO_OK); cbn [negb]; [apply IH; lia | ].
    destruct (PacketQueue.enqueue (Some p) q1 w2) as [[ok q2] w3].
    destruct ok; cbn [negb]; eauto.
Qed.

Lemma fifo_processQueuedPackets_total : forall cfg st w,
  exists st' w', FifoRadio.processQueuedPackets cfg st w = Some (st', w').
Proof.
  intros cfg st w. unfold FifoRadio.processQueuedPackets.
  destruct (negb (has_lora cfg) || negb (time_window_enabled cfg)); [eauto | ].
  destruct (PacketQueue.cleanExpired (FifoRadio.packetQueue st) w) as [q1 w1].
  destruct (fifo_loop_total (length (PacketQueue.packets q1)) (FifoRadio.disabled st)
                            q1 w1 (le_n _)) as (q2 & w2 & H).
  rewrite H. eauto.
Qed.

Lemma fifo_dequeue_inv : forall q w pk q1 w1,
  PacketQueue.empty q = false ->
  PacketQueue.dequeue q w = (pk, q1, w1) ->
  exists front rest,
    PacketQueue.packets q = front :: rest /\ pk = PacketQueue.packet front /\
    PacketQueue.packets q1 = rest /\
    PacketQueue.maxQueueSize q1 = PacketQueue.maxQueueSize q /\
    PacketQueue.packetExpirySeconds q1 = PacketQueue.packetExpirySeconds q /\
    totalQueued (PacketQueue.stats q1) = totalQueued (PacketQueue.stats q) /\
    expiredPackets (PacketQueue.stats q1) = expiredPackets (PacketQueue.stats q) /\
    queueOverflows (PacketQueue.stats q1) = queueOverflows (PacketQueue.stats q) /\
    w1 = snd (millis w).
Proof.
  intros q w pk q1 w1 He H. unfold PacketQueue.empty in He.
  destruct (PacketQueue.packets q) as [ | front rest] eqn:E; [discriminate | ].
  rewrite (fifo_dequeue_cons q w front rest E) in H. inversion H; subst.
  exists front, rest. repeat split.
Qed.

Lemma fifo_enqueue_inv_true : forall p q w q2 w3,
  PacketQueue.enqueue p q w = (true, q2, w3) ->
  PacketQueue.size q < PacketQueue.maxQueueSize q /\
  q2 = PacketQueue.with_stats (count_queued (PacketQueue.stats q))
         (PacketQueue.with_packets
            (PacketQueue.packets q ++ [PacketQueue.mkQueuedPacket p (u32 (clock w (ticks w)))]) q) /\
  w3 = snd (millis w).
Proof.
  intros p q w q2 w3 H.
  destruct (Z_lt_ge_dec (PacketQueue.size q) (PacketQueue.maxQueueSize q)) as [Hroom | Hfull].
  - rewrite (fifo_enqueue_room p q w Hroom) in H. inversion H; subst. repeat split. exact Hroom.
  - rewrite (fifo_enqueue_full p q w Hfull) in H. discriminate.
Qed.

Lemma fifo_enqueue_inv_false : forall p q w q2 w3,
  PacketQueue.enqueue p q w = (false, q2, w3) ->
  PacketQueue.size q >= PacketQueue.maxQueueSize q /\
  q2 = PacketQueue.with_stats (count_overflow (PacketQueue.stats q)) q /\
  w3 = w.
Proof.
  intros p q w q2 w3 H.
  destruct (Z_lt_ge_dec (PacketQueue.size q) (PacketQueue.maxQueueSize q)) as [Hroom | Hfull].
  - rewrite (fifo_enqueue_room p q w Hroom) in H. discriminate.
  - rewrite (fifo_enqueue_full p q w Hfull) in H. inversion H; subst. repeat split. exact Hfull.
Qed.

Lemma sendPacket_inv : forall dis p w r w2,
  sendPacket dis p w = (r, w2) ->
  attempts w2 = (p, r) :: attempts w /\ clock w2 = clock w /\ ticks w2 = ticks w.
Proof.
  intros dis p w r w2 H.
  pose proof (sendPacket_attempts dis p w) as A.
  pose proof (sendPacket_clock dis p w) as [B C].
  rewrite H in A, B, C. cbn [fst snd] in *. repeat split; assumption.
Qed.


(** ** The drain cycle of RadioInterfaceQueue.cpp *)

Section PriorityDrain.
Context {PQ : StdPriorityQueue PriorityPacketQueue.QueuedPacket PriorityPacketQueue.less}.
Variable MAX_PACKETS_PER_CYCLE : Z.
Variable getLastPriority : PriorityPacketQueue.t -> Z.

Lemma prio_dequeue_inv : forall (q : PriorityPacketQueue.t) w pk q1 w1,
  PriorityPacketQueue.empty q = false ->
  PriorityPacketQueue.dequeue q w = (pk, q1, w1) ->
  exists top,
    pq_top (PriorityPacketQueue.packets q) = Some top /\
    pk = PriorityPacketQueue.packet top /\
    PriorityPacketQueue.packets q1 = pq_pop (PriorityPacketQueue.packets q) /\
    PriorityPacketQueue.maxQueueSize q1 = PriorityPacketQueue.maxQueueSize q /\
    PriorityPacketQueue.packetExpirySeconds q1 = PriorityPacketQueue.packetExpirySeconds q /\
    totalQueued (PriorityPacketQueue.stats q1) = totalQueued (PriorityPacketQueue.stats q) /\
    expiredPackets (PriorityPacketQueue.stats q1) = expiredPackets (PriorityPacketQueue.stats q) /\
    queueOverflows (PriorityPacketQueue.stats q1) = queueOverflows (PriorityPacketQueue.stats q) /\
    w1 = snd (millis w).
Proof.
  intros q w pk q1 w1 He H. unfold PriorityPacketQueue.dequeue in H. rewrite He in H.
  destruct (pq_nonempty_top _ He) as [top Htop]. rewrite Htop in H.
  inversion H; subst. exists top. repeat split. exact Htop.
Qed.

Lemma prio_dequeue_size : forall (q : PriorityPacketQueue.t) w pk q1 w1,
  PriorityPacketQueue.empty q = false ->
  PriorityPacketQueue.dequeue q w = (pk, q1, w1) ->
  pq_size (PriorityPacketQueue.packets q) = S (pq_size (PriorityPacketQueue.packets q1)).
Proof.
  intros q w pk q1 w1 He H.
  destruct (prio_dequeue_inv _ _ _ _ _ He H) as (top & Htop & _ & E1 & _).
  rewrite E1. apply pq_size_pop with (x := top). exact Htop.
Qed.

Lemma prio_enqueue_inv_true : forall p (q : PriorityPacketQueue.t) w q2 w3,
  PriorityPacketQueue.enqueue p q w = (true, q2, w3) ->
  PriorityPacketQueue.size q < PriorityPacketQueue.maxQueueSize q /\
  q2 = PriorityPacketQueue.with_stats (count_queued (PriorityPacketQueue.stats q))
         (PriorityPacketQueue.with_packets
            (pq_push (PriorityPacketQueue.QueuedPacket_new p (u32 (clock w (ticks w))))
                     (PriorityPacketQueue.packets q)) q) /\
  w3 = snd (millis w).
Proof.
  intros p q w q2 w3 H.
  destruct (Z_lt_ge_dec (PriorityPacketQueue.size q) (PriorityPacketQueue.maxQueueSize q))
    as [Hroom | Hfull].
  - rewrite (prio_enqueue_room p q w Hroom) in H. inversion H; subst. repeat split. exact Hroom.
  - rewrite (prio_enqueue_full p q w Hfull) in H. discriminate.
Qed.

Lemma prio_enqueue_inv_false : forall p (q : PriorityPacketQueue.t) w q2 w3,
  PriorityPacketQueue.enqueue p q w = (false, q2, w3) ->
  PriorityPacketQueue.size q >= PriorityPacketQueue.maxQueueSize q /\
  q2 = PriorityPacketQueue.with_stats (count_overflow (PriorityPacketQueue.stats q)) q /\
  w3 = w.
Proof.
  intros p q w q2 w3 H.
  destruct (Z_lt_ge_dec (PriorityPacketQueue.size q) (PriorityPacketQueue.maxQueueSize q))
    as [Hroom | Hfull].
  - rewrite (prio_enqueue_room p q w Hroom) in H. discriminate.
  - rewrite (prio_enqueue_full p q w Hfull) in H. inversion H; subst. repeat split. exact Hfull.
Qed.

Lemma prio_loop_eq : forall fuel startTime n st w,
  PriorityRadio.processQueuedPackets_loop MAX_PACKETS_PER_CYCLE getLastPriority
    fuel startTime n st w =
  if PriorityPacketQueue.empty (PriorityRadio.priorityQueue st) then Some (st, n, w)
  else
    if negb (u32 (fst (millis w) - startTime) <? PriorityRadio.maxProcessTime)
    then Some (st, n, snd (millis w))
    else if negb (n <? MAX_PACKETS_PER_CYCLE) then Some (st, n, snd (millis w))
    else
      match fuel with
      | O => None
      | S fuel' =>
          let '(packet, q1, w1) :=
            PriorityPacketQueue.dequeue (PriorityRadio.priorityQueue st) (snd (millis w)) in
          let st1 := PriorityRadio.with_queue q1 st in
          match packet with
          | Some p =>
              let isHighPriority := getLastPriority q1 >? 2 in
              let '(result, w2) := sendPacket (PriorityRadio.disabled st1) p w1 in
              if ErrorCode_eqb result ERRNO_OK then
                PriorityRadio.processQueuedPackets_loop MAX_PACKETS_PER_CYCLE getLastPriority
                  fuel' startTime (u32 (n + 1))
                  (PriorityRadio.with_metrics
                     (PriorityRadio.count_sent isHighPriority (PriorityRadio.metrics st1)) st1)
                  w2
              else
                let '(ok, q2, w3) := PriorityPacketQueue.enqueue (Some p) q1 w2 in
                if negb ok then
                  Some (PriorityRadio.with_metrics
                          (PriorityRadio.count_drop (PriorityRadio.metrics st1))
                          (PriorityRadio.with_queue q2 st1),
                        n, release (Some p) w3)
                else Some (PriorityRadio.with_queue q2 st1, n, w3)
          | None =>
              PriorityRadio.processQueuedPackets_loop MAX_PACKETS_PER_CYCLE getLastPriority
                fuel' startTime n st1 w1
          end
      end.
Proof. destruct fuel; reflexivity. Qed.

Lemma prio_loop_cycle : forall fuel startTime n st w st' n' w',
  PriorityRadio.processQueuedPackets_loop MAX_PACKETS_PER_CYCLE getLastPriority
    fuel startTime n st w = Some (st', n', w') ->
  prio_cycle MAX_PACKETS_PER_CYCLE getLastPriority startTime st n w st' n' w'.
Proof.
  induction fuel as [ | fuel IH]; intros startTime n st w st' n' w' H;
    rewrite prio_loop_eq in H;
    (destruct (PriorityPacketQueue.empty (PriorityRadio.priorityQueue st)) eqn:He;
      [inversion H; subst; apply prio_cycle_done; exact He | ]);
    (destruct (u32 (fst (millis w) - startTime) <? PriorityRadio.maxProcessTime)
       eqn:Ht; cbn [negb] in H;
      [apply Z.ltb_lt in Ht
      | inversion H; subst; apply prio_cycle_out_of_time;
        [exact He | apply Z.ltb_ge in Ht; lia] ]);
    (destruct (n <? MAX_PACKETS_PER_CYCLE) eqn:Hn; cbn [negb] in H;
      [apply Z.ltb_lt in Hn
      | inversion H; subst; apply prio_cycle_out_of_budget;
        [exact He | exact Ht | apply Z.ltb_ge in Hn; lia] ]);
    [discriminate | ].
  destruct (PriorityPacketQueue.dequeue (PriorityRadio.priorityQueue st) (snd (millis w)))
    as [[packet q1] w1] eqn:Hd.
  destruct packet as [p | ].
  - change (PriorityRadio.disabled (PriorityRadio.with_queue q1 st))
      with (PriorityRadio.disabled st) in H.
    destruct (sendPacket (PriorityRadio.disabled st) p w1) as [r w2] eqn:Hs.
    destruct (ErrorCode_eqb r ERRNO_OK) eqn:Hr.
    + apply ErrorCode_eqb_ok in Hr. subst r.
      eapply prio_cycle_sent;
        [exact He | exact Ht | exact Hn | exact Hd | exact Hs | apply IH; exact H].
    + assert (Hne : r <> ERRNO_OK)
        by (intros E; apply ErrorCode_eqb_ok in E; congruence).
      destruct (PriorityPacketQueue.enqueue (Some p) q1 w2) as [[ok q2] w3] eqn:Henq.
      destruct ok; cbn [negb] in H; inversion H; subst.
      * eapply prio_cycle_requeued;
          [exact He | exact Ht | exact Hn | exact Hd | exact Hs | exact Hne | exact Henq].
      * eapply prio_cycle_dropped;
          [exact He | exact Ht | exact Hn | exact Hd | exact Hs | exact Hne | exact Henq].
  - eapply prio_cycle_null;
      [exact He | exact Ht | exact Hn | exact Hd | apply IH; exact H].
Qed.

(** The loop returns: a turn pops one entry, so the size of the container
    is fuel enough. *)
Lemma prio_loop_total : forall fuel startTime n st w,
  (pq_size (PriorityPacketQueue.packets (PriorityRadio.priorityQueue st)) <= fuel)%nat ->
  exists st' n' w',
    PriorityRadio.processQueuedPackets_loop MAX_PACKETS_PER_CYCLE getLastPriority
      fuel startTime n st w = Some (st', n', w').
Proof.
  induction fuel as [ | fuel IH]; intros startTime n st w Hsz; rewrite prio_loop_eq;
    (destruct (PriorityPacketQueue.empty (PriorityRadio.priorityQueue st)) eqn:He;
      [eauto | ]);
    (destruct (negb (u32 (fst (millis w) - startTime) <? PriorityRadio.maxProcessTime));
      [eauto | ]);
    (destruct (negb (n <? MAX_PACKETS_PER_CYCLE)); [eauto | ]).
  - exfalso. unfold PriorityPacketQueue.empty in He.
    assert (pq_empty (PriorityPacketQueue.packets (PriorityRadio.priorityQueue st)) = true)
      by (apply pq_empty_size; lia).
    congruence.
  - destruct (PriorityPacketQueue.dequeue (PriorityRadio.priorityQueue st) (snd (millis w)))
      as [[packet q1] w1] eqn:Hd.
    pose proof (prio_dequeue_size _ _ _ _ _ He Hd) as Hpop.
    cbv zeta.
    destruct packet as [p | ].
    + destruct (sendPacket (PriorityRadio.disabled (PriorityRadio.with_queue q1 st)) p w1)
        as [r w2].
      destruct (ErrorCode_eqb r ERRNO_OK).
      * apply IH. cbn [PriorityRadio.with_metrics PriorityRadio.with_queue
                       PriorityRadio.priorityQueue]. lia.
      * destruct (PriorityPacketQueue.enqueue (Some p) q1 w2) as [[ok q2] w3].
        destruct ok; cbn [negb]; eauto.
    + apply IH. cbn [PriorityRadio.with_queue PriorityRadio.priorityQueue]. lia.
Qed.

Lemma prio_processQueuedPackets_total : forall cfg st w,
  exists st' n' w',
    PriorityRadio.processQueuedPackets MAX_PACKETS_PER_CYCLE getLastPriority cfg st w
      = Some (st', n', w').
Proof.
  intros cfg st w. unfold PriorityRadio.processQueuedPackets.
  destruct (negb (has_lora cfg) || negb (time_window_enabled cfg)); [eauto | ].
  destruct (prio_cleanExpired_spec (PriorityRadio.priorityQueue st) w)
    as (temp' & removed & Hrun & _). rewrite Hrun.
  destruct (millis _) as [startTime w2].
  apply prio_loop_total. apply le_n.
Qed.

(** The packet budget.  With [packetsProcessed = n] at the head of the
    loop, the cycle makes at most [MAX_PACKETS_PER_CYCLE - n] calls of
    [sendPacket], and [packetsProcessed] ends within the budget. *)
Lemma prio_cycle_budget : forall startTime st n w st' n' w',
  prio_cycle MAX_PACKETS_PER_CYCLE getLastPriority startTime st n w st' n' w' ->
  0 <= n -> MAX_PACKETS_PER_CYCLE < 2 ^ 32 ->
  exists new : list (MeshPacket * ErrorCode),
    attempts w' = new ++ attempts w /\
    n + Z.of_nat (length new) <= Z.max n MAX_PACKETS_PER_CYCLE /\
    n <= n' <= n + Z.of_nat (length new).
Proof.
  intros startTime st n w st' n' w' H.
  induction H as [ st n w He
                 | st n w He Ht
                 | st n w He Ht Hn
                 | st n w q1 w1 st' n' w' He Ht Hn Hd Hc IH
                 | st n w p q1 w1 w2 st' n' w' He Ht Hn Hd Hs Hc IH
                 | st n w p q1 w1 r w2 q2 w3 He Ht Hn Hd Hs Hr Henq
                 | st n w p q1 w1 r w2 q2 w3 He Ht Hn Hd Hs Hr Henq ]; intros H0 Hmax.
  - exists []. cbn. repeat split; lia.
  - exists []. cbn. repeat split; lia.
  - exists []. cbn. repeat split; lia.
  - destruct (prio_dequeue_inv _ _ _ _ _ He Hd) as (top & _ & _ & _ & _ & _ & _ & _ & _ & W1).
    destruct (IH H0 Hmax) as (new & A & B & C).
    exists new. subst w1. cbn [millis snd attempts] in A. repeat split; try assumption; lia.
  - destruct (prio_dequeue_inv _ _ _ _ _ He Hd) as (top & _ & _ & _ & _ & _ & _ & _ & _ & W1).
    destruct (sendPacket_inv _ _ _ _ _ Hs) as (A2 & _ & _).
    assert (E : u32 (n + 1) = n + 1) by (apply u32_small; lia).
    rewrite E in IH.
    destruct IH as (new & A & B & C); [lia | exact Hmax | ].
    exists (new ++ [(p, ERRNO_OK)]). subst w1. cbn [millis snd attempts] in A2.
    rewrite length_app. cbn [length].
    split; [rewrite A, A2, <- app_assoc; reflexivity | ]. lia.
  - destruct (prio_dequeue_inv _ _ _ _ _ He Hd) as (top & _ & _ & _ & _ & _ & _ & _ & _ & W1).
    destruct (sendPacket_inv _ _ _ _ _ Hs) as (A2 & _ & _).
    destruct (prio_enqueue_inv_true _ _ _ _ _ Henq) as (_ & _ & ->).
    exists [(p, r)]. subst w1. cbn [millis snd attempts] in *.
    split; [exact A2 | cbn [length]; lia].
  - destruct (prio_dequeue_inv _ _ _ _ _ He Hd) as (top & _ & _ & _ & _ & _ & _ & _ & _ & W1).
    destruct (sendPacket_inv _ _ _ _ _ Hs) as (A2 & _ & _).
    destruct (prio_enqueue_inv_false _ _ _ _ _ Henq) as (_ & _ & ->).
    exists [(p, r)]. subst w1. cbn [millis snd attempts release] in *.
    split; [exact A2 | cbn [length]; lia].
Qed.

(** The time budget: at the head of the loop, once the clock shows
    [maxProcessTime] or more since the start of the cycle, the loop ends
    without a dequeue. *)
Lemma prio_loop_out_of_time : forall fuel startTime n st w,
  PriorityPacketQueue.empty (PriorityRadio.priorityQueue st) = false ->
  u32 (fst (millis w) - startTime) >= PriorityRadio.maxProcessTime ->
  PriorityRadio.processQueuedPackets_loop MAX_PACKETS_PER_CYCLE getLastPriority
    fuel startTime n st w = Some (st, n, snd (millis w)).
Proof.
  intros fuel startTime n st w He Ht. rewrite prio_loop_eq, He.
  destruct (Z.ltb_spec (u32 (fst (millis w) - startTime)) PriorityRadio.maxProcessTime);
    [lia | reflexivity].
Qed.

Lemma prio_loop_out_of_budget : forall fuel startTime n st w,
  n >= MAX_PACKETS_PER_CYCLE ->
  exists w',
    PriorityRadio.processQueuedPackets_loop MAX_PACKETS_PER_CYCLE getLastPriority
      fuel startTime n st w = Some (st, n, w') /\ attempts w' = attempts w.
Proof.
  intros fuel startTime n st w Hn. rewrite prio_loop_eq.
  destruct (PriorityPacketQueue.empty (PriorityRadio.priorityQueue st)); [eauto | ].
  destruct (negb (u32 (fst (millis w) - startTime) <? PriorityRadio.maxProcessTime));
    [eauto | ].
  destruct (Z.ltb_spec n MAX_PACKETS_PER_CYCLE); [lia | cbn [negb]; eauto].
Qed.


End PriorityDrain.

(** ** Re-enqueue on a failed transmission *)

Lemma iter_count_expired_frame : forall n s,
  totalQueued (Nat.iter n count_expired s) = totalQueued s /\
  queueOverflows (Nat.iter n count_expired s) = queueOverflows s /\
  totalQueueTime (Nat.iter n count_expired s) = totalQueueTime s /\
  maxQueueTime (Nat.iter n count_expired s) = maxQueueTime s.
Proof.
  induction n as [ | n IH]; intros s; [repeat split | ].
  rewrite Nat.iter_succ. destruct (IH s) as (A & B & C & D).
  unfold count_expired at 1 3 5 7. cbn. repeat split; assumption.
Qed.

Lemma fifo_cleanExpired_frame : forall q w,
  let q1 := fst (PacketQueue.cleanExpired q w) in
  let w1 := snd (PacketQueue.cleanExpired q w) in
  PacketQueue.maxQueueSize q1 = PacketQueue.maxQueueSize q /\
  PacketQueue.size q1 <= PacketQueue.size q /\
  totalQueued (PacketQueue.stats q1) = totalQueued (PacketQueue.stats q) /\
  queueOverflows (PacketQueue.stats q1) = queueOverflows (PacketQueue.stats q) /\
  attempts w1 = attempts w /\
  clock w1 = clock w.
Proof.
  intros q w. cbv zeta. rewrite fifo_cleanExpired_spec. cbn [fst snd].
  cbn [PacketQueue.with_stats PacketQueue.with_packets PacketQueue.maxQueueSize
       PacketQueue.stats PacketQueue.packets].
  destruct (iter_count_expired_frame
              (length (filter (PacketQueue.expired_at (u32 (clock w (ticks w)))
                                 (PacketQueue.packetExpirySeconds q)) (PacketQueue.packets q)))
              (PacketQueue.stats q)) as (A & B & _ & _).
  destruct (release_all_frame
              (map PacketQueue.packet
                 (filter (PacketQueue.expired_at (u32 (clock w (ticks w)))
                            (PacketQueue.packetExpirySeconds q)) (PacketQueue.packets q)))
              (snd (millis w))) as (C & _ & _ & _ & _ & F).
  repeat split; try assumption.
  unfold PacketQueue.size. cbn [PacketQueue.packets].
  apply inj_le, filter_length_le.
Qed.


Section PriorityRequeue.
Context {PQ : StdPriorityQueue PriorityPacketQueue.QueuedPacket PriorityPacketQueue.less}.
Variable MAX_PACKETS_PER_CYCLE : Z.
Variable getLastPriority : PriorityPacketQueue.t -> Z.

Lemma prio_cleanExpired_frame : forall (q : PriorityPacketQueue.t) w,
  exists q1 w1,
    PriorityPacketQueue.cleanExpired q w = Some (q1, w1) /\
    PriorityPacketQueue.maxQueueSize q1 = PriorityPacketQueue.maxQueueSize q /\
    PriorityPacketQueue.size q1 <= PriorityPacketQueue.size q /\
    totalQueued (PriorityPacketQueue.stats q1) = totalQueued (PriorityPacketQueue.stats q) /\
    queueOverflows (PriorityPacketQueue.stats q1) = queueOverflows (PriorityPacketQueue.stats q) /\
    attempts w1 = attempts w /\
    clock w1 = clock w.
Proof.
  intros q w.
  destruct (prio_cleanExpired_spec q w) as (temp' & removed & Hrun & Hrem & Hkeep).
  rewrite Hrun. do 2 eexists. split; [reflexivity | ].
  cbn [PriorityPacketQueue.with_stats PriorityPacketQueue.with_packets
       PriorityPacketQueue.maxQueueSize PriorityPacketQueue.stats PriorityPacketQueue.packets].
  destruct (iter_count_expired_frame (length removed) (PriorityPacketQueue.stats q))
    as (A & B & _ & _).
  destruct (release_all_frame (map PriorityPacketQueue.packet removed) (snd (millis w)))
    as (C & _ & _ & _ & _ & F).
  repeat split; try assumption.
  unfold PriorityPacketQueue.size, pq_size.
  cbn [PriorityPacketQueue.packets PriorityPacketQueue.with_stats
       PriorityPacketQueue.with_packets].
  rewrite (Permutation_length Hkeep). apply inj_le, filter_length_le.
Qed.


End PriorityRequeue.







Section PriorityOutcome.
Context {PQ : StdPriorityQueue PriorityPacketQueue.QueuedPacket PriorityPacketQueue.less}.
Variable MAX_PACKETS_PER_CYCLE : Z.
Variable getLastPriority : PriorityPacketQueue.t -> Z.






End PriorityOutcome.



(** ** The guards of the drain *)

Lemma fifo_drain_disabled : forall cfg st w,
  has_lora cfg = false \/ time_window_enabled cfg = false ->
  FifoRadio.processQueuedPackets cfg st w = Some (st, w).
Proof.
  intros cfg st w [H | H]; unfold FifoRadio.processQueuedPackets; rewrite H;
    [ | rewrite orb_true_r]; reflexivity.
Qed.

Lemma inline_drain_disabled : forall fuel cfg st w,
  has_lora cfg = false \/ time_window_enabled cfg = false ->
  InlineRadio.processQueuedPackets fuel cfg st w = Some (st, w).
Proof.
  intros fuel cfg st w [H | H]; destruct fuel; cbn [InlineRadio.processQueuedPackets];
    rewrite H; try rewrite orb_true_r; reflexivity.
Qed.

Lemma inline_drain_closed : forall fuel cfg st w,
  has_lora cfg = true -> time_window_enabled cfg = true ->
  fst (isOperationAllowed cfg w) = false ->
  InlineRadio.processQueuedPackets fuel cfg st w = Some (st, snd (millis w)).
Proof.
  intros fuel cfg st w Hl He Hclosed.
  assert (Hw : snd (isOperationAllowed cfg w) = snd (millis w)).
  { unfold isOperationAllowed. rewrite Hl, He. reflexivity. }
  destruct fuel; cbn [InlineRadio.processQueuedPackets]; rewrite Hl, He; cbn [negb orb];
    destruct (isOperationAllowed cfg w) as [allowed w1]; cbn [fst snd] in *;
    subst allowed w1; reflexivity.
Qed.

Section PriorityGuards.
Context {PQ : StdPriorityQueue PriorityPacketQueue.QueuedPacket PriorityPacketQueue.less}.
Variable MAX_PACKETS_PER_CYCLE : Z.
Variable MIN_QUEUE_PROCESS_INTERVAL : Z.
Variable getLastPriority : PriorityPacketQueue.t -> Z.

Lemma prio_drain_disabled : forall cfg st w,
  has_lora cfg = false \/ time_window_enabled cfg = false ->
  PriorityRadio.processQueuedPackets MAX_PACKETS_PER_CYCLE getLastPriority cfg st w
    = Some (st, 0, w).
Proof.
  intros cfg st w [H | H]; unfold PriorityRadio.processQueuedPackets; rewrite H;
    [ | rewrite orb_true_r]; reflexivity.
Qed.

Lemma prio_enqueue_logs : forall p (q : PriorityPacketQueue.t) w,
  attempts (snd (PriorityPacketQueue.enqueue p q w)) = attempts w /\
  handed_over (snd (PriorityPacketQueue.enqueue p q w)) = handed_over w /\
  pool_released (snd (PriorityPacketQueue.enqueue p q w)) = pool_released w.
Proof.
  intros p q w. unfold PriorityPacketQueue.enqueue.
  destruct (PriorityPacketQueue.size q >=? PriorityPacketQueue.maxQueueSize q); repeat split.
Qed.

(** With the feature enabled and the window closed, [send] of
    RadioInterfaceQueue.cpp transmits nothing and does not enter the drain. *)
Lemma prio_send_closed : forall cfg p st w,
  has_lora cfg = true -> time_window_enabled cfg = true ->
  fst (isOperationAllowed cfg w) = false ->
  exists r st' w',
    PriorityRadio.send MAX_PACKETS_PER_CYCLE MIN_QUEUE_PROCESS_INTERVAL getLastPriority
                       cfg p st w = Some (r, st', w') /\
    attempts w' = attempts w /\ handed_over w' = handed_over w.
Proof.
  intros cfg p st w Hl He Hclosed. unfold PriorityRadio.send. rewrite Hl, He. cbn [andb].
  destruct (isOperationAllowed_logs cfg w) as (A & B & C).
  destruct (isOperationAllowed cfg w) as [allowed w1]. cbn [fst snd] in *. subst allowed.
  cbn [negb].
  destruct (lora_window_mode cfg) eqn:Hmode.
  - do 3 eexists. split; [reflexivity | ]. cbn. split; assumption.
  - destruct (prio_enqueue_logs (Some p) (PriorityRadio.priorityQueue st) w1) as (A' & B' & C').
    destruct (PriorityPacketQueue.enqueue (Some p) (PriorityRadio.priorityQueue st) w1)
      as [[ok q'] w2].
    cbn [snd] in *. destruct ok; cbn [negb].
    + do 3 eexists. split; [reflexivity | ]. split; congruence.
    + do 3 eexists. split; [reflexivity | ]. cbn. split; congruence.
  - do 3 eexists. split; [reflexivity | ]. cbn. split; assumption.
  - do 3 eexists. split; [reflexivity | ]. split; assumption.
Qed.

End PriorityGuards.

(** C7 as stated fails for the drain of RadioInterface.cpp: called with
    the feature enabled and the window closed, it dequeues the packet and
    transmits it. *)
Lemma C7_counterexample :
  ~ (forall cfg st w st' w',
       has_lora cfg = true -> time_window_enabled cfg = true ->
       fst (isOperationAllowed cfg w) = false ->
       FifoRadio.processQueuedPackets cfg st w = Some (st', w') ->
       attempts w' = attempts w /\
       FifoRadio.packetQueue st' = FifoRadio.packetQueue st).
Proof.
  intros H.
  destruct (H (day_lora QUEUE_PACKETS) fifo_queued_at_night (world_at (millis_at 20 0))
              (FifoRadio.mk (PacketQueue.mk [] (mkQueueStats 1 0 0 0 0) 32 3600) false)
              (mkWorld (fun _ => millis_at 20 0) 2 [] (fun _ => 1) (fun _ _ => ERRNO_OK)
                       [test_packet 7] [(test_packet 7, ERRNO_OK)])
              eq_refl eq_refl eq_refl eq_refl) as [A _].
  discriminate A.
Qed.

(** C7, amended.  With the feature disabled the drain of each of the three
    schedulers returns at once and changes nothing.  With the feature
    enabled and the window closed, the drain of RadioInterfaceTime.cpp
    returns after its window check, having read the clock and changed
    nothing else; the drains of RadioInterface.cpp and
    RadioInterfaceQueue.cpp do not test the window: [send] enters them only
    after its own window check has passed, and at a closed window [send]
    makes no transmission attempt. *)
Theorem C7_drain_guards :
  (forall cfg st w,
     has_lora cfg = false \/ time_window_enabled cfg = false ->
     FifoRadio.processQueuedPackets cfg st w = Some (st, w))
  /\
  (forall (PQ : StdPriorityQueue PriorityPacketQueue.QueuedPacket PriorityPacketQueue.less)
          MAX_PACKETS_PER_CYCLE getLastPriority cfg st w,
     has_lora cfg = false \/ time_window_enabled cfg = false ->
     PriorityRadio.processQueuedPackets MAX_PACKETS_PER_CYCLE getLastPriority cfg st w
       = Some (st, 0, w))
  /\
  (forall fuel cfg st w,
     has_lora cfg = false \/ time_window_enabled cfg = false ->
     InlineRadio.processQueuedPackets fuel cfg st w = Some (st, w))
  /\
  (forall fuel cfg st w,
     has_lora cfg = true -> time_window_enabled cfg = true ->
     fst (isOperationAllowed cfg w) = false ->
     InlineRadio.processQueuedPackets fuel cfg st w = Some (st, snd (millis w)) /\
     attempts (snd (millis w)) = attempts w /\
     handed_over (snd (millis w)) = handed_over w /\
     pool_released (snd (millis w)) = pool_released w)
  /\
  (forall cfg p st w,
     has_lora cfg = true -> time_window_enabled cfg = true ->
     fst (isOperationAllowed cfg w) = false ->
     exists r st' w',
       FifoRadio.send cfg p st w = Some (r, st', w') /\
       attempts w' = attempts w /\ handed_over w' = handed_over w)
  /\
  (forall (PQ : StdPriorityQueue PriorityPacketQueue.QueuedPacket PriorityPacketQueue.less)
          MAX_PACKETS_PER_CYCLE MIN_QUEUE_PROCESS_INTERVAL getLastPriority cfg p st w,
     has_lora cfg = true -> time_window_enabled cfg = true ->
     fst (isOperationAllowed cfg w) = false ->
     exists r st' w',
       PriorityRadio.send MAX_PACKETS_PER_CYCLE MIN_QUEUE_PROCESS_INTERVAL getLastPriority
                          cfg p st w = Some (r, st', w') /\
       attempts w' = attempts w /\ handed_over w' = handed_over w).
Proof.
  split; [exact fifo_drain_disabled | ].
  split; [intros PQ M G; exact (prio_drain_disabled M G) | ].
  split; [exact inline_drain_disabled | ].
  split; [ | split].
  - intros fuel cfg st w Hl He Hc.
    split; [exact (inline_drain_closed fuel cfg st w Hl He Hc) | repeat split].
  - intros cfg p st w Hl He Hc.
    destruct (fifo_send_closed cfg p st w Hl He Hc) as (r & st' & w' & Hrun & A & B & _).
    exists r, st', w'. repeat split; assumption.
  - intros PQ M I G. exact (prio_send_closed M I G).
Qed.

(** C7 at 20:00 under the window 09:00-17:00: the drain of
    RadioInterfaceTime.cpp leaves its queue, and [send] of RadioInterface.cpp
    transmits nothing. *)
Lemma C7_drain_guards_witness :
  InlineRadio.processQueuedPackets 1 (day_lora QUEUE_PACKETS)
    (InlineRadio.mk [InlineRadio.mkEntry (Some (test_packet 7)) (millis_at 20 0)])
    (world_at (millis_at 20 0))
  = Some (InlineRadio.mk [InlineRadio.mkEntry (Some (test_packet 7)) (millis_at 20 0)],
          snd (millis (world_at (millis_at 20 0))))
  /\
  exists r st' w',
    FifoRadio.send (day_lora QUEUE_PACKETS) (test_packet 8) fifo_queued_at_night
                   (world_at (millis_at 20 0)) = Some (r, st', w') /\
    attempts w' = [] /\ handed_over w' = [].
Proof.
  split.
  - exact (proj1 (proj1 (proj2 (proj2 (proj2 C7_drain_guards))) 1%nat
                        (day_lora QUEUE_PACKETS) _ (world_at (millis_at 20 0))
                        eq_refl eq_refl eq_refl)).
  - exact (proj1 (proj2 (proj2 (proj2 (proj2 C7_drain_guards))))
                 (day_lora QUEUE_PACKETS) (test_packet 8) fifo_queued_at_night
                 (world_at (millis_at 20 0)) eq_refl eq_refl eq_refl).
Defined.

(** ** The bounds of a drain cycle *)

Lemma fifo_cycle_attempts : forall dis q w q' w',
  fifo_cycle dis q w q' w' ->
  exists new,
    attempts w' = new ++ attempts w /\
    (length new <= length (PacketQueue.packets q))%nat.
Proof.
  intros dis q w q' w' H.
  induction H as [ q w He
                 | q w q1 w1 q' w' He Hd Hc IH
                 | q w p q1 w1 w2 q' w' He Hd Hs Hc IH
                 | q w p q1 w1 r w2 q2 w3 He Hd Hs Hr Henq
                 | q w p q1 w1 r w2 q2 w3 He Hd Hs Hr Henq ].
  - exists []. split; [reflexivity | apply Nat.le_0_l].
  - destruct (fifo_dequeue_inv _ _ _ _ _ He Hd)
      as (front & rest & E & _ & E1 & _ & _ & _ & _ & _ & W1).
    destruct IH as (new & A & L). exists new. subst w1. cbn [millis snd attempts] in A.
    split; [exact A | ]. rewrite E. rewrite E1 in L. cbn [length]. lia.
  - destruct (fifo_dequeue_inv _ _ _ _ _ He Hd)
      as (front & rest & E & _ & E1 & _ & _ & _ & _ & _ & W1).
    destruct (sendPacket_inv _ _ _ _ _ Hs) as (A2 & _ & _).
    destruct IH as (new & A & L). exists (new ++ [(p, ERRNO_OK)]).
    subst w1. cbn [millis snd attempts] in A2.
    split; [rewrite A, A2, <- app_assoc; reflexivity | ].
    rewrite length_app, E. rewrite E1 in L. cbn [length]. lia.
  - destruct (fifo_dequeue_inv _ _ _ _ _ He Hd)
      as (front & rest & E & _ & E1 & _ & _ & _ & _ & _ & W1).
    destruct (sendPacket_inv _ _ _ _ _ Hs) as (A2 & _ & _).
    destruct (fifo_enqueue_inv_true _ _ _ _ _ Henq) as (_ & _ & ->).
    exists [(p, r)]. subst w1. cbn [millis snd attempts] in *.
    split; [exact A2 | ]. rewrite E. cbn [length]. lia.
  - destruct (fifo_dequeue_inv _ _ _ _ _ He Hd)
      as (front & rest & E & _ & E1 & _ & _ & _ & _ & _ & W1).
    destruct (sendPacket_inv _ _ _ _ _ Hs) as (A2 & _ & _).
    destruct (fifo_enqueue_inv_false _ _ _ _ _ Henq) as (_ & _ & ->).
    exists [(p, r)]. subst w1. cbn [millis snd attempts release] in *.
    split; [exact A2 | ]. rewrite E. cbn [length]. lia.
Qed.

(** RadioInterface.cpp: the drain returns, after at most one attempt per
    entry the queue held. *)
Lemma fifo_drain_bounded : forall cfg st w,
  exists st' w' new,
    FifoRadio.processQueuedPackets cfg st w = Some (st', w') /\
    attempts w' = new ++ attempts w /\
    (length new <= length (PacketQueue.packets (FifoRadio.packetQueue st)))%nat.
Proof.
  intros cfg st w.
  destruct (fifo_processQueuedPackets_total cfg st w) as (st' & w' & Hrun).
  exists st', w'. pose proof Hrun as H. unfold FifoRadio.processQueuedPackets in H.
  destruct (negb (has_lora cfg) || negb (time_window_enabled cfg)).
  - inversion H; subst. exists [].
    split; [exact Hrun | split; [reflexivity | apply Nat.le_0_l] ].
  - destruct (fifo_cleanExpired_frame (FifoRadio.packetQueue st) w)
      as (_ & S1 & _ & _ & A1 & _).
    destruct (PacketQueue.cleanExpired (FifoRadio.packetQueue st) w) as [q1 w1].
    cbn [fst snd] in *.
    destruct (FifoRadio.processQueuedPackets_loop _ _ q1 w1) as [[q2 w2] | ] eqn:Hloop;
      [ | discriminate].
    inversion H; subst.
    apply fifo_loop_cycle in Hloop.
    destruct (fifo_cycle_attempts _ _ _ _ _ Hloop) as (new & A & L).
    exists new. split; [exact Hrun | ]. split; [congruence | ].
    unfold PacketQueue.size in S1. lia.
Qed.

Section PriorityBounds.
Context {PQ : StdPriorityQueue PriorityPacketQueue.QueuedPacket PriorityPacketQueue.less}.
Variable MAX_PACKETS_PER_CYCLE : Z.
Variable getLastPriority : PriorityPacketQueue.t -> Z.

(** RadioInterfaceQueue.cpp: the drain returns, after at most
    [MAX_PACKETS_PER_CYCLE] attempts. *)
Lemma prio_drain_bounded : forall cfg st w,
  MAX_PACKETS_PER_CYCLE < 2 ^ 32 ->
  exists st' n' w' new,
    PriorityRadio.processQueuedPackets MAX_PACKETS_PER_CYCLE getLastPriority cfg st w
      = Some (st', n', w') /\
    attempts w' = new ++ attempts w /\
    Z.of_nat (length new) <= Z.max 0 MAX_PACKETS_PER_CYCLE /\
    0 <= n' <= Z.of_nat (length new).
Proof.
  intros cfg st w Hmax.
  destruct (prio_processQueuedPackets_total MAX_PACKETS_PER_CYCLE getLastPriority cfg st w)
    as (st' & n' & w' & Hrun).
  exists st', n', w'. pose proof Hrun as H. unfold PriorityRadio.processQueuedPackets in H.
  destruct (negb (has_lora cfg) || negb (time_window_enabled cfg)).
  - inversion H; subst. exists [].
    split; [exact Hrun | split; [reflexivity | cbn [length]; lia] ].
  - destruct (prio_cleanExpired_frame (PriorityRadio.priorityQueue st) w)
      as (q1 & w1 & Hclean & _ & _ & _ & _ & A1 & _).
    rewrite Hclean in H.
    change (millis w1) with (u32 (clock w1 (ticks w1)), snd (millis w1)) in H.
    cbv beta iota in H.
    apply prio_loop_cycle in H.
    destruct (prio_cycle_budget MAX_PACKETS_PER_CYCLE getLastPriority _ _ _ _ _ _ _ H)
      as (new & A & B & C); [lia | exact Hmax | ].
    cbn [millis snd attempts] in A.
    exists new. split; [exact Hrun | ]. split; [congruence | ]. lia.
Qed.

End PriorityBounds.

(** C8 as stated fails for the drain of RadioInterface.cpp: it has no time
    budget.  With a second between any two clock readings, far beyond the
    100 ms of the sibling, one cycle still transmits both queued packets. *)
Lemma C8_counterexample :
  exists st' w',
    FifoRadio.processQueuedPackets (day_lora QUEUE_PACKETS) fifo_two_queued world_slow
      = Some (st', w') /\
    attempts w' = [(test_packet 2, ERRNO_OK); (test_packet 1, ERRNO_OK)] /\
    ticks w' = 3%nat /\
    (forall n, PriorityRadio.maxProcessTime <= clock world_slow (S n) - clock world_slow n).
Proof.
  do 2 eexists. split; [vm_compute; reflexivity | ].
  split; [reflexivity | ]. split; [reflexivity | ].
  intros n. unfold world_slow, PriorityRadio.maxProcessTime. cbn [clock]. lia.
Qed.

(** C8, amended.  The drain of RadioInterfaceQueue.cpp returns, having
    called the transmit primitive at most [MAX_PACKETS_PER_CYCLE] times, and
    at the head of its loop it stops without a dequeue once the clock shows
    100 ms or more since the start of the cycle, or once
    [packetsProcessed] has reached the budget.  The drain of
    RadioInterface.cpp has neither budget: it returns after at most one
    attempt per entry the queue held. *)
Theorem C8_drain_bounded :
  (forall (PQ : StdPriorityQueue PriorityPacketQueue.QueuedPacket PriorityPacketQueue.less)
          MAX_PACKETS_PER_CYCLE getLastPriority cfg st w,
     MAX_PACKETS_PER_CYCLE < 2 ^ 32 ->
     exists st' n' w' new,
       PriorityRadio.processQueuedPackets MAX_PACKETS_PER_CYCLE getLastPriority cfg st w
         = Some (st', n', w') /\
       attempts w' = new ++ attempts w /\
       Z.of_nat (length new) <= Z.max 0 MAX_PACKETS_PER_CYCLE /\
       0 <= n' <= Z.of_nat (length new))
  /\
  (forall (PQ : StdPriorityQueue PriorityPacketQueue.QueuedPacket PriorityPacketQueue.less)
          MAX_PACKETS_PER_CYCLE getLastPriority fuel startTime n st w,
     PriorityPacketQueue.empty (PriorityRadio.priorityQueue st) = false ->
     u32 (fst (millis w) - startTime) >= PriorityRadio.maxProcessTime ->
     PriorityRadio.processQueuedPackets_loop MAX_PACKETS_PER_CYCLE getLastPriority
       fuel startTime n st w = Some (st, n, snd (millis w)))
  /\
  (forall (PQ : StdPriorityQueue PriorityPacketQueue.QueuedPacket PriorityPacketQueue.less)
          MAX_PACKETS_PER_CYCLE getLastPriority fuel startTime n st w,
     n >= MAX_PACKETS_PER_CYCLE ->
     exists w',
       PriorityRadio.processQueuedPackets_loop MAX_PACKETS_PER_CYCLE getLastPriority
         fuel startTime n st w = Some (st, n, w') /\ attempts w' = attempts w)
  /\
  (forall cfg st w,
     exists st' w' new,
       FifoRadio.processQueuedPackets cfg st w = Some (st', w') /\
       attempts w' = new ++ attempts w /\
       (length new <= length (PacketQueue.packets (FifoRadio.packetQueue st)))%nat).
Proof.
  split; [intros PQ M G; exact (prio_drain_bounded M G) | ].
  split; [intros PQ M G; exact (prio_loop_out_of_time M G) | ].
  split; [intros PQ M G; exact (prio_loop_out_of_budget M G) | ].
  exact fifo_drain_bounded.
Qed.

(** C8 with a budget of two packets per cycle: of three queued packets at
    most two are attempted. *)
Lemma C8_drain_bounded_witness :
  exists st' n' w' new,
    PriorityRadio.processQueuedPackets 2 (fun _ => 1) (day_lora QUEUE_PACKETS)
                                       prio_three_queued (world_at 0)
      = Some (st', n', w') /\
    attempts w' = new ++ [] /\
    Z.of_nat (length new) <= 2.
Proof.
  destruct (proj1 C8_drain_bounded packetListPQ 2 (fun _ => 1) (day_lora QUEUE_PACKETS)
                  prio_three_queued (world_at 0) eq_refl)
    as (st' & n' & w' & new & Hrun & A & B & _).
  exists st', n', w', new. split; [exact Hrun | split; [exact A | exact B] ].
Defined.

(** RadioInterfaceTime.cpp: with the feature off, [send] does nothing but
    call itself; no depth of calls lets it return. *)
Lemma inline_send_never_returns : forall fuel cfg p st w,
  has_lora cfg && time_window_enabled cfg = false ->
  InlineRadio.send fuel cfg p st w = None.
Proof.
  induction fuel as [ | fuel IH]; intros cfg p st w H;
    cbn [InlineRadio.send]; rewrite H; [reflexivity | apply IH; exact H].
Qed.

(** ** The statistics counters over sequences of operations *)

Lemma fifo_clear_spec : forall q w,
  PacketQueue.clear q w =
  (PacketQueue.with_packets [] q,
   release_all (map PacketQueue.packet (PacketQueue.packets q)) w).
Proof.
  intros q w. unfold PacketQueue.clear, release_all. f_equal.
  generalize w. induction (PacketQueue.packets q) as [ | it rest IH]; intros w0;
    [reflexivity | cbn [fold_left map]; apply IH].
Qed.

Lemma counters_kept_refl : forall size s, counters_kept 0 size s size s.
Proof.
  intros size s (A & B & C). exists 0, 0, 0.
  rewrite !Z.add_0_r, !u32_small by assumption. cbn. repeat split; lia.
Qed.

Lemma counters_kept_trans : forall a b x s y s' z s'',
  counters_kept a x s y s' -> counters_kept b y s' z s'' ->
  counters_kept (a + b) x s z s''.
Proof.
  intros a b x s y s' z s'' H1 H2 R.
  destruct (H1 R) as (kq & ke & ko & Hq & He & Ho & Hn & Hsz & Eq & Ee & Eo).
  assert (R' : counters_in_range s').
  { unfold counters_in_range. rewrite Eq, Ee, Eo. repeat split; apply u32_range. }
  destruct (H2 R') as (kq' & ke' & ko' & Hq' & He' & Ho' & Hn' & Hsz' & Eq' & Ee' & Eo').
  exists (kq + kq'), (ke + ke'), (ko + ko').
  rewrite Eq', Ee', Eo', Eq, Ee, Eo, !u32_add_u32_l, !Z.add_assoc, Nat2Z.inj_add.
  repeat split; lia.
Qed.

Lemma counters_kept_more : forall a b x s y s',
  (a <= b)%nat -> counters_kept a x s y s' -> counters_kept b x s y s'.
Proof.
  intros a b x s y s' Hab H R.
  destruct (H R) as (kq & ke & ko & Hq & He & Ho & Hn & Hsz & Eq & Ee & Eo).
  exists kq, ke, ko. repeat split; try assumption; lia.
Qed.

Lemma counters_kept_accept : forall size s,
  counters_kept 1 size s (size + 1) (count_queued s).
Proof.
  intros size s (A & B & C). exists 1, 0, 0. unfold count_queued.
  cbn [totalQueued expiredPackets queueOverflows].
  rewrite !Z.add_0_r, (u32_small (expiredPackets s)), (u32_small (queueOverflows s))
    by assumption.
  change (Z.of_nat 1) with 1. repeat split; lia.
Qed.

Lemma counters_kept_refuse : forall size s,
  counters_kept 1 size s size (count_overflow s).
Proof.
  intros size s (A & B & C). exists 0, 0, 1. unfold count_overflow.
  cbn [totalQueued expiredPackets queueOverflows].
  rewrite !Z.add_0_r, (u32_small (totalQueued s)), (u32_small (expiredPackets s))
    by assumption.
  change (Z.of_nat 1) with 1. repeat split; lia.
Qed.

Lemma counters_kept_shrink : forall size s size' s',
  size' <= size ->
  totalQueued s' = totalQueued s -> expiredPackets s' = expiredPackets s ->
  queueOverflows s' = queueOverflows s ->
  counters_kept 0 size s size' s'.
Proof.
  intros size s size' s' Hsz Eq Ee Eo (A & B & C). exists 0, 0, 0.
  rewrite Eq, Ee, Eo, !Z.add_0_r, !u32_small by assumption.
  cbn. repeat split; lia.
Qed.

Lemma counters_kept_expired : forall n size s,
  counters_kept 0 size s (size - Z.of_nat n) (Nat.iter n count_expired s).
Proof.
  intros n size s R. pose proof R as (A & B & C).
  rewrite (iter_count_expired n s B). exists 0, (Z.of_nat n), 0.
  cbn [totalQueued expiredPackets queueOverflows].
  rewrite !Z.add_0_r, (u32_small (totalQueued s)), (u32_small (queueOverflows s))
    by assumption.
  cbn. repeat split; lia.
Qed.

Lemma counters_kept_within : forall n size s size' s',
  counters_in_range s -> 0 <= size' ->
  counters_kept n size s size' s' ->
  counters_up_within (Z.of_nat n) size s s'.
Proof.
  intros n size s size' s' R Hsz H.
  destruct (H R) as (kq & ke & ko & Hq & He & Ho & Hn & Hc & Eq & Ee & Eo).
  split; [exists kq | split; [exists ke | exists ko] ]; split; try assumption; lia.
Qed.

Lemma counted_up_within_monotone : forall n a b,
  is_u32 a -> counted_up_within n a b -> a + n < 2 ^ 32 -> a <= b <= a + n.
Proof.
  intros n a b [Ha Ha'] (k & Hk & ->) Hn. rewrite u32_small by lia. lia.
Qed.

Lemma fifo_counters_enqueue : forall p q w,
  fifo_counters_kept 1 q (snd (fst (PacketQueue.enqueue p q w))).
Proof.
  intros p q w. unfold fifo_counters_kept.
  destruct (Z_lt_ge_dec (PacketQueue.size q) (PacketQueue.maxQueueSize q)) as [Hroom | Hfull].
  - rewrite (fifo_enqueue_room p q w Hroom). cbn [fst snd].
    match goal with |- counters_kept _ _ _ (PacketQueue.size ?q1) _ =>
      replace (PacketQueue.size q1) with (PacketQueue.size q + 1) end.
    + apply counters_kept_accept.
    + unfold PacketQueue.size, PacketQueue.with_stats, PacketQueue.with_packets.
      cbn [PacketQueue.packets]. rewrite length_app. cbn [length]. lia.
  - rewrite (fifo_enqueue_full p q w Hfull). cbn [fst snd]. apply counters_kept_refuse.
Qed.

Lemma fifo_counters_dequeue : forall q w,
  fifo_counters_kept 0 q (snd (fst (PacketQueue.dequeue q w))).
Proof.
  intros q w. unfold fifo_counters_kept.
  destruct (PacketQueue.packets q) as [ | front rest] eqn:Hp.
  - unfold PacketQueue.dequeue. rewrite Hp. cbn [fst snd]. apply counters_kept_refl.
  - rewrite (fifo_dequeue_cons q w front rest Hp). cbn [fst snd].
    apply counters_kept_shrink; try reflexivity.
    unfold PacketQueue.size, PacketQueue.with_packets. cbn [PacketQueue.packets].
    rewrite Hp. cbn [length]. lia.
Qed.

Lemma fifo_counters_cleanExpired : forall q w,
  fifo_counters_kept 0 q (fst (PacketQueue.cleanExpired q w)).
Proof.
  intros q w. unfold fifo_counters_kept. rewrite fifo_cleanExpired_spec. cbn [fst].
  unfold PacketQueue.size, PacketQueue.with_stats, PacketQueue.with_packets.
  cbn [PacketQueue.packets PacketQueue.stats].
  match goal with |- counters_kept _ _ _ ?sz (Nat.iter ?n _ _) =>
    replace sz with (Z.of_nat (length (PacketQueue.packets q)) - Z.of_nat n) end.
  - apply counters_kept_expired.
  - match goal with |- context [filter ?f (PacketQueue.packets q)] =>
      pose proof (filter_length f (PacketQueue.packets q)) as L end.
    lia.
Qed.

Lemma fifo_counters_clear : forall q w,
  fifo_counters_kept 0 q (fst (PacketQueue.clear q w)).
Proof.
  intros q w. unfold fifo_counters_kept. rewrite fifo_clear_spec. cbn [fst].
  apply counters_kept_shrink; try reflexivity.
  unfold PacketQueue.size, PacketQueue.with_packets. cbn [PacketQueue.packets length]. lia.
Qed.

(** A relation between queues graded by the calls of [enqueue]: each
    operation of the scheduler of RadioInterface.cpp makes at most one. *)
Section FifoGraded.
Variable R : nat -> PacketQueue.t -> PacketQueue.t -> Prop.
Hypothesis R_refl : forall q, R 0 q q.
Hypothesis R_trans : forall a b q1 q2 q3, R a q1 q2 -> R b q2 q3 -> R (a + b) q1 q3.
Hypothesis R_more : forall a b q q', (a <= b)%nat -> R a q q' -> R b q q'.
Hypothesis R_enqueue : forall p q w, R 1 q (snd (fst (PacketQueue.enqueue p q w))).
Hypothesis R_dequeue : forall q w, R 0 q (snd (fst (PacketQueue.dequeue q w))).
Hypothesis R_cleanExpired : forall q w, R 0 q (fst (PacketQueue.cleanExpired q w)).
Hypothesis R_clear : forall q w, R 0 q (fst (PacketQueue.clear q w)).

Lemma fifo_cycle_graded : forall dis q w q' w',
  fifo_cycle dis q w q' w' -> R 1 q q'.
Proof.
  intros dis q w q' w' H.
  induction H as [ q w He
                 | q w q1 w1 q' w' He Hd Hc IH
                 | q w p q1 w1 w2 q' w' He Hd Hs Hc IH
                 | q w p q1 w1 r w2 q2 w3 He Hd Hs Hr Henq
                 | q w p q1 w1 r w2 q2 w3 He Hd Hs Hr Henq ].
  - apply (R_more 0 1); [lia | apply R_refl].
  - pose proof (R_dequeue q w) as D. rewrite Hd in D.
    exact (R_trans 0 1 _ _ _ D IH).
  - pose proof (R_dequeue q w) as D. rewrite Hd in D.
    exact (R_trans 0 1 _ _ _ D IH).
  - pose proof (R_dequeue q w) as D. rewrite Hd in D.
    pose proof (R_enqueue (Some p) q1 w2) as E. rewrite Henq in E.
    exact (R_trans 0 1 _ _ _ D E).
  - pose proof (R_dequeue q w) as D. rewrite Hd in D.
    pose proof (R_enqueue (Some p) q1 w2) as E. rewrite Henq in E.
    exact (R_trans 0 1 _ _ _ D E).
Qed.

Lemma fifo_drain_graded : forall cfg st w st' w',
  FifoRadio.processQueuedPackets cfg st w = Some (st', w') ->
  R 1 (FifoRadio.packetQueue st) (FifoRadio.packetQueue st').
Proof.
  intros cfg st w st' w' H. unfold FifoRadio.processQueuedPackets in H.
  destruct (negb (has_lora cfg) || negb (time_window_enabled cfg)).
  - inversion H; subst. apply (R_more 0 1); [lia | apply R_refl].
  - pose proof (R_cleanExpired (FifoRadio.packetQueue st) w) as C.
    destruct (PacketQueue.cleanExpired (FifoRadio.packetQueue st) w) as [q1 w1].
    cbn [fst] in C.
    destruct (FifoRadio.processQueuedPackets_loop _ _ q1 w1) as [[q2 w2] | ] eqn:Hloop;
      [ | discriminate].
    inversion H; subst. cbn [FifoRadio.packetQueue FifoRadio.with_queue].
    apply (R_trans 0 1 _ _ _ C).
    eapply fifo_cycle_graded. eapply fifo_loop_cycle. exact Hloop.
Qed.

Lemma fifo_send_graded : forall cfg p st w r st' w',
  FifoRadio.send cfg p st w = Some (r, st', w') ->
  R 1 (FifoRadio.packetQueue st) (FifoRadio.packetQueue st').
Proof.
  intros cfg p st w r st' w' H. unfold FifoRadio.send in H.
  destruct (if has_lora cfg && time_window_enabled cfg
            then let '(allowed, w1) := isOperationAllowed cfg w in (negb allowed, w1)
            else (false, w)) as [outside w1].
  destruct outside.
  - destruct (lora_window_mode cfg).
    + inversion H; subst. apply (R_more 0 1); [lia | apply R_refl].
    + pose proof (R_enqueue (Some p) (FifoRadio.packetQueue st) w1) as E.
      destruct (PacketQueue.enqueue (Some p) (FifoRadio.packetQueue st) w1) as [[ok q'] w2].
      cbn [fst snd] in E. destruct ok; cbn [negb] in H; inversion H; subst; exact E.
    + inversion H; subst. apply (R_more 0 1); [lia | apply R_refl].
    + inversion H; subst. apply (R_more 0 1); [lia | apply R_refl].
  - destruct (FifoRadio.processQueuedPackets cfg st w1) as [[st2 w2] | ] eqn:Hd;
      [ | discriminate].
    destruct (sendPacket (FifoRadio.disabled st2) p w2) as [r' w3].
    inversion H; subst. eapply fifo_drain_graded. exact Hd.
Qed.

Lemma fifo_step_graded : forall op st w st' w',
  fifo_step op st w = Some (st', w') ->
  R 1 (FifoRadio.packetQueue st) (FifoRadio.packetQueue st').
Proof.
  intros op st w st' w' H. destruct op as [p | | | | cfg | cfg p]; cbn [fifo_step] in H.
  - pose proof (R_enqueue p (FifoRadio.packetQueue st) w) as E.
    destruct (PacketQueue.enqueue p (FifoRadio.packetQueue st) w) as [[ok q] w1].
    inversion H; subst. exact E.
  - pose proof (R_dequeue (FifoRadio.packetQueue st) w) as E.
    destruct (PacketQueue.dequeue (FifoRadio.packetQueue st) w) as [[pk q] w1].
    inversion H; subst. apply (R_more 0 1); [lia | exact E].
  - pose proof (R_cleanExpired (FifoRadio.packetQueue st) w) as E.
    destruct (PacketQueue.cleanExpired (FifoRadio.packetQueue st) w) as [q w1].
    inversion H; subst. apply (R_more 0 1); [lia | exact E].
  - unfold FifoRadio.clearPacketQueue in H.
    pose proof (R_clear (FifoRadio.packetQueue st) w) as E.
    destruct (PacketQueue.clear (FifoRadio.packetQueue st) w) as [q w1].
    inversion H; subst. apply (R_more 0 1); [lia | exact E].
  - eapply fifo_drain_graded. exact H.
  - destruct (FifoRadio.send cfg p st w) as [[[r st2] w2] | ] eqn:Hs; [ | discriminate].
    inversion H; subst. eapply fifo_send_graded. exact Hs.
Qed.

Lemma fifo_run_graded : forall ops st w st' w',
  fifo_run ops st w = Some (st', w') ->
  R (length ops) (FifoRadio.packetQueue st) (FifoRadio.packetQueue st').
Proof.
  induction ops as [ | op rest IH]; intros st w st' w' H; cbn [fifo_run] in H.
  - inversion H; subst. apply R_refl.
  - destruct (fifo_step op st w) as [[st1 w1] | ] eqn:Hstep; [ | discriminate].
    exact (R_trans 1 (length rest) _ _ _
             (fifo_step_graded _ _ _ _ _ Hstep) (IH _ _ _ _ H)).
Qed.

End FifoGraded.

Lemma fifo_run_counters : forall ops st w st' w',
  fifo_run ops st w = Some (st', w') ->
  fifo_counters_kept (length ops) (FifoRadio.packetQueue st) (FifoRadio.packetQueue st').
Proof.
  apply (fifo_run_graded fifo_counters_kept).
  - intros q. apply counters_kept_refl.
  - intros a b q1 q2 q3. apply counters_kept_trans.
  - intros a b q q'. apply counters_kept_more.
  - exact fifo_counters_enqueue.
  - exact fifo_counters_dequeue.
  - exact fifo_counters_cleanExpired.
  - exact fifo_counters_clear.
Qed.

Section PriorityCounters.
Context {PQ : StdPriorityQueue PriorityPacketQueue.QueuedPacket PriorityPacketQueue.less}.
Variable MAX_PACKETS_PER_CYCLE : Z.
Variable MIN_QUEUE_PROCESS_INTERVAL : Z.
Variable getLastPriority : PriorityPacketQueue.t -> Z.

Lemma prio_clear_loop_spec : forall fuel (packets : pq) w,
  (pq_size packets <= fuel)%nat ->
  exists l' released,
    PriorityPacketQueue.clear_loop fuel packets w =
      Some (l', release_all (map PriorityPacketQueue.packet released) w) /\
    pq_elems l' = [] /\
    Permutation released (pq_elems packets).
Proof.
  induction fuel as [ | fuel IH]; intros packets w Hsz.
  - assert (He : pq_empty packets = true) by (apply pq_empty_size; lia).
    cbn [PriorityPacketQueue.clear_loop]. rewrite He.
    apply pq_empty_true in He.
    exists packets, []. rewrite He. repeat split. constructor.
  - cbn [PriorityPacketQueue.clear_loop].
    destruct (pq_empty packets) eqn:He.
    + apply pq_empty_true in He.
      exists packets, []. rewrite He. repeat split. constructor.
    + destruct (pq_nonempty_top packets He) as [x Hx]. rewrite Hx.
      pose proof (pq_pop_elems packets x Hx) as Hperm.
      pose proof (pq_size_pop packets x Hx) as Hpop.
      destruct (IH (pq_pop packets) (release (PriorityPacketQueue.packet x) w))
        as (l' & released & Hrun & Hl & Hrel); [lia | ].
      exists l', (x :: released). rewrite Hrun. cbn [map]. rewrite release_all_cons.
      split; [reflexivity | split; [exact Hl | ] ].
      eapply perm_trans; [apply perm_skip, Hrel | apply Permutation_sym, Hperm].
Qed.

Lemma prio_clear_spec : forall (q : PriorityPacketQueue.t) w,
  exists l' released,
    PriorityPacketQueue.clear q w =
      Some (PriorityPacketQueue.with_packets l' q,
            release_all (map PriorityPacketQueue.packet released) w) /\
    pq_elems l' = [] /\
    Permutation released (pq_elems (PriorityPacketQueue.packets q)).
Proof.
  intros q w. unfold PriorityPacketQueue.clear.
  destruct (prio_clear_loop_spec (pq_size (PriorityPacketQueue.packets q))
                                 (PriorityPacketQueue.packets q) w (le_n _))
    as (l' & released & Hrun & Hl & Hrel).
  rewrite Hrun. exists l', released. repeat split; assumption.
Qed.

Lemma prio_counters_enqueue : forall p (q : PriorityPacketQueue.t) w,
  prio_counters_kept 1 q (snd (fst (PriorityPacketQueue.enqueue p q w))).
Proof.
  intros p q w. unfold prio_counters_kept.
  destruct (Z_lt_ge_dec (PriorityPacketQueue.size q) (PriorityPacketQueue.maxQueueSize q))
    as [Hroom | Hfull].
  - rewrite (prio_enqueue_room p q w Hroom). cbn [fst snd].
    match goal with |- counters_kept _ _ _ (PriorityPacketQueue.size ?q1) _ =>
      replace (PriorityPacketQueue.size q1) with (PriorityPacketQueue.size q + 1) end.
    + apply counters_kept_accept.
    + unfold PriorityPacketQueue.size, PriorityPacketQueue.with_stats,
        PriorityPacketQueue.with_packets.
      cbn [PriorityPacketQueue.packets]. rewrite pq_size_push. lia.
  - rewrite (prio_enqueue_full p q w Hfull). cbn [fst snd]. apply counters_kept_refuse.
Qed.

Lemma prio_counters_dequeue : forall (q : PriorityPacketQueue.t) w,
  prio_counters_kept 0 q (snd (fst (PriorityPacketQueue.dequeue q w))).
Proof.
  intros q w. unfold prio_counters_kept.
  destruct (PriorityPacketQueue.empty q) eqn:He.
  - rewrite (prio_dequeue_empty q w He). cbn [fst snd]. apply counters_kept_refl.
  - destruct (prio_dequeue_max q w He) as (top & _ & _ & Hd & Hperm).
    rewrite Hd. cbn [fst snd].
    apply counters_kept_shrink; try reflexivity.
    unfold PriorityPacketQueue.size, PriorityPacketQueue.with_packets, pq_size.
    cbn [PriorityPacketQueue.packets].
    rewrite (Permutation_length Hperm). cbn [length]. lia.
Qed.

Lemma prio_counters_cleanExpired : forall (q : PriorityPacketQueue.t) w q' w',
  PriorityPacketQueue.cleanExpired q w = Some (q', w') -> prio_counters_kept 0 q q'.
Proof.
  intros q w q' w' H. unfold prio_counters_kept.
  destruct (prio_cleanExpired_spec q w) as (temp' & removed & Hc & Hrem & Hkept).
  rewrite Hc in H. inversion H; subst.
  unfold PriorityPacketQueue.size, PriorityPacketQueue.with_stats,
    PriorityPacketQueue.with_packets, pq_size.
  cbn [PriorityPacketQueue.packets PriorityPacketQueue.stats].
  match goal with |- counters_kept _ _ _ ?sz (Nat.iter ?n _ _) =>
    replace sz
      with (Z.of_nat (length (pq_elems (PriorityPacketQueue.packets q))) - Z.of_nat n) end.
  - apply counters_kept_expired.
  - rewrite (Permutation_length Hkept), (Permutation_length Hrem).
    match goal with |- context [filter ?f (pq_elems (PriorityPacketQueue.packets q))] =>
      pose proof (filter_length f (pq_elems (PriorityPacketQueue.packets q))) as L end.
    lia.
Qed.

Lemma prio_counters_clear : forall (q : PriorityPacketQueue.t) w q' w',
  PriorityPacketQueue.clear q w = Some (q', w') -> prio_counters_kept 0 q q'.
Proof.
  intros q w q' w' H. unfold prio_counters_kept.
  destruct (prio_clear_spec q w) as (l' & released & Hc & Hnil & _).
  rewrite Hc in H. inversion H; subst.
  apply counters_kept_shrink; try reflexivity.
  unfold PriorityPacketQueue.size, PriorityPacketQueue.with_packets, pq_size.
  cbn [PriorityPacketQueue.packets]. rewrite Hnil. cbn [length]. lia.
Qed.

(** The same grading for the scheduler of RadioInterfaceQueue.cpp. *)
Section Graded.
Variable R : nat -> PriorityPacketQueue.t -> PriorityPacketQueue.t -> Prop.
Hypothesis R_refl : forall q, R 0 q q.
Hypothesis R_trans : forall a b q1 q2 q3, R a q1 q2 -> R b q2 q3 -> R (a + b) q1 q3.
Hypothesis R_more : forall a b q q', (a <= b)%nat -> R a q q' -> R b q q'.
Hypothesis R_enqueue : forall p q w, R 1 q (snd (fst (PriorityPacketQueue.enqueue p q w))).
Hypothesis R_dequeue : forall q w, R 0 q (snd (fst (PriorityPacketQueue.dequeue q w))).
Hypothesis R_cleanExpired : forall q w q' w',
  PriorityPacketQueue.cleanExpired q w = Some (q', w') -> R 0 q q'.
Hypothesis R_clear : forall q w q' w',
  PriorityPacketQueue.clear q w = Some (q', w') -> R 0 q q'.

Lemma prio_cycle_graded : forall startTime st n w st' n' w',
  prio_cycle MAX_PACKETS_PER_CYCLE getLastPriority startTime st n w st' n' w' ->
  R 1 (PriorityRadio.priorityQueue st) (PriorityRadio.priorityQueue st').
Proof.
  intros startTime st n w st' n' w' H.
  induction H as [ st n w He
                 | st n w He Ht
                 | st n w He Ht Hn
                 | st n w q1 w1 st' n' w' He Ht Hn Hd Hc IH
                 | st n w p q1 w1 w2 st' n' w' He Ht Hn Hd Hs Hc IH
                 | st n w p q1 w1 r w2 q2 w3 He Ht Hn Hd Hs Hr Henq
                 | st n w p q1 w1 r w2 q2 w3 He Ht Hn Hd Hs Hr Henq ];
    try (apply (R_more 0 1); [lia | apply R_refl]);
    pose proof (R_dequeue (PriorityRadio.priorityQueue st) (snd (millis w))) as D;
    rewrite Hd in D; cbn [fst snd] in D.
  - exact (R_trans 0 1 _ _ _ D IH).
  - exact (R_trans 0 1 _ _ _ D IH).
  - pose proof (R_enqueue (Some p) q1 w2) as E. rewrite Henq in E.
    exact (R_trans 0 1 _ _ _ D E).
  - pose proof (R_enqueue (Some p) q1 w2) as E. rewrite Henq in E.
    exact (R_trans 0 1 _ _ _ D E).
Qed.

Lemma prio_drain_graded : forall cfg st w st' n' w',
  PriorityRadio.processQueuedPackets MAX_PACKETS_PER_CYCLE getLastPriority cfg st w
    = Some (st', n', w') ->
  R 1 (PriorityRadio.priorityQueue st) (PriorityRadio.priorityQueue st').
Proof.
  intros cfg st w st' n' w' H. unfold PriorityRadio.processQueuedPackets in H.
  destruct (negb (has_lora cfg) || negb (time_window_enabled cfg)).
  - inversion H; subst. apply (R_more 0 1); [lia | apply R_refl].
  - destruct (PriorityPacketQueue.cleanExpired (PriorityRadio.priorityQueue st) w)
      as [[q1 w1] | ] eqn:Hclean; [ | discriminate].
    pose proof (R_cleanExpired _ _ _ _ Hclean) as C.
    change (millis w1) with (u32 (clock w1 (ticks w1)), snd (millis w1)) in H.
    cbv beta iota in H.
    apply prio_loop_cycle in H.
    apply (R_trans 0 1 _ _ _ C).
    apply (prio_cycle_graded _ _ _ _ _ _ _ H).
Qed.

Lemma prio_send_graded : forall cfg p st w r st' w',
  PriorityRadio.send MAX_PACKETS_PER_CYCLE MIN_QUEUE_PROCESS_INTERVAL getLastPriority
                     cfg p st w = Some (r, st', w') ->
  R 1 (PriorityRadio.priorityQueue st) (PriorityRadio.priorityQueue st').
Proof.
  intros cfg p st w r st' w' H. unfold PriorityRadio.send in H.
  destruct (if has_lora cfg && time_window_enabled cfg
            then let '(allowed, w1) := isOperationAllowed cfg w in (negb allowed, w1)
            else (false, w)) as [outside w1].
  destruct outside.
  - destruct (lora_window_mode cfg).
    + inversion H; subst. apply (R_more 0 1); [lia | apply R_refl].
    + pose proof (R_enqueue (Some p) (PriorityRadio.priorityQueue st) w1) as E.
      destruct (PriorityPacketQueue.enqueue (Some p) (PriorityRadio.priorityQueue st) w1)
        as [[ok q'] w2].
      cbn [fst snd] in E. destruct ok; cbn [negb] in H; inversion H; subst; exact E.
    + inversion H; subst. apply (R_more 0 1); [lia | apply R_refl].
    + inversion H; subst. apply (R_more 0 1); [lia | apply R_refl].
  - destruct (millis w1) as [now w2].
    destruct (u32 (now - PriorityRadio.lastProcessTime (PriorityRadio.metrics st))
              >=? MIN_QUEUE_PROCESS_INTERVAL).
    + destruct (PriorityRadio.processQueuedPackets MAX_PACKETS_PER_CYCLE getLastPriority
                  cfg st w2) as [[[st2 n2] w3] | ] eqn:Hd; [ | discriminate].
      destruct (sendPacket _ p w3) as [r' w4].
      inversion H; subst.
      apply (prio_drain_graded _ _ _ _ _ _ Hd).
    + destruct (sendPacket (PriorityRadio.disabled st) p w2) as [r' w4].
      inversion H; subst. apply (R_more 0 1); [lia | apply R_refl].
Qed.

Lemma prio_step_graded : forall op st w st' w',
  prio_step MAX_PACKETS_PER_CYCLE MIN_QUEUE_PROCESS_INTERVAL getLastPriority op st w
    = Some (st', w') ->
  R 1 (PriorityRadio.priorityQueue st) (PriorityRadio.priorityQueue st').
Proof.
  intros op st w st' w' H. destruct op as [p | | | | cfg | cfg p]; cbn [prio_step] in H.
  - pose proof (R_enqueue p (PriorityRadio.priorityQueue st) w) as E.
    destruct (PriorityPacketQueue.enqueue p (PriorityRadio.priorityQueue st) w) as [[ok q] w1].
    inversion H; subst. exact E.
  - pose proof (R_dequeue (PriorityRadio.priorityQueue st) w) as E.
    destruct (PriorityPacketQueue.dequeue (PriorityRadio.priorityQueue st) w) as [[pk q] w1].
    inversion H; subst. apply (R_more 0 1); [lia | exact E].
  - destruct (PriorityPacketQueue.cleanExpired (PriorityRadio.priorityQueue st) w)
      as [[q w1] | ] eqn:Hclean; [ | discriminate].
    inversion H; subst.
    apply (R_more 0 1); [lia | exact (R_cleanExpired _ _ _ _ Hclean)].
  - unfold PriorityRadio.clearPacketQueue in H.
    destruct (PriorityPacketQueue.clear (PriorityRadio.priorityQueue st) w)
      as [[q w1] | ] eqn:Hclear; [ | discriminate].
    inversion H; subst.
    apply (R_more 0 1); [lia | exact (R_clear _ _ _ _ Hclear)].
  - destruct (PriorityRadio.processQueuedPackets MAX_PACKETS_PER_CYCLE getLastPriority
                cfg st w) as [[[st2 n2] w2] | ] eqn:Hd; [ | discriminate].
    inversion H; subst. exact (prio_drain_graded _ _ _ _ _ _ Hd).
  - destruct (PriorityRadio.send MAX_PACKETS_PER_CYCLE MIN_QUEUE_PROCESS_INTERVAL
                getLastPriority cfg p st w) as [[[r st2] w2] | ] eqn:Hs; [ | discriminate].
    inversion H; subst. exact (prio_send_graded _ _ _ _ _ _ _ Hs).
Qed.

Lemma prio_run_graded : forall ops st w st' w',
  prio_run MAX_PACKETS_PER_CYCLE MIN_QUEUE_PROCESS_INTERVAL getLastPriority ops st w
    = Some (st', w') ->
  R (length ops) (PriorityRadio.priorityQueue st) (PriorityRadio.priorityQueue st').
Proof.
  induction ops as [ | op rest IH]; intros st w st' w' H; cbn [prio_run] in H.
  - inversion H; subst. apply R_refl.
  - destruct (prio_step MAX_PACKETS_PER_CYCLE MIN_QUEUE_PROCESS_INTERVAL getLastPriority
                        op st w) as [[st1 w1] | ] eqn:Hstep; [ | discriminate].
    exact (R_trans 1 (length rest) _ _ _
             (prio_step_graded _ _ _ _ _ Hstep) (IH _ _ _ _ H)).
Qed.

End Graded.

Lemma prio_run_counters : forall ops st w st' w',
  prio_run MAX_PACKETS_PER_CYCLE MIN_QUEUE_PROCESS_INTERVAL getLastPriority ops st w
    = Some (st', w') ->
  prio_counters_kept (length ops) (PriorityRadio.priorityQueue st)
                     (PriorityRadio.priorityQueue st').
Proof.
  apply (prio_run_graded prio_counters_kept).
  - intros q. apply counters_kept_refl.
  - intros a b q1 q2 q3. apply counters_kept_trans.
  - intros a b q q'. apply counters_kept_more.
  - exact prio_counters_enqueue.
  - exact prio_counters_dequeue.
  - exact prio_counters_cleanExpired.
  - exact prio_counters_clear.
Qed.

End PriorityCounters.

Lemma fifo_step_total : forall op st w, exists st' w', fifo_step op st w = Some (st', w').
Proof.
  intros op st w. destruct op as [p | | | | cfg | cfg p]; cbn [fifo_step].
  - destruct (PacketQueue.enqueue p (FifoRadio.packetQueue st) w) as [[ok q] w1]. eauto.
  - destruct (PacketQueue.dequeue (FifoRadio.packetQueue st) w) as [[pk q] w1]. eauto.
  - destruct (PacketQueue.cleanExpired (FifoRadio.packetQueue st) w) as [q w1]. eauto.
  - destruct (FifoRadio.clearPacketQueue st w) as [st' w']. eauto.
  - apply fifo_processQueuedPackets_total.
  - unfold FifoRadio.send.
    destruct (if has_lora cfg && time_window_enabled cfg
              then let '(allowed, w1) := isOperationAllowed cfg w in (negb allowed, w1)
              else (false, w)) as [outside w1].
    destruct outside.
    + destruct (lora_window_mode cfg); eauto.
      destruct (PacketQueue.enqueue (Some p) (FifoRadio.packetQueue st) w1) as [[ok q'] w2].
      destruct ok; cbn [negb]; eauto.
    + destruct (fifo_processQueuedPackets_total cfg st w1) as (st2 & w2 & Hd). rewrite Hd.
      destruct (sendPacket (FifoRadio.disabled st2) p w2) as [r w3]. eauto.
Qed.

Lemma fifo_run_total : forall ops st w, exists st' w', fifo_run ops st w = Some (st', w').
Proof.
  induction ops as [ | op rest IH]; intros st w; cbn [fifo_run]; [eauto | ].
  destruct (fifo_step_total op st w) as (st1 & w1 & H). rewrite H. apply IH.
Qed.

Section PriorityRunTotal.
Context {PQ : StdPriorityQueue PriorityPacketQueue.QueuedPacket PriorityPacketQueue.less}.
Variable MAX_PACKETS_PER_CYCLE : Z.
Variable MIN_QUEUE_PROCESS_INTERVAL : Z.
Variable getLastPriority : PriorityPacketQueue.t -> Z.

Lemma prio_step_total : forall op st w,
  exists st' w',
    prio_step MAX_PACKETS_PER_CYCLE MIN_QUEUE_PROCESS_INTERVAL getLastPriority op st w
      = Some (st', w').
Proof.
  intros op st w. destruct op as [p | | | | cfg | cfg p]; cbn [prio_step].
  - destruct (PriorityPacketQueue.enqueue p (PriorityRadio.priorityQueue st) w)
      as [[ok q] w1]. eauto.
  - destruct (PriorityPacketQueue.dequeue (PriorityRadio.priorityQueue st) w)
      as [[pk q] w1]. eauto.
  - destruct (prio_cleanExpired_spec (PriorityRadio.priorityQueue st) w)
      as (temp' & removed & Hrun & _). rewrite Hrun. eauto.
  - unfold PriorityRadio.clearPacketQueue.
    destruct (prio_clear_spec (PriorityRadio.priorityQueue st) w)
      as (l' & released & Hrun & _). rewrite Hrun. eauto.
  - destruct (prio_processQueuedPackets_total MAX_PACKETS_PER_CYCLE getLastPriority cfg st w)
      as (st' & n' & w' & Hd). rewrite Hd. eauto.
  - unfold PriorityRadio.send.
    destruct (if has_lora cfg && time_window_enabled cfg
              then let '(allowed, w1) := isOperationAllowed cfg w in (negb allowed, w1)
              else (false, w)) as [outside w1].
    destruct outside.
    + destruct (lora_window_mode cfg); eauto.
      destruct (PriorityPacketQueue.enqueue (Some p) (PriorityRadio.priorityQueue st) w1)
        as [[ok q'] w2].
      destruct ok; cbn [negb]; eauto.
    + destruct (millis w1) as [now w2].
      destruct (u32 (now - PriorityRadio.lastProcessTime (PriorityRadio.metrics st))
                >=? MIN_QUEUE_PROCESS_INTERVAL).
      * destruct (prio_processQueuedPackets_total MAX_PACKETS_PER_CYCLE getLastPriority
                    cfg st w2) as (st2 & n2 & w3 & Hd). rewrite Hd.
        destruct (sendPacket _ p w3) as [r w4]. eauto.
      * destruct (sendPacket (PriorityRadio.disabled st) p w2) as [r w4]. eauto.
Qed.

Lemma prio_run_total : forall ops st w,
  exists st' w',
    prio_run MAX_PACKETS_PER_CYCLE MIN_QUEUE_PROCESS_INTERVAL getLastPriority ops st w
      = Some (st', w').
Proof.
  induction ops as [ | op rest IH]; intros st w; cbn [prio_run]; [eauto | ].
  destruct (prio_step_total op st w) as (st1 & w1 & H). rewrite H. apply IH.
Qed.

End PriorityRunTotal.

(** C9 as stated fails twice.  At the end of the counter's range the
    [totalQueued++] of an accepted [enqueue] takes [2^32 - 1] to [0]; and
    the reset-statistics command leaves the counters of the queue as they
    are: it clears the statistics of the plugin. *)
Lemma C9_counterexample :
  ~ (forall p q w,
       is_u32 (totalQueued (PacketQueue.stats q)) ->
       totalQueued (PacketQueue.stats q)
       <= totalQueued (PacketQueue.stats (snd (fst (PacketQueue.enqueue p q w)))))
  /\
  ~ (forall (F : TimeWindowPlugin.MeshFramework FifoRadio.t) from d fw w fw' w',
       Firmware.handleCommand from
         (TimeWindowPlugin.mkCommand TimeWindowPlugin.RESET_STATS d) fw w = Some (fw', w') ->
       totalQueued (FifoRadio.getQueueStats (Firmware.radio fw')) = 0).
Proof.
  split.
  - intros H.
    specialize (H (Some (test_packet 1)) fifo_counter_at_max (world_at 0)).
    vm_compute in H. apply H; [split; [discriminate | reflexivity] | reflexivity].
  - intros H.
    specialize (H framework_idle 0 0
                  (Firmware.mk (day_lora DROP_PACKETS) fifo_one_queued TimeWindowPlugin.init)
                  (world_at 0) _ _ eq_refl).
    vm_compute in H. discriminate H.
Qed.

(** C9, amended.  Over any sequence of [n] enqueue, dequeue, eviction,
    clear, drain and send operations, on either scheduler, each of the
    counters [totalQueued], [expiredPackets] and [queueOverflows] ends at
    its initial value plus a number [k] of increments, in 32 bits, with
    [0 <= k <= n] for [totalQueued] and [queueOverflows] and [k] at most
    [n] plus the entries held at the start for [expiredPackets]; so a
    counter that these increments do not take past [2^32 - 1] has not
    decreased.  None of the operations resets the counters: [reset()]
    gives the statistics of a new queue, all zero, and no operation calls
    it; the reset-statistics command sets the statistics of the plugin to
    zero and leaves the radio, its queue and the counters of the queue as
    they were.  [clear()] releases every held packet once and empties the
    queue, and leaves the statistics as they were. *)
Theorem C9_counters_monotone :
  (forall ops st w,
     counters_in_range (FifoRadio.getQueueStats st) ->
     exists st' w',
       fifo_run ops st w = Some (st', w') /\
       counters_up_within (Z.of_nat (length ops)) (FifoRadio.getQueueSize st)
                          (FifoRadio.getQueueStats st) (FifoRadio.getQueueStats st'))
  /\
  (forall (PQ : StdPriorityQueue PriorityPacketQueue.QueuedPacket PriorityPacketQueue.less)
          MAX_PACKETS_PER_CYCLE MIN_QUEUE_PROCESS_INTERVAL getLastPriority ops st w,
     counters_in_range (PriorityRadio.getQueueStats st) ->
     exists st' w',
       prio_run MAX_PACKETS_PER_CYCLE MIN_QUEUE_PROCESS_INTERVAL getLastPriority ops st w
         = Some (st', w') /\
       counters_up_within (Z.of_nat (length ops)) (PriorityRadio.getQueueSize st)
                          (PriorityRadio.getQueueStats st) (PriorityRadio.getQueueStats st'))
  /\
  (forall n a b,
     is_u32 a -> counted_up_within n a b -> a + n < 2 ^ 32 -> a <= b <= a + n)
  /\
  (forall s maxSize expirySeconds,
     reset s = PacketQueue.stats (PacketQueue.create maxSize expirySeconds) /\
     totalQueued (reset s) = 0 /\ expiredPackets (reset s) = 0 /\
     queueOverflows (reset s) = 0)
  /\
  (forall (F : TimeWindowPlugin.MeshFramework FifoRadio.t) from d fw w,
     exists fw',
       Firmware.handleCommand from
         (TimeWindowPlugin.mkCommand TimeWindowPlugin.RESET_STATS d) fw w = Some (fw', w) /\
       TimeWindowPlugin.stats (Firmware.timeWindowPlugin fw') = TimeWindowPlugin.stats_zero /\
       Firmware.radio fw' = Firmware.radio fw /\
       Firmware.config fw' = Firmware.config fw)
  /\
  (forall q w,
     let '(q', w') := PacketQueue.clear q w in
     PacketQueue.packets q' = [] /\
     PacketQueue.stats q' = PacketQueue.stats q /\
     pool_released w' = rev (map PacketQueue.packet (PacketQueue.packets q)) ++ pool_released w)
  /\
  (forall (PQ : StdPriorityQueue PriorityPacketQueue.QueuedPacket PriorityPacketQueue.less)
          (q : PriorityPacketQueue.t) w,
     exists q' w' released,
       PriorityPacketQueue.clear q w = Some (q', w') /\
       pq_elems (PriorityPacketQueue.packets q') = [] /\
       PriorityPacketQueue.stats q' = PriorityPacketQueue.stats q /\
       Permutation released (pq_elems (PriorityPacketQueue.packets q)) /\
       pool_released w' = rev (map PriorityPacketQueue.packet released) ++ pool_released w).
Proof.
  split; [ | split; [ | split; [ | split; [ | split; [ | split ] ] ] ] ].
  - intros ops st w R.
    destruct (fifo_run_total ops st w) as (st' & w' & H).
    exists st', w'. split; [exact H | ].
    apply (counters_kept_within _ _ _ (FifoRadio.getQueueSize st') _ R).
    + unfold FifoRadio.getQueueSize, PacketQueue.size. lia.
    + exact (fifo_run_counters ops st w st' w' H).
  - intros PQ M I G ops st w R.
    destruct (prio_run_total M I G ops st w) as (st' & w' & H).
    exists st', w'. split; [exact H | ].
    apply (counters_kept_within _ _ _ (PriorityRadio.getQueueSize st') _ R).
    + unfold PriorityRadio.getQueueSize, PriorityPacketQueue.size. lia.
    + exact (prio_run_counters M I G ops st w st' w' H).
  - exact counted_up_within_monotone.
  - intros s maxSize expirySeconds. repeat split.
  - intros F from d fw w. eexists. unfold Firmware.handleCommand. cbn.
    split; [reflexivity | ]. repeat split.
  - intros q w. rewrite fifo_clear_spec. rewrite release_all_pool. repeat split.
  - intros PQ q w.
    destruct (prio_clear_spec q w) as (l' & released & Hrun & Hl & Hrel).
    do 2 eexists. exists released. split; [exact Hrun | ].
    rewrite release_all_pool. repeat split; assumption.
Qed.

(** C9 over a sequence on the scheduler of the re-enqueue example: after
    the five operations [totalQueued] is its initial value plus at most
    five increments, and it has not decreased. *)
Lemma C9_counters_monotone_witness :
  (exists st' w',
     fifo_run [FifoEnqueue (Some (test_packet 1)); FifoDequeue; FifoCleanExpired;
               FifoDrain (day_lora QUEUE_PACKETS); FifoClear]
              fifo_one_queued (world_at 0) = Some (st', w') /\
     counters_up_within 5 1 (FifoRadio.getQueueStats fifo_one_queued)
                        (FifoRadio.getQueueStats st'))
  /\
  (forall b, counted_up_within 5 1 b -> 1 <= b <= 1 + 5).
Proof.
  split.
  - refine (proj1 C9_counters_monotone _ fifo_one_queued (world_at 0) _).
    vm_compute. repeat split; congruence.
  - intros b Hb.
    refine (proj1 (proj2 (proj2 C9_counters_monotone)) 5 1 b _ Hb _).
    + vm_compute. split; [discriminate | reflexivity].
    + reflexivity.
Defined.

(** * Further properties of the sources *)

(** ** The two window checks *)

Lemma day_hour_eq : forall s, (s / 3600) mod 24 = (s mod (24 * 3600)) / 3600.
Proof.
  intros s. change (24 * 3600) with (3600 * 24).
  rewrite Z.rem_mul_r by lia.
  rewrite Z.mul_comm, Z.div_add by lia.
  rewrite (Z.div_small (s mod 3600)) by (apply Z.mod_pos_bound; lia).
  reflexivity.
Qed.

Lemma day_minute_eq : forall s, (s / 60) mod 60 = ((s mod (24 * 3600)) mod 3600) / 60.
Proof.
  intros s.
  assert (E : (s mod (24 * 3600)) mod 3600 = s mod 3600).
  { change (24 * 3600) with (3600 * 24).
    rewrite Z.rem_mul_r by lia.
    rewrite Z.mul_comm, Z.mod_add by lia. apply Z.mod_mod. lia. }
  rewrite E. change 3600 with (60 * 60).
  rewrite Z.rem_mul_r by lia.
  rewrite Z.mul_comm, Z.div_add by lia.
  rewrite (Z.div_small (s mod 60)) by (apply Z.mod_pos_bound; lia).
  reflexivity.
Qed.

(** X1. [isTimeWindowActive] of TimeWindow.cpp and [isOperationAllowed] of
    RadioInterfaceTime.cpp are the same check: for one schedule (fields in
    the range of [uint8_t]) they return the same verdict and read the clock
    the same number of times; with the window disabled both answer [true]
    without reading the clock. *)
Theorem window_checks_agree : forall cfg w,
  is_u8 (start_hour cfg) -> is_u8 (start_minute cfg) ->
  is_u8 (end_hour cfg) -> is_u8 (end_minute cfg) ->
  TimeWindow.isTimeWindowActive cfg w = isOperationAllowed (lora_of cfg) w /\
  (enabled cfg = false -> TimeWindow.isTimeWindowActive cfg w = (true, w)).
Proof.
  unfold is_u8. intros cfg w Hsh Hsm Heh Hem. change (2 ^ 8) with 256 in *.
  unfold TimeWindow.isTimeWindowActive, isOperationAllowed, lora_of.
  cbn [has_lora time_window_enabled window_start_hour window_start_minute
       window_end_hour window_end_minute negb orb].
  destruct (enabled cfg); cbn [negb]; [ | split; reflexivity ].
  split; [ | discriminate ].
  cbv beta iota zeta delta [millis].
  set (ms := u32 (clock w (ticks w))).
  f_equal. unfold TimeWindow.isTimeInWindow.
  rewrite <- day_hour_eq, <- day_minute_eq.
  assert (Hh : 0 <= (ms / 1000 / 3600) mod 24 < 24) by (apply Z.mod_pos_bound; lia).
  assert (Hm : 0 <= (ms / 1000 / 60) mod 60 < 60) by (apply Z.mod_pos_bound; lia).
  assert (B : 2 ^ 31 = 2147483648) by reflexivity.
  assert (B' : 2 ^ 32 = 4294967296) by reflexivity.
  rewrite !(u32_small (_ * 60)) by (rewrite B'; lia).
  rewrite !u32_small by (rewrite B'; lia).
  rewrite (i32_small ((ms / 1000 / 3600) mod 24)) by (rewrite B; lia).
  rewrite (i32_small ((ms / 1000 / 60) mod 60)) by (rewrite B; lia).
  rewrite !(i32_small (_ * 60)) by (rewrite B; lia).
  rewrite !i32_small by (rewrite B; lia).
  reflexivity.
Qed.

(** X1 at the window 22:00-04:00 and 23:59. *)
Lemma window_checks_agree_witness :
  TimeWindow.isTimeWindowActive night_window (world_at (millis_at 23 59))
  = isOperationAllowed (lora_of night_window) (world_at (millis_at 23 59)).
Proof.
  refine (proj1 (window_checks_agree night_window (world_at (millis_at 23 59)) _ _ _ _));
    vm_compute; split; congruence.
Defined.

(** X2. A schedule whose start equals its end is closed at every instant:
    [isTimeInWindow] is false at any hour and minute, and with the feature
    enabled [isOperationAllowed] is false at any clock reading. *)
Theorem empty_window_always_closed :
  (forall cfg hour minute,
     start_hour cfg = end_hour cfg -> start_minute cfg = end_minute cfg ->
     TimeWindow.isTimeInWindow cfg hour minute = false)
  /\
  (forall cfg w,
     has_lora cfg = true -> time_window_enabled cfg = true ->
     window_start_hour cfg = window_end_hour cfg ->
     window_start_minute cfg = window_end_minute cfg ->
     fst (isOperationAllowed cfg w) = false).
Proof.
  split.
  - intros cfg hour minute Hh Hm. unfold TimeWindow.isTimeInWindow.
    rewrite Hh, Hm, Z.leb_refl.
    apply andb_false_iff.
    destruct (Z.ltb_spec (i32 (i32 (hour * 60) + minute))
                         (i32 (i32 (end_hour cfg * 60) + end_minute cfg)));
      [left; rewrite Z.geb_leb; apply Z.leb_gt; lia | right; reflexivity].
  - intros cfg w Hl He Hh Hm. unfold isOperationAllowed.
    rewrite Hl, He, Hh, Hm. cbv beta iota zeta delta [negb orb fst millis].
    rewrite Z.leb_refl. apply andb_false_iff.
    match goal with |- (?c >=? ?s) = false \/ _ =>
      destruct (Z.ltb_spec c s); [left; rewrite Z.geb_leb; apply Z.leb_gt; lia | right; reflexivity]
    end.
Qed.

(** X2 at the schedule 22:00-22:00 and the clock at 22:00. *)
Lemma empty_window_always_closed_witness :
  fst (isOperationAllowed (mkLoRaConfig true true 22 0 22 0 QUEUE_PACKETS 32 3600)
                          (world_at (millis_at 22 0))) = false.
Proof.
  apply (proj2 empty_window_always_closed); reflexivity.
Defined.

Lemma window_test_reversed : forall s e c,
  s <> e ->
  (if e <=? s then (c >=? e) && (c <? s) else (c >=? e) || (c <? s))
  = negb (if s <=? e then (c >=? s) && (c <? e) else (c >=? s) || (c <? e)).
Proof.
  intros s e c Hne. rewrite !Z.geb_leb.
  destruct (Z.leb_spec e s), (Z.leb_spec s e), (Z.leb_spec e c), (Z.leb_spec s c),
           (Z.ltb_spec c s), (Z.ltb_spec c e); cbn; try reflexivity; lia.
Qed.

(** X3. A schedule and the schedule with start and end exchanged divide the
    day between them: when the two times differ, the reversed schedule is
    open at an instant exactly when the original one is closed, for
    [isTimeInWindow] and for [isOperationAllowed]. *)
Theorem reversed_window_is_complement :
  (forall cfg hour minute,
     is_u8 (start_hour cfg) -> is_u8 (start_minute cfg) ->
     is_u8 (end_hour cfg) -> is_u8 (end_minute cfg) ->
     start_hour cfg * 60 + start_minute cfg <> end_hour cfg * 60 + end_minute cfg ->
     TimeWindow.isTimeInWindow (reversed cfg) hour minute
     = negb (TimeWindow.isTimeInWindow cfg hour minute))
  /\
  (forall cfg w,
     has_lora cfg = true -> time_window_enabled cfg = true ->
     is_u8 (window_start_hour cfg) -> is_u8 (window_start_minute cfg) ->
     is_u8 (window_end_hour cfg) -> is_u8 (window_end_minute cfg) ->
     window_start_hour cfg * 60 + window_start_minute cfg
       <> window_end_hour cfg * 60 + window_end_minute cfg ->
     fst (isOperationAllowed (lora_reversed cfg) w)
     = negb (fst (isOperationAllowed cfg w))).
Proof.
  assert (B : 2 ^ 31 = 2147483648) by reflexivity.
  assert (B' : 2 ^ 32 = 4294967296) by reflexivity.
  unfold is_u8. change (2 ^ 8) with 256. split.
  - intros cfg hour minute Hsh Hsm Heh Hem Hne.
    unfold TimeWindow.isTimeInWindow, reversed.
    cbn [start_hour start_minute end_hour end_minute].
    apply window_test_reversed.
    rewrite !(i32_small (_ * 60)) by (rewrite B; lia).
    rewrite !i32_small by (rewrite B; lia). exact Hne.
  - intros cfg w Hl He Hsh Hsm Heh Hem Hne.
    unfold isOperationAllowed, lora_reversed.
    cbn [has_lora time_window_enabled window_start_hour window_start_minute
         window_end_hour window_end_minute].
    rewrite Hl, He. cbv beta iota zeta delta [negb orb fst millis].
    apply window_test_reversed.
    rewrite !(u32_small (_ * 60)) by (rewrite B'; lia).
    rewrite !u32_small by (rewrite B'; lia).
    rewrite !i32_small by (rewrite B; lia). exact Hne.
Qed.

(** X3 at 22:00-04:00 and its reversal 04:00-22:00, at 23:59. *)
Lemma reversed_window_is_complement_witness :
  TimeWindow.isTimeInWindow (reversed night_window) 23 59
  = negb (TimeWindow.isTimeInWindow night_window 23 59).
Proof.
  refine (proj1 reversed_window_is_complement night_window 23 59 _ _ _ _ _);
    vm_compute; try split; congruence.
Defined.

(** ** The expiry test and the 32-bit clock *)

(** X4. The expiry tests measure elapsed time across the roll-over of the
    32-bit [millis()]: an entry stamped with the reading [t0] and tested
    [d] milliseconds later ([d] below [2^32]) is expired exactly when [d]
    is at least [secs * 1000], whether or not the clock has wrapped in
    between, as long as [secs * 1000] itself fits 32 bits.  This holds of
    [QueuedPacket::isExpired] and of the tests of both [cleanExpired]. *)
Theorem expiry_survives_rollover : forall t0 d secs,
  0 <= d < 2 ^ 32 -> 0 <= secs * 1000 < 2 ^ 32 ->
  (forall p cfg,
     packet_expiry_secs cfg = secs ->
     QueuedPacket.isExpired (u32 (t0 + d)) (QueuedPacket.mk p (u32 t0) cfg)
     = (d >=? secs * 1000))
  /\
  (forall p,
     PacketQueue.expired_at (u32 (t0 + d)) secs (PacketQueue.mkQueuedPacket p (u32 t0))
     = (d >=? secs * 1000))
  /\
  (forall p prio,
     PriorityPacketQueue.expired_at (u32 (t0 + d)) secs
       (PriorityPacketQueue.mkQueuedPacket p (u32 t0) prio)
     = (d >=? secs * 1000)).
Proof.
  intros t0 d secs Hd Hs. repeat split.
  - intros p cfg E. unfold QueuedPacket.isExpired.
    cbn [QueuedPacket.enqueue_time QueuedPacket.config].
    rewrite E, age_after, (u32_small (secs * 1000)) by assumption. reflexivity.
  - intros p. unfold PacketQueue.expired_at. cbn [PacketQueue.enqueue_time].
    rewrite age_after, (u32_small (secs * 1000)) by assumption. reflexivity.
  - intros p prio. rewrite prio_expired_at_after by assumption.
    rewrite (u32_small (secs * 1000)) by assumption. reflexivity.
Qed.

(** X4 for an entry stamped 5 s before the roll-over and tested 5 s after
    it, with an expiry of 10 s: it is expired. *)
Lemma expiry_survives_rollover_witness :
  PacketQueue.expired_at 5000 10
    (PacketQueue.mkQueuedPacket (Some (test_packet 1)) (2 ^ 32 - 5000)) = true.
Proof.
  refine (proj1 (proj2 (expiry_survives_rollover (2 ^ 32 - 5000) 10000 10 _ _))
                (Some (test_packet 1))); vm_compute; split; congruence.
Defined.

(** ** The order of the arrival-order queue *)

Lemma fifo_enqueue_all_packets : forall ps q w,
  PacketQueue.size q + Z.of_nat (length ps) <= PacketQueue.maxQueueSize q ->
  map PacketQueue.packet (PacketQueue.packets (fst (fifo_enqueue_all ps q w)))
  = map PacketQueue.packet (PacketQueue.packets q) ++ ps.
Proof.
  induction ps as [ | p rest IH]; intros q w Hroom.
  - cbn [fifo_enqueue_all fst]. rewrite app_nil_r. reflexivity.
  - cbn [fifo_enqueue_all length] in *.
    rewrite (fifo_enqueue_room p q w) by lia.
    rewrite IH.
    + cbn [PacketQueue.packets PacketQueue.with_stats PacketQueue.with_packets].
      rewrite map_app, <- app_assoc. reflexivity.
    + unfold PacketQueue.size in *.
      cbn [PacketQueue.packets PacketQueue.with_stats PacketQueue.with_packets
           PacketQueue.maxQueueSize].
      rewrite length_app. cbn [length]. lia.
Qed.

Lemma fifo_dequeue_n_spec : forall n q w,
  fst (fst (fifo_dequeue_n n q w))
  = firstn n (map PacketQueue.packet (PacketQueue.packets q))
    ++ repeat None (n - length (PacketQueue.packets q)) /\
  PacketQueue.packets (snd (fst (fifo_dequeue_n n q w))) = skipn n (PacketQueue.packets q).
Proof.
  induction n as [ | n IH]; intros q w; [split; reflexivity | ].
  cbn [fifo_dequeue_n].
  destruct (PacketQueue.packets q) as [ | front rest] eqn:E.
  - assert (Hd : PacketQueue.dequeue q w = (None, q, w)).
    { unfold PacketQueue.dequeue. rewrite E. reflexivity. }
    rewrite Hd. specialize (IH q w).
    destruct (fifo_dequeue_n n q w) as [[out q'] w']. cbn [fst snd] in *.
    destruct IH as [-> ->]. rewrite E.
    cbn [map firstn skipn length Nat.sub repeat app].
    rewrite firstn_nil, skipn_nil, Nat.sub_0_r. split; reflexivity.
  - rewrite (fifo_dequeue_cons q w front rest E).
    match goal with |- context [fifo_dequeue_n n ?q1 ?w1] =>
      specialize (IH q1 w1); destruct (fifo_dequeue_n n q1 w1) as [[out q'] w']
    end.
    cbn [fst snd PacketQueue.packets PacketQueue.with_packets] in *.
    destruct IH as [-> ->]. cbn [map firstn skipn length Nat.sub app].
    split; reflexivity.
Qed.

(** X5. The arrival-order queue is first in, first out: after [enqueue]
    has accepted a run of packets (there was room for all of them), as many
    calls of [dequeue] as there are entries return the packets the queue
    held before, in their order, followed by the new packets in the order
    of their arrival, and leave the queue empty; a further [dequeue]
    returns [nullptr]. *)
Theorem fifo_first_in_first_out : forall ps q w,
  PacketQueue.size q + Z.of_nat (length ps) <= PacketQueue.maxQueueSize q ->
  let '(q1, w1) := fifo_enqueue_all ps q w in
  let '(out, q2, w2) :=
    fifo_dequeue_n (length (PacketQueue.packets q) + length ps) q1 w1 in
  out = map PacketQueue.packet (PacketQueue.packets q) ++ ps /\
  PacketQueue.empty q2 = true /\
  fst (fst (PacketQueue.dequeue q2 w2)) = None.
Proof.
  intros ps q w Hroom.
  pose proof (fifo_enqueue_all_packets ps q w Hroom) as Hps.
  destruct (fifo_enqueue_all ps q w) as [q1 w1]. cbn [fst] in Hps.
  pose proof (fifo_dequeue_n_spec (length (PacketQueue.packets q) + length ps) q1 w1)
    as [Hout Hrest].
  destruct (fifo_dequeue_n _ q1 w1) as [[out q2] w2]. cbn [fst snd] in *.
  assert (Hlen : length (PacketQueue.packets q1)
                 = (length (PacketQueue.packets q) + length ps)%nat).
  { rewrite <- (length_map PacketQueue.packet), Hps, length_app, length_map. reflexivity. }
  assert (He : PacketQueue.packets q2 = []).
  { rewrite Hrest, <- Hlen. apply skipn_all. }
  split; [ | split].
  - rewrite Hout, <- Hlen, Nat.sub_diag, app_nil_r.
    rewrite <- (length_map PacketQueue.packet), firstn_all. exact Hps.
  - unfold PacketQueue.empty. rewrite He. reflexivity.
  - unfold PacketQueue.dequeue. rewrite He. reflexivity.
Qed.

(** X5 for three packets into an empty queue of capacity 32. *)
Lemma fifo_first_in_first_out_witness :
  let '(q1, w1) :=
    fifo_enqueue_all [Some (test_packet 1); Some (test_packet 2); Some (test_packet 3)]
                     (PacketQueue.create 32 3600) (world_at 0) in
  let '(out, q2, w2) := fifo_dequeue_n 3 q1 w1 in
  out = [Some (test_packet 1); Some (test_packet 2); Some (test_packet 3)] /\
  PacketQueue.empty q2 = true /\
  fst (fst (PacketQueue.dequeue q2 w2)) = None.
Proof.
  refine (fifo_first_in_first_out
            [Some (test_packet 1); Some (test_packet 2); Some (test_packet 3)]
            (PacketQueue.create 32 3600) (world_at 0) _).
  vm_compute. congruence.
Defined.

(** ** The order of the priority queue *)

Section PriorityDequeueAll.
Context {PQ : StdPriorityQueue PriorityPacketQueue.QueuedPacket PriorityPacketQueue.less}.

Lemma prio_dequeue_n_sorted : forall n (q : PriorityPacketQueue.t) w,
  Forall (fun e => PriorityPacketQueue.priority e
                   = PriorityPacketQueue.calculatePriority (PriorityPacketQueue.packet e))
         (pq_elems (PriorityPacketQueue.packets q)) ->
  n = pq_size (PriorityPacketQueue.packets q) ->
  StronglySorted (fun a b => PriorityPacketQueue.calculatePriority b
                             <= PriorityPacketQueue.calculatePriority a)
                 (fst (fst (prio_dequeue_n n q w))) /\
  Permutation (fst (fst (prio_dequeue_n n q w)))
              (map PriorityPacketQueue.packet (pq_elems (PriorityPacketQueue.packets q))) /\
  pq_elems (PriorityPacketQueue.packets (snd (fst (prio_dequeue_n n q w)))) = [].
Proof.
  induction n as [ | n IH]; intros q w Hwf Hn.
  - cbn [prio_dequeue_n fst snd].
    assert (E : pq_elems (PriorityPacketQueue.packets q) = []).
    { unfold pq_size in Hn. destruct (pq_elems (PriorityPacketQueue.packets q));
        [reflexivity | discriminate]. }
    rewrite E. repeat split; constructor.
  - assert (Hne : PriorityPacketQueue.empty q = false).
    { unfold PriorityPacketQueue.empty, pq_empty. unfold pq_size in Hn.
      destruct (pq_elems (PriorityPacketQueue.packets q)); [discriminate | reflexivity]. }
    destruct (prio_dequeue_max q w Hne) as (top & Hin & Hmax & Hd & Hperm).
    cbn [prio_dequeue_n]. rewrite Hd.
    set (q1 := PriorityPacketQueue.with_packets _ _).
    assert (E1 : PriorityPacketQueue.packets q1 = pq_pop (PriorityPacketQueue.packets q))
      by reflexivity.
    assert (Hwf1 : Forall (fun e => PriorityPacketQueue.priority e
                     = PriorityPacketQueue.calculatePriority (PriorityPacketQueue.packet e))
                     (pq_elems (PriorityPacketQueue.packets q1))).
    { rewrite E1. apply Forall_forall. intros e He.
      apply (proj1 (Forall_forall _ _) Hwf).
      apply (Permutation_in _ (Permutation_sym Hperm)). right. exact He. }
    assert (Hn1 : n = pq_size (PriorityPacketQueue.packets q1)).
    { rewrite E1. unfold pq_size in *.
      rewrite (Permutation_length Hperm) in Hn. cbn [length] in Hn. congruence. }
    destruct (IH q1 (snd (millis w)) Hwf1 Hn1) as (Hs & Hp & He).
    destruct (prio_dequeue_n n q1 (snd (millis w))) as [[out q'] w'].
    cbn [fst snd] in *. split; [ | split].
    + constructor; [exact Hs | ].
      apply Forall_forall. intros b Hb.
      apply (Permutation_in _ Hp) in Hb. apply in_map_iff in Hb.
      destruct Hb as (e & <- & He').
      assert (Hine : In e (pq_elems (PriorityPacketQueue.packets q))).
      { apply (Permutation_in _ (Permutation_sym Hperm)). right. rewrite <- E1. exact He'. }
      rewrite <- (proj1 (Forall_forall _ _) Hwf e Hine).
      rewrite <- (proj1 (Forall_forall _ _) Hwf top Hin).
      apply Hmax. exact Hine.
    + eapply perm_trans; [apply perm_skip, Hp | ].
      rewrite E1. apply Permutation_sym.
      apply (Permutation_map PriorityPacketQueue.packet) in Hperm. exact Hperm.
    + exact He.
Qed.

End PriorityDequeueAll.

(** X6. Emptying the priority queue with [dequeue] returns the packets in
    non-increasing order of score, and returns exactly the packets that
    were queued, for any implementation of the container.  The entries
    carry the score of their packet: this holds of the new queue and is
    kept by [enqueue], [dequeue] and [cleanExpired]. *)
Theorem prio_dequeue_all_sorted :
  forall (PQ : StdPriorityQueue PriorityPacketQueue.QueuedPacket PriorityPacketQueue.less)
         (q : PriorityPacketQueue.t) w,
  prio_scored q ->
  (let '(out, q', _) := prio_dequeue_n (pq_size (PriorityPacketQueue.packets q)) q w in
   StronglySorted (fun a b => PriorityPacketQueue.calculatePriority b
                              <= PriorityPacketQueue.calculatePriority a) out /\
   Permutation out (map PriorityPacketQueue.packet (pq_elems (PriorityPacketQueue.packets q))) /\
   PriorityPacketQueue.empty q' = true)
  /\
  (forall maxSize secs, prio_scored (PriorityPacketQueue.create maxSize secs))
  /\
  (forall p, prio_scored (snd (fst (PriorityPacketQueue.enqueue p q w))))
  /\
  prio_scored (snd (fst (PriorityPacketQueue.dequeue q w)))
  /\
  (exists q' w', PriorityPacketQueue.cleanExpired q w = Some (q', w') /\ prio_scored q').
Proof.
  intros PQ q w Hwf. split; [ | split; [ | split; [ | split ] ] ].
  - destruct (prio_dequeue_n_sorted (pq_size (PriorityPacketQueue.packets q)) q w Hwf eq_refl)
      as (Hs & Hp & He).
    destruct (prio_dequeue_n _ q w) as [[out q'] w']. cbn [fst snd] in *.
    split; [exact Hs | split; [exact Hp | ] ].
    unfold PriorityPacketQueue.empty. apply pq_empty_true. exact He.
  - intros maxSize secs. unfold prio_scored, PriorityPacketQueue.create.
    cbn [PriorityPacketQueue.packets]. rewrite pq_new_elems. constructor.
  - intros p. unfold prio_scored in *.
    destruct (Z_lt_ge_dec (PriorityPacketQueue.size q) (PriorityPacketQueue.maxQueueSize q))
      as [Hroom | Hfull].
    + rewrite (prio_enqueue_room p q w Hroom). cbn [fst snd PriorityPacketQueue.packets
        PriorityPacketQueue.with_stats PriorityPacketQueue.with_packets].
      apply Forall_forall. intros e He.
      apply (Permutation_in _ (pq_push_elems _ _)) in He. destruct He as [<- | He].
      * reflexivity.
      * exact (proj1 (Forall_forall _ _) Hwf e He).
    + rewrite (prio_enqueue_full p q w Hfull). exact Hwf.
  - unfold prio_scored in *.
    destruct (PriorityPacketQueue.empty q) eqn:Hne.
    + rewrite (prio_dequeue_empty q w Hne). exact Hwf.
    + destruct (prio_dequeue_max q w Hne) as (top & _ & _ & Hd & Hperm).
      rewrite Hd. cbn [fst snd PriorityPacketQueue.packets PriorityPacketQueue.with_packets].
      apply Forall_forall. intros e He.
      apply (proj1 (Forall_forall _ _) Hwf).
      apply (Permutation_in _ (Permutation_sym Hperm)). right. exact He.
  - destruct (prio_cleanExpired_spec q w) as (temp' & removed & Hrun & _ & Hkept).
    do 2 eexists. split; [exact Hrun | ].
    unfold prio_scored in *.
    cbn [PriorityPacketQueue.packets PriorityPacketQueue.with_stats
         PriorityPacketQueue.with_packets].
    apply Forall_forall. intros e He.
    apply (Permutation_in _ Hkept) in He. apply filter_In in He.
    exact (proj1 (Forall_forall _ _) Hwf e (proj1 He)).
Qed.

(** X6 on the list implementation of the container, for the packets of
    scores 2, 5, 1 and 4. *)
Lemma prio_dequeue_all_sorted_witness :
  let q := fst (prio_enqueue_all (PQ := packetListPQ)
             [Some packet_score2; Some packet_score5; Some packet_score1; Some packet_score4]
             (PriorityPacketQueue.create 32 3600) (world_at 0)) in
  let '(out, q', _) := prio_dequeue_n 4 q (world_at 0) in
  StronglySorted (fun a b => PriorityPacketQueue.calculatePriority b
                             <= PriorityPacketQueue.calculatePriority a) out /\
  Permutation out (map PriorityPacketQueue.packet (pq_elems (PriorityPacketQueue.packets q))) /\
  PriorityPacketQueue.empty q' = true.
Proof.
  refine (proj1 (prio_dequeue_all_sorted packetListPQ
            (fst (prio_enqueue_all (PQ := packetListPQ)
               [Some packet_score2; Some packet_score5; Some packet_score1; Some packet_score4]
               (PriorityPacketQueue.create 32 3600) (world_at 0)))
            (world_at 0) _)).
  vm_compute. repeat constructor.
Defined.

(** ** Relations kept by every operation of a scheduler

    A relation between the queue before and after that is reflexive,
    transitive and kept by the four operations of the queue is kept by a
    drain cycle, by [send] and by any sequence of operations. *)

Section FifoKept.
Variable R : PacketQueue.t -> PacketQueue.t -> Prop.
Hypothesis R_refl : forall q, R q q.
Hypothesis R_trans : forall q1 q2 q3, R q1 q2 -> R q2 q3 -> R q1 q3.
Hypothesis R_enqueue : forall p q w, R q (snd (fst (PacketQueue.enqueue p q w))).
Hypothesis R_dequeue : forall q w, R q (snd (fst (PacketQueue.dequeue q w))).
Hypothesis R_cleanExpired : forall q w, R q (fst (PacketQueue.cleanExpired q w)).
Hypothesis R_clear : forall q w, R q (fst (PacketQueue.clear q w)).

Lemma fifo_cycle_kept : forall dis q w q' w',
  fifo_cycle dis q w q' w' -> R q q'.
Proof.
  intros dis q w q' w' H.
  induction H as [ q w He
                 | q w q1 w1 q' w' He Hd Hc IH
                 | q w p q1 w1 w2 q' w' He Hd Hs Hc IH
                 | q w p q1 w1 r w2 q2 w3 He Hd Hs Hr Henq
                 | q w p q1 w1 r w2 q2 w3 He Hd Hs Hr Henq ].
  - apply R_refl.
  - eapply R_trans; [ | exact IH]. pose proof (R_dequeue q w) as D. rewrite Hd in D. exact D.
  - eapply R_trans; [ | exact IH]. pose proof (R_dequeue q w) as D. rewrite Hd in D. exact D.
  - pose proof (R_dequeue q w) as D. rewrite Hd in D.
    pose proof (R_enqueue (Some p) q1 w2) as E. rewrite Henq in E.
    eapply R_trans; [exact D | exact E].
  - pose proof (R_dequeue q w) as D. rewrite Hd in D.
    pose proof (R_enqueue (Some p) q1 w2) as E. rewrite Henq in E.
    eapply R_trans; [exact D | exact E].
Qed.

Lemma fifo_drain_kept : forall cfg st w st' w',
  FifoRadio.processQueuedPackets cfg st w = Some (st', w') ->
  R (FifoRadio.packetQueue st) (FifoRadio.packetQueue st').
Proof.
  intros cfg st w st' w' H. unfold FifoRadio.processQueuedPackets in H.
  destruct (negb (has_lora cfg) || negb (time_window_enabled cfg)).
  - inversion H; subst. apply R_refl.
  - pose proof (R_cleanExpired (FifoRadio.packetQueue st) w) as C.
    destruct (PacketQueue.cleanExpired (FifoRadio.packetQueue st) w) as [q1 w1].
    cbn [fst] in C.
    destruct (FifoRadio.processQueuedPackets_loop _ _ q1 w1) as [[q2 w2] | ] eqn:Hloop;
      [ | discriminate].
    inversion H; subst. cbn [FifoRadio.packetQueue FifoRadio.with_queue].
    eapply R_trans; [exact C | ].
    eapply fifo_cycle_kept. eapply fifo_loop_cycle. exact Hloop.
Qed.

Lemma fifo_send_kept : forall cfg p st w r st' w',
  FifoRadio.send cfg p st w = Some (r, st', w') ->
  R (FifoRadio.packetQueue st) (FifoRadio.packetQueue st').
Proof.
  intros cfg p st w r st' w' H. unfold FifoRadio.send in H.
  destruct (if has_lora cfg && time_window_enabled cfg
            then let '(allowed, w1) := isOperationAllowed cfg w in (negb allowed, w1)
            else (false, w)) as [outside w1].
  destruct outside.
  - destruct (lora_window_mode cfg).
    + inversion H; subst. apply R_refl.
    + pose proof (R_enqueue (Some p) (FifoRadio.packetQueue st) w1) as E.
      destruct (PacketQueue.enqueue (Some p) (FifoRadio.packetQueue st) w1) as [[ok q'] w2].
      cbn [fst snd] in E. destruct ok; cbn [negb] in H; inversion H; subst; exact E.
    + inversion H; subst. apply R_refl.
    + inversion H; subst. apply R_refl.
  - destruct (FifoRadio.processQueuedPackets cfg st w1) as [[st2 w2] | ] eqn:Hd;
      [ | discriminate].
    destruct (sendPacket (FifoRadio.disabled st2) p w2) as [r' w3].
    inversion H; subst. eapply fifo_drain_kept. exact Hd.
Qed.

Lemma fifo_step_kept : forall op st w st' w',
  fifo_step op st w = Some (st', w') ->
  R (FifoRadio.packetQueue st) (FifoRadio.packetQueue st').
Proof.
  intros op st w st' w' H. destruct op as [p | | | | cfg | cfg p]; cbn [fifo_step] in H.
  - pose proof (R_enqueue p (FifoRadio.packetQueue st) w) as E.
    destruct (PacketQueue.enqueue p (FifoRadio.packetQueue st) w) as [[ok q] w1].
    inversion H; subst. exact E.
  - pose proof (R_dequeue (FifoRadio.packetQueue st) w) as E.
    destruct (PacketQueue.dequeue (FifoRadio.packetQueue st) w) as [[pk q] w1].
    inversion H; subst. exact E.
  - pose proof (R_cleanExpired (FifoRadio.packetQueue st) w) as E.
    destruct (PacketQueue.cleanExpired (FifoRadio.packetQueue st) w) as [q w1].
    inversion H; subst. exact E.
  - unfold FifoRadio.clearPacketQueue in H.
    pose proof (R_clear (FifoRadio.packetQueue st) w) as E.
    destruct (PacketQueue.clear (FifoRadio.packetQueue st) w) as [q w1].
    inversion H; subst. exact E.
  - eapply fifo_drain_kept. exact H.
  - destruct (FifoRadio.send cfg p st w) as [[[r st2] w2] | ] eqn:Hs; [ | discriminate].
    inversion H; subst. eapply fifo_send_kept. exact Hs.
Qed.

Lemma fifo_run_kept : forall ops st w st' w',
  fifo_run ops st w = Some (st', w') ->
  R (FifoRadio.packetQueue st) (FifoRadio.packetQueue st').
Proof.
  induction ops as [ | op rest IH]; intros st w st' w' H; cbn [fifo_run] in H.
  - inversion H; subst. apply R_refl.
  - destruct (fifo_step op st w) as [[st1 w1] | ] eqn:Hstep; [ | discriminate].
    eapply R_trans; [eapply fifo_step_kept; exact Hstep | eapply IH; exact H].
Qed.

End FifoKept.

Section PriorityKept.
Context {PQ : StdPriorityQueue PriorityPacketQueue.QueuedPacket PriorityPacketQueue.less}.
Variable MAX_PACKETS_PER_CYCLE : Z.
Variable MIN_QUEUE_PROCESS_INTERVAL : Z.
Variable getLastPriority : PriorityPacketQueue.t -> Z.

Variable R : PriorityPacketQueue.t -> PriorityPacketQueue.t -> Prop.
Hypothesis R_refl : forall q, R q q.
Hypothesis R_trans : forall q1 q2 q3, R q1 q2 -> R q2 q3 -> R q1 q3.
Hypothesis R_enqueue : forall p q w, R q (snd (fst (PriorityPacketQueue.enqueue p q w))).
Hypothesis R_dequeue : forall q w, R q (snd (fst (PriorityPacketQueue.dequeue q w))).
Hypothesis R_cleanExpired : forall q w q' w',
  PriorityPacketQueue.cleanExpired q w = Some (q', w') -> R q q'.
Hypothesis R_clear : forall q w q' w',
  PriorityPacketQueue.clear q w = Some (q', w') -> R q q'.

Lemma prio_cycle_kept : forall startTime st n w st' n' w',
  prio_cycle MAX_PACKETS_PER_CYCLE getLastPriority startTime st n w st' n' w' ->
  R (PriorityRadio.priorityQueue st) (PriorityRadio.priorityQueue st').
Proof.
  intros startTime st n w st' n' w' H.
  induction H as [ st n w He
                 | st n w He Ht
                 | st n w He Ht Hn
                 | st n w q1 w1 st' n' w' He Ht Hn Hd Hc IH
                 | st n w p q1 w1 w2 st' n' w' He Ht Hn Hd Hs Hc IH
                 | st n w p q1 w1 r w2 q2 w3 He Ht Hn Hd Hs Hr Henq
                 | st n w p q1 w1 r w2 q2 w3 He Ht Hn Hd Hs Hr Henq ];
    try (apply R_refl);
    pose proof (R_dequeue (PriorityRadio.priorityQueue st) (snd (millis w))) as D;
    rewrite Hd in D; cbn [fst snd] in D.
  - eapply R_trans; [exact D | exact IH].
  - eapply R_trans; [exact D | exact IH].
  - pose proof (R_enqueue (Some p) q1 w2) as E. rewrite Henq in E.
    eapply R_trans; [exact D | exact E].
  - pose proof (R_enqueue (Some p) q1 w2) as E. rewrite Henq in E.
    eapply R_trans; [exact D | exact E].
Qed.

Lemma prio_drain_kept : forall cfg st w st' n' w',
  PriorityRadio.processQueuedPackets MAX_PACKETS_PER_CYCLE getLastPriority cfg st w
    = Some (st', n', w') ->
  R (PriorityRadio.priorityQueue st) (PriorityRadio.priorityQueue st').
Proof.
  intros cfg st w st' n' w' H. unfold PriorityRadio.processQueuedPackets in H.
  destruct (negb (has_lora cfg) || negb (time_window_enabled cfg)).
  - inversion H; subst. apply R_refl.
  - destruct (PriorityPacketQueue.cleanExpired (PriorityRadio.priorityQueue st) w)
      as [[q1 w1] | ] eqn:Hclean; [ | discriminate].
    pose proof (R_cleanExpired _ _ _ _ Hclean) as C.
    change (millis w1) with (u32 (clock w1 (ticks w1)), snd (millis w1)) in H.
    cbv beta iota in H.
    apply prio_loop_cycle in H.
    eapply R_trans; [exact C | ].
    apply (prio_cycle_kept _ _ _ _ _ _ _ H).
Qed.

Lemma prio_send_kept : forall cfg p st w r st' w',
  PriorityRadio.send MAX_PACKETS_PER_CYCLE MIN_QUEUE_PROCESS_INTERVAL getLastPriority
                     cfg p st w = Some (r, st', w') ->
  R (PriorityRadio.priorityQueue st) (PriorityRadio.priorityQueue st').
Proof.
  intros cfg p st w r st' w' H. unfold PriorityRadio.send in H.
  destruct (if has_lora cfg && time_window_enabled cfg
            then let '(allowed, w1) := isOperationAllowed cfg w in (negb allowed, w1)
            else (false, w)) as [outside w1].
  destruct outside.
  - destruct (lora_window_mode cfg).
    + inversion H; subst. apply R_refl.
    + pose proof (R_enqueue (Some p) (PriorityRadio.priorityQueue st) w1) as E.
      destruct (PriorityPacketQueue.enqueue (Some p) (PriorityRadio.priorityQueue st) w1)
        as [[ok q'] w2].
      cbn [fst snd] in E. destruct ok; cbn [negb] in H; inversion H; subst; exact E.
    + inversion H; subst. apply R_refl.
    + inversion H; subst. apply R_refl.
  - destruct (millis w1) as [now w2].
    destruct (u32 (now - PriorityRadio.lastProcessTime (PriorityRadio.metrics st))
              >=? MIN_QUEUE_PROCESS_INTERVAL).
    + destruct (PriorityRadio.processQueuedPackets MAX_PACKETS_PER_CYCLE getLastPriority
                  cfg st w2) as [[[st2 n2] w3] | ] eqn:Hd; [ | discriminate].
      destruct (sendPacket _ p w3) as [r' w4].
      inversion H; subst.
      apply (prio_drain_kept _ _ _ _ _ _ Hd).
    + destruct (sendPacket (PriorityRadio.disabled st) p w2) as [r' w4].
      inversion H; subst. apply R_refl.
Qed.

Lemma prio_step_kept : forall op st w st' w',
  prio_step MAX_PACKETS_PER_CYCLE MIN_QUEUE_PROCESS_INTERVAL getLastPriority op st w
    = Some (st', w') ->
  R (PriorityRadio.priorityQueue st) (PriorityRadio.priorityQueue st').
Proof.
  intros op st w st' w' H. destruct op as [p | | | | cfg | cfg p]; cbn [prio_step] in H.
  - pose proof (R_enqueue p (PriorityRadio.priorityQueue st) w) as E.
    destruct (PriorityPacketQueue.enqueue p (PriorityRadio.priorityQueue st) w) as [[ok q] w1].
    inversion H; subst. exact E.
  - pose proof (R_dequeue (PriorityRadio.priorityQueue st) w) as E.
    destruct (PriorityPacketQueue.dequeue (PriorityRadio.priorityQueue st) w) as [[pk q] w1].
    inversion H; subst. exact E.
  - destruct (PriorityPacketQueue.cleanExpired (PriorityRadio.priorityQueue st) w)
      as [[q w1] | ] eqn:Hclean; [ | discriminate].
    inversion H; subst. exact (R_cleanExpired _ _ _ _ Hclean).
  - unfold PriorityRadio.clearPacketQueue in H.
    destruct (PriorityPacketQueue.clear (PriorityRadio.priorityQueue st) w)
      as [[q w1] | ] eqn:Hclear; [ | discriminate].
    inversion H; subst. exact (R_clear _ _ _ _ Hclear).
  - destruct (PriorityRadio.processQueuedPackets MAX_PACKETS_PER_CYCLE getLastPriority
                cfg st w) as [[[st2 n2] w2] | ] eqn:Hd; [ | discriminate].
    inversion H; subst. exact (prio_drain_kept _ _ _ _ _ _ Hd).
  - destruct (PriorityRadio.send MAX_PACKETS_PER_CYCLE MIN_QUEUE_PROCESS_INTERVAL
                getLastPriority cfg p st w) as [[[r st2] w2] | ] eqn:Hs; [ | discriminate].
    inversion H; subst. exact (prio_send_kept _ _ _ _ _ _ _ Hs).
Qed.

Lemma prio_run_kept : forall ops st w st' w',
  prio_run MAX_PACKETS_PER_CYCLE MIN_QUEUE_PROCESS_INTERVAL getLastPriority ops st w
    = Some (st', w') ->
  R (PriorityRadio.priorityQueue st) (PriorityRadio.priorityQueue st').
Proof.
  induction ops as [ | op rest IH]; intros st w st' w' H; cbn [prio_run] in H.
  - inversion H; subst. apply R_refl.
  - destruct (prio_step MAX_PACKETS_PER_CYCLE MIN_QUEUE_PROCESS_INTERVAL getLastPriority
                        op st w) as [[st1 w1] | ] eqn:Hstep; [ | discriminate].
    eapply R_trans; [eapply prio_step_kept; exact Hstep | eapply IH; exact H].
Qed.

End PriorityKept.

(** ** The capacity bound over sequences of operations *)

Lemma fifo_capacity_refl : forall q, fifo_capacity_kept q q.
Proof. intros q H. repeat split. exact H. Qed.

Lemma fifo_capacity_trans : forall q1 q2 q3,
  fifo_capacity_kept q1 q2 -> fifo_capacity_kept q2 q3 -> fifo_capacity_kept q1 q3.
Proof.
  intros q1 q2 q3 A B H. destruct (A H) as (A1 & A2 & A3).
  destruct (B A1) as (B1 & B2 & B3). repeat split; congruence.
Qed.

Lemma fifo_capacity_enqueue : forall p q w,
  fifo_capacity_kept q (snd (fst (PacketQueue.enqueue p q w))).
Proof.
  intros p q w H.
  destruct (Z_lt_ge_dec (PacketQueue.size q) (PacketQueue.maxQueueSize q)) as [Hroom | Hfull].
  - rewrite (fifo_enqueue_room p q w Hroom). unfold PacketQueue.size in *.
    cbn [fst snd PacketQueue.packets PacketQueue.with_stats PacketQueue.with_packets
         PacketQueue.maxQueueSize PacketQueue.packetExpirySeconds].
    rewrite length_app. cbn [length]. repeat split. lia.
  - rewrite (fifo_enqueue_full p q w Hfull). repeat split. exact H.
Qed.

Lemma fifo_capacity_dequeue : forall q w,
  fifo_capacity_kept q (snd (fst (PacketQueue.dequeue q w))).
Proof.
  intros q w H. unfold PacketQueue.dequeue, PacketQueue.size in *.
  destruct (PacketQueue.packets q) as [ | front rest] eqn:E.
  - cbn [fst snd]. rewrite E. repeat split. exact H.
  - cbv beta iota zeta delta [millis].
    cbn [fst snd PacketQueue.packets PacketQueue.with_stats PacketQueue.with_packets
         PacketQueue.maxQueueSize PacketQueue.packetExpirySeconds].
    cbn [length] in H. repeat split. lia.
Qed.

Lemma fifo_capacity_cleanExpired : forall q w,
  fifo_capacity_kept q (fst (PacketQueue.cleanExpired q w)).
Proof.
  intros q w H. rewrite fifo_cleanExpired_spec. unfold PacketQueue.size in *.
  cbn [fst PacketQueue.packets PacketQueue.with_stats PacketQueue.with_packets
       PacketQueue.maxQueueSize PacketQueue.packetExpirySeconds].
  repeat split.
  pose proof (filter_length_le
                (fun it => negb (PacketQueue.expired_at (u32 (clock w (ticks w)))
                                   (PacketQueue.packetExpirySeconds q) it))
                (PacketQueue.packets q)).
  lia.
Qed.

Lemma fifo_capacity_clear : forall q w,
  fifo_capacity_kept q (fst (PacketQueue.clear q w)).
Proof.
  intros q w H. rewrite fifo_clear_spec. unfold PacketQueue.size in *.
  cbn [fst PacketQueue.packets PacketQueue.with_packets
       PacketQueue.maxQueueSize PacketQueue.packetExpirySeconds length].
  repeat split. lia.
Qed.

Section PriorityCapacity.
Context {PQ : StdPriorityQueue PriorityPacketQueue.QueuedPacket PriorityPacketQueue.less}.

Lemma prio_capacity_refl : forall q, prio_capacity_kept q q.
Proof. intros q H. repeat split. exact H. Qed.

Lemma prio_capacity_trans : forall q1 q2 q3,
  prio_capacity_kept q1 q2 -> prio_capacity_kept q2 q3 -> prio_capacity_kept q1 q3.
Proof.
  intros q1 q2 q3 A B H. destruct (A H) as (A1 & A2 & A3).
  destruct (B A1) as (B1 & B2 & B3). repeat split; congruence.
Qed.

Lemma prio_capacity_enqueue : forall p q w,
  prio_capacity_kept q (snd (fst (PriorityPacketQueue.enqueue p q w))).
Proof.
  intros p q w H.
  destruct (Z_lt_ge_dec (PriorityPacketQueue.size q) (PriorityPacketQueue.maxQueueSize q))
    as [Hroom | Hfull].
  - rewrite (prio_enqueue_room p q w Hroom). unfold PriorityPacketQueue.size in *.
    cbn [fst snd PriorityPacketQueue.packets PriorityPacketQueue.with_stats
         PriorityPacketQueue.with_packets PriorityPacketQueue.maxQueueSize
         PriorityPacketQueue.packetExpirySeconds].
    rewrite pq_size_push. repeat split. lia.
  - rewrite (prio_enqueue_full p q w Hfull). repeat split. exact H.
Qed.

Lemma prio_capacity_dequeue : forall q w,
  prio_capacity_kept q (snd (fst (PriorityPacketQueue.dequeue q w))).
Proof.
  intros q w H.
  destruct (PriorityPacketQueue.empty q) eqn:He.
  - rewrite (prio_dequeue_empty q w He). repeat split. exact H.
  - destruct (prio_dequeue_max q w He) as (top & _ & _ & Hd & Hperm).
    rewrite Hd. unfold PriorityPacketQueue.size, pq_size in *.
    cbn [fst snd PriorityPacketQueue.packets PriorityPacketQueue.with_stats
         PriorityPacketQueue.with_packets PriorityPacketQueue.maxQueueSize
         PriorityPacketQueue.packetExpirySeconds].
    rewrite (Permutation_length Hperm) in H. cbn [length] in H. repeat split. lia.
Qed.

Lemma prio_capacity_cleanExpired : forall q w q' w',
  PriorityPacketQueue.cleanExpired q w = Some (q', w') -> prio_capacity_kept q q'.
Proof.
  intros q w q' w' Hrun H.
  destruct (prio_cleanExpired_spec q w) as (temp' & removed & Hrun' & _ & Hkept).
  rewrite Hrun' in Hrun. inversion Hrun; subst q' w'.
  unfold PriorityPacketQueue.size, pq_size in *.
  cbn [PriorityPacketQueue.packets PriorityPacketQueue.with_stats
       PriorityPacketQueue.with_packets PriorityPacketQueue.maxQueueSize
       PriorityPacketQueue.packetExpirySeconds].
  rewrite (Permutation_length Hkept). repeat split.
  match goal with |- context [filter ?f ?l] => pose proof (filter_length_le f l) end.
  lia.
Qed.

Lemma prio_capacity_clear : forall q w q' w',
  PriorityPacketQueue.clear q w = Some (q', w') -> prio_capacity_kept q q'.
Proof.
  intros q w q' w' Hrun H.
  destruct (prio_clear_spec q w) as (l' & released & Hrun' & Hl & _).
  rewrite Hrun' in Hrun. inversion Hrun; subst q' w'.
  unfold PriorityPacketQueue.size, pq_size in *.
  cbn [PriorityPacketQueue.packets PriorityPacketQueue.with_packets
       PriorityPacketQueue.maxQueueSize PriorityPacketQueue.packetExpirySeconds].
  rewrite Hl. cbn [length]. repeat split. lia.
Qed.

End PriorityCapacity.

(** X7. Occupancy never exceeds the bound, whatever is done: from a queue
    within [maxQueueSize], any sequence of enqueue, dequeue, eviction,
    clear, drain and send operations on either scheduler ends, and ends in
    a queue within the same [maxQueueSize], with the [packetExpirySeconds]
    it was constructed with; the re-enqueue of a failed transmission
    cannot overfill the queue. *)
Theorem queue_stays_within_capacity :
  (forall ops st w,
     PacketQueue.size (FifoRadio.packetQueue st)
       <= PacketQueue.maxQueueSize (FifoRadio.packetQueue st) ->
     exists st' w',
       fifo_run ops st w = Some (st', w') /\
       fifo_capacity_kept (FifoRadio.packetQueue st) (FifoRadio.packetQueue st') /\
       FifoRadio.getQueueSize st' <= PacketQueue.maxQueueSize (FifoRadio.packetQueue st))
  /\
  (forall (PQ : StdPriorityQueue PriorityPacketQueue.QueuedPacket PriorityPacketQueue.less)
          MAX_PACKETS_PER_CYCLE MIN_QUEUE_PROCESS_INTERVAL getLastPriority ops st w,
     PriorityPacketQueue.size (PriorityRadio.priorityQueue st)
       <= PriorityPacketQueue.maxQueueSize (PriorityRadio.priorityQueue st) ->
     exists st' w',
       prio_run MAX_PACKETS_PER_CYCLE MIN_QUEUE_PROCESS_INTERVAL getLastPriority ops st w
         = Some (st', w') /\
       prio_capacity_kept (PriorityRadio.priorityQueue st) (PriorityRadio.priorityQueue st') /\
       PriorityRadio.getQueueSize st'
         <= PriorityPacketQueue.maxQueueSize (PriorityRadio.priorityQueue st)).
Proof.
  split.
  - intros ops st w H.
    destruct (fifo_run_total ops st w) as (st' & w' & Hrun).
    pose proof (fifo_run_kept fifo_capacity_kept fifo_capacity_refl fifo_capacity_trans
                  fifo_capacity_enqueue fifo_capacity_dequeue fifo_capacity_cleanExpired
                  fifo_capacity_clear ops st w st' w' Hrun) as K.
    exists st', w'. split; [exact Hrun | split; [exact K | ] ].
    destruct (K H) as (A & B & _). unfold FifoRadio.getQueueSize. lia.
  - intros PQ M I G ops st w H.
    destruct (prio_run_total M I G ops st w) as (st' & w' & Hrun).
    pose proof (prio_run_kept M I G prio_capacity_kept prio_capacity_refl prio_capacity_trans
                  prio_capacity_enqueue prio_capacity_dequeue prio_capacity_cleanExpired
                  prio_capacity_clear ops st w st' w' Hrun) as K.
    exists st', w'. split; [exact Hrun | split; [exact K | ] ].
    destruct (K H) as (A & B & _). unfold PriorityRadio.getQueueSize. lia.
Qed.

(** X7 on the full queue of capacity one, with a driver that refuses every
    packet: an enqueue, a drain that re-enqueues, a send and a dequeue. *)
Lemma queue_stays_within_capacity_witness :
  exists st' w',
    fifo_run [FifoEnqueue (Some (test_packet 1)); FifoDrain (day_lora QUEUE_PACKETS);
              FifoSend (day_lora QUEUE_PACKETS) (test_packet 2); FifoDequeue]
             fifo_full_radio (world_failing 0) = Some (st', w') /\
    fifo_capacity_kept (FifoRadio.packetQueue fifo_full_radio) (FifoRadio.packetQueue st') /\
    FifoRadio.getQueueSize st' <= PacketQueue.maxQueueSize (FifoRadio.packetQueue fifo_full_radio).
Proof.
  refine (proj1 queue_stays_within_capacity _ fifo_full_radio (world_failing 0) _).
  vm_compute. discriminate.
Defined.

(** ** The waiting-time statistics *)





Section PriorityMaxWait.
Context {PQ : StdPriorityQueue PriorityPacketQueue.QueuedPacket PriorityPacketQueue.less}.





End PriorityMaxWait.



(** ** A transmission that fails after the packet was released *)

Lemma sendPacket_released : forall dis p w,
  dis = true \/ payloadlen p = 0 ->
  sendPacket dis p w =
  (if dis then ERRNO_NO_RADIO else ERRNO_INVALID_LENGTH,
   record_attempt p (if dis then ERRNO_NO_RADIO else ERRNO_INVALID_LENGTH)
                  (release (Some p) w)).
Proof.
  intros dis p w H. unfold sendPacket. destruct dis; [reflexivity | ].
  destruct H as [H | H]; [discriminate | ]. rewrite H. reflexivity.
Qed.

(** X9. [sendPacket] releases the packet before it reports [ERRNO_NO_RADIO]
    (radio disabled) or [ERRNO_INVALID_LENGTH] (empty payload), and the
    drain of RadioInterface.cpp enqueues every packet whose transmission
    failed.  So when the first entry left by the eviction holds such a
    packet, the cycle ends with that packet released to the pool and
    queued again, behind the others: nothing reaches the driver, and the
    queue holds a packet the pool has already taken back. *)
Theorem drain_requeues_released_packet : forall cfg st w p t rest,
  has_lora cfg = true -> time_window_enabled cfg = true ->
  PacketQueue.size (FifoRadio.packetQueue st)
    <= PacketQueue.maxQueueSize (FifoRadio.packetQueue st) ->
  FifoRadio.disabled st = true \/ payloadlen p = 0 ->
  PacketQueue.packets (fst (PacketQueue.cleanExpired (FifoRadio.packetQueue st) w))
    = PacketQueue.mkQueuedPacket (Some p) t :: rest ->
  exists st' w' t',
    FifoRadio.processQueuedPackets cfg st w = Some (st', w') /\
    PacketQueue.packets (FifoRadio.packetQueue st')
      = rest ++ [PacketQueue.mkQueuedPacket (Some p) t'] /\
    pool_released w'
      = Some p :: pool_released (snd (PacketQueue.cleanExpired (FifoRadio.packetQueue st) w)) /\
    attempts w'
      = (p, if FifoRadio.disabled st then ERRNO_NO_RADIO else ERRNO_INVALID_LENGTH)
        :: attempts w /\
    handed_over w' = handed_over w.
Proof.
  intros cfg st w p t rest Hl He Hcap Hfail Hq.
  unfold FifoRadio.processQueuedPackets. rewrite Hl, He. cbn [negb orb].
  pose proof (fifo_capacity_cleanExpired (FifoRadio.packetQueue st) w Hcap) as (C1 & _ & _).
  destruct (fifo_cleanExpired_frame (FifoRadio.packetQueue st) w)
    as (_ & _ & _ & _ & A1 & _).
  assert (Hh : handed_over (snd (PacketQueue.cleanExpired (FifoRadio.packetQueue st) w))
               = handed_over w).
  { rewrite fifo_cleanExpired_spec. cbn [snd].
    match goal with |- context [release_all ?ps ?w0] =>
      destruct (release_all_frame ps w0) as (_ & _ & _ & _ & -> & _) end.
    reflexivity. }
  destruct (PacketQueue.cleanExpired (FifoRadio.packetQueue st) w) as [q1 w1].
  cbn [fst snd] in *. rewrite Hq. cbn [length FifoRadio.processQueuedPackets_loop].
  assert (Hne : PacketQueue.empty q1 = false).
  { unfold PacketQueue.empty. rewrite Hq. reflexivity. }
  rewrite Hne, (fifo_dequeue_cons q1 w1 _ rest Hq). cbn [PacketQueue.packet].
  rewrite (sendPacket_released (FifoRadio.disabled st) p (snd (millis w1)) Hfail).
  assert (Hr : negb (ErrorCode_eqb (if FifoRadio.disabled st then ERRNO_NO_RADIO
                                    else ERRNO_INVALID_LENGTH) ERRNO_OK) = true)
    by (destruct (FifoRadio.disabled st); reflexivity).
  rewrite Hr.
  match goal with |- context [PacketQueue.enqueue (Some p) ?q ?w0] =>
    rewrite (fifo_enqueue_room (Some p) q w0)
  end.
  - cbn [negb]. do 3 eexists. split; [reflexivity | ].
    cbn [FifoRadio.packetQueue FifoRadio.with_queue PacketQueue.packets
         PacketQueue.with_stats PacketQueue.with_packets].
    split; [reflexivity | ].
    cbn [millis snd record_attempt release pool_released attempts handed_over].
    repeat split; congruence.
  - unfold PacketQueue.size in *.
    cbn [PacketQueue.packets PacketQueue.with_stats PacketQueue.with_packets
         PacketQueue.maxQueueSize].
    rewrite Hq in C1. cbn [length] in C1. lia.
Qed.

(** X9 on a disabled radio holding one packet: after the cycle the packet
    is in the queue and in the pool. *)
Lemma drain_requeues_released_packet_witness :
  exists st' w' t',
    FifoRadio.processQueuedPackets (day_lora QUEUE_PACKETS)
      (FifoRadio.mk (FifoRadio.packetQueue fifo_one_queued) true) (world_at 5000)
      = Some (st', w') /\
    PacketQueue.packets (FifoRadio.packetQueue st')
      = [] ++ [PacketQueue.mkQueuedPacket (Some (test_packet 7)) t'] /\
    pool_released w' = Some (test_packet 7) :: [] /\
    attempts w' = (test_packet 7, ERRNO_NO_RADIO) :: [] /\
    handed_over w' = [].
Proof.
  refine (drain_requeues_released_packet (day_lora QUEUE_PACKETS)
            (FifoRadio.mk (FifoRadio.packetQueue fifo_one_queued) true) (world_at 5000)
            (test_packet 7) 0 [] eq_refl eq_refl _ (or_introl eq_refl) eq_refl).
  vm_compute. discriminate.
Defined.

(** ** [send] while the window is closed *)

Lemma isOperationAllowed_reading : forall cfg w,
  has_lora cfg = true -> time_window_enabled cfg = true ->
  isOperationAllowed cfg w = (allowed_at cfg (clock w (ticks w)), snd (millis w)).
Proof.
  intros cfg w Hl He. unfold allowed_at, isOperationAllowed. rewrite Hl, He. reflexivity.
Qed.

Lemma fifo_send_closed_eq : forall cfg p st w,
  has_lora cfg = true -> time_window_enabled cfg = true ->
  allowed_at cfg (clock w (ticks w)) = false ->
  FifoRadio.send cfg p st w =
  match lora_window_mode cfg with
  | DROP_PACKETS => Some (ERRNO_NO_RADIO, st, release (Some p) (snd (millis w)))
  | QUEUE_PACKETS =>
      let '(ok, q', w2) :=
        PacketQueue.enqueue (Some p) (FifoRadio.packetQueue st) (snd (millis w)) in
      if negb ok
      then Some (ERRNO_NO_RADIO, FifoRadio.with_queue q' st, release (Some p) w2)
      else Some (ERRNO_OK, FifoRadio.with_queue q' st, w2)
  | RECEIVE_ONLY => Some (ERRNO_NO_RADIO, st, release (Some p) (snd (millis w)))
  | MODE_INVALID _ => Some (ERRNO_INVALID_CONFIG, st, snd (millis w))
  end.
Proof.
  intros cfg p st w Hl He Hc. unfold FifoRadio.send.
  rewrite Hl, He, (isOperationAllowed_reading cfg w Hl He), Hc. reflexivity.
Qed.

(** X10. [send] of RadioInterface.cpp while the window is closed puts the
    packet in exactly one place and transmits nothing.  It returns
    [ERRNO_OK] only in queue mode with room, the packet then being the last
    entry of the queue and not released; it returns [ERRNO_NO_RADIO] with
    the packet released once and the queue contents as before (in queue
    mode only when the queue is full, the overflow being counted); for a
    mode outside the three it returns [ERRNO_INVALID_CONFIG] and the packet
    is neither queued nor released. *)
Theorem send_closed_window_disposition : forall cfg p st w,
  has_lora cfg = true -> time_window_enabled cfg = true ->
  fst (isOperationAllowed cfg w) = false ->
  exists r st' w',
    FifoRadio.send cfg p st w = Some (r, st', w') /\
    attempts w' = attempts w /\ handed_over w' = handed_over w /\
    ((r = ERRNO_OK /\ lora_window_mode cfg = QUEUE_PACKETS /\
      FifoRadio.getQueueSize st < PacketQueue.maxQueueSize (FifoRadio.packetQueue st) /\
      (exists t, PacketQueue.packets (FifoRadio.packetQueue st')
                 = PacketQueue.packets (FifoRadio.packetQueue st)
                   ++ [PacketQueue.mkQueuedPacket (Some p) t]) /\
      pool_released w' = pool_released w)
     \/
     (r = ERRNO_NO_RADIO /\
      PacketQueue.packets (FifoRadio.packetQueue st')
        = PacketQueue.packets (FifoRadio.packetQueue st) /\
      pool_released w' = Some p :: pool_released w /\
      (lora_window_mode cfg = QUEUE_PACKETS ->
       FifoRadio.getQueueSize st >= PacketQueue.maxQueueSize (FifoRadio.packetQueue st) /\
       only_overflow_counted (FifoRadio.getQueueStats st) (FifoRadio.getQueueStats st')))
     \/
     (r = ERRNO_INVALID_CONFIG /\ (exists raw, lora_window_mode cfg = MODE_INVALID raw) /\
      st' = st /\ pool_released w' = pool_released w)).
Proof.
  intros cfg p st w Hl He Hc.
  assert (Hc' : allowed_at cfg (clock w (ticks w)) = false).
  { rewrite (isOperationAllowed_reading cfg w Hl He) in Hc. exact Hc. }
  rewrite (fifo_send_closed_eq cfg p st w Hl He Hc').
  destruct (lora_window_mode cfg) as [ | | | raw] eqn:Hm.
  - do 3 eexists. split; [reflexivity | ]. split; [reflexivity | ]. split; [reflexivity | ].
    right; left. repeat split; discriminate.
  - unfold FifoRadio.getQueueSize, FifoRadio.getQueueStats.
    destruct (Z_lt_ge_dec (PacketQueue.size (FifoRadio.packetQueue st))
                          (PacketQueue.maxQueueSize (FifoRadio.packetQueue st)))
      as [Hroom | Hfull].
    + rewrite (fifo_enqueue_room _ _ _ Hroom). cbn [negb].
      do 3 eexists. split; [reflexivity | ]. split; [reflexivity | ]. split; [reflexivity | ].
      left. repeat split; try assumption. eexists. reflexivity.
    + rewrite (fifo_enqueue_full _ _ _ Hfull). cbn [negb].
      do 3 eexists. split; [reflexivity | ]. split; [reflexivity | ]. split; [reflexivity | ].
      right; left. repeat split. exact Hfull.
  - do 3 eexists. split; [reflexivity | ]. split; [reflexivity | ]. split; [reflexivity | ].
    right; left. repeat split; discriminate.
  - do 3 eexists. split; [reflexivity | ]. split; [reflexivity | ]. split; [reflexivity | ].
    right; right. repeat split. exists raw. reflexivity.
Qed.

(** X10 in queue mode at 20:00 under the window 09:00-17:00, with room. *)
Lemma send_closed_window_disposition_witness :
  exists r st' w',
    FifoRadio.send (day_lora QUEUE_PACKETS) (test_packet 1) FifoRadio.init
                   (world_at (millis_at 20 0)) = Some (r, st', w') /\
    r = ERRNO_OK /\
    PacketQueue.packets (FifoRadio.packetQueue st')
      = [PacketQueue.mkQueuedPacket (Some (test_packet 1)) (millis_at 20 0)] /\
    pool_released w' = [].
Proof.
  destruct (send_closed_window_disposition (day_lora QUEUE_PACKETS) (test_packet 1)
              FifoRadio.init (world_at (millis_at 20 0)) eq_refl eq_refl eq_refl)
    as (r & st' & w' & Hrun & _).
  exists r, st', w'. split; [exact Hrun | ].
  vm_compute in Hrun. inversion Hrun; subst. repeat split.
Defined.

Lemma fifo_send_all_closed : forall cfg ps st w room,
  has_lora cfg = true -> time_window_enabled cfg = true ->
  lora_window_mode cfg = QUEUE_PACKETS ->
  (forall n, allowed_at cfg (clock w n) = false) ->
  FifoRadio.getQueueSize st <= PacketQueue.maxQueueSize (FifoRadio.packetQueue st) ->
  room = Z.to_nat (PacketQueue.maxQueueSize (FifoRadio.packetQueue st)
                   - FifoRadio.getQueueSize st) ->
  exists rs st' w',
    fifo_send_all cfg ps st w = Some (rs, st', w') /\
    map PacketQueue.packet (PacketQueue.packets (FifoRadio.packetQueue st'))
      = map PacketQueue.packet (PacketQueue.packets (FifoRadio.packetQueue st))
        ++ map Some (firstn room ps) /\
    pool_released w' = rev (map Some (skipn room ps)) ++ pool_released w /\
    rs = map (fun _ => ERRNO_OK) (firstn room ps)
         ++ map (fun _ => ERRNO_NO_RADIO) (skipn room ps) /\
    attempts w' = attempts w /\ handed_over w' = handed_over w.
Proof.
  intros cfg ps. induction ps as [ | p rest IH]; intros st w room Hl He Hm Hclosed Hcap Hroom.
  - cbn [fifo_send_all]. do 3 eexists. split; [reflexivity | ].
    rewrite firstn_nil, skipn_nil. cbn [map rev app]. rewrite app_nil_r. repeat split.
  - cbn [fifo_send_all].
    rewrite (fifo_send_closed_eq cfg p st w Hl He (Hclosed (ticks w))), Hm.
    unfold FifoRadio.getQueueSize in *.
    destruct (Z_lt_ge_dec (PacketQueue.size (FifoRadio.packetQueue st))
                          (PacketQueue.maxQueueSize (FifoRadio.packetQueue st)))
      as [Hlt | Hfull].
    + rewrite (fifo_enqueue_room _ _ _ Hlt). cbn [negb].
      set (st1 := FifoRadio.with_queue _ st). set (w1 := snd (millis (snd (millis w)))).
      assert (Hsize1 : PacketQueue.size (FifoRadio.packetQueue st1)
                       = PacketQueue.size (FifoRadio.packetQueue st) + 1).
      { unfold PacketQueue.size. subst st1.
        cbn [FifoRadio.packetQueue FifoRadio.with_queue PacketQueue.packets
             PacketQueue.with_stats PacketQueue.with_packets].
        rewrite length_app. cbn [length]. lia. }
      assert (Hmax1 : PacketQueue.maxQueueSize (FifoRadio.packetQueue st1)
                      = PacketQueue.maxQueueSize (FifoRadio.packetQueue st)) by reflexivity.
      destruct room as [ | room']; [lia | ].
      destruct (IH st1 w1 room' Hl He Hm) as (rs & st' & w' & Hrun & Hq & Hp & Hrs & Ha & Hh).
      * intros n. exact (Hclosed n).
      * lia.
      * lia.
      * rewrite Hrun. exists (ERRNO_OK :: rs), st', w'. split; [reflexivity | ].
        cbn [firstn skipn map app]. rewrite Hq, Hp, Hrs. subst st1.
        cbn [FifoRadio.packetQueue FifoRadio.with_queue PacketQueue.packets
             PacketQueue.with_stats PacketQueue.with_packets].
        rewrite map_app, <- app_assoc. cbn [map app PacketQueue.packet].
        repeat split; assumption.
    + rewrite (fifo_enqueue_full _ _ _ Hfull). cbn [negb].
      set (st1 := FifoRadio.with_queue _ st).
      set (w1 := release (Some p) (snd (millis w))).
      assert (Hr0 : room = O) by lia. subst room. rewrite Hr0.
      destruct (IH st1 w1 O Hl He Hm) as (rs & st' & w' & Hrun & Hq & Hp & Hrs & Ha & Hh).
      * intros n. exact (Hclosed n).
      * exact Hcap.
      * subst st1. symmetry. exact Hr0.
      * rewrite Hrun. exists (ERRNO_NO_RADIO :: rs), st', w'. split; [reflexivity | ].
        cbn [firstn skipn map app rev] in *. rewrite Hq, Hp, Hrs, <- app_assoc.
        repeat split; assumption.
Qed.

(** X11. Every packet given to [send] of RadioInterface.cpp in queue mode
    while the window stays closed is accounted for once: the first packets,
    as many as the queue had room for, are held in the queue in their
    order behind the entries already there and get [ERRNO_OK]; each of the
    others is released to the pool once and gets [ERRNO_NO_RADIO]; none is
    transmitted. *)
Theorem closed_window_sends_accounted : forall cfg ps st w,
  has_lora cfg = true -> time_window_enabled cfg = true ->
  lora_window_mode cfg = QUEUE_PACKETS ->
  (forall n, allowed_at cfg (clock w n) = false) ->
  FifoRadio.getQueueSize st <= PacketQueue.maxQueueSize (FifoRadio.packetQueue st) ->
  let room := Z.to_nat (PacketQueue.maxQueueSize (FifoRadio.packetQueue st)
                        - FifoRadio.getQueueSize st) in
  exists rs st' w',
    fifo_send_all cfg ps st w = Some (rs, st', w') /\
    map PacketQueue.packet (PacketQueue.packets (FifoRadio.packetQueue st'))
      = map PacketQueue.packet (PacketQueue.packets (FifoRadio.packetQueue st))
        ++ map Some (firstn room ps) /\
    pool_released w' = rev (map Some (skipn room ps)) ++ pool_released w /\
    rs = map (fun _ => ERRNO_OK) (firstn room ps)
         ++ map (fun _ => ERRNO_NO_RADIO) (skipn room ps) /\
    attempts w' = attempts w /\ handed_over w' = handed_over w.
Proof.
  intros cfg ps st w Hl He Hm Hclosed Hcap room.
  exact (fifo_send_all_closed cfg ps st w room Hl He Hm Hclosed Hcap eq_refl).
Qed.

(** X11 for seven packets sent at 20:00 under the window 09:00-17:00 to a
    queue of capacity five: five are held, two are released. *)
Lemma closed_window_sends_accounted_witness :
  exists rs st' w',
    fifo_send_all (day_lora QUEUE_PACKETS) (map test_packet [0; 1; 2; 3; 4; 5; 6])
                  (FifoRadio.mk (PacketQueue.create 5 3600) false)
                  (world_at (millis_at 20 0)) = Some (rs, st', w') /\
    map PacketQueue.packet (PacketQueue.packets (FifoRadio.packetQueue st'))
      = map Some (map test_packet [0; 1; 2; 3; 4]) /\
    pool_released w' = [Some (test_packet 6); Some (test_packet 5)] /\
    rs = [ERRNO_OK; ERRNO_OK; ERRNO_OK; ERRNO_OK; ERRNO_OK; ERRNO_NO_RADIO; ERRNO_NO_RADIO] /\
    attempts w' = [] /\ handed_over w' = [].
Proof.
  refine (closed_window_sends_accounted (day_lora QUEUE_PACKETS)
            (map test_packet [0; 1; 2; 3; 4; 5; 6])
            (FifoRadio.mk (PacketQueue.create 5 3600) false)
            (world_at (millis_at 20 0)) eq_refl eq_refl eq_refl _ _).
  - intros n. reflexivity.
  - vm_compute. discriminate.
Defined.

(** ** [send] while the window is open *)



(** ** RadioInterfaceTime.cpp: a [send] that never transmits *)

Lemma inline_frame_refl : forall w, inline_frame w w.
Proof. intros w. repeat split. apply Nat.le_refl. Qed.

Lemma inline_frame_trans : forall w1 w2 w3,
  inline_frame w1 w2 -> inline_frame w2 w3 -> inline_frame w1 w3.
Proof.
  intros w1 w2 w3 (A1 & B1 & C1 & D1) (A2 & B2 & C2 & D2).
  repeat split; try congruence. eapply Nat.le_trans; eassumption.
Qed.

Lemma inline_frame_millis : forall w, inline_frame w (snd (millis w)).
Proof. intros w. repeat split. cbn. apply Nat.le_succ_diag_r. Qed.

Lemma inline_frame_release : forall p w, inline_frame w (release p w).
Proof. intros p w. repeat split. apply Nat.le_refl. Qed.

Lemma inline_frame_allowed : forall cfg w,
  inline_frame w (snd (isOperationAllowed cfg w)).
Proof.
  intros cfg w. destruct (isOperationAllowed_world cfg w) as [-> | ->];
    [apply inline_frame_refl | apply inline_frame_millis].
Qed.

Lemma inline_frame_clean_loop : forall now secs l w,
  inline_frame w (snd (InlineRadio.cleanExpiredPackets_loop now secs l w)).
Proof.
  intros now secs l. induction l as [ | it rest IH]; intros w;
    cbn [InlineRadio.cleanExpiredPackets_loop]; [apply inline_frame_refl | ].
  destruct (u32 (now - InlineRadio.enqueue_time it) >=? u32 (secs * 1000)).
  - eapply inline_frame_trans; [apply (inline_frame_release (InlineRadio.packet it)) | apply IH].
  - specialize (IH w).
    destruct (InlineRadio.cleanExpiredPackets_loop now secs rest w) as [kept w'].
    exact IH.
Qed.

Lemma inline_frame_clean : forall cfg st w,
  inline_frame w (snd (InlineRadio.cleanExpiredPackets cfg st w)).
Proof.
  intros cfg st w. unfold InlineRadio.cleanExpiredPackets.
  destruct (negb (has_lora cfg) || negb (time_window_enabled cfg));
    [apply inline_frame_refl | ].
  cbv beta iota zeta delta [millis].
  match goal with |- context [InlineRadio.cleanExpiredPackets_loop ?n ?s ?l ?w0] =>
    pose proof (inline_frame_clean_loop n s l w0) as F;
    destruct (InlineRadio.cleanExpiredPackets_loop n s l w0) as [kept w2]
  end.
  cbn [snd] in *.
  eapply inline_frame_trans; [apply inline_frame_millis | exact F].
Qed.

Lemma inline_frame_outside : forall cfg p st w,
  inline_frame w (snd (InlineRadio.send_outside_window cfg p st w)).
Proof.
  intros cfg p st w. unfold InlineRadio.send_outside_window.
  destruct (lora_window_mode cfg); cbn [snd];
    try apply inline_frame_release; try apply inline_frame_refl.
  destruct (Z.of_nat (length (InlineRadio.packetQueue st)) >=? window_queue_size cfg);
    [apply inline_frame_release | apply inline_frame_millis].
Qed.

Lemma inline_calls_frame : forall fuel,
  (forall cfg p st w r st' w',
     InlineRadio.send fuel cfg p st w = Some (r, st', w') ->
     inline_frame w w' /\
     has_lora cfg && time_window_enabled cfg = true /\
     exists n, (ticks w <= n)%nat /\ allowed_at cfg (clock w n) = false)
  /\
  (forall cfg st w st' w',
     InlineRadio.processQueuedPackets fuel cfg st w = Some (st', w') -> inline_frame w w')
  /\
  (forall cfg st w st' w',
     InlineRadio.processQueuedPackets_loop fuel cfg st w = Some (st', w') -> inline_frame w w').
Proof.
  induction fuel as [ | fuel (IHsend & IHpq & IHloop)].
  - split; [ | split].
    + intros cfg p st w r st' w' H. cbn [InlineRadio.send] in H.
      destruct (has_lora cfg && time_window_enabled cfg) eqn:E; [ | discriminate].
      apply andb_true_iff in E. destruct E as [Hl He].
      rewrite (isOperationAllowed_reading cfg w Hl He) in H.
      destruct (allowed_at cfg (clock w (ticks w))) eqn:Ha; [discriminate | ].
      cbn [negb] in H. set (w1 := snd (millis w)) in H. injection H as Heq.
      split; [ | split; [reflexivity | ] ].
      * pose proof (inline_frame_outside cfg p st w1) as F.
        rewrite Heq in F.
        cbn [snd] in F. eapply inline_frame_trans; [apply inline_frame_millis | exact F].
      * exists (ticks w). split; [apply Nat.le_refl | exact Ha].
    + intros cfg st w st' w' H. cbn [InlineRadio.processQueuedPackets] in H.
      destruct (negb (has_lora cfg) || negb (time_window_enabled cfg));
        [inversion H; subst; apply inline_frame_refl | ].
      pose proof (inline_frame_allowed cfg w) as F.
      destruct (isOperationAllowed cfg w) as [allowed w1]. cbn [snd] in F.
      destruct allowed; cbn [negb] in H.
      * destruct (InlineRadio.cleanExpiredPackets cfg st w1); discriminate.
      * inversion H; subst. exact F.
    + intros cfg st w st' w' H. cbn [InlineRadio.processQueuedPackets_loop] in H.
      destruct (InlineRadio.packetQueue st); [ | discriminate].
      inversion H; subst. apply inline_frame_refl.
  - split; [ | split].
    + intros cfg p st w r st' w' H. cbn [InlineRadio.send] in H.
      destruct (has_lora cfg && time_window_enabled cfg) eqn:E.
      * apply andb_true_iff in E. destruct E as [Hl He].
        rewrite (isOperationAllowed_reading cfg w Hl He) in H.
        destruct (allowed_at cfg (clock w (ticks w))) eqn:Ha; cbn [negb] in H.
        -- destruct (InlineRadio.processQueuedPackets fuel cfg st (snd (millis w)))
             as [[st2 w2] | ] eqn:Hpq; [ | discriminate].
           pose proof (IHpq _ _ _ _ _ Hpq) as F2.
           destruct (IHsend _ _ _ _ _ _ _ H) as (F3 & Hon & n & Hn & Hclosed).
           pose proof (inline_frame_trans _ _ _ (inline_frame_millis w) F2) as F12.
           split; [exact (inline_frame_trans _ _ _ F12 F3) | ].
           split; [reflexivity | ].
           destruct F12 as (_ & _ & Hclock & Hticks).
           exists n. split; [eapply Nat.le_trans; eassumption | ].
           rewrite <- Hclock. exact Hclosed.
        -- set (w1 := snd (millis w)) in H. injection H as Heq.
           split; [ | split; [reflexivity | ] ].
           ++ pose proof (inline_frame_outside cfg p st w1) as F.
              rewrite Heq in F.
              cbn [snd] in F. eapply inline_frame_trans; [apply inline_frame_millis | exact F].
           ++ exists (ticks w). split; [apply Nat.le_refl | exact Ha].
      * rewrite (inline_send_never_returns fuel cfg p st w E) in H. discriminate.
    + intros cfg st w st' w' H. cbn [InlineRadio.processQueuedPackets] in H.
      destruct (negb (has_lora cfg) || negb (time_window_enabled cfg));
        [inversion H; subst; apply inline_frame_refl | ].
      pose proof (inline_frame_allowed cfg w) as F.
      destruct (isOperationAllowed cfg w) as [allowed w1]. cbn [snd] in F.
      destruct allowed; cbn [negb] in H.
      * pose proof (inline_frame_clean cfg st w1) as F1.
        destruct (InlineRadio.cleanExpiredPackets cfg st w1) as [st1 w2]. cbn [snd] in F1.
        pose proof (IHloop _ _ _ _ _ H) as F2.
        exact (inline_frame_trans _ _ _ F (inline_frame_trans _ _ _ F1 F2)).
      * inversion H; subst. exact F.
    + intros cfg st w st' w' H. cbn [InlineRadio.processQueuedPackets_loop] in H.
      destruct (InlineRadio.packetQueue st) as [ | qp rest];
        [inversion H; subst; apply inline_frame_refl | ].
      destruct (InlineRadio.send fuel cfg (InlineRadio.packet qp) st w)
        as [[[result st1] w1] | ] eqn:Hs; [ | discriminate].
      destruct (IHsend _ _ _ _ _ _ _ Hs) as (F1 & _).
      destruct (ErrorCode_eqb result ERRNO_OK).
      * pose proof (IHloop _ _ _ _ _ H) as F2. exact (inline_frame_trans _ _ _ F1 F2).
      * inversion H; subst. exact F1.
Qed.

(** With the feature on and the window closed at its reading of the clock,
    [send] of RadioInterfaceTime.cpp takes the [switch] and returns, at any
    depth of calls. *)
Lemma inline_send_closed_eq : forall fuel cfg p st w,
  has_lora cfg = true -> time_window_enabled cfg = true ->
  fst (isOperationAllowed cfg w) = false ->
  InlineRadio.send fuel cfg p st w
  = Some (InlineRadio.send_outside_window cfg p st (snd (millis w))).
Proof.
  intros fuel cfg p st w Hl He Hc.
  rewrite (isOperationAllowed_reading cfg w Hl He) in Hc. cbn [fst] in Hc.
  destruct fuel; cbn [InlineRadio.send]; rewrite Hl, He;
    rewrite (isOperationAllowed_reading cfg w Hl He), Hc; reflexivity.
Qed.

(** X13. [send] of RadioInterfaceTime.cpp never transmits.  Whenever it
    returns, no packet has been handed to the driver and no transmission was
    attempted, the feature is on, and the window was closed at one of the
    clock readings taken during the call: the result comes from the
    closed-window branch.  With the feature off, or with a window that is
    open at every reading, no depth of calls lets it return, because its
    last statement calls [send] again.  With the window closed at the first
    reading it returns at once. *)
Theorem inline_send_never_transmits :
  (forall fuel cfg p st w r st' w',
     InlineRadio.send fuel cfg p st w = Some (r, st', w') ->
     attempts w' = attempts w /\ handed_over w' = handed_over w /\
     has_lora cfg && time_window_enabled cfg = true /\
     exists n, (ticks w <= n)%nat /\ allowed_at cfg (clock w n) = false)
  /\
  (forall fuel cfg p st w,
     has_lora cfg && time_window_enabled cfg = false \/
     (forall n, allowed_at cfg (clock w n) = true) ->
     InlineRadio.send fuel cfg p st w = None)
  /\
  (forall fuel cfg p st w,
     has_lora cfg = true -> time_window_enabled cfg = true ->
     fst (isOperationAllowed cfg w) = false ->
     InlineRadio.send fuel cfg p st w
     = Some (InlineRadio.send_outside_window cfg p st (snd (millis w)))).
Proof.
  split; [ | split].
  - intros fuel cfg p st w r st' w' H.
    destruct (proj1 (inline_calls_frame fuel) cfg p st w r st' w' H)
      as ((A & B & _ & _) & Hon & Hn).
    repeat split; assumption.
  - intros fuel cfg p st w [Hoff | Hopen].
    + apply inline_send_never_returns. exact Hoff.
    + destruct (InlineRadio.send fuel cfg p st w) as [[[r st'] w'] | ] eqn:H; [ | reflexivity].
      destruct (proj1 (inline_calls_frame fuel) cfg p st w r st' w' H)
        as (_ & _ & n & _ & Hclosed).
      rewrite Hopen in Hclosed. discriminate.
  - exact inline_send_closed_eq.
Qed.

(** X13 at 12:00 under the window 09:00-17:00: a depth of 50 calls does not
    let [send] return. *)
Lemma inline_send_never_transmits_witness :
  InlineRadio.send 50 (day_lora QUEUE_PACKETS) (Some (test_packet 1)) (InlineRadio.mk [])
                   (world_at (millis_at 12 0)) = None.
Proof.
  apply (proj1 (proj2 inline_send_never_transmits)).
  right. intros n. reflexivity.
Defined.

(** X14. In RadioInterfaceTime.cpp and RadioInterface.h a queued packet
    keeps the node awake.  With the window closed [send] returns [ERRNO_OK]
    exactly in queue mode with fewer than [window_queue_size] entries in the
    vector; the packet is then its last entry, [canSleep()] is false and
    [preflightSleepCb] answers 1.  In every other case the vector, and with
    it the sleep verdict, is as before, and a result of [ERRNO_NO_RADIO]
    means the packet was released once.  [canSleep()] is true exactly when
    the vector is empty. *)
Theorem queued_packet_vetoes_sleep : forall fuel cfg p st w r st' w',
  has_lora cfg = true -> time_window_enabled cfg = true ->
  fst (isOperationAllowed cfg w) = false ->
  InlineRadio.send fuel cfg p st w = Some (r, st', w') ->
  (r = ERRNO_OK <->
   lora_window_mode cfg = QUEUE_PACKETS /\
   Z.of_nat (length (InlineRadio.packetQueue st)) < window_queue_size cfg) /\
  (r = ERRNO_OK ->
   (exists t, InlineRadio.packetQueue st'
              = InlineRadio.packetQueue st ++ [InlineRadio.mkEntry p t]) /\
   RadioInterfaceH.canSleep st' = false /\
   RadioInterfaceH.preflightSleepCb st' = 1 /\
   pool_released w' = pool_released w) /\
  (r <> ERRNO_OK ->
   st' = st /\ RadioInterfaceH.canSleep st' = RadioInterfaceH.canSleep st) /\
  (r = ERRNO_NO_RADIO -> pool_released w' = p :: pool_released w) /\
  (RadioInterfaceH.canSleep st = true <-> InlineRadio.packetQueue st = []).
Proof.
  intros fuel cfg p st w r st' w' Hl He Hc H.
  rewrite (inline_send_closed_eq fuel cfg p st w Hl He Hc) in H.
  injection H as H. unfold InlineRadio.send_outside_window in H.
  assert (Hsleep : RadioInterfaceH.canSleep st = true <-> InlineRadio.packetQueue st = []).
  { unfold RadioInterfaceH.canSleep. destruct (InlineRadio.packetQueue st);
      cbn; split; congruence. }
  destruct (lora_window_mode cfg) as [ | | | raw].
  - inversion H; subst.
    repeat split; try discriminate; try congruence;
      try exact (proj1 Hsleep); try exact (proj2 Hsleep).
    intros [Hm _]; discriminate.
  - destruct (Z.geb_spec (Z.of_nat (length (InlineRadio.packetQueue st)))
                         (window_queue_size cfg)) as [Hfull | Hroom].
    + inversion H; subst.
    repeat split; try discriminate; try congruence;
      try exact (proj1 Hsleep); try exact (proj2 Hsleep).
      intros [_ Hlt]; lia.
    + cbv beta iota zeta delta [millis] in H. inversion H; subst.
      split; [split; [intros _; split; [reflexivity | lia] | reflexivity] | ].
      split; [ | split; [congruence | split; [discriminate | exact Hsleep] ] ].
      intros _. split; [eexists; reflexivity | ].
      unfold RadioInterfaceH.preflightSleepCb, RadioInterfaceH.canSleep.
      cbn [InlineRadio.packetQueue].
      destruct (InlineRadio.packetQueue st); repeat split.
  - inversion H; subst.
    repeat split; try discriminate; try congruence;
      try exact (proj1 Hsleep); try exact (proj2 Hsleep).
    intros [Hm _]; discriminate.
  - inversion H; subst.
    repeat split; try discriminate; try congruence;
      try exact (proj1 Hsleep); try exact (proj2 Hsleep).
    intros [Hm _]; discriminate.
Qed.

(** X14 in queue mode at 20:00 under the window 09:00-17:00, on an empty
    vector. *)
Lemma queued_packet_vetoes_sleep_witness :
  RadioInterfaceH.preflightSleepCb
    (InlineRadio.mk [InlineRadio.mkEntry (Some (test_packet 1)) (millis_at 20 0)]) = 1.
Proof.
  destruct (queued_packet_vetoes_sleep 0 (day_lora QUEUE_PACKETS) (Some (test_packet 1))
              (InlineRadio.mk []) (world_at (millis_at 20 0)) ERRNO_OK
              (InlineRadio.mk [InlineRadio.mkEntry (Some (test_packet 1)) (millis_at 20 0)])
              (snd (millis (snd (millis (world_at (millis_at 20 0))))))
              eq_refl eq_refl eq_refl eq_refl) as (_ & Hok & _).
  exact (proj1 (proj2 (proj2 (Hok eq_refl)))).
Defined.

(** ** Eviction in RadioInterfaceTime.cpp *)

Lemma inline_clean_loop_spec : forall now secs l w,
  InlineRadio.cleanExpiredPackets_loop now secs l w =
  (filter (fun it => negb (inline_expired now secs it)) l,
   release_all (map InlineRadio.packet (filter (inline_expired now secs) l)) w).
Proof.
  intros now secs l. induction l as [ | it rest IH]; intros w; [reflexivity | ].
  cbn [InlineRadio.cleanExpiredPackets_loop filter].
  fold (inline_expired now secs it).
  destruct (inline_expired now secs it); cbn [negb map].
  - rewrite IH, release_all_cons. reflexivity.
  - rewrite IH. reflexivity.
Qed.

(** X15. [cleanExpiredPackets] of RadioInterfaceTime.cpp does nothing, and
    does not read the clock, while the feature is off.  With the feature on
    it reads the clock once, removes exactly the entries whose age in 32
    bits is at least [window_packet_expire_secs * 1000] taken in 32 bits,
    releases each of them to the pool once in the order of the vector, and
    keeps the others in their order; it transmits nothing.  The limit is
    [window_packet_expire_secs * 1000] itself when that product fits 32
    bits; under an expiry of 4294968 s it is 704 ms, and an entry aged
    1000 ms is evicted. *)
Theorem inline_eviction :
  (forall cfg st w,
     has_lora cfg && time_window_enabled cfg = false ->
     InlineRadio.cleanExpiredPackets cfg st w = (st, w))
  /\
  (forall cfg st w,
     has_lora cfg && time_window_enabled cfg = true ->
     let now := u32 (clock w (ticks w)) in
     let old := fun it => u32 (now - InlineRadio.enqueue_time it)
                          >=? u32 (window_packet_expire_secs cfg * 1000) in
     let '(st', w') := InlineRadio.cleanExpiredPackets cfg st w in
     InlineRadio.packetQueue st'
       = filter (fun it => negb (old it)) (InlineRadio.packetQueue st) /\
     pool_released w'
       = rev (map InlineRadio.packet (filter old (InlineRadio.packetQueue st)))
         ++ pool_released w /\
     ticks w' = S (ticks w) /\
     attempts w' = attempts w /\ handed_over w' = handed_over w)
  /\
  (forall cfg st w,
     has_lora cfg && time_window_enabled cfg = true ->
     0 <= window_packet_expire_secs cfg * 1000 < 2 ^ 32 ->
     let now := u32 (clock w (ticks w)) in
     let old := fun it => u32 (now - InlineRadio.enqueue_time it)
                          >=? window_packet_expire_secs cfg * 1000 in
     let '(st', w') := InlineRadio.cleanExpiredPackets cfg st w in
     InlineRadio.packetQueue st'
       = filter (fun it => negb (old it)) (InlineRadio.packetQueue st) /\
     pool_released w'
       = rev (map InlineRadio.packet (filter old (InlineRadio.packetQueue st)))
         ++ pool_released w /\
     ticks w' = S (ticks w) /\
     attempts w' = attempts w /\ handed_over w' = handed_over w)
  /\
  (let cfg := with_queue_settings 32 4294968 (day_lora QUEUE_PACKETS) in
   let st := InlineRadio.mk [InlineRadio.mkEntry (Some (test_packet 1)) 0] in
   let w := world_at 1000 in
   let '(st', w') := InlineRadio.cleanExpiredPackets cfg st w in
   u32 (u32 (clock w (ticks w)) - 0) = 1000 /\
   1000 < window_packet_expire_secs cfg * 1000 /\
   u32 (window_packet_expire_secs cfg * 1000) = 704 /\
   InlineRadio.packetQueue st' = [] /\
   pool_released w' = [Some (test_packet 1)]).
Proof.
  assert (On : forall cfg st w,
     has_lora cfg && time_window_enabled cfg = true ->
     let now := u32 (clock w (ticks w)) in
     let old := inline_expired now (window_packet_expire_secs cfg) in
     let '(st', w') := InlineRadio.cleanExpiredPackets cfg st w in
     InlineRadio.packetQueue st'
       = filter (fun it => negb (old it)) (InlineRadio.packetQueue st) /\
     pool_released w'
       = rev (map InlineRadio.packet (filter old (InlineRadio.packetQueue st)))
         ++ pool_released w /\
     ticks w' = S (ticks w) /\
     attempts w' = attempts w /\ handed_over w' = handed_over w).
  { intros cfg st w H. unfold InlineRadio.cleanExpiredPackets.
    apply andb_true_iff in H. destruct H as [-> ->]. cbn [negb orb].
    cbv beta iota zeta delta [millis]. rewrite inline_clean_loop_spec.
    cbn [InlineRadio.packetQueue]. rewrite release_all_pool.
    match goal with |- context [release_all ?ps ?w0] =>
      destruct (release_all_frame ps w0) as (_ & -> & _ & _ & -> & ->) end.
    repeat split. }
  split; [ | split; [ | split ] ].
  - intros cfg st w H. unfold InlineRadio.cleanExpiredPackets.
    apply andb_false_iff in H. destruct H as [-> | ->];
      [reflexivity | rewrite orb_true_r; reflexivity].
  - intros cfg st w H. exact (On cfg st w H).
  - intros cfg st w H Hfit. pose proof (On cfg st w H) as K.
    cbv zeta in K |- *. unfold inline_expired in K.
    rewrite (u32_small _ Hfit) in K. exact K.
  - vm_compute. repeat split; reflexivity.
Qed.

(** X15 for an entry stamped at 0 ms under an expiry of 3600 s, with the
    clock at 20:00: the entry is evicted and released. *)
Lemma inline_eviction_witness :
  let '(st', w') :=
    InlineRadio.cleanExpiredPackets (day_lora QUEUE_PACKETS)
      (InlineRadio.mk [InlineRadio.mkEntry (Some (test_packet 1)) 0])
      (world_at (millis_at 20 0)) in
  InlineRadio.packetQueue st' = [] /\
  pool_released w' = [Some (test_packet 1)] /\
  ticks w' = 1%nat /\ attempts w' = [] /\ handed_over w' = [].
Proof.
  refine (proj1 (proj2 (proj2 inline_eviction)) (day_lora QUEUE_PACKETS)
            (InlineRadio.mk [InlineRadio.mkEntry (Some (test_packet 1)) 0])
            (world_at (millis_at 20 0)) eq_refl _).
  vm_compute. split; congruence.
Defined.

(** ** The queue settings of the configuration *)

(** X16. The schedulers of RadioInterface.cpp and RadioInterfaceQueue.cpp
    never read [window_queue_size] or [window_packet_expire_secs]: their
    queue is a file-local object constructed with the defaults, 32 entries
    and 3600 s, and [send] and the drain behave the same whatever the two
    settings are.  Only RadioInterfaceTime.cpp reads them. *)
Theorem queue_settings_ignored : forall size secs cfg,
  (forall p st w,
     FifoRadio.send (with_queue_settings size secs cfg) p st w = FifoRadio.send cfg p st w)
  /\
  (forall st w,
     FifoRadio.processQueuedPackets (with_queue_settings size secs cfg) st w
     = FifoRadio.processQueuedPackets cfg st w)
  /\
  (forall (PQ : StdPriorityQueue PriorityPacketQueue.QueuedPacket PriorityPacketQueue.less)
          MAX_PACKETS_PER_CYCLE MIN_QUEUE_PROCESS_INTERVAL getLastPriority p st w,
     PriorityRadio.send MAX_PACKETS_PER_CYCLE MIN_QUEUE_PROCESS_INTERVAL getLastPriority
                        (with_queue_settings size secs cfg) p st w
     = PriorityRadio.send MAX_PACKETS_PER_CYCLE MIN_QUEUE_PROCESS_INTERVAL getLastPriority
                          cfg p st w)
  /\
  (PacketQueue.maxQueueSize (FifoRadio.packetQueue FifoRadio.init) = 32 /\
   PacketQueue.packetExpirySeconds (FifoRadio.packetQueue FifoRadio.init) = 3600)
  /\
  (exists p st w,
     InlineRadio.send 0 (with_queue_settings 0 3600 (day_lora QUEUE_PACKETS)) p st w
     <> InlineRadio.send 0 (with_queue_settings 32 3600 (day_lora QUEUE_PACKETS)) p st w).
Proof.
  intros size secs cfg. split; [ | split; [ | split; [ | split ] ] ].
  - reflexivity.
  - reflexivity.
  - reflexivity.
  - split; reflexivity.
  - exists (Some (test_packet 1)), (InlineRadio.mk []), (world_at (millis_at 20 0)).
    vm_compute. discriminate.
Qed.

(** ** The commands of the plugin *)




(** X18. The clear-queue command empties the queue of the radio, releases
    every packet it held to the pool once, in the order of the queue, and
    sets [queuedPackets] to zero; it leaves the other statistics of the
    plugin, the statistics of the queue and the override as they were.
    Without a radio ([service.radio] null) the command changes nothing, not
    even [queuedPackets]. *)
Theorem clear_queue_command :
  (forall (F : TimeWindowPlugin.MeshFramework FifoRadio.t) from d fw w,
     exists fw' w',
       Firmware.handleCommand from
         (TimeWindowPlugin.mkCommand TimeWindowPlugin.CLEAR_QUEUE d) fw w = Some (fw', w') /\
       FifoRadio.getQueueSize (Firmware.radio fw') = 0 /\
       pool_released w'
         = rev (map PacketQueue.packet
                    (PacketQueue.packets (FifoRadio.packetQueue (Firmware.radio fw))))
           ++ pool_released w /\
       Firmware.timeWindowPlugin fw'
         = TimeWindowPlugin.updateQueuedCount 0 (Firmware.timeWindowPlugin fw) /\
       TimeWindowPlugin.queuedPackets (TimeWindowPlugin.stats (Firmware.timeWindowPlugin fw')) = 0 /\
       TimeWindowPlugin.totalDropped (TimeWindowPlugin.stats (Firmware.timeWindowPlugin fw'))
         = TimeWindowPlugin.totalDropped (TimeWindowPlugin.stats (Firmware.timeWindowPlugin fw)) /\
       FifoRadio.getQueueStats (Firmware.radio fw')
         = FifoRadio.getQueueStats (Firmware.radio fw))
  /\
  (forall (Radio : Type) (F : TimeWindowPlugin.MeshFramework Radio)
          (clearPacketQueue : Radio -> World -> option (Radio * World)) from d cfg pl w,
     TimeWindowPlugin.handleCommand clearPacketQueue from
       (TimeWindowPlugin.mkCommand TimeWindowPlugin.CLEAR_QUEUE d) cfg pl None w
     = Some (pl, None, w)).
Proof.
  split.
  - intros F from d fw w. unfold Firmware.handleCommand, TimeWindowPlugin.handleCommand.
    cbn [TimeWindowPlugin.command]. unfold FifoRadio.clearPacketQueue.
    rewrite fifo_clear_spec. do 2 eexists. split; [reflexivity | ].
    rewrite release_all_pool. repeat split.
  - reflexivity.
Qed.

(** ** The [window] command of the console *)

Section CommandLine.
Import String.
Variable sscanf_time : String.string -> option (Z * Z).
Variable atoi : String.string -> Z.

Lemma i32_range : forall x, - 2 ^ 31 <= i32 x < 2 ^ 31.
Proof.
  intros x. unfold i32.
  pose proof (Z.mod_pos_bound (x + 2 ^ 31) (2 ^ 32) ltac:(reflexivity)) as H.
  assert (E : 2 ^ 32 = 2 ^ 31 + 2 ^ 31) by reflexivity. lia.
Qed.

Lemma parseTime_range : forall s h m,
  TimeWindowCLI.parseTime sscanf_time s = Some (h, m) ->
  0 <= h < 24 /\ 0 <= m < 60 /\
  exists h0 m0, sscanf_time s = Some (h0, m0) /\ h = i32 h0 /\ m = i32 m0.
Proof.
  intros s h m H. unfold TimeWindowCLI.parseTime in H.
  destruct (sscanf_time s) as [[h0 m0] | ]; [ | discriminate].
  cbv zeta in H.
  destruct (Z.ltb_spec (i32 h0) 0); [discriminate | ].
  destruct (Z.gtb_spec (i32 h0) 23); [discriminate | ].
  destruct (Z.ltb_spec (i32 m0) 0); [discriminate | ].
  destruct (Z.gtb_spec (i32 m0) 59); [discriminate | ].
  cbn [orb] in H. inversion H.
  rewrite !u8_small by (change (2 ^ 8) with 256; lia).
  split; [lia | split; [lia | ] ]. exists h0, m0. repeat split.
Qed.

Ltac cli_branch :=
  match goal with
  | |- context [if ?b then _ else _] => destruct b eqn:?
  | |- context [match ?x with Some _ => _ | None => _ end] => destruct x eqn:?
  | |- context [let '(_, _) := ?x in _] => destruct x eqn:?
  end.

Lemma cli_outcome : forall argv cfg,
  exists r,
    TimeWindowCLI.timeWindowCmd sscanf_time atoi argv cfg = Some r /\
    cli_change argv cfg r.
Proof.
  intros argv cfg. unfold TimeWindowCLI.timeWindowCmd.
  destruct argv as [ | a0 [ | a1 [ | a2 [ | a3 rest] ] ] ];
    cbn [nth_error List.length]; cbv zeta;
    repeat cli_branch;
    try (exfalso;
         match goal with
         | H : context [Z.of_nat] |- _ => vm_compute in H; discriminate H
         end);
    try (eexists; split; [reflexivity | ]; apply cli_unchanged);
    eexists; (split; [reflexivity | ]);
    repeat match goal with
           | H : String.eqb _ _ = true |- _ => apply String.eqb_eq in H; subst
           | H : TimeWindowCLI.parseTime _ _ = Some _ |- _ =>
               apply parseTime_range in H; destruct H as (? & ? & _)
           | H : (_ || _) = false |- _ => apply orb_false_iff in H; destruct H
           | H : (_ <? _) = false |- _ => apply Z.ltb_ge in H
           | H : (_ >? _) = false |- _ => rewrite Z.gtb_ltb in H; apply Z.ltb_ge in H
           end.
  all: try (apply cli_enable; reflexivity).
  all: try (apply cli_disable; reflexivity).
  all: try (apply cli_set; [reflexivity | assumption ..]).
  all: try (apply cli_mode; [reflexivity | unfold valid_mode; tauto]).
  all: try (pose proof (i32_range (atoi a2));
            rewrite u32_small by (change (2 ^ 32) with 4294967296; lia);
            first [ apply cli_queue; [reflexivity | lia]
                  | apply cli_expire; [reflexivity | lia] ]).
Qed.

End CommandLine.

Section CommandLineProperties.
Import String.
Variable sscanf_time : String.string -> option (Z * Z).
Variable atoi : String.string -> Z.

Lemma cli_change_saves : forall argv cfg r,
  cli_change argv cfg r ->
  (TimeWindowCLI.saves r <= 1)%nat /\
  (TimeWindowCLI.saves r = 0%nat -> TimeWindowCLI.config r = cfg) /\
  (has_lora cfg = true -> has_lora (TimeWindowCLI.config r) = true) /\
  (time_window_enabled (TimeWindowCLI.config r) <> time_window_enabled cfg ->
   nth_error argv 1 = Some "enable"%string \/ nth_error argv 1 = Some "disable"%string).
Proof.
  intros argv cfg r H. destruct H; cbn; repeat split; try lia; try congruence; tauto.
Qed.

Lemma cli_change_valid : forall argv cfg r,
  cli_change argv cfg r ->
  (valid_window cfg -> valid_window (TimeWindowCLI.config r)) /\
  (valid_mode (lora_window_mode cfg) ->
   valid_mode (lora_window_mode (TimeWindowCLI.config r))) /\
  (1 <= window_queue_size cfg <= 100 ->
   1 <= window_queue_size (TimeWindowCLI.config r) <= 100) /\
  (1 <= window_packet_expire_secs cfg < 2 ^ 32 ->
   1 <= window_packet_expire_secs (TimeWindowCLI.config r) < 2 ^ 32).
Proof.
  intros argv cfg r H.
  assert (B : 2 ^ 31 < 2 ^ 32) by reflexivity.
  destruct H; unfold valid_window; cbn; repeat split; intros; try tauto; try lia.
Qed.

(** X19. The [window] command never reads [argv] at or beyond [argc],
    whatever the arguments are, and it changes the configuration only
    together with one call of [saveConfig]: a command that is refused
    (wrong number of arguments, a time outside 00:00-23:59, an unknown mode,
    a size outside 1-100, an expiry below 1, an unknown word) or that only
    reports leaves the configuration as it was and saves nothing.  It never
    clears [has_lora], and only [enable] and [disable] change
    [time_window_enabled].  The registered handler passes at most eight
    tokens and always answers [true]. *)
Theorem window_command_safe :
  (forall argv cfg,
     exists r,
       TimeWindowCLI.timeWindowCmd sscanf_time atoi argv cfg = Some r /\
       (TimeWindowCLI.saves r <= 1)%nat /\
       (TimeWindowCLI.saves r = 0%nat -> TimeWindowCLI.config r = cfg) /\
       (has_lora cfg = true -> has_lora (TimeWindowCLI.config r) = true) /\
       (time_window_enabled (TimeWindowCLI.config r) <> time_window_enabled cfg ->
        nth_error argv 1 = Some "enable"%string \/ nth_error argv 1 = Some "disable"%string))
  /\
  (forall strtok_tokens arg_string cfg,
     exists r,
       CommandTimeWindow.windowCmd sscanf_time atoi strtok_tokens arg_string cfg
         = Some (true, r) /\
       TimeWindowCLI.timeWindowCmd sscanf_time atoi (firstn 8 (strtok_tokens arg_string)) cfg
         = Some r /\
       (List.length (firstn 8 (strtok_tokens arg_string)) <= 8)%nat).
Proof.
  split.
  - intros argv cfg. destruct (cli_outcome sscanf_time atoi argv cfg) as (r & Hrun & Hch).
    exists r. split; [exact Hrun | ]. exact (cli_change_saves argv cfg r Hch).
  - intros strtok_tokens arg_string cfg. unfold CommandTimeWindow.windowCmd.
    destruct (cli_outcome sscanf_time atoi (firstn 8 (strtok_tokens arg_string)) cfg)
      as (r & Hrun & _).
    exists r. rewrite Hrun. split; [reflexivity | split; [reflexivity | ] ].
    apply firstn_le_length.
Qed.

Lemma cli_session_valid : forall cmds cfg,
  exists r,
    TimeWindowCLI.session sscanf_time atoi cmds cfg = Some r /\
    (valid_window cfg -> valid_window (TimeWindowCLI.config r)) /\
    (valid_mode (lora_window_mode cfg) ->
     valid_mode (lora_window_mode (TimeWindowCLI.config r))) /\
    (1 <= window_queue_size cfg <= 100 ->
     1 <= window_queue_size (TimeWindowCLI.config r) <= 100) /\
    (1 <= window_packet_expire_secs cfg < 2 ^ 32 ->
     1 <= window_packet_expire_secs (TimeWindowCLI.config r) < 2 ^ 32) /\
    (TimeWindowCLI.saves r <= List.length cmds)%nat.
Proof.
  induction cmds as [ | argv rest IH]; intros cfg.
  - eexists. split; [reflexivity | ].
    cbn [TimeWindowCLI.config TimeWindowCLI.saves List.length].
    split; [tauto | split; [tauto | split; [tauto | split; [tauto | lia] ] ] ].
  - cbn [TimeWindowCLI.session].
    destruct (cli_outcome sscanf_time atoi argv cfg) as (r1 & Hrun & Hch). rewrite Hrun.
    destruct (cli_change_valid argv cfg r1 Hch) as (W1 & M1 & Q1 & E1).
    destruct (cli_change_saves argv cfg r1 Hch) as (S1 & _).
    destruct (IH (TimeWindowCLI.config r1)) as (r2 & Hrest & W2 & M2 & Q2 & E2 & S2).
    rewrite Hrest. eexists. split; [reflexivity | ].
    cbn [TimeWindowCLI.config TimeWindowCLI.saves List.length].
    split; [intros; apply W2, W1; assumption | ].
    split; [intros; apply M2, M1; assumption | ].
    split; [intros; apply Q2, Q1; assumption | ].
    split; [intros; apply E2, E1; assumption | lia].
Qed.

End CommandLineProperties.

Section CommandLineSessions.
Import String.
Variable sscanf_time : String.string -> option (Z * Z).
Variable atoi : String.string -> Z.

(** X20. No session at the console can make valid settings invalid: from
    a configuration with window times a clock can show, one of the three
    modes, a queue size in 1-100 and a positive expiry, any sequence of
    [window] commands, accepted or refused, ends in a configuration with
    the same properties, having saved at most once per command. *)
Theorem window_session_keeps_valid : forall cmds cfg,
  valid_window cfg ->
  valid_mode (lora_window_mode cfg) ->
  1 <= window_queue_size cfg <= 100 ->
  1 <= window_packet_expire_secs cfg < 2 ^ 32 ->
  exists r,
    TimeWindowCLI.session sscanf_time atoi cmds cfg = Some r /\
    valid_window (TimeWindowCLI.config r) /\
    valid_mode (lora_window_mode (TimeWindowCLI.config r)) /\
    1 <= window_queue_size (TimeWindowCLI.config r) <= 100 /\
    1 <= window_packet_expire_secs (TimeWindowCLI.config r) < 2 ^ 32 /\
    (TimeWindowCLI.saves r <= List.length cmds)%nat.
Proof.
  intros cmds cfg W M Q E.
  destruct (cli_session_valid sscanf_time atoi cmds cfg) as (r & Hrun & W' & M' & Q' & E' & S').
  exists r. split; [exact Hrun | ].
  split; [exact (W' W) | split; [exact (M' M) | split; [exact (Q' Q) | ] ] ].
  split; [exact (E' E) | exact S'].
Qed.

(** X21. At the console a window that was set is the window that is
    reported and enforced.  When [parseTime] accepts both arguments of
    [window set], the two times are within 00:00-23:59 and are stored;
    [window set] alone does not switch the feature on; after
    [window enable] the status shows the stored times.  When [parseTime]
    refuses either argument nothing is stored, the start time included. *)
Theorem window_set_then_status : forall a0 a b cfg,
  (forall sh sm eh em,
     TimeWindowCLI.parseTime sscanf_time a = Some (sh, sm) ->
     TimeWindowCLI.parseTime sscanf_time b = Some (eh, em) ->
     exists r1 r2 r3,
       TimeWindowCLI.timeWindowCmd sscanf_time atoi [a0; "set"%string; a; b] cfg = Some r1 /\
       TimeWindowCLI.timeWindowCmd sscanf_time atoi [a0; "enable"%string]
                                   (TimeWindowCLI.config r1) = Some r2 /\
       TimeWindowCLI.timeWindowCmd sscanf_time atoi [a0; "status"%string]
                                   (TimeWindowCLI.config r2) = Some r3 /\
       valid_window (TimeWindowCLI.config r1) /\
       time_window_enabled (TimeWindowCLI.config r1) = time_window_enabled cfg /\
       In (TimeWindowCLI.MsgStatusWindow sh sm eh em) (TimeWindowCLI.printed r3) /\
       TimeWindowCLI.config r3 = TimeWindowCLI.config r2 /\
       (forall w,
          fst (isOperationAllowed (TimeWindowCLI.config r2) w)
          = fst (isOperationAllowed
                   (mkLoRaConfig true true sh sm eh em (lora_window_mode cfg)
                                 (window_queue_size cfg) (window_packet_expire_secs cfg)) w)))
  /\
  (TimeWindowCLI.parseTime sscanf_time a = None \/
   TimeWindowCLI.parseTime sscanf_time b = None ->
   TimeWindowCLI.timeWindowCmd sscanf_time atoi [a0; "set"%string; a; b] cfg
   = Some (TimeWindowCLI.mkResult cfg 0 [TimeWindowCLI.MsgInvalidTime])).
Proof.
  intros a0 a b cfg. split.
  - intros sh sm eh em Ha Hb.
    destruct (parseTime_range sscanf_time a sh sm Ha) as (H1 & H2 & _).
    destruct (parseTime_range sscanf_time b eh em Hb) as (H3 & H4 & _).
    unfold TimeWindowCLI.timeWindowCmd.
    cbn [List.length nth_error Z.of_nat Pos.of_succ_nat Pos.succ Z.ltb Z.eqb Z.compare
         Pos.compare Pos.compare_cont Pos.eqb negb String.eqb Ascii.eqb Bool.eqb].
    rewrite Ha, Hb.
    do 3 eexists. split; [reflexivity | ]. split; [reflexivity | ]. split; [reflexivity | ].
    cbn [TimeWindowCLI.config TimeWindowCLI.printed].
    split; [unfold valid_window; cbn; tauto | ].
    split; [reflexivity | ].
    split; [cbn; tauto | ].
    split; reflexivity.
  - intros H. unfold TimeWindowCLI.timeWindowCmd.
    cbn [List.length nth_error Z.of_nat Pos.of_succ_nat Pos.succ Z.ltb Z.eqb Z.compare
         Pos.compare Pos.compare_cont Pos.eqb negb String.eqb Ascii.eqb Bool.eqb].
    destruct (TimeWindowCLI.parseTime sscanf_time a) as [[sh sm] | ]; [ | reflexivity].
    destruct H as [H | H]; [discriminate | ]. rewrite H. reflexivity.
Qed.

End CommandLineSessions.

(** X20 on the session of the examples, from the defaults of the
    configuration: the queue size 600 is refused, the rest is stored. *)
Lemma window_session_keeps_valid_witness :
  exists r,
    TimeWindowCLI.session sscanf_sample atoi_sample sample_session
      (mkLoRaConfig false false 21 0 23 0 RECEIVE_ONLY 32 3600) = Some r /\
    valid_window (TimeWindowCLI.config r) /\
    valid_mode (lora_window_mode (TimeWindowCLI.config r)) /\
    1 <= window_queue_size (TimeWindowCLI.config r) <= 100 /\
    1 <= window_packet_expire_secs (TimeWindowCLI.config r) < 2 ^ 32 /\
    (TimeWindowCLI.saves r <= 5)%nat.
Proof.
  refine (window_session_keeps_valid sscanf_sample atoi_sample sample_session
            (mkLoRaConfig false false 21 0 23 0 RECEIVE_ONLY 32 3600) _ _ _ _).
  - unfold valid_window. cbn. lia.
  - right; right. reflexivity.
  - cbn. lia.
  - cbn. split; [lia | reflexivity].
Defined.

(** X21 for the times 22:00 and 04:00. *)
Lemma window_set_then_status_witness :
  exists r1 r2 r3,
    TimeWindowCLI.timeWindowCmd sscanf_sample atoi_sample
      (hd [] sample_session) night_lora = Some r1 /\
    TimeWindowCLI.timeWindowCmd sscanf_sample atoi_sample
      (nth 3 sample_session []) (TimeWindowCLI.config r1) = Some r2 /\
    TimeWindowCLI.timeWindowCmd sscanf_sample atoi_sample
      (nth 4 sample_session []) (TimeWindowCLI.config r2) = Some r3 /\
    valid_window (TimeWindowCLI.config r1) /\
    time_window_enabled (TimeWindowCLI.config r1) = true /\
    In (TimeWindowCLI.MsgStatusWindow 22 0 4 0) (TimeWindowCLI.printed r3).
Proof.
  destruct (proj1 (window_set_then_status sscanf_sample atoi_sample
                     (hd String.EmptyString (hd [] sample_session))
                     (nth 2 (hd [] sample_session) String.EmptyString)
                     (nth 3 (hd [] sample_session) String.EmptyString)
                     night_lora) 22 0 4 0 eq_refl eq_refl)
    as (r1 & r2 & r3 & A & B & C & D & E & F & _).
  exists r1, r2, r3.
  split; [exact A | split; [exact B | split; [exact C | split; [exact D | ] ] ] ].
  split; [exact E | exact F].
Defined.

(** ** The configuration request of the admin module *)

(** X22. [handleSetConfig] checks the window times only of a request that
    enables the window.  Such a request with an hour of 24 or more or a
    minute of 60 or more is refused: the reply is [INVALID_SETTINGS],
    nothing is saved, Bluetooth is left alone and [config.lora] is as
    before, though [has_lora] has already been set.  Every other request is
    stored and saved; if it enables the window the stored times are ones a
    clock can show, in queue mode a queue size of zero is stored as 32 and
    an expiry of zero as 3600 while any other size or expiry is stored as
    requested, and in the other modes both are stored as requested, zero
    included.  A request that leaves the window disabled is stored with
    whatever times and sizes it carries.  A reboot is asked
    for exactly when a radio parameter changed, and Bluetooth is disabled
    exactly when a reboot is asked for outside an edit transaction. *)
Theorem admin_validates_enabled_window :
  forall (RadioParams : Type) (radioParamsChanged : RadioParams -> RadioParams -> bool)
         c_radio c_lora hasOpenEditTransaction dev,
  0 <= window_start_hour c_lora -> 0 <= window_start_minute c_lora ->
  0 <= window_end_hour c_lora -> 0 <= window_end_minute c_lora ->
  let o := AdminModule.handleSetConfig RadioParams radioParamsChanged
             c_radio c_lora hasOpenEditTransaction dev in
  let new := AdminModule.lora RadioParams (AdminModule.device RadioParams o) in
  has_lora new = true /\
  (AdminModule.myReply RadioParams o = Some AdminModule.Routing_Error_INVALID_SETTINGS <->
   time_window_enabled c_lora = true /\ ~ valid_window c_lora) /\
  (AdminModule.myReply RadioParams o = Some AdminModule.Routing_Error_INVALID_SETTINGS ->
   AdminModule.savedChanges RadioParams o = None /\
   AdminModule.bluetoothDisabled RadioParams o = false /\
   AdminModule.radio_params RadioParams (AdminModule.device RadioParams o)
     = AdminModule.radio_params RadioParams dev /\
   new = TimeWindowCLI.set_has_lora true (AdminModule.lora RadioParams dev)) /\
  (AdminModule.myReply RadioParams o = None ->
   AdminModule.savedChanges RadioParams o
     = Some (AdminModule.SEGMENT_CONFIG,
             radioParamsChanged (AdminModule.radio_params RadioParams dev) c_radio) /\
   AdminModule.bluetoothDisabled RadioParams o
     = radioParamsChanged (AdminModule.radio_params RadioParams dev) c_radio
       && negb hasOpenEditTransaction /\
   AdminModule.radio_params RadioParams (AdminModule.device RadioParams o) = c_radio /\
   time_window_enabled new = time_window_enabled c_lora /\
   lora_window_mode new = lora_window_mode c_lora /\
   window_start_hour new = window_start_hour c_lora /\
   window_start_minute new = window_start_minute c_lora /\
   window_end_hour new = window_end_hour c_lora /\
   window_end_minute new = window_end_minute c_lora /\
   (time_window_enabled c_lora = true ->
    valid_window new /\
    (lora_window_mode c_lora = QUEUE_PACKETS ->
     window_queue_size new
       = (if window_queue_size c_lora =? 0 then 32 else window_queue_size c_lora) /\
     window_packet_expire_secs new
       = (if window_packet_expire_secs c_lora =? 0 then 3600
          else window_packet_expire_secs c_lora) /\
     window_queue_size new <> 0 /\ window_packet_expire_secs new <> 0) /\
    (lora_window_mode c_lora <> QUEUE_PACKETS ->
     window_queue_size new = window_queue_size c_lora /\
     window_packet_expire_secs new = window_packet_expire_secs c_lora)) /\
   (time_window_enabled c_lora = false -> new = TimeWindowCLI.set_has_lora true c_lora)).
Proof.
  intros RadioParams changed c_radio c_lora open dev Hsh Hsm Heh Hem o new.
  subst new o. unfold AdminModule.handleSetConfig. cbv zeta.
  cbn [AdminModule.radio_params].
  assert (Hreboot : forall b : bool, (if negb b then false else true) = b)
    by (intros []; reflexivity).
  rewrite Hreboot.
  destruct (time_window_enabled c_lora) eqn:Hen.
  - destruct ((window_start_hour c_lora >=? 24) || (window_start_minute c_lora >=? 60)
              || (window_end_hour c_lora >=? 24) || (window_end_minute c_lora >=? 60))
      eqn:Hbad;
      cbn [AdminModule.device AdminModule.lora AdminModule.myReply
           AdminModule.savedChanges AdminModule.bluetoothDisabled AdminModule.radio_params].
    + assert (Hnot : ~ valid_window c_lora).
      { unfold valid_window. rewrite !orb_true_iff, !Z.geb_le in Hbad. lia. }
      split; [reflexivity | ].
      split; [split; [intros _; split; [reflexivity | exact Hnot] | reflexivity] | ].
      split; [intros _; repeat split | discriminate].
    + assert (Hok : valid_window c_lora).
      { unfold valid_window. rewrite !orb_false_iff in Hbad.
        destruct Hbad as [[[A B] C] D].
        rewrite Z.geb_leb in A, B, C, D. apply Z.leb_gt in A, B, C, D. lia. }
      split; [reflexivity | ].
      split; [split; [discriminate | intros [_ Hx]; exfalso; exact (Hx Hok)] | ].
      split; [discriminate | ].
      intros _. unfold AdminModule.with_queue_defaults.
      destruct (lora_window_mode c_lora) eqn:Hm.
      * repeat split; cbn; try rewrite Hen; try rewrite Hm;
          first [reflexivity | apply Hok | discriminate].
      * destruct (Z.eqb_spec (window_queue_size c_lora) 0) as [Q | Q];
          cbn [window_packet_expire_secs TimeWindowCLI.set_queue_size];
          destruct (Z.eqb_spec (window_packet_expire_secs c_lora) 0) as [E | E];
          repeat split; cbn; try rewrite Hen; try rewrite Hm;
            first [reflexivity | apply Hok | discriminate | assumption | congruence].
      * repeat split; cbn; try rewrite Hen; try rewrite Hm;
          first [reflexivity | apply Hok | discriminate].
      * repeat split; cbn; try rewrite Hen; try rewrite Hm;
          first [reflexivity | apply Hok | discriminate].
  - cbn [AdminModule.device AdminModule.lora AdminModule.myReply
         AdminModule.savedChanges AdminModule.bluetoothDisabled AdminModule.radio_params].
    split; [reflexivity | ].
    split; [split; [discriminate | intros [Hx _]; discriminate Hx] | ].
    split; [discriminate | ].
    intros _. repeat split; cbn; try rewrite Hen; first [reflexivity | discriminate].
Qed.

(** X22 for a request that enables the window 25:00-04:00: it is refused
    and the stored window 22:00-04:00 stays; and for a request that enables
    the window 22:00-04:00 in queue mode with a size and an expiry of zero:
    it is stored with 32 and 3600. *)
Lemma admin_validates_enabled_window_witness :
  (let o := AdminModule.handleSetConfig unit (fun _ _ => false) tt
              (mkLoRaConfig true true 25 0 4 0 QUEUE_PACKETS 0 0) false
              (AdminModule.mkDevice unit tt night_lora) in
   AdminModule.savedChanges unit o = None /\
   AdminModule.bluetoothDisabled unit o = false /\
   AdminModule.radio_params unit (AdminModule.device unit o) = tt /\
   AdminModule.lora unit (AdminModule.device unit o) = night_lora)
  /\
  (let o := AdminModule.handleSetConfig unit (fun _ _ => false) tt
              (mkLoRaConfig true true 22 0 4 0 QUEUE_PACKETS 0 0) false
              (AdminModule.mkDevice unit tt night_lora) in
   let new := AdminModule.lora unit (AdminModule.device unit o) in
   window_queue_size new = 32 /\ window_packet_expire_secs new = 3600).
Proof.
  split.
  - refine (proj1 (proj2 (proj2
              (admin_validates_enabled_window unit (fun _ _ => false) tt
                 (mkLoRaConfig true true 25 0 4 0 QUEUE_PACKETS 0 0) false
                 (AdminModule.mkDevice unit tt night_lora) _ _ _ _))) eq_refl);
      cbn; lia.
  - assert (H : 0 <= 22 /\ 0 <= 0 /\ 0 <= 4) by lia.
    destruct H as (H22 & H0 & H4).
    pose proof (proj2 (proj2 (proj2
                  (admin_validates_enabled_window unit (fun _ _ => false) tt
                     (mkLoRaConfig true true 22 0 4 0 QUEUE_PACKETS 0 0) false
                     (AdminModule.mkDevice unit tt night_lora) H22 H0 H4 H0)))
                  eq_refl) as K.
    destruct K as (_ & _ & _ & _ & _ & _ & _ & _ & _ & K & _).
    destruct (K eq_refl) as (_ & Q & _).
    destruct (Q eq_refl) as (A & B & _).
    split; [exact A | exact B].
Defined.

(** ** The metrics of RadioInterfaceQueue.cpp *)

Lemma u32_eq_of_diff : forall x y k, x = y + k * 2 ^ 32 -> u32 x = u32 y.
Proof. intros x y k ->. unfold u32. apply Z_mod_plus_full. Qed.

Lemma u32_count_step : forall a b n,
  u32 (u32 (a + 1) + b - u32 (n + 1)) = u32 (a + b - n) /\
  u32 (a + u32 (b + 1) - u32 (n + 1)) = u32 (a + b - n).
Proof.
  intros a b n. unfold u32.
  pose proof (Z.div_mod (a + 1) (2 ^ 32) ltac:(discriminate)) as Ha.
  pose proof (Z.div_mod (b + 1) (2 ^ 32) ltac:(discriminate)) as Hb.
  pose proof (Z.div_mod (n + 1) (2 ^ 32) ltac:(discriminate)) as Hn.
  split.
  - apply (u32_eq_of_diff _ _ ((n + 1) / 2 ^ 32 - (a + 1) / 2 ^ 32)). lia.
  - apply (u32_eq_of_diff _ _ ((n + 1) / 2 ^ 32 - (b + 1) / 2 ^ 32)). lia.
Qed.

Section PriorityMetrics.
Context {PQ : StdPriorityQueue PriorityPacketQueue.QueuedPacket PriorityPacketQueue.less}.
Variable MAX_PACKETS_PER_CYCLE : Z.
Variable MIN_QUEUE_PROCESS_INTERVAL : Z.
Variable getLastPriority : PriorityPacketQueue.t -> Z.

Lemma prio_cycle_sent_counts : forall startTime st n w st' n' w',
  prio_cycle MAX_PACKETS_PER_CYCLE getLastPriority startTime st n w st' n' w' ->
  u32 (PriorityRadio.highPriorityCount (PriorityRadio.metrics st')
       + PriorityRadio.normalPriorityCount (PriorityRadio.metrics st') - n')
  = u32 (PriorityRadio.highPriorityCount (PriorityRadio.metrics st)
         + PriorityRadio.normalPriorityCount (PriorityRadio.metrics st) - n) /\
  PriorityRadio.lastProcessTime (PriorityRadio.metrics st')
  = PriorityRadio.lastProcessTime (PriorityRadio.metrics st).
Proof.
  intros startTime st n w st' n' w' H.
  induction H as [ st n w He
                 | st n w He Ht
                 | st n w He Ht Hn
                 | st n w q1 w1 st' n' w' He Ht Hn Hd Hc IH
                 | st n w p q1 w1 w2 st' n' w' He Ht Hn Hd Hs Hc IH
                 | st n w p q1 w1 r w2 q2 w3 He Ht Hn Hd Hs Hr Henq
                 | st n w p q1 w1 r w2 q2 w3 He Ht Hn Hd Hs Hr Henq ];
    try (split; reflexivity).
  - exact IH.
  - destruct IH as [IH1 IH2]. rewrite IH1, IH2. clear IH1 IH2.
    unfold PriorityRadio.count_sent.
    destruct (getLastPriority q1 >? 2);
      cbn [PriorityRadio.metrics PriorityRadio.with_metrics PriorityRadio.with_queue
           PriorityRadio.highPriorityCount PriorityRadio.normalPriorityCount
           PriorityRadio.lastProcessTime];
      (split; [apply u32_count_step | reflexivity]).
Qed.

End PriorityMetrics.

(** X23. The metrics of RadioInterfaceQueue.cpp account for what the
    scheduler did.  A drain cycle counts every packet it transmitted with
    success once, as high or as normal priority: the two counters together
    grow by the number of packets processed, in 32 bits, and the cycle does
    not touch [lastProcessTime].  [send] while the window is closed counts
    a drop exactly when it returns [ERRNO_NO_RADIO], the packet being
    released once; otherwise the metrics stay.  [clearPacketQueue] sets the
    three counters to zero, keeps [lastProcessTime], empties the queue and
    leaves its statistics, so the average that [getQueueMetrics] reports is
    not reset. *)
Theorem priority_metrics_account :
  forall (PQ : StdPriorityQueue PriorityPacketQueue.QueuedPacket PriorityPacketQueue.less)
         MAX_PACKETS_PER_CYCLE MIN_QUEUE_PROCESS_INTERVAL getLastPriority,
  (forall cfg st w,
     exists st' n' w',
       PriorityRadio.processQueuedPackets MAX_PACKETS_PER_CYCLE getLastPriority cfg st w
         = Some (st', n', w') /\
       u32 (PriorityRadio.highPriorityCount (PriorityRadio.metrics st')
            + PriorityRadio.normalPriorityCount (PriorityRadio.metrics st'))
       = u32 (PriorityRadio.highPriorityCount (PriorityRadio.metrics st)
              + PriorityRadio.normalPriorityCount (PriorityRadio.metrics st) + n') /\
       PriorityRadio.lastProcessTime (PriorityRadio.metrics st')
       = PriorityRadio.lastProcessTime (PriorityRadio.metrics st))
  /\
  (forall cfg p st w,
     has_lora cfg = true -> time_window_enabled cfg = true ->
     fst (isOperationAllowed cfg w) = false ->
     exists r st' w',
       PriorityRadio.send MAX_PACKETS_PER_CYCLE MIN_QUEUE_PROCESS_INTERVAL getLastPriority
                          cfg p st w = Some (r, st', w') /\
       (r = ERRNO_NO_RADIO ->
        PriorityRadio.metrics st' = PriorityRadio.count_drop (PriorityRadio.metrics st) /\
        pool_released w' = Some p :: pool_released w) /\
       (r <> ERRNO_NO_RADIO ->
        PriorityRadio.metrics st' = PriorityRadio.metrics st /\
        pool_released w' = pool_released w))
  /\
  (forall st w,
     exists st' w',
       PriorityRadio.clearPacketQueue st w = Some (st', w') /\
       PriorityRadio.metrics st'
       = PriorityRadio.mkQueueMetrics
           (PriorityRadio.lastProcessTime (PriorityRadio.metrics st)) 0 0 0 /\
       PriorityRadio.getQueueSize st' = 0 /\
       PriorityRadio.getQueueStats st' = PriorityRadio.getQueueStats st /\
       PriorityRadioReport.getQueueMetrics st'
       = PriorityRadioReport.mkQueueMetrics 0 0 0
           (PriorityRadioReport.avgQueueTime (PriorityRadioReport.getQueueMetrics st))).
Proof.
  intros PQ M I G. split; [ | split].
  - intros cfg st w.
    destruct (prio_processQueuedPackets_total M G cfg st w) as (st' & n' & w' & Hrun).
    exists st', n', w'. split; [exact Hrun | ].
    unfold PriorityRadio.processQueuedPackets in Hrun.
    destruct (negb (has_lora cfg) || negb (time_window_enabled cfg)).
    + inversion Hrun; subst. rewrite Z.add_0_r. split; reflexivity.
    + destruct (PriorityPacketQueue.cleanExpired (PriorityRadio.priorityQueue st) w)
        as [[q1 w1] | ] eqn:Hclean; [ | discriminate].
      change (millis w1) with (u32 (clock w1 (ticks w1)), snd (millis w1)) in Hrun.
      cbv beta iota in Hrun.
      apply prio_loop_cycle in Hrun.
      destruct (prio_cycle_sent_counts M G _ _ _ _ _ _ _ Hrun) as [Hc Hl].
      cbn [PriorityRadio.metrics PriorityRadio.with_queue] in Hc, Hl.
      split; [ | exact Hl].
      rewrite Z.sub_0_r in Hc.
      set (x := PriorityRadio.highPriorityCount (PriorityRadio.metrics st')
                + PriorityRadio.normalPriorityCount (PriorityRadio.metrics st')) in *.
      replace x with ((x - n') + n') by ring.
      rewrite <- u32_add_u32_l, Hc, u32_add_u32_l. reflexivity.
  - intros cfg p st w Hl He Hc. unfold PriorityRadio.send. rewrite Hl, He. cbn [andb].
    destruct (isOperationAllowed_logs cfg w) as (_ & _ & C).
    destruct (isOperationAllowed cfg w) as [allowed w1]. cbn [fst snd] in *. subst allowed.
    cbn [negb].
    destruct (lora_window_mode cfg).
    + do 3 eexists. split; [reflexivity | ].
      split; [intros _; cbn; rewrite ?C', ?C; split; reflexivity | intros Hx; exfalso; apply Hx; reflexivity].
    + destruct (prio_enqueue_logs (Some p) (PriorityRadio.priorityQueue st) w1)
        as (_ & _ & C').
      destruct (PriorityPacketQueue.enqueue (Some p) (PriorityRadio.priorityQueue st) w1)
        as [[ok q'] w2].
      cbn [snd] in *. destruct ok; cbn [negb].
      * do 3 eexists. split; [reflexivity | ].
        split; [discriminate | intros _; cbn; rewrite ?C', ?C; split; reflexivity].
      * do 3 eexists. split; [reflexivity | ].
        split; [intros _; cbn; rewrite ?C', ?C; split; reflexivity | intros Hx; exfalso; apply Hx; reflexivity].
    + do 3 eexists. split; [reflexivity | ].
      split; [intros _; cbn; rewrite ?C', ?C; split; reflexivity | intros Hx; exfalso; apply Hx; reflexivity].
    + do 3 eexists. split; [reflexivity | ].
      split; [discriminate | intros _; split; [reflexivity | exact C] ].
  - intros st w. unfold PriorityRadio.clearPacketQueue.
    destruct (prio_clear_spec (PriorityRadio.priorityQueue st) w)
      as (l' & released & Hrun & Hl & _).
    rewrite Hrun. do 2 eexists. split; [reflexivity | ].
    split; [reflexivity | ].
    split; [ | split; reflexivity].
    unfold PriorityRadio.getQueueSize, PriorityPacketQueue.size, pq_size.
    cbn [PriorityRadio.priorityQueue PriorityRadio.with_metrics PriorityRadio.with_queue
         PriorityPacketQueue.packets PriorityPacketQueue.with_packets].
    rewrite Hl. reflexivity.
Qed.

(** X23 at 20:00 under the window 09:00-17:00 in drop mode: the packet is
    released and one drop is counted. *)
Lemma priority_metrics_account_witness :
  exists r st' w',
    PriorityRadio.send (PQ := packetListPQ) 2 0 (fun _ => 1)
      (day_lora DROP_PACKETS) (test_packet 1) prio_three_queued (world_at (millis_at 20 0))
      = Some (r, st', w') /\
    (r = ERRNO_NO_RADIO ->
     PriorityRadio.metrics st' = PriorityRadio.count_drop (PriorityRadio.metrics prio_three_queued) /\
     pool_released w' = Some (test_packet 1) :: []).
Proof.
  destruct (proj1 (proj2 (priority_metrics_account packetListPQ 2 0 (fun _ => 1)))
              (day_lora DROP_PACKETS) (test_packet 1) prio_three_queued
              (world_at (millis_at 20 0)) eq_refl eq_refl eq_refl)
    as (r & st' & w' & Hrun & Hdrop & _).
  exists r, st', w'. split; [exact Hrun | exact Hdrop].
Defined.

(** ** The drain of RadioInterfaceTime.cpp *)

Lemma inline_send_open_none : forall fuel cfg p st w,
  (forall n, allowed_at cfg (clock w n) = true) ->
  InlineRadio.send fuel cfg p st w = None.
Proof.
  intros fuel cfg p st w Hopen.
  destruct (InlineRadio.send fuel cfg p st w) as [[[r st'] w'] | ] eqn:H; [ | reflexivity].
  destruct (proj1 (inline_calls_frame fuel) cfg p st w r st' w' H)
    as (_ & _ & n & _ & Hclosed).
  rewrite Hopen in Hclosed. discriminate.
Qed.

Lemma filter_none_expired : forall (A : Type) (f : A -> bool) l,
  forallb f l = true ->
  filter (fun x => negb (f x)) l = [] /\ filter f l = l.
Proof.
  intros A f l. induction l as [ | x rest IH]; intros H; [split; reflexivity | ].
  cbn [forallb] in H. apply andb_true_iff in H. destruct H as [Hx Hrest].
  destruct (IH Hrest) as [E1 E2]. cbn [filter]. rewrite Hx. cbn [negb].
  rewrite E1, E2. split; reflexivity.
Qed.

Lemma filter_some_waiting : forall (A : Type) (f : A -> bool) l,
  forallb f l = false ->
  exists x rest, filter (fun x => negb (f x)) l = x :: rest.
Proof.
  intros A f l. induction l as [ | x rest IH]; intros H; [discriminate | ].
  cbn [forallb] in H. cbn [filter]. destruct (f x) eqn:Hx; cbn [negb].
  - cbn [andb] in H. exact (IH H).
  - eexists; eexists; reflexivity.
Qed.

Lemma inline_clean_reading : forall cfg st w,
  has_lora cfg = true -> time_window_enabled cfg = true ->
  let old := inline_expired (u32 (clock w (ticks w))) (window_packet_expire_secs cfg) in
  InlineRadio.cleanExpiredPackets cfg st w
  = (InlineRadio.mk (filter (fun it => negb (old it)) (InlineRadio.packetQueue st)),
     release_all (map InlineRadio.packet (filter old (InlineRadio.packetQueue st)))
                 (snd (millis w))).
Proof.
  intros cfg st w Hl He. unfold InlineRadio.cleanExpiredPackets. rewrite Hl, He.
  cbn [negb orb]. cbv beta iota zeta delta [millis]. rewrite inline_clean_loop_spec.
  reflexivity.
Qed.

(** X24. The drain of RadioInterfaceTime.cpp never delivers a queued
    packet.  A call of [processQueuedPackets] that returns has attempted no
    transmission and handed nothing to the driver.  With the feature off it
    returns at once and touches nothing; with the window closed at its
    reading of the clock it returns with the vector as it was.  With the
    window open at every reading, it evicts the expired entries and then
    sends the first entry that is left through [send], which does not
    return: the drain returns only when every entry has expired, the vector
    then being empty and every packet released, and it returns at no depth
    of calls while an entry is still within its expiry. *)
Theorem inline_drain_never_delivers :
  (forall fuel cfg st w st' w',
     InlineRadio.processQueuedPackets fuel cfg st w = Some (st', w') ->
     attempts w' = attempts w /\ handed_over w' = handed_over w)
  /\
  (forall fuel cfg st w,
     has_lora cfg && time_window_enabled cfg = false ->
     InlineRadio.processQueuedPackets fuel cfg st w = Some (st, w))
  /\
  (forall fuel cfg st w,
     has_lora cfg = true -> time_window_enabled cfg = true ->
     fst (isOperationAllowed cfg w) = false ->
     InlineRadio.processQueuedPackets fuel cfg st w = Some (st, snd (millis w)))
  /\
  (forall fuel cfg st w,
     has_lora cfg = true -> time_window_enabled cfg = true ->
     (forall n, allowed_at cfg (clock w n) = true) ->
     let old := inline_expired (u32 (clock w (S (ticks w))))
                               (window_packet_expire_secs cfg) in
     (forallb old (InlineRadio.packetQueue st) = false ->
      InlineRadio.processQueuedPackets fuel cfg st w = None) /\
     (forallb old (InlineRadio.packetQueue st) = true ->
      exists w',
        InlineRadio.processQueuedPackets (S fuel) cfg st w = Some (InlineRadio.mk [], w') /\
        pool_released w'
          = rev (map InlineRadio.packet (InlineRadio.packetQueue st)) ++ pool_released w)).
Proof.
  split; [ | split; [ | split] ].
  - intros fuel cfg st w st' w' H.
    destruct (proj1 (proj2 (inline_calls_frame fuel)) cfg st w st' w' H) as (A & B & _ & _).
    split; assumption.
  - intros fuel cfg st w Hoff. apply andb_false_iff in Hoff.
    destruct fuel; cbn [InlineRadio.processQueuedPackets];
      destruct Hoff as [-> | ->]; cbn [negb orb]; rewrite ?orb_true_r; reflexivity.
  - intros fuel cfg st w Hl He Hc.
    rewrite (isOperationAllowed_reading cfg w Hl He) in Hc. cbn [fst] in Hc.
    destruct fuel; cbn [InlineRadio.processQueuedPackets]; rewrite Hl, He; cbn [negb orb];
      rewrite (isOperationAllowed_reading cfg w Hl He), Hc; reflexivity.
  - intros fuel cfg st w Hl He Hopen old.
    assert (Hstart : forall f,
              InlineRadio.processQueuedPackets f cfg st w
              = let '(st1, w2) := InlineRadio.cleanExpiredPackets cfg st (snd (millis w)) in
                match f with
                | O => None
                | S f' => InlineRadio.processQueuedPackets_loop f' cfg st1 w2
                end).
    { intros f. destruct f; cbn [InlineRadio.processQueuedPackets]; rewrite Hl, He;
        cbn [negb orb]; rewrite (isOperationAllowed_reading cfg w Hl He), Hopen;
        reflexivity. }
    pose proof (inline_clean_reading cfg st (snd (millis w)) Hl He) as Hclean.
    cbn zeta in Hclean.
    change (clock (snd (millis w)) (ticks (snd (millis w)))) with (clock w (S (ticks w)))
      in Hclean.
    fold old in Hclean.
    split; intros Hall.
    + rewrite Hstart, Hclean.
      destruct (filter_some_waiting _ old _ Hall) as (qp & rest & Hq). rewrite Hq.
      destruct fuel as [ | [ | f] ]; [reflexivity | reflexivity | ].
      cbn [InlineRadio.processQueuedPackets_loop InlineRadio.packetQueue].
      rewrite inline_send_open_none; [reflexivity | ].
      intros n.
      match goal with |- context [release_all ?ps ?w0] =>
        destruct (release_all_frame ps w0) as (-> & _) end.
      exact (Hopen n).
    + rewrite Hstart, Hclean.
      destruct (filter_none_expired _ old _ Hall) as (E1 & E2). rewrite E1, E2.
      eexists. split.
      * destruct fuel; reflexivity.
      * rewrite release_all_pool. reflexivity.
Qed.

(** X24 at 12:00 under the window 09:00-17:00, with one fresh packet in the
    vector: no depth of calls lets the drain return. *)
Lemma inline_drain_never_delivers_witness :
  InlineRadio.processQueuedPackets 50%nat (day_lora QUEUE_PACKETS)
    (InlineRadio.mk [InlineRadio.mkEntry (Some (test_packet 1)) (millis_at 12 0)])
    (world_at (millis_at 12 0)) = None.
Proof.
  refine (proj1 (proj2 (proj2 (proj2 inline_drain_never_delivers)) 50%nat
                   (day_lora QUEUE_PACKETS) _ (world_at (millis_at 12 0))
                   eq_refl eq_refl _) _).
  - intros n. reflexivity.
  - reflexivity.
Defined.

(** ** The average and the maximum of the waiting times *)

Lemma avg_kept_refl : forall size s, avg_kept 0 size s size s.
Proof. intros size s H _. split; [exact H | cbn; lia]. Qed.

Lemma avg_kept_trans : forall a b x s y s' z s'',
  avg_kept a x s y s' -> avg_kept b y s' z s'' -> avg_kept (a + b) x s z s''.
Proof.
  intros a b x s y s' z s'' H1 H2 Hc Hb. rewrite Nat2Z.inj_add in Hb.
  destruct (H1 Hc) as [Hc' Hle]; [lia | ].
  destruct (H2 Hc') as [Hc'' Hle']; [lia | ].
  split; [exact Hc'' | rewrite Nat2Z.inj_add; lia].
Qed.

Lemma avg_kept_more : forall a b x s y s',
  (a <= b)%nat -> avg_kept a x s y s' -> avg_kept b x s y s'.
Proof.
  intros a b x s y s' Hab H Hc Hb.
  destruct (H Hc) as [Hc' Hle]; [lia | ]. split; [exact Hc' | lia].
Qed.

Lemma avg_kept_accept : forall size s,
  avg_kept 1 size s (size + 1) (count_queued s).
Proof.
  intros size s (Hs & Hq & Hm & Ht) Hb. change (Z.of_nat 1) with 1 in *.
  unfold avg_consistent, count_queued.
  cbn [totalQueued totalQueueTime maxQueueTime].
  rewrite u32_small by lia.
  replace (totalQueued s + 1 - (size + 1)) with (totalQueued s - size) by ring.
  repeat split; lia.
Qed.

Lemma avg_kept_overflow : forall size s, avg_kept 0 size s size (count_overflow s).
Proof. intros size s H _. split; [exact H | cbn; lia]. Qed.

Lemma avg_kept_leave : forall size s queueTime,
  0 <= queueTime -> 1 <= size ->
  avg_kept 0 size s (size - 1) (count_queue_time queueTime s).
Proof.
  intros size s queueTime Hqt Hsize (Hs & Hq & Hm & Ht) _.
  unfold avg_consistent, count_queue_time.
  cbn [totalQueued totalQueueTime maxQueueTime].
  assert (Hu : 0 <= u32 (totalQueueTime s + queueTime) <= totalQueueTime s + queueTime).
  { split; [apply u32_range | ]. unfold u32. apply Z.mod_le; lia. }
  assert (Hmax : (totalQueued s - size) * maxQueueTime s
                 <= (totalQueued s - size) * Z.max (maxQueueTime s) queueTime).
  { apply Z.mul_le_mono_nonneg_l; lia. }
  replace (totalQueued s - (size - 1)) with (totalQueued s - size + 1) by ring.
  rewrite Z.mul_add_distr_r, Z.mul_1_l.
  repeat split; lia.
Qed.

Lemma avg_kept_shrink : forall size s size' s',
  0 <= size' <= size ->
  totalQueued s' = totalQueued s -> totalQueueTime s' = totalQueueTime s ->
  maxQueueTime s' = maxQueueTime s ->
  avg_kept 0 size s size' s'.
Proof.
  intros size s size' s' Hsize Eq Et Em (Hs & Hq & Hm & Ht) _.
  unfold avg_consistent. rewrite Eq, Et, Em.
  assert (Hmul : (totalQueued s - size) * maxQueueTime s
                 <= (totalQueued s - size') * maxQueueTime s).
  { apply Z.mul_le_mono_nonneg_r; lia. }
  repeat split; lia.
Qed.

Lemma avg_consistent_average : forall size s,
  avg_consistent size s ->
  0 <= (if totalQueued s =? 0 then 0 else totalQueueTime s / totalQueued s)
    <= maxQueueTime s.
Proof.
  intros size s (Hs & Hq & Hm & Ht).
  destruct (totalQueued s =? 0) eqn:E; [lia | ].
  apply Z.eqb_neq in E.
  assert (Hpos : 0 < totalQueued s) by lia.
  split.
  - apply Z.div_pos; lia.
  - apply Z.div_le_upper_bound; [exact Hpos | ].
    assert (Hmul : (totalQueued s - size) * maxQueueTime s
                   <= totalQueued s * maxQueueTime s).
    { apply Z.mul_le_mono_nonneg_r; lia. }
    lia.
Qed.

Lemma iter_count_expired_kept : forall n s,
  totalQueued (Nat.iter n count_expired s) = totalQueued s /\
  totalQueueTime (Nat.iter n count_expired s) = totalQueueTime s /\
  maxQueueTime (Nat.iter n count_expired s) = maxQueueTime s.
Proof.
  induction n as [ | n IH]; intros s; [repeat split | ].
  cbn [Nat.iter]. destruct (IH s) as (A & B & C).
  split; [exact A | split; [exact B | exact C] ].
Qed.

Lemma fifo_avg_enqueue : forall p q w,
  fifo_avg_kept 1 q (snd (fst (PacketQueue.enqueue p q w))).
Proof.
  intros p q w. unfold fifo_avg_kept.
  destruct (Z_lt_ge_dec (PacketQueue.size q) (PacketQueue.maxQueueSize q)) as [Hroom | Hfull].
  - rewrite (fifo_enqueue_room p q w Hroom). cbn [fst snd].
    match goal with |- avg_kept _ _ _ (PacketQueue.size ?q1) _ =>
      replace (PacketQueue.size q1) with (PacketQueue.size q + 1) end.
    + apply avg_kept_accept.
    + unfold PacketQueue.size, PacketQueue.with_stats, PacketQueue.with_packets.
      cbn [PacketQueue.packets]. rewrite length_app. cbn [length]. lia.
  - rewrite (fifo_enqueue_full p q w Hfull). cbn [fst snd].
    eapply avg_kept_more; [ | apply avg_kept_overflow]. lia.
Qed.

Lemma fifo_avg_dequeue : forall q w,
  fifo_avg_kept 0 q (snd (fst (PacketQueue.dequeue q w))).
Proof.
  intros q w. unfold fifo_avg_kept.
  destruct (PacketQueue.packets q) as [ | front rest] eqn:Hp.
  - unfold PacketQueue.dequeue. rewrite Hp. cbn [fst snd]. apply avg_kept_refl.
  - rewrite (fifo_dequeue_cons q w front rest Hp). cbn [fst snd].
    match goal with |- avg_kept _ _ _ (PacketQueue.size ?q1) _ =>
      replace (PacketQueue.size q1) with (PacketQueue.size q - 1)
        by (unfold PacketQueue.size, PacketQueue.with_packets; cbn [PacketQueue.packets];
            rewrite Hp; cbn [length]; lia) end.
    apply avg_kept_leave.
    + apply Z.div_pos; [apply u32_range | lia].
    + unfold PacketQueue.size. rewrite Hp. cbn [length]. lia.
Qed.

Lemma fifo_avg_cleanExpired : forall q w,
  fifo_avg_kept 0 q (fst (PacketQueue.cleanExpired q w)).
Proof.
  intros q w. unfold fifo_avg_kept. rewrite fifo_cleanExpired_spec. cbn [fst].
  unfold PacketQueue.size, PacketQueue.with_stats, PacketQueue.with_packets.
  cbn [PacketQueue.packets PacketQueue.stats].
  match goal with |- context [Nat.iter ?n count_expired ?s] =>
    destruct (iter_count_expired_kept n s) as (Eq & Et & Em) end.
  apply avg_kept_shrink; try assumption.
  split; [lia | ]. apply inj_le. apply filter_length_le.
Qed.

Lemma fifo_avg_clear : forall q w,
  fifo_avg_kept 0 q (fst (PacketQueue.clear q w)).
Proof.
  intros q w. unfold fifo_avg_kept. rewrite fifo_clear_spec. cbn [fst].
  apply avg_kept_shrink; try reflexivity.
  unfold PacketQueue.size, PacketQueue.with_packets. cbn [PacketQueue.packets length]. lia.
Qed.

Lemma fifo_avg_refl : forall q, fifo_avg_kept 0 q q.
Proof. intros q. apply avg_kept_refl. Qed.

Lemma fifo_avg_trans : forall a b q1 q2 q3,
  fifo_avg_kept a q1 q2 -> fifo_avg_kept b q2 q3 -> fifo_avg_kept (a + b) q1 q3.
Proof. intros a b q1 q2 q3. apply avg_kept_trans. Qed.

Lemma fifo_avg_more : forall a b q q',
  (a <= b)%nat -> fifo_avg_kept a q q' -> fifo_avg_kept b q q'.
Proof. intros a b q q'. apply avg_kept_more. Qed.

(** One drain cycle accepts at most one packet: the re-enqueue of the
    packet whose transmission failed, after which the loop is left. *)
Lemma fifo_cycle_avg : forall dis q w q' w',
  fifo_cycle dis q w q' w' -> fifo_avg_kept 1 q q'.
Proof.
  intros dis q w q' w' H.
  induction H as [ q w He
                 | q w q1 w1 q' w' He Hd Hc IH
                 | q w p q1 w1 w2 q' w' He Hd Hs Hc IH
                 | q w p q1 w1 r w2 q2 w3 He Hd Hs Hr Henq
                 | q w p q1 w1 r w2 q2 w3 He Hd Hs Hr Henq ].
  - apply (fifo_avg_more 0 1); [lia | apply fifo_avg_refl].
  - pose proof (fifo_avg_dequeue q w) as D. rewrite Hd in D.
    exact (fifo_avg_trans 0 1 _ _ _ D IH).
  - pose proof (fifo_avg_dequeue q w) as D. rewrite Hd in D.
    exact (fifo_avg_trans 0 1 _ _ _ D IH).
  - pose proof (fifo_avg_dequeue q w) as D. rewrite Hd in D.
    pose proof (fifo_avg_enqueue (Some p) q1 w2) as E. rewrite Henq in E.
    exact (fifo_avg_trans 0 1 _ _ _ D E).
  - pose proof (fifo_avg_dequeue q w) as D. rewrite Hd in D.
    pose proof (fifo_avg_enqueue (Some p) q1 w2) as E. rewrite Henq in E.
    exact (fifo_avg_trans 0 1 _ _ _ D E).
Qed.

Lemma fifo_drain_avg : forall cfg st w st' w',
  FifoRadio.processQueuedPackets cfg st w = Some (st', w') ->
  fifo_avg_kept 1 (FifoRadio.packetQueue st) (FifoRadio.packetQueue st').
Proof.
  intros cfg st w st' w' H. unfold FifoRadio.processQueuedPackets in H.
  destruct (negb (has_lora cfg) || negb (time_window_enabled cfg)).
  - inversion H; subst. apply (fifo_avg_more 0 1); [lia | apply fifo_avg_refl].
  - pose proof (fifo_avg_cleanExpired (FifoRadio.packetQueue st) w) as C.
    destruct (PacketQueue.cleanExpired (FifoRadio.packetQueue st) w) as [q1 w1].
    cbn [fst] in C.
    destruct (FifoRadio.processQueuedPackets_loop _ _ q1 w1) as [[q2 w2] | ] eqn:Hloop;
      [ | discriminate].
    inversion H; subst. cbn [FifoRadio.packetQueue FifoRadio.with_queue].
    apply (fifo_avg_trans 0 1 _ _ _ C).
    eapply fifo_cycle_avg. eapply fifo_loop_cycle. exact Hloop.
Qed.

Lemma fifo_send_avg : forall cfg p st w r st' w',
  FifoRadio.send cfg p st w = Some (r, st', w') ->
  fifo_avg_kept 1 (FifoRadio.packetQueue st) (FifoRadio.packetQueue st').
Proof.
  intros cfg p st w r st' w' H. unfold FifoRadio.send in H.
  destruct (if has_lora cfg && time_window_enabled cfg
            then let '(allowed, w1) := isOperationAllowed cfg w in (negb allowed, w1)
            else (false, w)) as [outside w1].
  destruct outside.
  - destruct (lora_window_mode cfg).
    + inversion H; subst. apply (fifo_avg_more 0 1); [lia | apply fifo_avg_refl].
    + pose proof (fifo_avg_enqueue (Some p) (FifoRadio.packetQueue st) w1) as E.
      destruct (PacketQueue.enqueue (Some p) (FifoRadio.packetQueue st) w1) as [[ok q'] w2].
      cbn [fst snd] in E. destruct ok; cbn [negb] in H; inversion H; subst; exact E.
    + inversion H; subst. apply (fifo_avg_more 0 1); [lia | apply fifo_avg_refl].
    + inversion H; subst. apply (fifo_avg_more 0 1); [lia | apply fifo_avg_refl].
  - destruct (FifoRadio.processQueuedPackets cfg st w1) as [[st2 w2] | ] eqn:Hd;
      [ | discriminate].
    destruct (sendPacket (FifoRadio.disabled st2) p w2) as [r' w3].
    inversion H; subst. eapply fifo_drain_avg. exact Hd.
Qed.

Lemma fifo_step_avg : forall op st w st' w',
  fifo_step op st w = Some (st', w') ->
  fifo_avg_kept 1 (FifoRadio.packetQueue st) (FifoRadio.packetQueue st').
Proof.
  intros op st w st' w' H. destruct op as [p | | | | cfg | cfg p]; cbn [fifo_step] in H.
  - pose proof (fifo_avg_enqueue p (FifoRadio.packetQueue st) w) as E.
    destruct (PacketQueue.enqueue p (FifoRadio.packetQueue st) w) as [[ok q] w1].
    inversion H; subst. exact E.
  - pose proof (fifo_avg_dequeue (FifoRadio.packetQueue st) w) as E.
    destruct (PacketQueue.dequeue (FifoRadio.packetQueue st) w) as [[pk q] w1].
    inversion H; subst. apply (fifo_avg_more 0 1); [lia | exact E].
  - pose proof (fifo_avg_cleanExpired (FifoRadio.packetQueue st) w) as E.
    destruct (PacketQueue.cleanExpired (FifoRadio.packetQueue st) w) as [q w1].
    inversion H; subst. apply (fifo_avg_more 0 1); [lia | exact E].
  - unfold FifoRadio.clearPacketQueue in H.
    pose proof (fifo_avg_clear (FifoRadio.packetQueue st) w) as E.
    destruct (PacketQueue.clear (FifoRadio.packetQueue st) w) as [q w1].
    inversion H; subst. apply (fifo_avg_more 0 1); [lia | exact E].
  - eapply fifo_drain_avg. exact H.
  - destruct (FifoRadio.send cfg p st w) as [[[r st2] w2] | ] eqn:Hs; [ | discriminate].
    inversion H; subst. eapply fifo_send_avg. exact Hs.
Qed.

Lemma fifo_run_avg : forall ops st w st' w',
  fifo_run ops st w = Some (st', w') ->
  fifo_avg_kept (length ops) (FifoRadio.packetQueue st) (FifoRadio.packetQueue st').
Proof.
  induction ops as [ | op rest IH]; intros st w st' w' H; cbn [fifo_run] in H.
  - inversion H; subst. apply fifo_avg_refl.
  - destruct (fifo_step op st w) as [[st1 w1] | ] eqn:Hstep; [ | discriminate].
    exact (fifo_avg_trans 1 (length rest) _ _ _
             (fifo_step_avg _ _ _ _ _ Hstep) (IH _ _ _ _ H)).
Qed.

Section PriorityAverage.
Context {PQ : StdPriorityQueue PriorityPacketQueue.QueuedPacket PriorityPacketQueue.less}.
Variable MAX_PACKETS_PER_CYCLE : Z.
Variable MIN_QUEUE_PROCESS_INTERVAL : Z.
Variable getLastPriority : PriorityPacketQueue.t -> Z.

Lemma prio_avg_refl : forall q : PriorityPacketQueue.t, prio_avg_kept 0 q q.
Proof. intros q. apply avg_kept_refl. Qed.

Lemma prio_avg_trans : forall a b (q1 q2 q3 : PriorityPacketQueue.t),
  prio_avg_kept a q1 q2 -> prio_avg_kept b q2 q3 -> prio_avg_kept (a + b) q1 q3.
Proof. intros a b q1 q2 q3. apply avg_kept_trans. Qed.

Lemma prio_avg_more : forall a b (q q' : PriorityPacketQueue.t),
  (a <= b)%nat -> prio_avg_kept a q q' -> prio_avg_kept b q q'.
Proof. intros a b q q'. apply avg_kept_more. Qed.

Lemma prio_avg_enqueue : forall p (q : PriorityPacketQueue.t) w,
  prio_avg_kept 1 q (snd (fst (PriorityPacketQueue.enqueue p q w))).
Proof.
  intros p q w. unfold prio_avg_kept.
  destruct (Z_lt_ge_dec (PriorityPacketQueue.size q) (PriorityPacketQueue.maxQueueSize q))
    as [Hroom | Hfull].
  - rewrite (prio_enqueue_room p q w Hroom). cbn [fst snd].
    match goal with |- avg_kept _ _ _ (PriorityPacketQueue.size ?q1) _ =>
      replace (PriorityPacketQueue.size q1) with (PriorityPacketQueue.size q + 1) end.
    + apply avg_kept_accept.
    + unfold PriorityPacketQueue.size, PriorityPacketQueue.with_stats,
        PriorityPacketQueue.with_packets.
      cbn [PriorityPacketQueue.packets]. rewrite pq_size_push. lia.
  - rewrite (prio_enqueue_full p q w Hfull). cbn [fst snd].
    eapply avg_kept_more; [ | apply avg_kept_overflow]. lia.
Qed.

Lemma prio_avg_dequeue : forall (q : PriorityPacketQueue.t) w,
  prio_avg_kept 0 q (snd (fst (PriorityPacketQueue.dequeue q w))).
Proof.
  intros q w. unfold prio_avg_kept.
  destruct (PriorityPacketQueue.empty q) eqn:He.
  - rewrite (prio_dequeue_empty q w He). cbn [fst snd]. apply avg_kept_refl.
  - destruct (prio_dequeue_max q w He) as (top & _ & _ & Hd & Hperm).
    rewrite Hd. cbn [fst snd].
    assert (Hsize : PriorityPacketQueue.size q
                    = Z.of_nat (pq_size (pq_pop (PriorityPacketQueue.packets q))) + 1).
    { unfold PriorityPacketQueue.size, pq_size.
      rewrite (Permutation_length Hperm). cbn [length]. lia. }
    match goal with |- avg_kept _ _ _ (PriorityPacketQueue.size ?q1) _ =>
      replace (PriorityPacketQueue.size q1) with (PriorityPacketQueue.size q - 1)
        by (rewrite Hsize; unfold PriorityPacketQueue.size, PriorityPacketQueue.with_packets;
            cbn [PriorityPacketQueue.packets]; lia) end.
    apply avg_kept_leave.
    + apply Z.div_pos; [apply u32_range | lia].
    + rewrite Hsize. lia.
Qed.

Lemma prio_avg_cleanExpired : forall (q : PriorityPacketQueue.t) w q' w',
  PriorityPacketQueue.cleanExpired q w = Some (q', w') -> prio_avg_kept 0 q q'.
Proof.
  intros q w q' w' H. unfold prio_avg_kept.
  destruct (prio_cleanExpired_spec q w) as (temp' & removed & Hc & _ & Hkept).
  rewrite Hc in H. inversion H; subst.
  unfold PriorityPacketQueue.size, PriorityPacketQueue.with_stats,
    PriorityPacketQueue.with_packets.
  cbn [PriorityPacketQueue.packets PriorityPacketQueue.stats].
  match goal with |- context [Nat.iter ?n count_expired ?s] =>
    destruct (iter_count_expired_kept n s) as (Eq & Et & Em) end.
  apply avg_kept_shrink; try assumption.
  split; [lia | ]. apply inj_le. unfold pq_size.
  rewrite (Permutation_length Hkept). apply filter_length_le.
Qed.

Lemma prio_avg_clear : forall (q : PriorityPacketQueue.t) w q' w',
  PriorityPacketQueue.clear q w = Some (q', w') -> prio_avg_kept 0 q q'.
Proof.
  intros q w q' w' H. unfold prio_avg_kept.
  destruct (prio_clear_spec q w) as (l' & released & Hc & Hnil & _).
  rewrite Hc in H. inversion H; subst.
  apply avg_kept_shrink; try reflexivity.
  unfold PriorityPacketQueue.size, PriorityPacketQueue.with_packets, pq_size.
  cbn [PriorityPacketQueue.packets]. rewrite Hnil. cbn [length]. lia.
Qed.

Lemma prio_cycle_avg : forall startTime st n w st' n' w',
  prio_cycle MAX_PACKETS_PER_CYCLE getLastPriority startTime st n w st' n' w' ->
  prio_avg_kept 1 (PriorityRadio.priorityQueue st) (PriorityRadio.priorityQueue st').
Proof.
  intros startTime st n w st' n' w' H.
  induction H as [ st n w He
                 | st n w He Ht
                 | st n w He Ht Hn
                 | st n w q1 w1 st' n' w' He Ht Hn Hd Hc IH
                 | st n w p q1 w1 w2 st' n' w' He Ht Hn Hd Hs Hc IH
                 | st n w p q1 w1 r w2 q2 w3 He Ht Hn Hd Hs Hr Henq
                 | st n w p q1 w1 r w2 q2 w3 He Ht Hn Hd Hs Hr Henq ];
    try (apply (prio_avg_more 0 1); [lia | apply prio_avg_refl]);
    pose proof (prio_avg_dequeue (PriorityRadio.priorityQueue st) (snd (millis w))) as D;
    rewrite Hd in D; cbn [fst snd] in D.
  - exact (prio_avg_trans 0 1 _ _ _ D IH).
  - exact (prio_avg_trans 0 1 _ _ _ D IH).
  - pose proof (prio_avg_enqueue (Some p) q1 w2) as E. rewrite Henq in E.
    exact (prio_avg_trans 0 1 _ _ _ D E).
  - pose proof (prio_avg_enqueue (Some p) q1 w2) as E. rewrite Henq in E.
    exact (prio_avg_trans 0 1 _ _ _ D E).
Qed.

Lemma prio_drain_avg : forall cfg st w st' n' w',
  PriorityRadio.processQueuedPackets MAX_PACKETS_PER_CYCLE getLastPriority cfg st w
    = Some (st', n', w') ->
  prio_avg_kept 1 (PriorityRadio.priorityQueue st) (PriorityRadio.priorityQueue st').
Proof.
  intros cfg st w st' n' w' H. unfold PriorityRadio.processQueuedPackets in H.
  destruct (negb (has_lora cfg) || negb (time_window_enabled cfg)).
  - inversion H; subst. apply (prio_avg_more 0 1); [lia | apply prio_avg_refl].
  - destruct (PriorityPacketQueue.cleanExpired (PriorityRadio.priorityQueue st) w)
      as [[q1 w1] | ] eqn:Hclean; [ | discriminate].
    pose proof (prio_avg_cleanExpired _ _ _ _ Hclean) as C.
    change (millis w1) with (u32 (clock w1 (ticks w1)), snd (millis w1)) in H.
    cbv beta iota in H.
    apply prio_loop_cycle in H.
    apply (prio_avg_trans 0 1 _ _ _ C).
    apply (prio_cycle_avg _ _ _ _ _ _ _ H).
Qed.

Lemma prio_send_avg : forall cfg p st w r st' w',
  PriorityRadio.send MAX_PACKETS_PER_CYCLE MIN_QUEUE_PROCESS_INTERVAL getLastPriority
                     cfg p st w = Some (r, st', w') ->
  prio_avg_kept 1 (PriorityRadio.priorityQueue st) (PriorityRadio.priorityQueue st').
Proof.
  intros cfg p st w r st' w' H. unfold PriorityRadio.send in H.
  destruct (if has_lora cfg && time_window_enabled cfg
            then let '(allowed, w1) := isOperationAllowed cfg w in (negb allowed, w1)
            else (false, w)) as [outside w1].
  destruct outside.
  - destruct (lora_window_mode cfg).
    + inversion H; subst. apply (prio_avg_more 0 1); [lia | apply prio_avg_refl].
    + pose proof (prio_avg_enqueue (Some p) (PriorityRadio.priorityQueue st) w1) as E.
      destruct (PriorityPacketQueue.enqueue (Some p) (PriorityRadio.priorityQueue st) w1)
        as [[ok q'] w2].
      cbn [fst snd] in E. destruct ok; cbn [negb] in H; inversion H; subst; exact E.
    + inversion H; subst. apply (prio_avg_more 0 1); [lia | apply prio_avg_refl].
    + inversion H; subst. apply (prio_avg_more 0 1); [lia | apply prio_avg_refl].
  - destruct (millis w1) as [now w2].
    destruct (u32 (now - PriorityRadio.lastProcessTime (PriorityRadio.metrics st))
              >=? MIN_QUEUE_PROCESS_INTERVAL).
    + destruct (PriorityRadio.processQueuedPackets MAX_PACKETS_PER_CYCLE getLastPriority
                  cfg st w2) as [[[st2 n2] w3] | ] eqn:Hd; [ | discriminate].
      destruct (sendPacket _ p w3) as [r' w4].
      inversion H; subst.
      apply (prio_drain_avg _ _ _ _ _ _ Hd).
    + destruct (sendPacket (PriorityRadio.disabled st) p w2) as [r' w4].
      inversion H; subst. apply (prio_avg_more 0 1); [lia | apply prio_avg_refl].
Qed.

Lemma prio_step_avg : forall op st w st' w',
  prio_step MAX_PACKETS_PER_CYCLE MIN_QUEUE_PROCESS_INTERVAL getLastPriority op st w
    = Some (st', w') ->
  prio_avg_kept 1 (PriorityRadio.priorityQueue st) (PriorityRadio.priorityQueue st').
Proof.
  intros op st w st' w' H. destruct op as [p | | | | cfg | cfg p]; cbn [prio_step] in H.
  - pose proof (prio_avg_enqueue p (PriorityRadio.priorityQueue st) w) as E.
    destruct (PriorityPacketQueue.enqueue p (PriorityRadio.priorityQueue st) w) as [[ok q] w1].
    inversion H; subst. exact E.
  - pose proof (prio_avg_dequeue (PriorityRadio.priorityQueue st) w) as E.
    destruct (PriorityPacketQueue.dequeue (PriorityRadio.priorityQueue st) w) as [[pk q] w1].
    inversion H; subst. apply (prio_avg_more 0 1); [lia | exact E].
  - destruct (PriorityPacketQueue.cleanExpired (PriorityRadio.priorityQueue st) w)
      as [[q w1] | ] eqn:Hclean; [ | discriminate].
    inversion H; subst.
    apply (prio_avg_more 0 1); [lia | exact (prio_avg_cleanExpired _ _ _ _ Hclean)].
  - unfold PriorityRadio.clearPacketQueue in H.
    destruct (PriorityPacketQueue.clear (PriorityRadio.priorityQueue st) w)
      as [[q w1] | ] eqn:Hclear; [ | discriminate].
    inversion H; subst.
    apply (prio_avg_more 0 1); [lia | exact (prio_avg_clear _ _ _ _ Hclear)].
  - destruct (PriorityRadio.processQueuedPackets MAX_PACKETS_PER_CYCLE getLastPriority
                cfg st w) as [[[st2 n2] w2] | ] eqn:Hd; [ | discriminate].
    inversion H; subst. exact (prio_drain_avg _ _ _ _ _ _ Hd).
  - destruct (PriorityRadio.send MAX_PACKETS_PER_CYCLE MIN_QUEUE_PROCESS_INTERVAL
                getLastPriority cfg p st w) as [[[r st2] w2] | ] eqn:Hs; [ | discriminate].
    inversion H; subst. exact (prio_send_avg _ _ _ _ _ _ _ Hs).
Qed.

Lemma prio_run_avg : forall ops st w st' w',
  prio_run MAX_PACKETS_PER_CYCLE MIN_QUEUE_PROCESS_INTERVAL getLastPriority ops st w
    = Some (st', w') ->
  prio_avg_kept (length ops) (PriorityRadio.priorityQueue st) (PriorityRadio.priorityQueue st').
Proof.
  induction ops as [ | op rest IH]; intros st w st' w' H; cbn [prio_run] in H.
  - inversion H; subst. apply prio_avg_refl.
  - destruct (prio_step MAX_PACKETS_PER_CYCLE MIN_QUEUE_PROCESS_INTERVAL getLastPriority
                        op st w) as [[st1 w1] | ] eqn:Hstep; [ | discriminate].
    exact (prio_avg_trans 1 (length rest) _ _ _
             (prio_step_avg _ _ _ _ _ Hstep) (IH _ _ _ _ H)).
Qed.

End PriorityAverage.

(** X25. The average waiting time that is reported never exceeds the
    longest one.  Each operation of a scheduler accepts at most one packet
    into the queue (the drain only the packet it re-enqueues after a failed
    transmission), so from statistics in which the seconds summed are
    covered by [maxQueueTime] for each packet no longer held, any sequence
    of operations that cannot wrap [totalQueued] ends, and ends in such
    statistics: [getAvgQueueTime] lies between 0 and [maxQueueTime].  The
    statistics of the new queue are of this kind.  The average divides by
    the packets ever accepted, those still waiting, evicted or cleared
    included. *)
Theorem average_wait_at_most_max :
  (forall ops st w,
     avg_consistent (FifoRadio.getQueueSize st) (FifoRadio.getQueueStats st) ->
     totalQueued (FifoRadio.getQueueStats st) + Z.of_nat (length ops) < 2 ^ 32 ->
     exists st' w',
       fifo_run ops st w = Some (st', w') /\
       avg_consistent (FifoRadio.getQueueSize st') (FifoRadio.getQueueStats st') /\
       0 <= FifoRadio.getAvgQueueTime st' <= maxQueueTime (FifoRadio.getQueueStats st'))
  /\
  avg_consistent (FifoRadio.getQueueSize FifoRadio.init)
                 (FifoRadio.getQueueStats FifoRadio.init)
  /\
  (forall (PQ : StdPriorityQueue PriorityPacketQueue.QueuedPacket PriorityPacketQueue.less)
          MAX_PACKETS_PER_CYCLE MIN_QUEUE_PROCESS_INTERVAL getLastPriority ops st w,
     avg_consistent (PriorityRadio.getQueueSize st) (PriorityRadio.getQueueStats st) ->
     totalQueued (PriorityRadio.getQueueStats st) + Z.of_nat (length ops) < 2 ^ 32 ->
     exists st' w',
       prio_run MAX_PACKETS_PER_CYCLE MIN_QUEUE_PROCESS_INTERVAL getLastPriority ops st w
         = Some (st', w') /\
       avg_consistent (PriorityRadio.getQueueSize st') (PriorityRadio.getQueueStats st') /\
       0 <= PriorityRadioReport.avgQueueTime (PriorityRadioReport.getQueueMetrics st')
         <= maxQueueTime (PriorityRadio.getQueueStats st'))
  /\
  (forall (PQ : StdPriorityQueue PriorityPacketQueue.QueuedPacket PriorityPacketQueue.less),
     avg_consistent (PriorityRadio.getQueueSize PriorityRadio.init)
                    (PriorityRadio.getQueueStats PriorityRadio.init)).
Proof.
  split; [ | split; [ | split] ].
  - intros ops st w Hc Hb.
    destruct (fifo_run_total ops st w) as (st' & w' & Hrun).
    exists st', w'. split; [exact Hrun | ].
    destruct (fifo_run_avg ops st w st' w' Hrun Hc Hb) as [Hc' _].
    split; [exact Hc' | ].
    exact (avg_consistent_average _ _ Hc').
  - unfold avg_consistent. cbn. lia.
  - intros PQ M I G ops st w Hc Hb.
    destruct (prio_run_total M I G ops st w) as (st' & w' & Hrun).
    exists st', w'. split; [exact Hrun | ].
    destruct (prio_run_avg M I G ops st w st' w' Hrun Hc Hb) as [Hc' _].
    split; [exact Hc' | ].
    exact (avg_consistent_average _ _ Hc').
  - intros PQ. unfold avg_consistent, PriorityRadio.getQueueSize, PriorityRadio.getQueueStats,
      PriorityRadio.init, PriorityPacketQueue.size, PriorityPacketQueue.create.
    cbn [PriorityRadio.priorityQueue PriorityPacketQueue.packets PriorityPacketQueue.stats
         totalQueued totalQueueTime maxQueueTime].
    rewrite pq_size_new. cbn. lia.
Qed.

(** X25 on the new scheduler of RadioInterface.cpp with a clock that
    advances one second at each reading: two packets accepted, one
    dequeued, the queue evicted and drained. *)
Lemma average_wait_at_most_max_witness :
  exists st' w',
    fifo_run [FifoEnqueue (Some (test_packet 1)); FifoEnqueue (Some (test_packet 2));
              FifoDequeue; FifoCleanExpired; FifoDrain (day_lora QUEUE_PACKETS)]
             FifoRadio.init world_slow = Some (st', w') /\
    avg_consistent (FifoRadio.getQueueSize st') (FifoRadio.getQueueStats st') /\
    0 <= FifoRadio.getAvgQueueTime st' <= maxQueueTime (FifoRadio.getQueueStats st').
Proof.
  refine (proj1 average_wait_at_most_max _ FifoRadio.init world_slow _ _).
  - exact (proj1 (proj2 average_wait_at_most_max)).
  - vm_compute. reflexivity.
Defined.

(** ** The drain of RadioInterface.cpp on a driver that accepts *)

Lemma sendPacket_accepted : forall p w,
  driver_accepts w -> payloadlen p <> 0 ->
  sendPacket false p w
  = (ERRNO_OK, record_attempt p ERRNO_OK (snd (hand_over p w))).
Proof.
  intros p w [Hb Hs] Hlen. unfold sendPacket.
  destruct (payloadlen p =? 0) eqn:E1; [apply Z.eqb_eq in E1; contradiction | ].
  destruct (beginSending w p =? 0) eqn:E2;
    [apply Z.eqb_eq in E2; exfalso; exact (Hb p E2) | ].
  unfold hand_over. rewrite Hs. reflexivity.
Qed.

Lemma fifo_loop_delivers : forall l fuel q w,
  PacketQueue.packets q = l -> (length l <= fuel)%nat ->
  driver_accepts w ->
  (forall p, In p (fifo_packets_of l) -> payloadlen p <> 0) ->
  exists q' w',
    FifoRadio.processQueuedPackets_loop fuel false q w = Some (q', w') /\
    PacketQueue.packets q' = [] /\
    handed_over w' = rev (fifo_packets_of l) ++ handed_over w /\
    attempts w' = rev (map (fun p => (p, ERRNO_OK)) (fifo_packets_of l)) ++ attempts w /\
    pool_released w' = pool_released w /\
    ticks w' = (ticks w + length l)%nat.
Proof.
  induction l as [ | it rest IH]; intros fuel q w Hq Hfuel Hdrv Hlen.
  - exists q, w.
    assert (He : PacketQueue.empty q = true) by (unfold PacketQueue.empty; rewrite Hq; reflexivity).
    destruct fuel; cbn [FifoRadio.processQueuedPackets_loop]; rewrite He;
      (split; [reflexivity | ]); (split; [exact Hq | ]);
      cbn [fifo_packets_of flat_map rev map app length]; rewrite Nat.add_0_r;
      repeat split.
  - assert (He : PacketQueue.empty q = false)
      by (unfold PacketQueue.empty; rewrite Hq; reflexivity).
    destruct fuel as [ | fuel]; [cbn [length] in Hfuel; lia | ].
    cbn [FifoRadio.processQueuedPackets_loop]. rewrite He.
    rewrite (fifo_dequeue_cons q w it rest Hq).
    set (q1 := PacketQueue.with_packets rest _).
    assert (Hq1 : PacketQueue.packets q1 = rest) by reflexivity.
    assert (Hfuel1 : (length rest <= fuel)%nat) by (cbn [length] in Hfuel; lia).
    destruct (PacketQueue.packet it) as [p | ] eqn:Hp.
    + assert (Hplen : payloadlen p <> 0).
      { apply Hlen. unfold fifo_packets_of. cbn [flat_map]. rewrite Hp. left. reflexivity. }
      assert (Hdrv1 : driver_accepts (snd (millis w))) by exact Hdrv.
      rewrite (sendPacket_accepted p (snd (millis w)) Hdrv1 Hplen).
      cbn [ErrorCode_eqb negb].
      set (w2 := record_attempt p ERRNO_OK (snd (hand_over p (snd (millis w))))).
      assert (Hdrv2 : driver_accepts w2) by exact Hdrv.
      destruct (IH fuel q1 w2 Hq1 Hfuel1 Hdrv2) as (q' & w' & Hrun & Hempty & Hh & Ha & Hpool & Ht).
      { intros p' Hin. apply Hlen. unfold fifo_packets_of. cbn [flat_map]. rewrite Hp.
        right. exact Hin. }
      exists q', w'. split; [exact Hrun | ]. split; [exact Hempty | ].
      unfold fifo_packets_of in *. cbn [flat_map]. rewrite Hp.
      cbn [app rev map]. rewrite <- !app_assoc. cbn [app].
      rewrite Hh, Ha, Hpool, Ht. cbn [length].
      repeat split. cbn. lia.
    + assert (Hdrv1 : driver_accepts (snd (millis w))) by exact Hdrv.
      destruct (IH fuel q1 (snd (millis w)) Hq1 Hfuel1 Hdrv1)
        as (q' & w' & Hrun & Hempty & Hh & Ha & Hpool & Ht).
      { intros p' Hin. apply Hlen. unfold fifo_packets_of. cbn [flat_map]. rewrite Hp.
        exact Hin. }
      exists q', w'. split; [exact Hrun | ]. split; [exact Hempty | ].
      unfold fifo_packets_of in *. cbn [flat_map]. rewrite Hp. cbn [app].
      rewrite Hh, Ha, Hpool, Ht. cbn [length].
      repeat split. cbn. lia.
Qed.

(** X26. On a radio that is not disabled, with a driver that accepts every
    packet, one drain cycle of RadioInterface.cpp delivers the whole queue
    in the order of arrival.  The entries left by the eviction are handed
    to the driver one by one, first in first, each attempt succeeding; the
    queue ends empty; entries made from a null pointer are skipped; and the
    drain releases no packet it has handed over, the only releases being
    those of the eviction.  The packets need a payload that is not
    empty. *)
Theorem drain_delivers_in_order : forall cfg st w,
  has_lora cfg = true -> time_window_enabled cfg = true ->
  FifoRadio.disabled st = false ->
  driver_accepts w ->
  let kept := PacketQueue.packets (fst (PacketQueue.cleanExpired (FifoRadio.packetQueue st) w)) in
  (forall p, In p (fifo_packets_of kept) -> payloadlen p <> 0) ->
  exists st' w',
    FifoRadio.processQueuedPackets cfg st w = Some (st', w') /\
    FifoRadio.getQueueSize st' = 0 /\
    handed_over w' = rev (fifo_packets_of kept) ++ handed_over w /\
    attempts w' = rev (map (fun p => (p, ERRNO_OK)) (fifo_packets_of kept)) ++ attempts w /\
    pool_released w'
      = pool_released (snd (PacketQueue.cleanExpired (FifoRadio.packetQueue st) w)).
Proof.
  intros cfg st w Hl He Hdis Hdrv kept Hlen.
  unfold FifoRadio.processQueuedPackets. rewrite Hl, He, Hdis. cbn [negb orb].
  subst kept.
  destruct (fifo_cleanExpired_frame (FifoRadio.packetQueue st) w) as (_ & _ & _ & _ & A1 & _).
  pose proof (fifo_cleanExpired_spec (FifoRadio.packetQueue st) w) as Hspec.
  cbv zeta in Hspec.
  destruct (PacketQueue.cleanExpired (FifoRadio.packetQueue st) w) as [q1 w1] eqn:Hclean.
  cbn [fst snd] in *.
  assert (Hdrv1 : driver_accepts w1).
  { injection Hspec as _ Hw. rewrite Hw.
    match goal with |- driver_accepts (release_all ?ps ?w0) =>
      destruct (release_all_frame ps w0) as (_ & _ & Hb & Hs & _ & _) end.
    destruct Hdrv as [Db Ds]. split.
    - intros p. rewrite Hb. apply Db.
    - intros n p. rewrite Hs. apply Ds. }
  destruct (fifo_loop_delivers (PacketQueue.packets q1) (length (PacketQueue.packets q1))
              q1 w1 eq_refl (le_n _) Hdrv1 Hlen)
    as (q' & w' & Hrun & Hempty & Hh & Ha & Hpool & _).
  rewrite Hrun. exists (FifoRadio.with_queue q' st), w'.
  split; [reflexivity | ].
  split; [unfold FifoRadio.getQueueSize, PacketQueue.size;
          cbn [FifoRadio.packetQueue FifoRadio.with_queue]; rewrite Hempty; reflexivity | ].
  injection Hspec as _ Hw.
  split; [ | split; [rewrite Ha, A1; reflexivity | exact Hpool] ].
  rewrite Hh, Hw.
  match goal with |- context [release_all ?ps ?w0] =>
    destruct (release_all_frame ps w0) as (_ & _ & _ & _ & -> & _) end.
  reflexivity.
Qed.

(** X26 on the scheduler holding two fresh packets: both are handed to the
    driver, the first one first. *)
Lemma drain_delivers_in_order_witness :
  exists st' w',
    FifoRadio.processQueuedPackets (day_lora QUEUE_PACKETS) fifo_two_queued world_slow
      = Some (st', w') /\
    FifoRadio.getQueueSize st' = 0 /\
    handed_over w' = [test_packet 2; test_packet 1] /\
    attempts w' = [(test_packet 2, ERRNO_OK); (test_packet 1, ERRNO_OK)] /\
    pool_released w' = [].
Proof.
  refine (drain_delivers_in_order (day_lora QUEUE_PACKETS) fifo_two_queued world_slow
            eq_refl eq_refl eq_refl _ _).
  - split; [intros p; cbn; discriminate | intros n p; reflexivity].
  - intros p [<- | [<- | [] ] ]; cbn; discriminate.
Defined.

(** ** The order of transmission of the priority scheduler *)

Lemma StronglySorted_snoc : forall (A : Type) (R : A -> A -> Prop) l x,
  StronglySorted R l -> Forall (fun a => R a x) l -> StronglySorted R (l ++ [x]).
Proof.
  intros A R l x Hs. induction Hs as [ | a l Hs IH Ha]; intros Hx; cbn [app].
  - constructor; constructor.
  - inversion Hx as [ | a' l' Hax Hlx]; subst.
    constructor; [exact (IH Hlx) | ].
    apply Forall_app. split; [exact Ha | constructor; [exact Hax | constructor] ].
Qed.

Section PriorityTransmissionOrder.
Context {PQ : StdPriorityQueue PriorityPacketQueue.QueuedPacket PriorityPacketQueue.less}.
Variable MAX_PACKETS_PER_CYCLE : Z.
Variable getLastPriority : PriorityPacketQueue.t -> Z.

Lemma prio_scored_enqueue : forall p (q : PriorityPacketQueue.t) w,
  prio_scored q -> prio_scored (snd (fst (PriorityPacketQueue.enqueue p q w))).
Proof.
  intros p q w Hwf. unfold prio_scored in *.
  destruct (Z_lt_ge_dec (PriorityPacketQueue.size q) (PriorityPacketQueue.maxQueueSize q))
    as [Hroom | Hfull].
  - rewrite (prio_enqueue_room p q w Hroom).
    cbn [fst snd PriorityPacketQueue.packets PriorityPacketQueue.with_stats
         PriorityPacketQueue.with_packets].
    apply Forall_forall. intros e He.
    apply (Permutation_in _ (pq_push_elems _ _)) in He. destruct He as [<- | He].
    + reflexivity.
    + exact (proj1 (Forall_forall _ _) Hwf e He).
  - rewrite (prio_enqueue_full p q w Hfull). exact Hwf.
Qed.

Lemma prio_scored_cleanExpired : forall (q : PriorityPacketQueue.t) w q' w',
  PriorityPacketQueue.cleanExpired q w = Some (q', w') ->
  prio_scored q ->
  prio_scored q' /\
  (forall e, In e (pq_elems (PriorityPacketQueue.packets q')) ->
             In e (pq_elems (PriorityPacketQueue.packets q))) /\
  attempts w' = attempts w.
Proof.
  intros q w q' w' H Hwf.
  destruct (prio_cleanExpired_spec q w) as (temp' & removed & Hrun & _ & Hkept).
  rewrite Hrun in H. inversion H; subst.
  assert (Hsub : forall e, In e (pq_elems temp') ->
                           In e (pq_elems (PriorityPacketQueue.packets q))).
  { intros e He. apply (Permutation_in _ Hkept) in He. apply filter_In in He.
    exact (proj1 He). }
  split; [ | split].
  - unfold prio_scored in *.
    cbn [PriorityPacketQueue.packets PriorityPacketQueue.with_stats
         PriorityPacketQueue.with_packets].
    apply Forall_forall. intros e He.
    exact (proj1 (Forall_forall _ _) Hwf e (Hsub e He)).
  - exact Hsub.
  - match goal with |- context [release_all ?ps ?w0] =>
      destruct (release_all_frame ps w0) as (_ & _ & _ & _ & _ & ->) end.
    reflexivity.
Qed.

(** What a [dequeue] that is not on an empty queue leaves: the entry it
    took is one of the greatest stored score, the others stay. *)
Lemma prio_dequeue_took : forall (q : PriorityPacketQueue.t) w pk q1 w1,
  PriorityPacketQueue.empty q = false ->
  PriorityPacketQueue.dequeue q w = (pk, q1, w1) ->
  exists top,
    In top (pq_elems (PriorityPacketQueue.packets q)) /\
    PriorityPacketQueue.packet top = pk /\
    (forall y, In y (pq_elems (PriorityPacketQueue.packets q)) ->
               PriorityPacketQueue.priority y <= PriorityPacketQueue.priority top) /\
    (forall e, In e (pq_elems (PriorityPacketQueue.packets q1)) ->
               In e (pq_elems (PriorityPacketQueue.packets q))) /\
    attempts w1 = attempts w.
Proof.
  intros q w pk q1 w1 He Hd.
  destruct (prio_dequeue_max q w He) as (top & Hin & Hmax & Heq & Hperm).
  rewrite Heq in Hd. inversion Hd; subst.
  exists top. split; [exact Hin | ]. split; [reflexivity | ]. split; [exact Hmax | ].
  split; [ | reflexivity].
  intros e Hine. cbn [PriorityPacketQueue.packets PriorityPacketQueue.with_packets] in Hine.
  apply (Permutation_in _ (Permutation_sym Hperm)). right. exact Hine.
Qed.

Lemma prio_scored_sub : forall (q q1 : PriorityPacketQueue.t),
  prio_scored q ->
  (forall e, In e (pq_elems (PriorityPacketQueue.packets q1)) ->
             In e (pq_elems (PriorityPacketQueue.packets q))) ->
  prio_scored q1.
Proof.
  intros q q1 Hwf Hsub. unfold prio_scored in *. apply Forall_forall. intros e He.
  exact (proj1 (Forall_forall _ _) Hwf e (Hsub e He)).
Qed.

Lemma prio_cycle_by_score : forall startTime st n w st' n' w',
  prio_cycle MAX_PACKETS_PER_CYCLE getLastPriority startTime st n w st' n' w' ->
  prio_scored (PriorityRadio.priorityQueue st) ->
  exists new,
    attempts w' = new ++ attempts w /\
    StronglySorted (fun a b => PriorityPacketQueue.calculatePriority (Some (fst a))
                               <= PriorityPacketQueue.calculatePriority (Some (fst b))) new /\
    Forall (fun a => exists e,
              In e (pq_elems (PriorityPacketQueue.packets (PriorityRadio.priorityQueue st)))
              /\ PriorityPacketQueue.packet e = Some (fst a)) new /\
    prio_scored (PriorityRadio.priorityQueue st').
Proof.
  intros startTime st n w st' n' w' H.
  induction H as [ st n w He
                 | st n w He Ht
                 | st n w He Ht Hn
                 | st n w q1 w1 st' n' w' He Ht Hn Hd Hc IH
                 | st n w p q1 w1 w2 st' n' w' He Ht Hn Hd Hs Hc IH
                 | st n w p q1 w1 r w2 q2 w3 He Ht Hn Hd Hs Hr Henq
                 | st n w p q1 w1 r w2 q2 w3 He Ht Hn Hd Hs Hr Henq ];
    intros Hwf;
    try (exists []; split; [reflexivity | ];
         split; [constructor | split; [constructor | exact Hwf] ]);
    destruct (prio_dequeue_took _ _ _ _ _ He Hd) as (top & Hin & Hpk & Hmax & Hsub & Ha1);
    pose proof (prio_scored_sub _ q1 Hwf Hsub) as Hwf1;
    cbn [millis snd attempts] in Ha1.
  - destruct (IH Hwf1) as (new & Hnew & Hsorted & Hfrom & Hwf').
    exists new. split; [rewrite Hnew, Ha1; reflexivity | ].
    split; [exact Hsorted | ]. split; [ | exact Hwf'].
    eapply Forall_impl; [ | exact Hfrom].
    intros a (e & Hine & Hpe). exists e. split; [exact (Hsub e Hine) | exact Hpe].
  - destruct (IH Hwf1) as (new & Hnew & Hsorted & Hfrom & Hwf').
    pose proof (sendPacket_attempts (PriorityRadio.disabled st) p w1) as Ha2.
    rewrite Hs in Ha2. cbn [fst snd] in Ha2.
    exists (new ++ [(p, ERRNO_OK)]).
    split; [rewrite Hnew, Ha2, Ha1, <- app_assoc; reflexivity | ].
    split; [ | split; [ | exact Hwf'] ].
    + apply StronglySorted_snoc; [exact Hsorted | ].
      eapply Forall_impl; [ | exact Hfrom].
      intros a (e & Hine & Hpe). cbn [fst].
      cbn [PriorityRadio.priorityQueue PriorityRadio.with_metrics PriorityRadio.with_queue]
        in Hine.
      rewrite <- Hpe, <- Hpk.
      rewrite <- (proj1 (Forall_forall _ _) Hwf e (Hsub e Hine)).
      rewrite <- (proj1 (Forall_forall _ _) Hwf top Hin).
      apply Hmax. exact (Hsub e Hine).
    + apply Forall_app. split.
      * eapply Forall_impl; [ | exact Hfrom].
        intros a (e & Hine & Hpe). exists e. split; [ | exact Hpe].
        cbn [PriorityRadio.priorityQueue PriorityRadio.with_metrics PriorityRadio.with_queue]
          in Hine.
        exact (Hsub e Hine).
      * constructor; [ | constructor]. exists top. split; [exact Hin | exact Hpk].
  - pose proof (sendPacket_attempts (PriorityRadio.disabled st) p w1) as Ha2.
    rewrite Hs in Ha2. cbn [fst snd] in Ha2.
    pose proof (prio_enqueue_logs (Some p) q1 w2) as Ha3. rewrite Henq in Ha3.
    pose proof (prio_scored_enqueue (Some p) q1 w2 Hwf1) as Hwf2. rewrite Henq in Hwf2.
    cbn [fst snd] in Ha3, Hwf2.
    exists [(p, r)]. split; [ | split; [ | split] ].
    + cbn [app]. rewrite <- Ha1, <- Ha2. apply Ha3.
    + constructor; constructor.
    + constructor; [ | constructor]. exists top. split; [exact Hin | exact Hpk].
    + exact Hwf2.
  - pose proof (sendPacket_attempts (PriorityRadio.disabled st) p w1) as Ha2.
    rewrite Hs in Ha2. cbn [fst snd] in Ha2.
    pose proof (prio_enqueue_logs (Some p) q1 w2) as Ha3. rewrite Henq in Ha3.
    pose proof (prio_scored_enqueue (Some p) q1 w2 Hwf1) as Hwf2. rewrite Henq in Hwf2.
    cbn [fst snd] in Ha3, Hwf2.
    exists [(p, r)]. split; [ | split; [ | split] ].
    + cbn [app release attempts]. rewrite <- Ha1, <- Ha2. apply Ha3.
    + constructor; constructor.
    + constructor; [ | constructor]. exists top. split; [exact Hin | exact Hpk].
    + exact Hwf2.
Qed.

End PriorityTransmissionOrder.

(** X27. The drain of RadioInterfaceQueue.cpp transmits by score.  From a
    queue whose entries carry the score of their packet, one cycle of
    [processQueuedPackets] returns, and the packets it has tried, a failed
    last one included, were tried in non-increasing order of
    [calculatePriority], for any implementation of the container; each of
    them was in the queue before the cycle, and the queue it leaves is again
    one whose entries carry the score of their packet. *)
Theorem prio_drain_sends_by_score :
  forall (PQ : StdPriorityQueue PriorityPacketQueue.QueuedPacket PriorityPacketQueue.less)
         MAX_PACKETS_PER_CYCLE getLastPriority cfg st w,
  prio_scored (PriorityRadio.priorityQueue st) ->
  exists st' n' w' new,
    PriorityRadio.processQueuedPackets MAX_PACKETS_PER_CYCLE getLastPriority cfg st w
      = Some (st', n', w') /\
    attempts w' = new ++ attempts w /\
    StronglySorted (fun later earlier =>
                      PriorityPacketQueue.calculatePriority (Some (fst later))
                      <= PriorityPacketQueue.calculatePriority (Some (fst earlier))) new /\
    Forall (fun a => exists e,
              In e (pq_elems (PriorityPacketQueue.packets (PriorityRadio.priorityQueue st)))
              /\ PriorityPacketQueue.packet e = Some (fst a)) new /\
    prio_scored (PriorityRadio.priorityQueue st').
Proof.
  intros PQ M G cfg st w Hwf.
  destruct (prio_processQueuedPackets_total M G cfg st w) as (st' & n' & w' & Hrun).
  exists st', n', w'. pose proof Hrun as H.
  unfold PriorityRadio.processQueuedPackets in H.
  destruct (negb (has_lora cfg) || negb (time_window_enabled cfg)).
  - inversion H; subst. exists [].
    split; [exact Hrun | ]. split; [reflexivity | ].
    split; [constructor | split; [constructor | exact Hwf] ].
  - destruct (PriorityPacketQueue.cleanExpired (PriorityRadio.priorityQueue st) w)
      as [[q1 w1] | ] eqn:Hclean; [ | discriminate].
    destruct (prio_scored_cleanExpired _ _ _ _ Hclean Hwf) as (Hwf1 & Hsub & Ha1).
    change (millis w1) with (u32 (clock w1 (ticks w1)), snd (millis w1)) in H.
    cbv beta iota in H.
    apply prio_loop_cycle in H.
    destruct (prio_cycle_by_score M G _ _ _ _ _ _ _ H Hwf1)
      as (new & Hnew & Hsorted & Hfrom & Hwf').
    exists new. split; [exact Hrun | ].
    split; [rewrite Hnew; cbn [millis snd attempts]; rewrite Ha1; reflexivity | ].
    split; [exact Hsorted | ]. split; [ | exact Hwf'].
    eapply Forall_impl; [ | exact Hfrom].
    intros a (e & Hine & Hpe). exists e. split; [exact (Hsub e Hine) | exact Hpe].
Qed.

(** X27 on the scheduler holding three packets, with a budget of two
    packets for the cycle. *)
Lemma prio_drain_sends_by_score_witness :
  exists st' n' w' new,
    PriorityRadio.processQueuedPackets (PQ := packetListPQ) 2 (fun _ => 1)
      (day_lora QUEUE_PACKETS) prio_three_queued (world_at (millis_at 12 0))
      = Some (st', n', w') /\
    attempts w' = new ++ [] /\
    StronglySorted (fun later earlier =>
                      PriorityPacketQueue.calculatePriority (Some (fst later))
                      <= PriorityPacketQueue.calculatePriority (Some (fst earlier))) new.
Proof.
  destruct (prio_drain_sends_by_score packetListPQ 2 (fun _ => 1) (day_lora QUEUE_PACKETS)
              prio_three_queued (world_at (millis_at 12 0)))
    as (st' & n' & w' & new & Hrun & Ha & Hs & _).
  - repeat constructor.
  - exists st', n', w', new. split; [exact Hrun | split; [exact Ha | exact Hs] ].
Defined.

(** ** The range of the priority score *)

(** X28. The score that [calculatePriority] gives fits its [uint8_t] with
    room to spare: 0 for a null pointer and between 1 and 10 for a packet,
    so an entry made from a null pointer is below every packet in the order
    of the queue.  The emergency port does not put a packet first: an
    emergency report scores at least 5, a packet on any other port at most
    7, and a reliable position report that wants an acknowledgement scores
    above a plain emergency report.  Of the tiers only [RELIABLE] and [ACK]
    count: two packets that differ only in a tier other than these two,
    [MAX] included, score the same. *)
Theorem priority_score_range :
  PriorityPacketQueue.calculatePriority None = 0 /\
  (forall p, 1 <= PriorityPacketQueue.calculatePriority (Some p) <= 10) /\
  (forall p t t',
     PriorityPacketQueue.less (PriorityPacketQueue.QueuedPacket_new None t)
                              (PriorityPacketQueue.QueuedPacket_new (Some p) t') = true) /\
  (forall p, payload_variant p = payload_decoded PortNum_EMERGENCY_APP ->
             5 <= PriorityPacketQueue.calculatePriority (Some p)) /\
  (forall p, payload_variant p <> payload_decoded PortNum_EMERGENCY_APP ->
             PriorityPacketQueue.calculatePriority (Some p) <= 7) /\
  (forall i i' len len',
     PriorityPacketQueue.less
       (PriorityPacketQueue.QueuedPacket_new
          (Some (mkPacket i false Priority_DEFAULT (payload_decoded PortNum_EMERGENCY_APP) len)) 0)
       (PriorityPacketQueue.QueuedPacket_new
          (Some (mkPacket i' true Priority_RELIABLE (payload_decoded PortNum_POSITION_APP) len')) 0)
     = true) /\
  (forall p p',
     want_ack p = want_ack p' -> payload_variant p = payload_variant p' ->
     priority p <> Priority_RELIABLE -> priority p <> Priority_ACK ->
     priority p' <> Priority_RELIABLE -> priority p' <> Priority_ACK ->
     PriorityPacketQueue.calculatePriority (Some p)
     = PriorityPacketQueue.calculatePriority (Some p')).
Proof.
  split; [reflexivity | ].
  assert (Hrange : forall p, 1 <= PriorityPacketQueue.calculatePriority (Some p) <= 10).
  { intros p. rewrite calculatePriority_formula.
    destruct (want_ack p), (priority p), (payload_variant p) as [ | [ | | | k] | ]; lia. }
  split; [exact Hrange | ].
  split.
  { intros p t t'. unfold PriorityPacketQueue.less, PriorityPacketQueue.QueuedPacket_new.
    cbn [PriorityPacketQueue.priority]. apply Z.ltb_lt.
    change (PriorityPacketQueue.calculatePriority None) with 0.
    pose proof (Hrange p). lia. }
  split.
  { intros p Hp. rewrite calculatePriority_formula, Hp.
    destruct (want_ack p), (priority p); lia. }
  split.
  { intros p Hp. rewrite calculatePriority_formula.
    destruct (want_ack p), (priority p), (payload_variant p) as [ | [ | | | k] | ];
      try lia; contradiction. }
  split.
  { intros i i' len len'. reflexivity. }
  intros p p' Hack Hpv H1 H2 H3 H4. rewrite !calculatePriority_formula, Hack, Hpv.
  destruct (priority p), (priority p'); try reflexivity; contradiction.
Qed.
